(** * Munkres' assignment algorithm (hungarian): model and verification

    The solver of [2013-09-24-minimal-assignment.cpp] is embedded function
    by function.  Costs are [double] in the source, and the solver is given
    twice.  The first model computes with exact integers, so rounding, NaN
    and the infinities are outside it; [DBL_MAX] is the integer
    (2^53 - 1) * 2^971 that the C constant denotes.  Optimality and
    termination are proved of this model.  The module [IEEE] gives the
    phases that touch the costs a second time, on binary64 numbers.  What
    the solver does to marks, covers and path depends on the costs only
    through the tests against zero, so the invariant of the first model
    carries over to the second, and the properties that do not rest on the
    arithmetic are proved of both; where rounding or overflow decides, the
    second model is run.

    Armadillo's [at()] does no bound check: on the cost matrix, the mark
    matrix and the cover vectors an out-of-range read yields 0 and an
    out-of-range write is dropped.  Armadillo's [operator()] checks its
    indices and throws; the model returns [Raise] there.  The accesses
    [path.at(..)] of phase 5 are modelled with a check as well, so that the
    bound on the path length is a statement about the result.  Indices and
    counters ([unsigned int] and [int] in the source) are integers without
    wrap-around, and every [while] loop takes fuel: a loop that does not end
    returns [OutOfFuel] for every amount of fuel. *)

From Stdlib Require Import ZArith List Lia Bool Arith Permutation FinFun.
From Stdlib Require String.
From Stdlib Require Floats.PrimFloat Floats.SpecFloat Floats.FloatOps Floats.FloatAxioms.
Import ListNotations.
Import String.StringSyntax.
Open Scope Z_scope.
Abbreviation string := String.string.

(** ** Results of fallible code *)

Inductive res (A : Type) : Type :=
| Ok (a : A)
| Raise (msg : string)
| OutOfFuel.

Arguments Ok {A} a.
Arguments Raise {A} msg.
Arguments OutOfFuel {A}.

Definition bind {A B : Type} (m : res A) (k : A -> res B) : res B :=
  match m with
  | Ok a => k a
  | Raise msg => Raise msg
  | OutOfFuel => OutOfFuel
  end.

Notation "x <- m ;; k" := (bind m (fun x => k))
  (at level 61, m at next level, right associativity).
Notation "' p <- m ;; k" := (bind m (fun p => k))
  (at level 61, p pattern, m at next level, right associativity).

(** ** Dense vectors and matrices *)

Abbreviation vec := (list Z).
Abbreviation mat := (list (list Z)).

Definition DBL_MAX : Z := (2 ^ 53 - 1) * 2 ^ 971.

Open Scope string_scope.

Definition index_error : string := "Mat::operator(): index out of bounds".
Definition path_error : string := "path.at(): index out of bounds".
Definition not_square : string := "Matrix is not square.".

Close Scope string_scope.

Fixpoint upd {A : Type} (l : list A) (i : nat) (x : A) : list A :=
  match l, i with
  | [], _ => []
  | _ :: t, O => x :: t
  | h :: t, S j => h :: upd t j x
  end.

(** [v.at(i)] *)
Definition vec_at (v : vec) (i : Z) : Z :=
  if i <? 0 then 0 else nth (Z.to_nat i) v 0.

(** [v.at(i) = x] *)
Definition vec_set (v : vec) (i : Z) (x : Z) : vec :=
  if i <? 0 then v else upd v (Z.to_nat i) x.

(** [m.row(r)] *)
Definition mat_row (m : mat) (r : Z) : vec :=
  if r <? 0 then [] else nth (Z.to_nat r) m [].

Definition mat_set_row (m : mat) (r : Z) (v : vec) : mat :=
  if r <? 0 then m else upd m (Z.to_nat r) v.

(** [m.at(r, c)] *)
Definition mat_at (m : mat) (r c : Z) : Z := vec_at (mat_row m r) c.

(** [m.at(r, c) = x] *)
Definition mat_set (m : mat) (r c : Z) (x : Z) : mat :=
  mat_set_row m r (vec_set (mat_row m r) c x).

Definition in_mat (m : mat) (r c : Z) : bool :=
  (0 <=? r) && (r <? Z.of_nat (length m)) &&
  (0 <=? c) && (c <? Z.of_nat (length (mat_row m r))).

(** [m(r, c) = x], bound-checked *)
Definition mat_set_checked (m : mat) (r c : Z) (x : Z) : res mat :=
  if in_mat m r c then Ok (mat_set m r c x) else Raise index_error.

(** [v.fill(x)] *)
Definition fill (v : vec) (x : Z) : vec := map (fun _ => x) v.

(** [arma::min] of a row *)
Definition vec_min (v : vec) : Z :=
  match v with
  | [] => 0
  | x :: t => fold_left Z.min t x
  end.

(** [arma::zeros<arma::umat>(n, n)] *)
Definition zeros (n : nat) : mat := repeat (repeat 0 n) n.

(** The path buffer: [arma::imat path(2 * N, 2)], one pair per row. *)
Abbreviation imat2 := (list (Z * Z)).

Definition path_get (p : imat2) (i : Z) : res (Z * Z) :=
  if i <? 0 then Raise path_error
  else match nth_error p (Z.to_nat i) with
       | Some v => Ok v
       | None => Raise path_error
       end.

Definition path_set0 (p : imat2) (i : Z) (x : Z) : res imat2 :=
  v <- path_get p i ;; Ok (upd p (Z.to_nat i) (x, snd v)).

Definition path_set1 (p : imat2) (i : Z) (x : Z) : res imat2 :=
  v <- path_get p i ;; Ok (upd p (Z.to_nat i) (fst v, x)).

(** ** Loops *)

(** [for (unsigned int i = 0; i < n; ++i) body] *)
Definition for_ {S : Type} (n : nat) (body : Z -> S -> S) (s : S) : S :=
  fold_left (fun s i => body (Z.of_nat i) s) (seq 0 n) s.

(** The same with [break]: the body also says whether it breaks. *)
Fixpoint for_break_from {S : Type} (idx : list nat) (body : Z -> S -> S * bool)
  (s : S) : S :=
  match idx with
  | [] => s
  | i :: idx' =>
      let (s', brk) := body (Z.of_nat i) s in
      if brk then s' else for_break_from idx' body s'
  end.

Definition for_break {S : Type} (n : nat) (body : Z -> S -> S * bool) (s : S) : S :=
  for_break_from (seq 0 n) body s.

(** ** The seven phases *)

(** Phase 1: subtract its minimum from every row. *)
Definition step_one (cost : mat) (N : nat) : nat * mat :=
  let cost := for_ N (fun r cost =>
                let m := vec_min (mat_row cost r) in
                mat_set_row cost r (map (fun x => x - m) (mat_row cost r))) cost in
  (2%nat, cost).

(** Phase 2: star the first zero of a row whose row and column are free. *)
Definition step_two (cost : mat) (indM : mat) (rcov ccov : vec) (N : nat)
  : nat * mat * vec * vec :=
  let '(indM, rcov, ccov) :=
    for_ N (fun r st =>
      for_break N (fun c '(indM, rcov, ccov) =>
        if (mat_at cost r c =? 0) && (vec_at rcov r =? 0) && (vec_at ccov c =? 0)
        then ((mat_set indM r c 1, vec_set rcov r 1, vec_set ccov c 1), true)
        else ((indM, rcov, ccov), false)) st)
      (indM, rcov, ccov) in
  (3%nat, indM, fill rcov 0, fill ccov 0).

(** Phase 3: cover the columns of the starred zeros and count them. *)
Definition step_three (indM : mat) (ccov : vec) (N : nat) : nat * vec :=
  let ccov := for_ N (fun r ccov =>
                for_ N (fun c ccov =>
                  if mat_at indM r c =? 1 then vec_set ccov c 1 else ccov) ccov) ccov in
  let colcount := for_ N (fun c colcount =>
                    if vec_at ccov c =? 1 then (colcount + 1)%nat else colcount) 0%nat in
  if Nat.eqb colcount N then (7%nat, ccov) else (4%nat, ccov).

(** The inner [while (true)] of [find_noncovered_zero]. *)
Fixpoint find_noncovered_zero_cols (fuel : nat) (cost : mat) (rcov ccov : vec)
  (N : nat) (r c : Z) (row col : Z) (done : bool) : res (Z * Z * bool) :=
  match fuel with
  | O => OutOfFuel
  | S fuel' =>
      let '(row, col, done) :=
        if (mat_at cost r c =? 0) && (vec_at rcov r =? 0) && (vec_at ccov c =? 0)
        then (r, c, true) else (row, col, done) in
      let c := c + 1 in
      if (c =? Z.of_nat N) || done then Ok (row, col, done)
      else find_noncovered_zero_cols fuel' cost rcov ccov N r c row col done
  end.

(** The outer [while (!done)] of [find_noncovered_zero]. *)
Fixpoint find_noncovered_zero_rows (fuel : nat) (cost : mat) (rcov ccov : vec)
  (N : nat) (r : Z) (row col : Z) : res (Z * Z) :=
  match fuel with
  | O => OutOfFuel
  | S fuel' =>
      '(row, col, done) <-
        find_noncovered_zero_cols fuel' cost rcov ccov N r 0 row col false ;;
      let r := r + 1 in
      let done := if r =? Z.of_nat N then true else done in
      if done then Ok (row, col)
      else find_noncovered_zero_rows fuel' cost rcov ccov N r row col
  end.

Definition find_noncovered_zero (fuel : nat) (cost : mat) (rcov ccov : vec)
  (N : nat) : res (Z * Z) :=
  find_noncovered_zero_rows fuel cost rcov ccov N 0 (-1) (-1).

Definition star_in_row (row : Z) (indM : mat) (N : nat) : bool :=
  for_break N (fun c tmp =>
    if mat_at indM row c =? 1 then (true, true) else (tmp, false)) false.

Definition find_star_in_row (row : Z) (indM : mat) (N : nat) : Z :=
  for_ N (fun c col => if mat_at indM row c =? 1 then c else col) (-1).

(** The [while (!done)] of phase 4; the result is
    (step, indM, rcov, ccov, rpath_0, cpath_0). *)
Fixpoint step_four_loop (fuel : nat) (cost : mat) (indM : mat) (rcov ccov : vec)
  (rpath_0 cpath_0 : Z) (N : nat) (step : nat)
  : res (nat * mat * vec * vec * Z * Z) :=
  match fuel with
  | O => OutOfFuel
  | S fuel' =>
      '(row, col) <- find_noncovered_zero fuel' cost rcov ccov N ;;
      if row =? -1 then Ok (6%nat, indM, rcov, ccov, rpath_0, cpath_0)
      else
        indM <- mat_set_checked indM row col 2 ;;
        if star_in_row row indM N then
          let col := find_star_in_row row indM N in
          let rcov := vec_set rcov row 1 in
          let ccov := vec_set ccov col 0 in
          step_four_loop fuel' cost indM rcov ccov rpath_0 cpath_0 N step
        else Ok (5%nat, indM, rcov, ccov, row, col)
  end.

(** Phase 4: prime uncovered zeros until one has no star in its row. *)
Definition step_four (fuel : nat) (step : nat) (cost : mat) (indM : mat)
  (rcov ccov : vec) (rpath_0 cpath_0 : Z) (N : nat)
  : res (nat * mat * vec * vec * Z * Z) :=
  step_four_loop fuel cost indM rcov ccov rpath_0 cpath_0 N step.

Definition find_star_in_col (col : Z) (indM : mat) (N : nat) : Z :=
  for_ N (fun r row => if mat_at indM r col =? 1 then r else row) (-1).

(** [col] is read and written: it keeps its value when the row has no prime. *)
Definition find_prime_in_row (row : Z) (col : Z) (indM : mat) (N : nat) : Z :=
  for_ N (fun c col => if mat_at indM row c =? 2 then c else col) col.

(** [path(p, 0)], bound-checked *)
Definition path_read (p : imat2) (i : Z) : res (Z * Z) :=
  match path_get p i with
  | Ok v => Ok v
  | _ => Raise index_error
  end.

Fixpoint augment_path_from (ps : list nat) (indM : mat) (path : imat2) : res mat :=
  match ps with
  | [] => Ok indM
  | p :: ps' =>
      v <- path_read path (Z.of_nat p) ;;
      let indM :=
        if mat_at indM (fst v) (snd v) =? 1
        then mat_set indM (fst v) (snd v) 0
        else mat_set indM (fst v) (snd v) 1 in
      augment_path_from ps' indM path
  end.

Definition augment_path (path_count : Z) (indM : mat) (path : imat2) : res mat :=
  augment_path_from (seq 0 (Z.to_nat path_count)) indM path.

Definition clear_covers (rcov ccov : vec) : vec * vec := (fill rcov 0, fill ccov 0).

Definition erase_primes (indM : mat) (N : nat) : mat :=
  for_ N (fun r indM =>
    for_ N (fun c indM =>
      if mat_at indM r c =? 2 then mat_set indM r c 0 else indM) indM) indM.

(** The [while (!done)] of phase 5; the result is (path_count, path). *)
Fixpoint step_five_loop (fuel : nat) (indM : mat) (path : imat2) (N : nat)
  (col : Z) (path_count : Z) : res (Z * imat2) :=
  match fuel with
  | O => OutOfFuel
  | S fuel' =>
      v <- path_get path (path_count - 1) ;;
      let row := find_star_in_col (snd v) indM N in
      if row >? -1 then
        let path_count := path_count + 1 in
        path <- path_set0 path (path_count - 1) row ;;
        v <- path_get path (path_count - 2) ;;
        path <- path_set1 path (path_count - 1) (snd v) ;;
        v <- path_get path (path_count - 1) ;;
        let col := find_prime_in_row (fst v) col indM N in
        let path_count := path_count + 1 in
        v <- path_get path (path_count - 2) ;;
        path <- path_set0 path (path_count - 1) (fst v) ;;
        path <- path_set1 path (path_count - 1) col ;;
        step_five_loop fuel' indM path N col path_count
      else Ok (path_count, path)
  end.

(** The path of phase 5: (path_count, path) when the loop ends. *)
Definition step_five_path (fuel : nat) (indM : mat) (path : imat2)
  (rpath_0 cpath_0 : Z) (N : nat) : res (Z * imat2) :=
  let path_count := 1 in
  path <- path_set0 path (path_count - 1) rpath_0 ;;
  path <- path_set1 path (path_count - 1) cpath_0 ;;
  step_five_loop fuel indM path N (-1) path_count.

(** Phase 5: build the alternating path, flip it, clear covers and primes. *)
Definition step_five (fuel : nat) (indM : mat) (rcov ccov : vec) (path : imat2)
  (rpath_0 cpath_0 : Z) (N : nat) : res (nat * mat * vec * vec * imat2) :=
  '(path_count, path) <- step_five_path fuel indM path rpath_0 cpath_0 N ;;
  indM <- augment_path path_count indM path ;;
  let '(rcov, ccov) := clear_covers rcov ccov in
  let indM := erase_primes indM N in
  Ok (3%nat, indM, rcov, ccov, path).

Definition find_smallest (minval : Z) (cost : mat) (rcov ccov : vec) (N : nat) : Z :=
  for_ N (fun r minval =>
    for_ N (fun c minval =>
      if (vec_at rcov r =? 0) && (vec_at ccov c =? 0)
      then (if minval >? mat_at cost r c then mat_at cost r c else minval)
      else minval) minval) minval.

(** Phase 6: shift the cost matrix by the smallest uncovered value. *)
Definition step_six (cost : mat) (rcov ccov : vec) (N : nat) : nat * mat :=
  let minval := find_smallest DBL_MAX cost rcov ccov N in
  let cost :=
    for_ N (fun r cost =>
      for_ N (fun c cost =>
        let cost := if vec_at rcov r =? 1
                    then mat_set cost r c (mat_at cost r c + minval) else cost in
        if vec_at ccov c =? 0
        then mat_set cost r c (mat_at cost r c - minval) else cost) cost) cost in
  (4%nat, cost).

(** ** The dispatcher *)

(** The variables of [hungarian] together with the caller's matrix, which
    [hungarian] holds by const reference. *)
Record state : Type := mkState {
  input_cost : mat;
  N : nat;
  step : nat;
  cpath_0 : Z;
  rpath_0 : Z;
  cost : mat;
  indM : mat;
  rcov : vec;
  ccov : vec;
  path : imat2
}.

(** What a freshly constructed [arma::ivec] or [arma::imat] holds is left to
    the library (zeros since Armadillo 10.5, unspecified before). *)
Record fresh : Type := mkFresh {
  fresh_rcov : nat -> Z;
  fresh_ccov : nat -> Z;
  fresh_path : nat -> Z * Z
}.

Definition zero_fresh : fresh :=
  {| fresh_rcov := fun _ => 0; fresh_ccov := fun _ => 0; fresh_path := fun _ => (0, 0) |}.

Definition init_state (f : fresh) (input : mat) : state :=
  let n := length input in
  {| input_cost := input;
     N := n;
     step := 1;
     cpath_0 := 0;
     rpath_0 := 0;
     cost := input;
     indM := zeros n;
     rcov := map (fresh_rcov f) (seq 0 n);
     ccov := map (fresh_ccov f) (seq 0 n);
     path := map (fresh_path f) (seq 0 (2 * n)) |}.

(** One turn of [switch (step)]; phase 7 and any other value change nothing. *)
Definition dispatch (fuel : nat) (s : state) : res state :=
  match step s with
  | 1%nat =>
      let '(st, c) := step_one (cost s) (N s) in
      Ok (mkState (input_cost s) (N s) st (cpath_0 s) (rpath_0 s)
                  c (indM s) (rcov s) (ccov s) (path s))
  | 2%nat =>
      let '(st, m, rc, cc) := step_two (cost s) (indM s) (rcov s) (ccov s) (N s) in
      Ok (mkState (input_cost s) (N s) st (cpath_0 s) (rpath_0 s)
                  (cost s) m rc cc (path s))
  | 3%nat =>
      let '(st, cc) := step_three (indM s) (ccov s) (N s) in
      Ok (mkState (input_cost s) (N s) st (cpath_0 s) (rpath_0 s)
                  (cost s) (indM s) (rcov s) cc (path s))
  | 4%nat =>
      '(st, m, rc, cc, r0, c0) <-
        step_four fuel (step s) (cost s) (indM s) (rcov s) (ccov s)
                  (rpath_0 s) (cpath_0 s) (N s) ;;
      Ok (mkState (input_cost s) (N s) st c0 r0 (cost s) m rc cc (path s))
  | 5%nat =>
      '(st, m, rc, cc, p) <-
        step_five fuel (indM s) (rcov s) (ccov s) (path s)
                  (rpath_0 s) (cpath_0 s) (N s) ;;
      Ok (mkState (input_cost s) (N s) st (cpath_0 s) (rpath_0 s)
                  (cost s) m rc cc p)
  | 6%nat =>
      let '(st, c) := step_six (cost s) (rcov s) (ccov s) (N s) in
      Ok (mkState (input_cost s) (N s) st (cpath_0 s) (rpath_0 s)
                  c (indM s) (rcov s) (ccov s) (path s))
  | _ => Ok s
  end.

(** [while (!done) { switch (step) ... }] *)
Fixpoint hungarian_loop (fuel : nat) (s : state) : res state :=
  match fuel with
  | O => OutOfFuel
  | S fuel' =>
      if Nat.eqb (step s) 7 then Ok s
      else s' <- dispatch fuel' s ;; hungarian_loop fuel' s'
  end.

Definition hungarian_run (f : fresh) (fuel : nat) (input : mat) : res state :=
  hungarian_loop fuel (init_state f input).

Definition hungarian (f : fresh) (fuel : nat) (input : mat) : res mat :=
  s <- hungarian_run f fuel input ;; Ok (indM s).

(** ** The entry points for R *)

(** An R numeric matrix: its [dim] attribute and its cells. *)
Record NumericMatrix : Type := mkNumericMatrix {
  nrow : nat;
  ncol : nat;
  cell : nat -> nat -> Z
}.

(** [arma::mat(cost.begin(), n, k, false, true)]: the cells of the R matrix
    seen as an n x k matrix. *)
Definition arma_mat (m : NumericMatrix) (n k : nat) : mat :=
  map (fun r => map (fun c => cell m r c) (seq 0 k)) (seq 0 n).

(** [hungarian_cc]: no check of the shape; the marks 0, 1 and 2 are the same
    numbers as signed integers, so the conversion to [arma::imat] is left out. *)
Definition hungarian_cc (f : fresh) (fuel : nat) (cost : NumericMatrix) : res mat :=
  let n := nrow cost in
  let arma_cost := arma_mat cost n n in
  hungarian f fuel arma_cost.

Definition hungariansafe_cc (f : fresh) (fuel : nat) (cost : NumericMatrix) : res mat :=
  let n := nrow cost in
  let k := ncol cost in
  if negb (Nat.eqb n k) then Raise not_square
  else
    let arma_cost := arma_mat cost n k in
    hungarian f fuel arma_cost.

(** The examples of the source: the 2 x 2 costs, and 100 less the products. *)
Definition example2 : mat := [[1; 2]; [2; 4]].
Definition example4 : mat :=
  map (fun i => map (fun j => 100 - i * j) [1;2;3;4]) [1;2;3;4].


(** ** The same phases on IEEE doubles

    The phases that touch the costs are given here a second time, with the
    arithmetic of [double] itself (binary64, round to nearest even): phases
    1 and 6 compute with the costs, phases 2 and 4 test them against zero.
    Marks, covers and the path are integers in the source; phases 3 and 5
    and the helpers on marks are those of the exact model. *)

Module IEEE.

Import Floats.PrimFloat Floats.SpecFloat Floats.FloatOps.

Abbreviation fvec := (list float).
Abbreviation fmat := (list (list float)).

Definition DBL_MAX : float := 0x1.fffffffffffffp+1023%float.

(** The integer a double denotes, when it denotes one. *)
Definition exact (x : float) : option Z :=
  match Prim2SF x with
  | S754_zero _ => Some 0
  | S754_finite s m e =>
      let v := if s then - Z.pos m else Z.pos m in
      if 0 <=? e then Some (v * 2 ^ e)
      else if Z.pos m mod 2 ^ (- e) =? 0 then Some (v / 2 ^ (- e))
      else None
  | _ => None
  end.

(** [m.row(r)] *)
Definition cost_row (m : fmat) (r : Z) : fvec :=
  if r <? 0 then [] else nth (Z.to_nat r) m [].

(** [m.at(r, c)] *)
Definition cost_at (m : fmat) (r c : Z) : float :=
  if c <? 0 then PrimFloat.zero else nth (Z.to_nat c) (cost_row m r) PrimFloat.zero.

(** [m.at(r, c) = x] *)
Definition cost_set (m : fmat) (r c : Z) (x : float) : fmat :=
  if (r <? 0) || (c <? 0) then m
  else upd m (Z.to_nat r) (upd (cost_row m r) (Z.to_nat c) x).

(** [arma::min] of a row: the least element, kept while no element compares
    below it (on rows without NaN, what Armadillo's loop computes). *)
Definition row_min (v : fvec) : float :=
  match v with
  | [] => PrimFloat.zero
  | x :: t => fold_left (fun m y => if PrimFloat.ltb y m then y else m) t x
  end.

Definition step_one (cost : fmat) (N : nat) : nat * fmat :=
  let cost := for_ N (fun r cost =>
                let m := row_min (cost_row cost r) in
                if r <? 0 then cost
                else upd cost (Z.to_nat r)
                       (map (fun x => PrimFloat.sub x m) (cost_row cost r))) cost in
  (2%nat, cost).

Definition step_two (cost : fmat) (indM : mat) (rcov ccov : vec) (N : nat)
  : nat * mat * vec * vec :=
  let '(indM, rcov, ccov) :=
    for_ N (fun r st =>
      for_break N (fun c '(indM, rcov, ccov) =>
        if PrimFloat.eqb (cost_at cost r c) PrimFloat.zero
           && (vec_at rcov r =? 0) && (vec_at ccov c =? 0)
        then ((mat_set indM r c 1, vec_set rcov r 1, vec_set ccov c 1), true)
        else ((indM, rcov, ccov), false)) st)
      (indM, rcov, ccov) in
  (3%nat, indM, fill rcov 0, fill ccov 0).

Fixpoint find_noncovered_zero_cols (fuel : nat) (cost : fmat) (rcov ccov : vec)
  (N : nat) (r c : Z) (row col : Z) (done : bool) : res (Z * Z * bool) :=
  match fuel with
  | O => OutOfFuel
  | S fuel' =>
      let '(row, col, done) :=
        if PrimFloat.eqb (cost_at cost r c) PrimFloat.zero
           && (vec_at rcov r =? 0) && (vec_at ccov c =? 0)
        then (r, c, true) else (row, col, done) in
      let c := c + 1 in
      if (c =? Z.of_nat N) || done then Ok (row, col, done)
      else find_noncovered_zero_cols fuel' cost rcov ccov N r c row col done
  end.

Fixpoint find_noncovered_zero_rows (fuel : nat) (cost : fmat) (rcov ccov : vec)
  (N : nat) (r : Z) (row col : Z) : res (Z * Z) :=
  match fuel with
  | O => OutOfFuel
  | S fuel' =>
      '(row, col, done) <-
        find_noncovered_zero_cols fuel' cost rcov ccov N r 0 row col false ;;
      let r := r + 1 in
      let done := if r =? Z.of_nat N then true else done in
      if done then Ok (row, col)
      else find_noncovered_zero_rows fuel' cost rcov ccov N r row col
  end.

Definition find_noncovered_zero (fuel : nat) (cost : fmat) (rcov ccov : vec)
  (N : nat) : res (Z * Z) :=
  find_noncovered_zero_rows fuel cost rcov ccov N 0 (-1) (-1).

Fixpoint step_four_loop (fuel : nat) (cost : fmat) (indM : mat) (rcov ccov : vec)
  (rpath_0 cpath_0 : Z) (N : nat) (step : nat)
  : res (nat * mat * vec * vec * Z * Z) :=
  match fuel with
  | O => OutOfFuel
  | S fuel' =>
      '(row, col) <- find_noncovered_zero fuel' cost rcov ccov N ;;
      if row =? -1 then Ok (6%nat, indM, rcov, ccov, rpath_0, cpath_0)
      else
        indM <- mat_set_checked indM row col 2 ;;
        if star_in_row row indM N then
          let col := find_star_in_row row indM N in
          let rcov := vec_set rcov row 1 in
          let ccov := vec_set ccov col 0 in
          step_four_loop fuel' cost indM rcov ccov rpath_0 cpath_0 N step
        else Ok (5%nat, indM, rcov, ccov, row, col)
  end.

Definition step_four (fuel : nat) (step : nat) (cost : fmat) (indM : mat)
  (rcov ccov : vec) (rpath_0 cpath_0 : Z) (N : nat)
  : res (nat * mat * vec * vec * Z * Z) :=
  step_four_loop fuel cost indM rcov ccov rpath_0 cpath_0 N step.

Definition find_smallest (minval : float) (cost : fmat) (rcov ccov : vec) (N : nat)
  : float :=
  for_ N (fun r minval =>
    for_ N (fun c minval =>
      if (vec_at rcov r =? 0) && (vec_at ccov c =? 0)
      then (if PrimFloat.ltb (cost_at cost r c) minval then cost_at cost r c else minval)
      else minval) minval) minval.

Definition step_six (cost : fmat) (rcov ccov : vec) (N : nat) : nat * fmat :=
  let minval := find_smallest DBL_MAX cost rcov ccov N in
  let cost :=
    for_ N (fun r cost =>
      for_ N (fun c cost =>
        let cost := if vec_at rcov r =? 1
                    then cost_set cost r c (PrimFloat.add (cost_at cost r c) minval)
                    else cost in
        if vec_at ccov c =? 0
        then cost_set cost r c (PrimFloat.sub (cost_at cost r c) minval)
        else cost) cost) cost in
  (4%nat, cost).

Record state : Type := mkState {
  input_cost : fmat;
  N : nat;
  step : nat;
  cpath_0 : Z;
  rpath_0 : Z;
  cost : fmat;
  indM : mat;
  rcov : vec;
  ccov : vec;
  path : imat2
}.

Definition init_state (f : fresh) (input : fmat) : state :=
  let n := length input in
  {| input_cost := input;
     N := n;
     step := 1;
     cpath_0 := 0;
     rpath_0 := 0;
     cost := input;
     indM := zeros n;
     rcov := map (fresh_rcov f) (seq 0 n);
     ccov := map (fresh_ccov f) (seq 0 n);
     path := map (fresh_path f) (seq 0 (2 * n)) |}.

Definition dispatch (fuel : nat) (s : state) : res state :=
  match step s with
  | 1%nat =>
      let '(st, c) := step_one (cost s) (N s) in
      Ok (mkState (input_cost s) (N s) st (cpath_0 s) (rpath_0 s)
                  c (indM s) (rcov s) (ccov s) (path s))
  | 2%nat =>
      let '(st, m, rc, cc) := step_two (cost s) (indM s) (rcov s) (ccov s) (N s) in
      Ok (mkState (input_cost s) (N s) st (cpath_0 s) (rpath_0 s)
                  (cost s) m rc cc (path s))
  | 3%nat =>
      let '(st, cc) := step_three (indM s) (ccov s) (N s) in
      Ok (mkState (input_cost s) (N s) st (cpath_0 s) (rpath_0 s)
                  (cost s) (indM s) (rcov s) cc (path s))
  | 4%nat =>
      '(st, m, rc, cc, r0, c0) <-
        step_four fuel (step s) (cost s) (indM s) (rcov s) (ccov s)
                  (rpath_0 s) (cpath_0 s) (N s) ;;
      Ok (mkState (input_cost s) (N s) st c0 r0 (cost s) m rc cc (path s))
  | 5%nat =>
      '(st, m, rc, cc, p) <-
        step_five fuel (indM s) (rcov s) (ccov s) (path s)
                  (rpath_0 s) (cpath_0 s) (N s) ;;
      Ok (mkState (input_cost s) (N s) st (cpath_0 s) (rpath_0 s)
                  (cost s) m rc cc p)
  | 6%nat =>
      let '(st, c) := step_six (cost s) (rcov s) (ccov s) (N s) in
      Ok (mkState (input_cost s) (N s) st (cpath_0 s) (rpath_0 s)
                  c (indM s) (rcov s) (ccov s) (path s))
  | _ => Ok s
  end.

Fixpoint hungarian_loop (fuel : nat) (s : state) : res state :=
  match fuel with
  | O => OutOfFuel
  | S fuel' =>
      if Nat.eqb (step s) 7 then Ok s
      else s' <- dispatch fuel' s ;; hungarian_loop fuel' s'
  end.

Definition hungarian_run (f : fresh) (fuel : nat) (input : fmat) : res state :=
  hungarian_loop fuel (init_state f input).

Definition hungarian (f : fresh) (fuel : nat) (input : fmat) : res mat :=
  s <- hungarian_run f fuel input ;; Ok (indM s).

(** An R numeric matrix of doubles, and the two entry points. *)
Record NumericMatrix : Type := mkNumericMatrix {
  nrow : nat;
  ncol : nat;
  cell : nat -> nat -> float
}.

Definition arma_mat (m : NumericMatrix) (n k : nat) : fmat :=
  map (fun r => map (fun c => cell m r c) (seq 0 k)) (seq 0 n).

Definition hungarian_cc (f : fresh) (fuel : nat) (cost : NumericMatrix) : res mat :=
  let n := nrow cost in
  let arma_cost := arma_mat cost n n in
  hungarian f fuel arma_cost.

Definition hungariansafe_cc (f : fresh) (fuel : nat) (cost : NumericMatrix) : res mat :=
  let n := nrow cost in
  let k := ncol cost in
  if negb (Nat.eqb n k) then Raise not_square
  else
    let arma_cost := arma_mat cost n k in
    hungarian f fuel arma_cost.

(** At most [k] turns of the dispatcher. *)
Fixpoint turns (fuel k : nat) (s : state) : res state :=
  match k with
  | O => Ok s
  | S k' =>
      if Nat.eqb (step s) 7 then Ok s
      else bind (dispatch fuel s) (turns fuel k')
  end.

(** Costs 2^60 and 1: the difference is not a double. *)
Definition rounding_input : fmat :=
  [[0x1p+60%float; 1%float]; [0x1p+60%float; 0%float]].

(** Costs DBL_MAX and -DBL_MAX: the difference overflows. *)
Definition overflow_input : fmat :=
  [[DBL_MAX; PrimFloat.opp DBL_MAX]; [DBL_MAX; PrimFloat.opp DBL_MAX]].

(** The 2 x 2 example of the source, and a 3 x 3 matrix that needs phase 6. *)
Definition example2 : fmat := [[1%float; 2%float]; [2%float; 4%float]].
Definition example3 : fmat :=
  [[1%float; 1%float; 1%float]; [2%float; 1%float; 2%float]; [2%float; 1%float; 2%float]].

End IEEE.


(** ** Entries of an array of one, two or three dimensions

    [get3d] of 2020-07-18-accessing-3d-array.cpp.  The elements of an
    [IntegerVector] are C [int]s: they are integers here, and an operation on
    [int]s whose result is not an [int] is undefined in C++, which the model
    records as the outcome [SignedOverflow].  The index [i] is a [size_t]: the
    [int] assigned to it is reduced modulo 2^64, and an [int] compared with it
    is converted in the same way.  [x[i]] is not checked by Rcpp: a read at or
    past the length of [x] is the outcome [OutOfBounds]. *)

Definition INT_MIN : Z := - 2 ^ 31.
Definition INT_MAX : Z := 2 ^ 31 - 1.
Definition SIZE_MOD : Z := 2 ^ 64.

Inductive outcome (A : Type) : Type :=
| Returns (a : A)
| SignedOverflow
| OutOfBounds.

Arguments Returns {A} a.
Arguments SignedOverflow {A}.
Arguments OutOfBounds {A}.

Definition obind {A B : Type} (m : outcome A) (k : A -> outcome B) : outcome B :=
  match m with
  | Returns a => k a
  | SignedOverflow => SignedOverflow
  | OutOfBounds => OutOfBounds
  end.

Notation "x <~ e ;; k" := (obind e (fun x => k))
  (at level 61, e at next level, right associativity).

(** The result of an arithmetic operation on [int]s. *)
Definition to_int (z : Z) : outcome Z :=
  if (INT_MIN <=? z) && (z <=? INT_MAX) then Returns z else SignedOverflow.

Definition int_add (a b : Z) : outcome Z := to_int (a + b).
Definition int_sub (a b : Z) : outcome Z := to_int (a - b).
Definition int_mul (a b : Z) : outcome Z := to_int (a * b).

(** The conversion of an [int] to [size_t]. *)
Definition to_size_t (z : Z) : Z := z mod SIZE_MOD.

(** An R integer array: its elements and its [dim] attribute, which an
    array always carries (for an [x] without the attribute the conversion of
    [x.attr("dim")] is Rcpp's affair, not [get3d]'s). *)
Record IntegerArray : Type := mkIntegerArray {
  elts : list Z;
  dim_attr : list Z
}.

(** [v[i]] for an index that is in range in the source. *)
Definition int_at (v : list Z) (i : nat) : Z := nth i v 0.

(** [x[i]] for a [size_t] i. *)
Definition elt_read (x : IntegerArray) (i : Z) : outcome Z :=
  match nth_error (elts x) (Z.to_nat i) with
  | Some v => Returns v
  | None => OutOfBounds
  end.

(** [get3d(x, args)].  [na] is the [int] that [rc[0] = R_NaN] stores: the
    conversion of a NaN to [int] is left to the platform (on x86 it gives
    INT_MIN, which R prints as NA). *)
Definition get3d (na : Z) (x : IntegerArray) (args : list Z) : outcome (list Z) :=
  let rc := [na] in
  let dim := dim_attr x in
  let K := length args in
  if negb (Nat.eqb K (length dim)) then Returns rc
  else if Nat.eqb K 1 then
    t <~ int_sub (int_at args 0) 1 ;;
    let i := to_size_t t in
    if (0 <=? i) && (i <? to_size_t (int_at dim 0))
    then v <~ elt_read x i ;; Returns [v]
    else Returns rc
  else if Nat.eqb K 2 then
    t <~ int_sub (int_at args 1) 1 ;;
    t <~ int_mul t (int_at dim 0) ;;
    t <~ int_add t (int_at args 0) ;;
    t <~ int_sub t 1 ;;
    let i := to_size_t t in
    d <~ int_mul (int_at dim 0) (int_at dim 1) ;;
    if (0 <=? i) && (i <? to_size_t d)
    then v <~ elt_read x i ;; Returns [v]
    else Returns rc
  else if Nat.eqb K 3 then
    t <~ int_sub (int_at args 2) 1 ;;
    t <~ int_mul t (int_at dim 1) ;;
    u <~ int_sub (int_at args 1) 1 ;;
    t <~ int_add t u ;;
    t <~ int_mul t (int_at dim 0) ;;
    t <~ int_add t (int_at args 0) ;;
    t <~ int_sub t 1 ;;
    let i := to_size_t t in
    d <~ int_mul (int_at dim 0) (int_at dim 1) ;;
    d <~ int_mul d (int_at dim 2) ;;
    if (0 <=? i) && (i <? to_size_t d)
    then v <~ elt_read x i ;; Returns [v]
    else Returns rc
  else Returns rc.

(** INT_MIN, R's NA_integer_. *)
Definition NA_integer : Z := INT_MIN.

(** The arrays of the examples of the source: [array(1:8, dim=8)],
    [array(1:8, dim=c(2, 4))] and [array(1:24, dim=c(2, 3, 4))]. *)
Definition array_b : IntegerArray :=
  {| elts := map Z.of_nat (seq 1 8); dim_attr := [8] |}.
Definition array_c : IntegerArray :=
  {| elts := map Z.of_nat (seq 1 8); dim_attr := [2; 4] |}.
Definition array_a : IntegerArray :=
  {| elts := map Z.of_nat (seq 1 24); dim_attr := [2; 3; 4] |}.


(** ** Indices, shapes and the accessors *)

Definition idx (n : nat) (i : Z) : Prop := 0 <= i < Z.of_nat n.

Definition vshape (n : nat) (v : vec) : Prop := length v = n.

Definition mshape (n : nat) (m : mat) : Prop :=
  length m = n /\ forall r, idx n r -> length (mat_row m r) = n.

Ltac idx_tac := unfold idx in *; lia.

Ltac splits := repeat match goal with |- _ /\ _ => split end.

Lemma length_upd {A : Type} (l : list A) i x : length (upd l i x) = length l.
Proof.
  revert i; induction l as [|h t IH]; intros [|i]; simpl; auto.
Qed.

Lemma nth_upd_eq {A : Type} (l : list A) i x d :
  (i < length l)%nat -> nth i (upd l i x) d = x.
Proof.
  revert i; induction l as [|h t IH]; intros [|i] H; simpl in *; try lia; auto.
  apply IH; lia.
Qed.

Lemma nth_upd_ne {A : Type} (l : list A) i j x d :
  i <> j -> nth j (upd l i x) d = nth j l d.
Proof.
  revert i j; induction l as [|h t IH]; intros [|i] [|j] H; simpl; auto; try lia.
Qed.



Lemma vec_at_set_eq v i x : idx (length v) i -> vec_at (vec_set v i x) i = x.
Proof.
  intros H. unfold vec_at, vec_set.
  destruct (Z.ltb_spec i 0); [idx_tac|].
  apply nth_upd_eq. idx_tac.
Qed.

Lemma vec_at_set_ne v i j x : i <> j -> vec_at (vec_set v i x) j = vec_at v j.
Proof.
  intros H. unfold vec_at, vec_set.
  destruct (Z.ltb_spec j 0); auto.
  destruct (Z.ltb_spec i 0); auto.
  apply nth_upd_ne. lia.
Qed.

Lemma length_vec_set v i x : length (vec_set v i x) = length v.
Proof. unfold vec_set. destruct (i <? 0); auto using length_upd. Qed.

Lemma vshape_set n v i x : vshape n v -> vshape n (vec_set v i x).
Proof. unfold vshape. now rewrite length_vec_set. Qed.

Lemma length_fill v x : length (fill v x) = length v.
Proof. apply length_map. Qed.

Lemma vec_at_fill0 v i : vec_at (fill v 0) i = 0.
Proof.
  unfold vec_at, fill. destruct (i <? 0); auto.
  generalize (Z.to_nat i). clear i.
  induction v as [|h t IH]; intros [|i]; simpl; auto.
Qed.

Lemma length_mat_set_row m r v : length (mat_set_row m r v) = length m.
Proof. unfold mat_set_row. destruct (r <? 0); auto using length_upd. Qed.

Lemma mat_row_set_row_eq m r v :
  idx (length m) r -> mat_row (mat_set_row m r v) r = v.
Proof.
  intros H. unfold mat_row, mat_set_row.
  destruct (Z.ltb_spec r 0); [idx_tac|].
  apply nth_upd_eq. idx_tac.
Qed.

Lemma mat_row_set_row_ne m r r' v :
  r <> r' -> mat_row (mat_set_row m r v) r' = mat_row m r'.
Proof.
  intros H. unfold mat_row, mat_set_row.
  destruct (Z.ltb_spec r' 0); auto.
  destruct (Z.ltb_spec r 0); auto.
  apply nth_upd_ne. lia.
Qed.

Lemma mat_row_oob m r : ~ idx (length m) r -> mat_row m r = [].
Proof.
  intros H. unfold mat_row. destruct (Z.ltb_spec r 0); auto.
  apply nth_overflow. idx_tac.
Qed.

Lemma mat_set_row_oob m r v : ~ idx (length m) r -> mat_set_row m r v = m.
Proof.
  intros H. unfold mat_set_row. destruct (Z.ltb_spec r 0); auto.
  assert (Hl : (length m <= Z.to_nat r)%nat) by idx_tac.
  clear H H0. revert Hl. generalize (Z.to_nat r). clear r.
  induction m as [|h t IH]; intros [|i] Hl; simpl in *; auto; try lia.
  f_equal. apply IH. lia.
Qed.

Lemma mat_at_set_eq m r c x :
  idx (length m) r -> idx (length (mat_row m r)) c ->
  mat_at (mat_set m r c x) r c = x.
Proof.
  intros Hr Hc. unfold mat_at, mat_set.
  rewrite mat_row_set_row_eq by auto. now apply vec_at_set_eq.
Qed.

Lemma mat_at_set_ne m r c r' c' x :
  (r <> r' \/ c <> c') -> mat_at (mat_set m r c x) r' c' = mat_at m r' c'.
Proof.
  intros H. unfold mat_at, mat_set.
  destruct (Z.eq_dec r r') as [->|Hr].
  - destruct H as [H|H]; [congruence|].
    assert (Hd : idx (length m) r' \/ ~ idx (length m) r') by idx_tac.
    destruct Hd as [Hd|Hd].
    + rewrite mat_row_set_row_eq by auto. now apply vec_at_set_ne.
    + now rewrite mat_set_row_oob by auto.
  - now rewrite mat_row_set_row_ne by auto.
Qed.

Lemma mshape_set_row n m r v :
  mshape n m -> length v = n -> mshape n (mat_set_row m r v).
Proof.
  intros [Hl Hr] Hv. split.
  - now rewrite length_mat_set_row.
  - intros r' Hr'. destruct (Z.eq_dec r r') as [->|Hne].
    + rewrite mat_row_set_row_eq; auto. now rewrite Hl.
    + rewrite mat_row_set_row_ne; auto.
Qed.

Lemma mshape_set n m r c x : mshape n m -> mshape n (mat_set m r c x).
Proof.
  intros H. unfold mat_set.
  assert (Hd : idx n r \/ ~ idx n r) by idx_tac.
  destruct Hd as [Hd|Hd].
  - apply mshape_set_row; auto. rewrite length_vec_set. now apply H.
  - rewrite mat_set_row_oob; auto. destruct H as [-> _]. auto.
Qed.

Lemma in_mat_true n m r c :
  mshape n m -> idx n r -> idx n c -> in_mat m r c = true.
Proof.
  intros [Hl Hr] H1 H2. unfold in_mat. rewrite Hl, (Hr r H1).
  unfold idx in *.
  repeat (apply andb_true_intro; split);
    try apply Z.leb_le; try apply Z.ltb_lt; lia.
Qed.

Lemma nth_nil_Z (i : nat) : nth i (@nil Z) 0 = 0.
Proof. now destruct i. Qed.

Lemma mat_at_zeros n r c : mat_at (zeros n) r c = 0.
Proof.
  unfold mat_at, mat_row, vec_at, zeros.
  destruct (c <? 0); auto.
  destruct (r <? 0); [apply nth_nil_Z|].
  destruct (Nat.lt_ge_cases (Z.to_nat r) n) as [H|H].
  - rewrite (nth_repeat_lt (repeat 0 n)) by auto. apply nth_repeat.
  - rewrite (nth_overflow (repeat (repeat 0 n) n)) by now rewrite repeat_length.
    apply nth_nil_Z.
Qed.

Lemma mshape_zeros n : mshape n (zeros n).
Proof.
  split; [apply repeat_length|].
  intros r Hr. unfold mat_row, zeros.
  destruct (Z.ltb_spec r 0); [idx_tac|].
  rewrite nth_repeat_lt by idx_tac. apply repeat_length.
Qed.

(** ** Loops *)

Lemma for_S {S : Type} n (body : Z -> S -> S) s :
  for_ (Datatypes.S n) body s = body (Z.of_nat n) (for_ n body s).
Proof.
  unfold for_. rewrite seq_S, fold_left_app. reflexivity.
Qed.

Lemma for_O {S : Type} (body : Z -> S -> S) s : for_ 0 body s = s.
Proof. reflexivity. Qed.

Lemma for_ind {S : Type} (P : nat -> S -> Prop) n (body : Z -> S -> S) s :
  P 0%nat s ->
  (forall i t, (i < n)%nat -> P i t -> P (Datatypes.S i) (body (Z.of_nat i) t)) ->
  P n (for_ n body s).
Proof.
  intros H0 HS. induction n as [|n IH].
  - exact H0.
  - rewrite for_S. apply HS; [lia|]. apply IH. intros i t Hi. apply HS. lia.
Qed.

(** A loop whose invariant does not mention the counter. *)
Lemma for_inv {S : Type} (P : S -> Prop) n (body : Z -> S -> S) s :
  P s ->
  (forall i t, idx n i -> P t -> P (body i t)) ->
  P (for_ n body s).
Proof.
  intros H0 HS. apply (for_ind (fun _ => P)); auto.
  intros i t Hi Ht. apply HS; auto. idx_tac.
Qed.

Lemma for_break_from_ind {S : Type} (P : nat -> S -> Prop) (Q : S -> Prop)
  (body : Z -> S -> S * bool) k a s :
  P a s ->
  (forall i t t', (a <= i < a + k)%nat -> P i t ->
     body (Z.of_nat i) t = (t', true) -> Q t') ->
  (forall i t t', (a <= i < a + k)%nat -> P i t ->
     body (Z.of_nat i) t = (t', false) -> P (Datatypes.S i) t') ->
  (forall t, P (a + k)%nat t -> Q t) ->
  Q (for_break_from (seq a k) body s).
Proof.
  revert a s. induction k as [|k IH]; intros a s H0 Hb Hc He; simpl.
  - apply He. now rewrite Nat.add_0_r.
  - destruct (body (Z.of_nat a) s) as [t' [|]] eqn:E.
    + apply (Hb a s); auto. lia.
    + apply IH.
      * apply (Hc a s); auto. lia.
      * intros i t t'' Hi. apply Hb. lia.
      * intros i t t'' Hi. apply Hc. lia.
      * intros t Ht. apply He. now replace (a + Datatypes.S k)%nat with (Datatypes.S a + k)%nat by lia.
Qed.

Lemma for_break_ind {S : Type} (P : nat -> S -> Prop) (Q : S -> Prop)
  (body : Z -> S -> S * bool) n s :
  P 0%nat s ->
  (forall i t t', (i < n)%nat -> P i t -> body (Z.of_nat i) t = (t', true) -> Q t') ->
  (forall i t t', (i < n)%nat -> P i t ->
     body (Z.of_nat i) t = (t', false) -> P (Datatypes.S i) t') ->
  (forall t, P n t -> Q t) ->
  Q (for_break n body s).
Proof.
  intros H0 Hb Hc He. unfold for_break.
  apply (for_break_from_ind P Q body n 0%nat s); auto.
  - intros i t t' Hi. apply Hb. lia.
  - intros i t t' Hi. apply Hc. lia.
Qed.

(** ** Fuel: a result other than [OutOfFuel] is kept by more fuel *)

Definition mono {A : Type} (f : nat -> res A) : Prop :=
  forall n r, f n = r -> r <> OutOfFuel -> f (S n) = r.

Lemma mono_le {A : Type} (f : nat -> res A) :
  mono f -> forall n m r, (n <= m)%nat -> f n = r -> r <> OutOfFuel -> f m = r.
Proof.
  intros Hm n m r Hle. induction Hle; intros H1 H2; auto.
Qed.

Lemma bind_not_fuel {A B : Type} (m : res A) (k : A -> res B) r :
  bind m k = r -> r <> OutOfFuel ->
  (exists a, m = Ok a /\ k a = r) \/ (exists e, m = Raise e /\ r = Raise e).
Proof.
  destruct m; simpl; intros H Hr.
  - left. eauto.
  - right. eauto.
  - congruence.
Qed.

Lemma mono_bind {A B : Type} (f : nat -> res A) (g : A -> nat -> res B) :
  mono f -> (forall a, mono (g a)) -> mono (fun n => bind (f n) (fun a => g a n)).
Proof.
  intros Hf Hg n r H Hr.
  destruct (bind_not_fuel _ _ _ H Hr) as [(a & Ha & Hk)|(e & He & ->)].
  - rewrite (Hf n (Ok a)); auto; [|congruence]. simpl. apply Hg; auto.
  - rewrite (Hf n (Raise e)); auto. congruence.
Qed.

Lemma mono_const {A : Type} (r : res A) : mono (fun _ => r).
Proof. intros n r' H _. exact H. Qed.

(** [ev f a]: with enough fuel, [f] returns [a]. *)
Definition ev {A : Type} (f : nat -> res A) (a : A) : Prop :=
  exists n0, forall n, (n0 <= n)%nat -> f n = Ok a.

Lemma ev_const {A : Type} (a : A) : ev (fun _ => Ok a) a.
Proof. exists 0%nat. auto. Qed.

Lemma ev_bind {A B : Type} (f : nat -> res A) (g : A -> nat -> res B) a b :
  ev f a -> ev (g a) b -> ev (fun n => bind (f n) (fun x => g x n)) b.
Proof.
  intros [n1 H1] [n2 H2]. exists (Nat.max n1 n2). intros n Hn.
  rewrite H1 by lia. simpl. apply H2. lia.
Qed.

Lemma ev_S {A : Type} (f : nat -> res A) a :
  ev (fun n => f n) a -> ev (fun n => match n with O => OutOfFuel | S n' => f n' end) a.
Proof.
  intros [n1 H1]. exists (S n1). intros [|n] Hn; [lia|]. apply H1. lia.
Qed.

Lemma ev_ext {A : Type} (f g : nat -> res A) a :
  (forall n, f n = g n) -> ev f a -> ev g a.
Proof. intros E [n0 H]. exists n0. intros n Hn. rewrite <- E. auto. Qed.

Lemma ev_mono_unique {A : Type} (f : nat -> res A) a n r :
  mono f -> ev f a -> f n = r -> r <> OutOfFuel -> r = Ok a.
Proof.
  intros Hm [n0 H0] Hn Hr.
  rewrite <- (H0 (Nat.max n n0)) by lia.
  symmetry. apply (mono_le f Hm n); auto. lia.
Qed.

Lemma ev_of_mono {A : Type} (f : nat -> res A) a n :
  mono f -> f n = Ok a -> ev f a.
Proof.
  intros Hm H. exists n. intros m Hle. apply (mono_le f Hm n); auto. congruence.
Qed.


(** ** The loops keep their result when given more fuel *)

Lemma find_noncovered_zero_cols_S fuel cost rcov ccov N r c row col done :
  find_noncovered_zero_cols (S fuel) cost rcov ccov N r c row col done =
  let '(row, col, done) :=
    if (mat_at cost r c =? 0) && (vec_at rcov r =? 0) && (vec_at ccov c =? 0)
    then (r, c, true) else (row, col, done) in
  let c := c + 1 in
  if (c =? Z.of_nat N) || done then Ok (row, col, done)
  else find_noncovered_zero_cols fuel cost rcov ccov N r c row col done.
Proof. reflexivity. Qed.

Lemma find_noncovered_zero_rows_S fuel cost rcov ccov N r row col :
  find_noncovered_zero_rows (S fuel) cost rcov ccov N r row col =
  bind (find_noncovered_zero_cols fuel cost rcov ccov N r 0 row col false)
    (fun '(row, col, done) =>
      let r := r + 1 in
      let done := if r =? Z.of_nat N then true else done in
      if done then Ok (row, col)
      else find_noncovered_zero_rows fuel cost rcov ccov N r row col).
Proof. reflexivity. Qed.

Lemma step_four_loop_S fuel cost indM rcov ccov rpath_0 cpath_0 N step :
  step_four_loop (S fuel) cost indM rcov ccov rpath_0 cpath_0 N step =
  bind (find_noncovered_zero fuel cost rcov ccov N) (fun '(row, col) =>
    if row =? -1 then Ok (6%nat, indM, rcov, ccov, rpath_0, cpath_0)
    else
      bind (mat_set_checked indM row col 2) (fun indM =>
      if star_in_row row indM N then
        let col := find_star_in_row row indM N in
        let rcov := vec_set rcov row 1 in
        let ccov := vec_set ccov col 0 in
        step_four_loop fuel cost indM rcov ccov rpath_0 cpath_0 N step
      else Ok (5%nat, indM, rcov, ccov, row, col))).
Proof. reflexivity. Qed.

Lemma step_five_loop_S fuel indM path N col path_count :
  step_five_loop (S fuel) indM path N col path_count =
  bind (path_get path (path_count - 1)) (fun v =>
    let row := find_star_in_col (snd v) indM N in
    if row >? -1 then
      let path_count := path_count + 1 in
      bind (path_set0 path (path_count - 1) row) (fun path =>
      bind (path_get path (path_count - 2)) (fun v =>
      bind (path_set1 path (path_count - 1) (snd v)) (fun path =>
      bind (path_get path (path_count - 1)) (fun v =>
      let col := find_prime_in_row (fst v) col indM N in
      let path_count := path_count + 1 in
      bind (path_get path (path_count - 2)) (fun v =>
      bind (path_set0 path (path_count - 1) (fst v)) (fun path =>
      bind (path_set1 path (path_count - 1) col) (fun path =>
      step_five_loop fuel indM path N col path_count)))))))
    else Ok (path_count, path)).
Proof. reflexivity. Qed.

Lemma hungarian_loop_S fuel s :
  hungarian_loop (S fuel) s =
  if Nat.eqb (step s) 7 then Ok s
  else bind (dispatch fuel s) (fun s' => hungarian_loop fuel s').
Proof. reflexivity. Qed.

Arguments find_noncovered_zero_cols : simpl never.
Arguments find_noncovered_zero_rows : simpl never.
Arguments step_four_loop : simpl never.
Arguments step_five_loop : simpl never.
Arguments hungarian_loop : simpl never.

Lemma find_noncovered_zero_cols_mono cost rcov ccov N r c row col done :
  mono (fun n => find_noncovered_zero_cols n cost rcov ccov N r c row col done).
Proof.
  unfold mono. intros n. revert c row col done.
  induction n as [|n IH]; intros c row col done rr H Hr; cbv beta in *.
  - cbv in H. congruence.
  - rewrite find_noncovered_zero_cols_S in H |- *; cbv zeta in *.
    destruct ((mat_at cost r c =? 0) && (vec_at rcov r =? 0) && (vec_at ccov c =? 0)).
    + destruct ((c + 1 =? Z.of_nat N) || true); auto.
    + destruct ((c + 1 =? Z.of_nat N) || done); auto.
Qed.

Lemma find_noncovered_zero_rows_mono cost rcov ccov N r row col :
  mono (fun n => find_noncovered_zero_rows n cost rcov ccov N r row col).
Proof.
  unfold mono. intros n. revert r row col.
  induction n as [|n IH]; intros r row col rr H Hr; cbv beta in *.
  - cbv in H. congruence.
  - rewrite find_noncovered_zero_rows_S in H |- *; cbv zeta in *.
    destruct (bind_not_fuel _ _ _ H Hr) as [(a & Ha & Hk)|(e & He & ->)].
    + rewrite (find_noncovered_zero_cols_mono _ _ _ _ _ _ _ _ _ n (Ok a) Ha)
        by congruence.
      simpl. destruct a as [[row' col'] done']. simpl in Hk.
      destruct (if r + 1 =? Z.of_nat N then true else done'); auto.
    + rewrite (find_noncovered_zero_cols_mono _ _ _ _ _ _ _ _ _ n (Raise e) He)
        by congruence.
      reflexivity.
Qed.

Lemma find_noncovered_zero_mono cost rcov ccov N :
  mono (fun n => find_noncovered_zero n cost rcov ccov N).
Proof. apply find_noncovered_zero_rows_mono. Qed.

Lemma step_four_loop_mono cost indM rcov ccov r0 c0 N st :
  mono (fun n => step_four_loop n cost indM rcov ccov r0 c0 N st).
Proof.
  unfold mono. intros n. revert indM rcov ccov.
  induction n as [|n IH]; intros indM rcov ccov rr H Hr; cbv beta in *.
  - cbv in H. congruence.
  - rewrite step_four_loop_S in H |- *; cbv zeta in *.
    destruct (bind_not_fuel _ _ _ H Hr) as [(a & Ha & Hk)|(e & He & ->)].
    + rewrite (find_noncovered_zero_mono _ _ _ _ n (Ok a) Ha) by congruence.
      simpl. destruct a as [row col]. simpl in Hk.
      destruct (row =? -1); auto.
      destruct (mat_set_checked indM row col 2) as [m|e|]; simpl in *; auto.
      destruct (star_in_row row m N); auto.
    + rewrite (find_noncovered_zero_mono _ _ _ _ n (Raise e) He) by congruence.
      reflexivity.
Qed.

Lemma step_four_mono st cost indM rcov ccov r0 c0 N :
  mono (fun n => step_four n st cost indM rcov ccov r0 c0 N).
Proof. apply step_four_loop_mono. Qed.

Lemma step_five_loop_mono indM path N col pc :
  mono (fun n => step_five_loop n indM path N col pc).
Proof.
  unfold mono. intros n. revert path col pc.
  induction n as [|n IH]; intros path col pc rr H Hr; cbv beta in *.
  - cbv in H. congruence.
  - rewrite step_five_loop_S in H |- *; cbv zeta in *.
    destruct (path_get path (pc - 1)) as [v|e|]; simpl in *; auto.
    destruct (find_star_in_col (snd v) indM N >? -1); auto.
    destruct (path_set0 path (pc + 1 - 1) _) as [p1|e|]; simpl in *; auto.
    destruct (path_get p1 (pc + 1 - 2)) as [v1|e|]; simpl in *; auto.
    destruct (path_set1 p1 (pc + 1 - 1) _) as [p2|e|]; simpl in *; auto.
    destruct (path_get p2 (pc + 1 - 1)) as [v2|e|]; simpl in *; auto.
    destruct (path_get p2 (pc + 1 + 1 - 2)) as [v3|e|]; simpl in *; auto.
    destruct (path_set0 p2 (pc + 1 + 1 - 1) _) as [p3|e|]; simpl in *; auto.
    destruct (path_set1 p3 (pc + 1 + 1 - 1) _) as [p4|e|]; simpl in *; auto.
Qed.

Lemma step_five_path_mono indM path r0 c0 N :
  mono (fun n => step_five_path n indM path r0 c0 N).
Proof.
  unfold step_five_path.
  apply (mono_bind (fun _ => path_set0 path (1 - 1) r0)); [apply mono_const|].
  intros p1.
  apply (mono_bind (fun _ => path_set1 p1 (1 - 1) c0)); [apply mono_const|].
  intros p2. apply step_five_loop_mono.
Qed.

Lemma step_five_mono indM rcov ccov path r0 c0 N :
  mono (fun n => step_five n indM rcov ccov path r0 c0 N).
Proof.
  unfold step_five.
  apply (mono_bind (fun n => step_five_path n indM path r0 c0 N)).
  - apply step_five_path_mono.
  - intros a. apply mono_const.
Qed.

Lemma dispatch_mono s : mono (fun n => dispatch n s).
Proof.
  unfold dispatch.
  destruct (step s) as [|[|[|[|[|[|[|k]]]]]]]; try apply mono_const.
  - apply (mono_bind (fun n => step_four n _ (cost s) (indM s) (rcov s) (ccov s)
                                (rpath_0 s) (cpath_0 s) (N s))).
    + apply step_four_mono.
    + intros a. apply mono_const.
  - apply (mono_bind (fun n => step_five n (indM s) (rcov s) (ccov s) (path s)
                                (rpath_0 s) (cpath_0 s) (N s))).
    + apply step_five_mono.
    + intros a. apply mono_const.
Qed.

Lemma hungarian_loop_mono s : mono (fun n => hungarian_loop n s).
Proof.
  unfold mono. intros n. revert s.
  induction n as [|n IH]; intros s rr H Hr; cbv beta in *.
  - cbv in H. congruence.
  - rewrite hungarian_loop_S in H |- *; cbv zeta in *.
    destruct (Nat.eqb (step s) 7); auto.
    destruct (bind_not_fuel _ _ _ H Hr) as [(a & Ha & Hk)|(e & He & ->)].
    + rewrite (dispatch_mono s n (Ok a) Ha) by congruence. simpl. auto.
    + rewrite (dispatch_mono s n (Raise e) He) by congruence. reflexivity.
Qed.

Lemma hungarian_run_mono f input : mono (fun n => hungarian_run f n input).
Proof. apply hungarian_loop_mono. Qed.

Lemma hungarian_mono f input : mono (fun n => hungarian f n input).
Proof.
  unfold hungarian.
  apply (mono_bind (fun n => hungarian_run f n input)).
  - apply hungarian_run_mono.
  - intros a. apply mono_const.
Qed.


(** ** Marks and covers *)

Definition star (M : mat) (r c : Z) : Prop := mat_at M r c = 1.
Definition prime (M : mat) (r c : Z) : Prop := mat_at M r c = 2.

Definition row_unique (n : nat) (M : mat) : Prop :=
  forall r c1 c2, idx n r -> idx n c1 -> idx n c2 ->
    star M r c1 -> star M r c2 -> c1 = c2.

Definition col_unique (n : nat) (M : mat) : Prop :=
  forall c r1 r2, idx n c -> idx n r1 -> idx n r2 ->
    star M r1 c -> star M r2 c -> r1 = r2.

(** An uncovered zero of the cost matrix. *)
Definition uzero (C : mat) (RC CC : vec) (r c : Z) : Prop :=
  mat_at C r c = 0 /\ vec_at RC r = 0 /\ vec_at CC c = 0.

Definition uzerob (C : mat) (RC CC : vec) (r c : Z) : bool :=
  (mat_at C r c =? 0) && (vec_at RC r =? 0) && (vec_at CC c =? 0).

Lemma uzerob_spec C RC CC r c : uzerob C RC CC r c = true <-> uzero C RC CC r c.
Proof.
  unfold uzerob, uzero. rewrite !andb_true_iff, !Z.eqb_eq. tauto.
Qed.

Lemma uzerob_false C RC CC r c : uzerob C RC CC r c = false <-> ~ uzero C RC CC r c.
Proof.
  rewrite <- uzerob_spec. destruct (uzerob C RC CC r c); split; congruence.
Qed.

(** ** Vectors *)

Lemma vec_at_map (f : Z -> Z) v c :
  idx (length v) c -> vec_at (map f v) c = f (vec_at v c).
Proof.
  intros H. unfold vec_at. destruct (Z.ltb_spec c 0); [idx_tac|].
  rewrite nth_indep with (d' := f 0) by (rewrite length_map; idx_tac).
  apply map_nth.
Qed.

Lemma vec_at_in v c : idx (length v) c -> In (vec_at v c) v.
Proof.
  intros H. unfold vec_at. destruct (Z.ltb_spec c 0); [idx_tac|].
  apply nth_In. idx_tac.
Qed.

Lemma fold_left_min_le t : forall x,
  fold_left Z.min t x <= x /\ forall y, In y t -> fold_left Z.min t x <= y.
Proof.
  induction t as [|h t IH]; intros x; simpl.
  - split; [lia|tauto].
  - destruct (IH (Z.min x h)) as [H1 H2]. split; [lia|].
    intros y [->|Hy]; [lia|auto].
Qed.

Lemma vec_min_le v x : In x v -> vec_min v <= x.
Proof.
  destruct v as [|h t]; simpl; [tauto|].
  destruct (fold_left_min_le t h) as [H1 H2].
  intros [<-|H]; auto.
Qed.

(** ** Loops over all cells *)

Lemma for2_ind {S : Type} (P : nat -> nat -> S -> Prop) n
  (body : Z -> Z -> S -> S) s :
  P 0%nat 0%nat s ->
  (forall i j t, (i < n)%nat -> (j < n)%nat -> P i j t ->
     P i (Datatypes.S j) (body (Z.of_nat i) (Z.of_nat j) t)) ->
  (forall i t, (i < n)%nat -> P i n t -> P (Datatypes.S i) 0%nat t) ->
  P n 0%nat (for_ n (fun r t => for_ n (fun c t => body r c t) t) s).
Proof.
  intros H0 Hc Hr.
  apply (for_ind (fun i t => P i 0%nat t)); auto.
  intros i t Hi Ht. apply Hr; auto.
  apply (for_ind (fun j t => P i j t)); auto.
Qed.

Lemma for2_inv {S : Type} (P : S -> Prop) n (body : Z -> Z -> S -> S) s :
  P s ->
  (forall r c t, idx n r -> idx n c -> P t -> P (body r c t)) ->
  P (for_ n (fun r t => for_ n (fun c t => body r c t) t) s).
Proof.
  intros H0 Hb. apply (for2_ind (fun _ _ => P)); auto.
  intros i j t Hi Hj Ht. apply Hb; auto; idx_tac.
Qed.

(** The cells visited before the loops reach (i, j). *)
Definition visited (i j : nat) (r c : Z) : Prop :=
  r < Z.of_nat i \/ (r = Z.of_nat i /\ c < Z.of_nat j).

Lemma visited_dec i j r c : visited i j r c \/ ~ visited i j r c.
Proof. unfold visited. lia. Qed.

(** A loop that rewrites every cell from its own value. *)
Lemma for2_cellwise n (g : Z -> Z -> Z -> Z) (body : Z -> Z -> mat -> mat) m :
  mshape n m ->
  (forall r c t, idx n r -> idx n c -> mshape n t ->
     mshape n (body r c t) /\
     mat_at (body r c t) r c = g r c (mat_at t r c) /\
     forall r' c', (r <> r' \/ c <> c') -> mat_at (body r c t) r' c' = mat_at t r' c') ->
  let m' := for_ n (fun r t => for_ n (fun c t => body r c t) t) m in
  mshape n m' /\
  forall r c, idx n r -> idx n c -> mat_at m' r c = g r c (mat_at m r c).
Proof.
  intros Hm Hb m'.
  assert (H : mshape n m' /\
              forall r c, idx n r -> idx n c ->
                (visited n 0 r c -> mat_at m' r c = g r c (mat_at m r c)) /\
                (~ visited n 0 r c -> mat_at m' r c = mat_at m r c)).
  { unfold m'.
    apply (for2_ind (fun i j t =>
      mshape n t /\
      forall r c, idx n r -> idx n c ->
        (visited i j r c -> mat_at t r c = g r c (mat_at m r c)) /\
        (~ visited i j r c -> mat_at t r c = mat_at m r c))).
    - split; auto. intros r c Hr Hc. split; auto.
      unfold visited. idx_tac.
    - intros i j t Hi Hj [Ht Hv].
      destruct (Hb (Z.of_nat i) (Z.of_nat j) t) as (Hs & He & Hn); auto; try idx_tac.
      split; auto. intros r c Hr Hc.
      destruct (Z.eq_dec r (Z.of_nat i)) as [->|Hri].
      + destruct (Z.eq_dec c (Z.of_nat j)) as [->|Hcj].
        * split; intros Hvis.
          -- rewrite He. f_equal. apply Hv; auto. unfold visited. lia.
          -- exfalso. apply Hvis. unfold visited. lia.
        * rewrite Hn by auto. destruct (Hv (Z.of_nat i) c Hr Hc) as [Ha Hb'].
          split; intros Hvis.
          -- apply Ha. unfold visited in *. lia.
          -- apply Hb'. unfold visited in *. lia.
      + rewrite Hn by (left; congruence). destruct (Hv r c Hr Hc) as [Ha Hb'].
        split; intros Hvis.
        -- apply Ha. unfold visited in *. lia.
        -- apply Hb'. unfold visited in *. lia.
    - intros i t Hi [Ht Hv]. split; auto. intros r c Hr Hc.
      destruct (Hv r c Hr Hc) as [Ha Hb']. split; intros Hvis.
      + apply Ha. unfold visited in *. idx_tac.
      + apply Hb'. unfold visited in *. idx_tac. }
  destruct H as [H1 H2]. split; auto.
  intros r c Hr Hc. apply H2; auto. unfold visited. idx_tac.
Qed.

(** The last index that satisfies a test, or the initial value. *)
Lemma find_last_spec (p : Z -> bool) n d :
  let x := for_ n (fun c acc => if p c then c else acc) d in
  (x = d /\ forall c, idx n c -> p c = false) \/ (idx n x /\ p x = true).
Proof.
  apply (for_ind (fun i x =>
    (x = d /\ forall c, idx i c -> p c = false) \/ (idx i x /\ p x = true))).
  - left. split; auto. intros c Hc. idx_tac.
  - intros i t Hi [[-> Hno]|[Hx Hp]].
    + destruct (p (Z.of_nat i)) eqn:E.
      * right. split; auto. idx_tac.
      * left. split; auto. intros c Hc.
        destruct (Z.eq_dec c (Z.of_nat i)) as [->|Hne]; auto.
        apply Hno. idx_tac.
    + right. destruct (p (Z.of_nat i)) eqn:E.
      * split; auto. idx_tac.
      * split; auto. idx_tac.
Qed.

(** ** Phase 1 *)

Lemma step_one_spec cost n :
  mshape n cost ->
  fst (step_one cost n) = 2%nat /\
  mshape n (snd (step_one cost n)) /\
  forall r c, idx n r -> idx n c ->
    mat_at (snd (step_one cost n)) r c = mat_at cost r c - vec_min (mat_row cost r) /\
    vec_min (mat_row cost r) <= mat_at cost r c.
Proof.
  intros Hm. unfold step_one. cbn [fst snd]. split; auto.
  set (body := fun (r : Z) (cost0 : mat) =>
    mat_set_row cost0 r (map (fun x => x - vec_min (mat_row cost0 r)) (mat_row cost0 r))).
  assert (H : mshape n (for_ n body cost) /\
    forall r, idx n r ->
      (r < Z.of_nat n ->
         mat_row (for_ n body cost) r =
         map (fun x => x - vec_min (mat_row cost r)) (mat_row cost r)) /\
      (Z.of_nat n <= r -> mat_row (for_ n body cost) r = mat_row cost r)).
  { apply (for_ind (fun i t => mshape n t /\
      forall r, idx n r ->
        (r < Z.of_nat i ->
           mat_row t r = map (fun x => x - vec_min (mat_row cost r)) (mat_row cost r)) /\
        (Z.of_nat i <= r -> mat_row t r = mat_row cost r))).
    - split; auto. intros r Hr. split; auto. intros; idx_tac.
    - intros i t Hi [Ht Hrows]. unfold body. split.
      + apply mshape_set_row; auto. rewrite length_map. apply Ht. idx_tac.
      + intros r Hr. destruct (Z.eq_dec r (Z.of_nat i)) as [->|Hne].
        * rewrite mat_row_set_row_eq by (destruct Ht as [-> _]; auto).
          destruct (Hrows (Z.of_nat i) Hr) as [_ ->]; [|lia].
          split; auto. intros; lia.
        * rewrite mat_row_set_row_ne by congruence.
          destruct (Hrows r Hr) as [Ha Hb]. split; intros; [apply Ha|apply Hb]; lia. }
  destruct H as [Hs Hrows]. split; auto.
  intros r c Hr Hc. unfold mat_at at 1.
  destruct (Hrows r Hr) as [-> _]; [|idx_tac].
  assert (Hc' : idx (length (mat_row cost r)) c).
  { destruct Hm as [_ Hl]. now rewrite Hl. }
  rewrite vec_at_map by auto. split; auto.
  apply vec_min_le. now apply vec_at_in.
Qed.

(** ** Phase 2 *)

Definition marks01 (n : nat) (M : mat) : Prop :=
  forall r c, idx n r -> idx n c -> mat_at M r c = 0 \/ mat_at M r c = 1.

Definition star_zero (n : nat) (C M : mat) : Prop :=
  forall r c, idx n r -> idx n c -> star M r c -> mat_at C r c = 0.

Lemma step_two_spec cost indM rcov ccov n :
  mshape n indM -> vshape n rcov -> vshape n ccov ->
  (forall r c, idx n r -> idx n c -> mat_at indM r c = 0) ->
  match step_two cost indM rcov ccov n with
  | (st, M, rc, cc) =>
      st = 3%nat /\ mshape n M /\ vshape n rc /\ vshape n cc /\
      marks01 n M /\ star_zero n cost M /\ row_unique n M /\ col_unique n M /\
      (forall i, vec_at rc i = 0) /\ (forall i, vec_at cc i = 0)
  end.
Proof.
  intros HM Hrc Hcc H0. unfold step_two.
  set (J := fun st : mat * vec * vec =>
    let '(M, rc, cc) := st in
    mshape n M /\ vshape n rc /\ vshape n cc /\ marks01 n M /\
    (forall r c, idx n r -> idx n c -> star M r c ->
       mat_at cost r c = 0 /\ vec_at rc r = 1 /\ vec_at cc c = 1) /\
    row_unique n M /\ col_unique n M).
  match goal with
  | |- context [for_ n ?b ?s] => assert (HJ : J (for_ n b s))
  end.
  { apply for_inv.
    - unfold J. splits; auto.
      + intros r c Hr Hc. left. auto.
      + intros r c Hr Hc Hs. unfold star in Hs. rewrite H0 in Hs; auto. lia.
      + intros r c1 c2 Hr H1 H2 Hs. unfold star in Hs. rewrite H0 in Hs; auto. lia.
      + intros c r1 r2 Hr H1 H2 Hs. unfold star in Hs. rewrite H0 in Hs; auto. lia.
    - intros r st Hr Hst.
      apply (for_break_ind (fun _ => J) J); auto.
      + intros i [[M rc] cc] t' Hi HJ.
        destruct ((mat_at cost r (Z.of_nat i) =? 0) && (vec_at rc r =? 0) &&
                  (vec_at cc (Z.of_nat i) =? 0)) eqn:E; [|congruence].
        intros Heq. injection Heq as <-.
        apply andb_true_iff in E. destruct E as [E E3].
        apply andb_true_iff in E. destruct E as [E1 E2].
        apply Z.eqb_eq in E1, E2, E3.
        destruct HJ as (J1 & J2 & J3 & J4 & J5 & J6 & J7).
        assert (Hc : idx n (Z.of_nat i)) by idx_tac.
        unfold J. splits.
        * apply mshape_set; auto.
        * apply vshape_set; auto.
        * apply vshape_set; auto.
        * intros r' c' Hr' Hc'.
          destruct (Z.eq_dec r r') as [<-|Hne].
          -- destruct (Z.eq_dec (Z.of_nat i) c') as [<-|Hne'].
             ++ right. apply mat_at_set_eq.
                ** destruct J1 as [-> _]; auto.
                ** destruct J1 as [_ Hl]. rewrite Hl; auto.
             ++ rewrite mat_at_set_ne by auto. auto.
          -- rewrite mat_at_set_ne by auto. auto.
        * intros r' c' Hr' Hc' Hs. unfold star in Hs.
          assert (Hd : (r = r' /\ Z.of_nat i = c') \/ (r <> r' \/ Z.of_nat i <> c')) by lia.
          destruct Hd as [[<- <-]|Hd].
          -- splits; auto.
             ++ apply vec_at_set_eq. now rewrite J2.
             ++ apply vec_at_set_eq. now rewrite J3.
          -- rewrite mat_at_set_ne in Hs by auto.
             destruct (J5 r' c' Hr' Hc' Hs) as (K1 & K2 & K3). splits; auto.
             ++ destruct (Z.eq_dec r r') as [<-|Hne].
                ** apply vec_at_set_eq. now rewrite J2.
                ** now rewrite vec_at_set_ne by auto.
             ++ destruct (Z.eq_dec (Z.of_nat i) c') as [<-|Hne].
                ** apply vec_at_set_eq. now rewrite J3.
                ** now rewrite vec_at_set_ne by auto.
        * intros r' c1 c2 Hr' Hc1 Hc2 Hs1 Hs2. unfold star in *.
          destruct (Z.eq_dec r r') as [<-|Hne].
          -- destruct (Z.eq_dec (Z.of_nat i) c1) as [<-|Hn1];
               destruct (Z.eq_dec (Z.of_nat i) c2) as [<-|Hn2]; auto.
             ++ rewrite mat_at_set_ne in Hs2 by auto.
                destruct (J5 r c2 Hr' Hc2 Hs2) as (_ & Hx & _). lia.
             ++ rewrite mat_at_set_ne in Hs1 by auto.
                destruct (J5 r c1 Hr' Hc1 Hs1) as (_ & Hx & _). lia.
             ++ rewrite mat_at_set_ne in Hs1, Hs2 by auto.
                apply (J6 r c1 c2); auto.
          -- rewrite mat_at_set_ne in Hs1, Hs2 by auto.
             apply (J6 r' c1 c2); auto.
        * intros c' r1 r2 Hc' Hr1 Hr2 Hs1 Hs2. unfold star in *.
          destruct (Z.eq_dec (Z.of_nat i) c') as [<-|Hne].
          -- destruct (Z.eq_dec r r1) as [<-|Hn1];
               destruct (Z.eq_dec r r2) as [<-|Hn2]; auto.
             ++ rewrite mat_at_set_ne in Hs2 by auto.
                destruct (J5 r2 (Z.of_nat i) Hr2 Hc' Hs2) as (_ & _ & Hx). lia.
             ++ rewrite mat_at_set_ne in Hs1 by auto.
                destruct (J5 r1 (Z.of_nat i) Hr1 Hc' Hs1) as (_ & _ & Hx). lia.
             ++ rewrite mat_at_set_ne in Hs1, Hs2 by auto.
                apply (J7 (Z.of_nat i) r1 r2); auto.
          -- rewrite mat_at_set_ne in Hs1, Hs2 by auto.
             apply (J7 c' r1 r2); auto.
      + intros i [[M rc] cc] t' Hi HJ.
        destruct ((mat_at cost r (Z.of_nat i) =? 0) && (vec_at rc r =? 0) &&
                  (vec_at cc (Z.of_nat i) =? 0)) eqn:E; [congruence|].
        intros Heq. injection Heq as <-. exact HJ. }
  match goal with
  | |- context [for_ n ?b ?s] => destruct (for_ n b s) as [[M rc] cc]
  end.
  destruct HJ as (J1 & J2 & J3 & J4 & J5 & J6 & J7).
  splits; auto.
  - unfold vshape. rewrite length_fill. auto.
  - unfold vshape. rewrite length_fill. auto.
  - intros r c Hr Hc Hs. now apply J5.
  - intros i. apply vec_at_fill0.
  - intros i. apply vec_at_fill0.
Qed.


(** ** Phase 3 *)

Lemma step_three_spec M ccov n :
  vshape n ccov ->
  match step_three M ccov n with
  | (st, cc) =>
      vshape n cc /\
      (forall c, idx n c ->
         (forall r, idx n r -> star M r c -> vec_at cc c = 1) /\
         (vec_at cc c = vec_at ccov c \/
          (vec_at cc c = 1 /\ exists r, idx n r /\ star M r c))) /\
      ((st = 7%nat /\ forall c, idx n c -> vec_at cc c = 1) \/
       (st = 4%nat /\ exists c, idx n c /\ vec_at cc c <> 1))
  end.
Proof.
  intros Hcc. unfold step_three.
  set (cc := for_ n (fun r t => for_ n (fun c t =>
               if mat_at M r c =? 1 then vec_set t c 1 else t) t) ccov).
  assert (H : vshape n cc /\
    forall c, idx n c ->
      (forall r, idx n r -> visited n 0 r c -> star M r c -> vec_at cc c = 1) /\
      (vec_at cc c = vec_at ccov c \/
       (vec_at cc c = 1 /\ exists r, idx n r /\ star M r c))).
  { unfold cc.
    apply (for2_ind (fun i j t => vshape n t /\
      forall c, idx n c ->
        (forall r, idx n r -> visited i j r c -> star M r c -> vec_at t c = 1) /\
        (vec_at t c = vec_at ccov c \/
         (vec_at t c = 1 /\ exists r, idx n r /\ star M r c)))).
    - split; auto. intros c Hc. split; auto.
      intros r Hr Hv. unfold visited in Hv. idx_tac.
    - intros i j t Hi Hj [Ht Hv].
      destruct (Z.eqb_spec (mat_at M (Z.of_nat i) (Z.of_nat j)) 1) as [E|E].
      + split; [now apply vshape_set|].
        intros c Hc. destruct (Z.eq_dec (Z.of_nat j) c) as [<-|Hne].
        * rewrite vec_at_set_eq by (rewrite Ht; idx_tac).
          split; auto. right. split; auto.
          exists (Z.of_nat i). split; auto. idx_tac.
        * rewrite vec_at_set_ne by auto.
          destruct (Hv c Hc) as [Ha Hb]. split; auto.
          intros r Hr Hvis. apply Ha; auto. unfold visited in *. lia.
      + split; auto. intros c Hc. destruct (Hv c Hc) as [Ha Hb]. split; auto.
        intros r Hr Hvis Hs.
        destruct (Z.eq_dec r (Z.of_nat i)) as [->|Hri];
          [destruct (Z.eq_dec c (Z.of_nat j)) as [->|Hcj]|].
        * unfold star in Hs. congruence.
        * apply (Ha (Z.of_nat i)); auto. unfold visited in *. lia.
        * apply (Ha r); auto. unfold visited in *. lia.
    - intros i t Hi [Ht Hv]. split; auto.
      intros c Hc. destruct (Hv c Hc) as [Ha Hb]. split; auto.
      intros r Hr Hvis. apply Ha; auto. unfold visited in *. idx_tac. }
  destruct H as [Hs Hv].
  set (k := for_ n (fun c colcount =>
              if vec_at cc c =? 1 then (colcount + 1)%nat else colcount) 0%nat).
  assert (Hk : (k = n /\ forall c, idx n c -> vec_at cc c = 1) \/
               ((k < n)%nat /\ exists c, idx n c /\ vec_at cc c <> 1)).
  { unfold k.
    apply (for_ind (fun i k =>
      (k = i /\ forall c, idx i c -> vec_at cc c = 1) \/
      ((k < i)%nat /\ exists c, idx i c /\ vec_at cc c <> 1))).
    - left. split; auto. intros c Hc. idx_tac.
    - intros i t Hi [[-> Hall]|[Hlt (c & Hc & Hne)]].
      + destruct (Z.eqb_spec (vec_at cc (Z.of_nat i)) 1) as [E|E].
        * left. split; [lia|]. intros c Hc.
          destruct (Z.eq_dec c (Z.of_nat i)) as [->|Hne]; auto.
          apply Hall. idx_tac.
        * right. split; [lia|]. exists (Z.of_nat i). split; auto. idx_tac.
      + right. split.
        * destruct (vec_at cc (Z.of_nat i) =? 1); lia.
        * exists c. split; auto. idx_tac. }
  destruct Hk as [[Hk Hall]|[Hk Hex]].
  - rewrite Hk, Nat.eqb_refl.
    splits; auto;
      try (intros c Hc; destruct (Hv c Hc) as [Ha Hb]; split; auto;
           intros r Hr; apply Ha; auto; unfold visited; idx_tac).
  - destruct (Nat.eqb_spec k n) as [E|E]; [lia|].
    splits; auto;
      try (intros c Hc; destruct (Hv c Hc) as [Ha Hb]; split; auto;
           intros r Hr; apply Ha; auto; unfold visited; idx_tac).
Qed.

(** ** The search for an uncovered zero *)

Lemma find_noncovered_zero_cols_spec C RC CC n r : forall k c,
  Z.of_nat k = Z.of_nat n - c -> 0 <= c -> (1 <= k)%nat ->
  exists res,
    (forall fuel, (k <= fuel)%nat ->
       find_noncovered_zero_cols fuel C RC CC n r c (-1) (-1) false = Ok res) /\
    ((exists col, res = (r, col, true) /\ c <= col < Z.of_nat n /\ uzero C RC CC r col) \/
     (res = (-1, -1, false) /\
      forall c', c <= c' < Z.of_nat n -> ~ uzero C RC CC r c')).
Proof.
  induction k as [|k IH]; intros c Hk Hc Hk1; [lia|].
  destruct (uzerob C RC CC r c) eqn:E.
  - exists (r, c, true). split.
    + intros [|fuel] Hf; [lia|]. rewrite find_noncovered_zero_cols_S.
      fold (uzerob C RC CC r c). rewrite E. cbv zeta.
      now rewrite orb_true_r.
    + left. exists c. splits; auto; try lia. now apply uzerob_spec.
  - destruct (Z.eqb_spec (c + 1) (Z.of_nat n)) as [En|En].
    + exists (-1, -1, false). split.
      * intros [|fuel] Hf; [lia|]. rewrite find_noncovered_zero_cols_S.
        fold (uzerob C RC CC r c). rewrite E. cbv zeta.
        destruct (Z.eqb_spec (c + 1) (Z.of_nat n)); [reflexivity|lia].
      * right. split; auto. intros c' Hc'. assert (c' = c) as -> by lia.
        now apply uzerob_false.
    + destruct (IH (c + 1)) as (res & Hres & Hspec); try lia.
      exists res. split.
      * intros [|fuel] Hf; [lia|]. rewrite find_noncovered_zero_cols_S.
        fold (uzerob C RC CC r c). rewrite E. cbv zeta.
        destruct (Z.eqb_spec (c + 1) (Z.of_nat n)); [lia|]. simpl.
        apply Hres. lia.
      * destruct Hspec as [(col & -> & Hcol & Hu)|[-> Hno]].
        -- left. exists col. splits; auto; lia.
        -- right. split; auto. intros c' Hc'.
           destruct (Z.eq_dec c' c) as [->|Hne]; [now apply uzerob_false|].
           apply Hno. lia.
Qed.

Lemma find_noncovered_zero_rows_spec C RC CC n : forall k r,
  Z.of_nat k = Z.of_nat n - r -> 0 <= r -> (1 <= k)%nat ->
  exists res,
    (forall fuel, (k + n <= fuel)%nat ->
       find_noncovered_zero_rows fuel C RC CC n r (-1) (-1) = Ok res) /\
    ((exists row col, res = (row, col) /\ r <= row < Z.of_nat n /\ idx n col /\
                      uzero C RC CC row col) \/
     (res = (-1, -1) /\
      forall r' c', r <= r' < Z.of_nat n -> idx n c' -> ~ uzero C RC CC r' c')).
Proof.
  induction k as [|k IH]; intros r Hk Hr Hk1; [lia|].
  destruct (find_noncovered_zero_cols_spec C RC CC n r n 0)
    as (res & Hres & Hspec); try lia.
  destruct Hspec as [(col & -> & Hcol & Hu)|[-> Hno]].
  - exists (r, col). split.
    + intros [|fuel] Hf; [lia|]. rewrite find_noncovered_zero_rows_S.
      rewrite Hres by lia. simpl.
      now destruct (r + 1 =? Z.of_nat n).
    + left. exists r, col. splits; auto; try lia; idx_tac.
  - destruct (Z.eqb_spec (r + 1) (Z.of_nat n)) as [En|En].
    + exists (-1, -1). split.
      * intros [|fuel] Hf; [lia|]. rewrite find_noncovered_zero_rows_S.
        rewrite Hres by lia. simpl.
        destruct (Z.eqb_spec (r + 1) (Z.of_nat n)); [reflexivity|lia].
      * right. split; auto. intros r' c' Hr' Hc'. assert (r' = r) as -> by lia.
        apply Hno. idx_tac.
    + destruct (IH (r + 1)) as (res & Hres' & Hspec); try lia.
      exists res. split.
      * intros [|fuel] Hf; [lia|]. rewrite find_noncovered_zero_rows_S.
        rewrite Hres by lia. simpl.
        destruct (Z.eqb_spec (r + 1) (Z.of_nat n)); [lia|].
        apply Hres'. lia.
      * destruct Hspec as [(row & col & -> & Hrow & Hcol & Hu)|[-> Hno']].
        -- left. exists row, col. splits; auto; lia.
        -- right. split; auto. intros r' c' Hr' Hc'.
           destruct (Z.eq_dec r' r) as [->|Hne]; [apply Hno; idx_tac|].
           apply Hno'; auto. lia.
Qed.

Lemma find_noncovered_zero_spec C RC CC n :
  (1 <= n)%nat ->
  exists row col,
    ev (fun fuel => find_noncovered_zero fuel C RC CC n) (row, col) /\
    ((row = -1 /\ forall r c, idx n r -> idx n c -> ~ uzero C RC CC r c) \/
     (idx n row /\ idx n col /\ uzero C RC CC row col)).
Proof.
  intros Hn.
  destruct (find_noncovered_zero_rows_spec C RC CC n n 0)
    as (res & Hres & Hspec); try lia.
  destruct res as [row col]. exists row, col. split.
  - exists (n + n)%nat. intros fuel Hf. apply Hres. exact Hf.
  - destruct Hspec as [(row' & col' & E & Hrow & Hcol & Hu)|[E Hno]].
    + injection E as -> ->. right. splits; auto; idx_tac.
    + injection E as -> ->. left. split; auto;
        intros r c Hr Hc; apply Hno; auto; idx_tac.
Qed.

(** ** Stars and primes of a line *)

Lemma star_in_row_spec row M n :
  (star_in_row row M n = true /\ exists c, idx n c /\ star M row c) \/
  (star_in_row row M n = false /\ forall c, idx n c -> ~ star M row c).
Proof.
  unfold star_in_row.
  apply (for_break_ind
    (fun i tmp => tmp = false /\ forall c, idx i c -> ~ star M row c)
    (fun b => (b = true /\ exists c, idx n c /\ star M row c) \/
              (b = false /\ forall c, idx n c -> ~ star M row c))).
  - split; auto. intros c Hc. idx_tac.
  - intros i t t' Hi [-> Hno].
    destruct (Z.eqb_spec (mat_at M row (Z.of_nat i)) 1) as [E|E]; [|congruence].
    intros Heq. injection Heq as <-. left. split; auto.
    exists (Z.of_nat i). split; auto. idx_tac.
  - intros i t t' Hi [-> Hno].
    destruct (Z.eqb_spec (mat_at M row (Z.of_nat i)) 1) as [E|E]; [congruence|].
    intros Heq. injection Heq as <-. split; auto.
    intros c Hc. destruct (Z.eq_dec c (Z.of_nat i)) as [->|Hne]; auto.
    apply Hno. idx_tac.
  - intros t [-> Hno]. right. auto.
Qed.

Lemma find_star_in_row_spec row M n :
  let col := find_star_in_row row M n in
  (col = -1 /\ forall c, idx n c -> ~ star M row c) \/
  (idx n col /\ star M row col).
Proof.
  destruct (find_last_spec (fun c => mat_at M row c =? 1) n (-1)) as [[H1 H2]|[H1 H2]].
  - left. split; auto. intros c Hc Hs. specialize (H2 c Hc).
    apply Z.eqb_neq in H2. auto.
  - right. split; auto. now apply Z.eqb_eq in H2.
Qed.

Lemma find_star_in_col_spec col M n :
  let row := find_star_in_col col M n in
  (row = -1 /\ forall r, idx n r -> ~ star M r col) \/
  (idx n row /\ star M row col).
Proof.
  destruct (find_last_spec (fun r => mat_at M r col =? 1) n (-1)) as [[H1 H2]|[H1 H2]].
  - left. split; auto. intros c Hc Hs. specialize (H2 c Hc).
    apply Z.eqb_neq in H2. auto.
  - right. split; auto. now apply Z.eqb_eq in H2.
Qed.

Lemma find_prime_in_row_spec row col0 M n :
  let col := find_prime_in_row row col0 M n in
  (col = col0 /\ forall c, idx n c -> ~ prime M row c) \/
  (idx n col /\ prime M row col).
Proof.
  destruct (find_last_spec (fun c => mat_at M row c =? 2) n col0) as [[H1 H2]|[H1 H2]].
  - left. split; auto. intros c Hc Hs. specialize (H2 c Hc).
    apply Z.eqb_neq in H2. auto.
  - right. split; auto. now apply Z.eqb_eq in H2.
Qed.

(** ** Phase 6 *)

Lemma find_smallest_spec x C RC CC n :
  let m := find_smallest x C RC CC n in
  m <= x /\
  (forall r c, idx n r -> idx n c -> vec_at RC r = 0 -> vec_at CC c = 0 ->
     m <= mat_at C r c) /\
  (m = x \/ exists r c, idx n r /\ idx n c /\ vec_at RC r = 0 /\ vec_at CC c = 0 /\
                        m = mat_at C r c).
Proof.
  intros m.
  assert (H : m <= x /\
    (forall r c, idx n r -> idx n c -> visited n 0 r c ->
       vec_at RC r = 0 -> vec_at CC c = 0 -> m <= mat_at C r c) /\
    (m = x \/ exists r c, idx n r /\ idx n c /\ vec_at RC r = 0 /\ vec_at CC c = 0 /\
                          m = mat_at C r c)).
  { unfold m, find_smallest.
    apply (for2_ind (fun i j m => m <= x /\
      (forall r c, idx n r -> idx n c -> visited i j r c ->
         vec_at RC r = 0 -> vec_at CC c = 0 -> m <= mat_at C r c) /\
      (m = x \/ exists r c, idx n r /\ idx n c /\ vec_at RC r = 0 /\ vec_at CC c = 0 /\
                            m = mat_at C r c))).
    - splits; auto; [lia|]. intros r c Hr Hc Hv. unfold visited in Hv. idx_tac.
    - intros i j t Hi Hj (H1 & H2 & H3).
      destruct (Z.eqb_spec (vec_at RC (Z.of_nat i)) 0) as [E1|E1];
        [destruct (Z.eqb_spec (vec_at CC (Z.of_nat j)) 0) as [E2|E2]|]; cbn [andb].
      + destruct (Z.gtb_spec t (mat_at C (Z.of_nat i) (Z.of_nat j))) as [G|G].
        * splits; [lia| |].
          -- intros r c Hr Hc Hv R1 R2.
             assert (Hd : (r = Z.of_nat i /\ c = Z.of_nat j) \/ visited i j r c)
               by (unfold visited in *; lia).
             destruct Hd as [[-> ->]|Hd]; [lia|].
             specialize (H2 r c Hr Hc Hd R1 R2). lia.
          -- right. exists (Z.of_nat i), (Z.of_nat j). splits; auto; idx_tac.
        * splits; auto.
          intros r c Hr Hc Hv R1 R2.
          assert (Hd : (r = Z.of_nat i /\ c = Z.of_nat j) \/ visited i j r c)
            by (unfold visited in *; lia).
          destruct Hd as [[-> ->]|Hd]; [lia|]. auto.
      + splits; auto.
        intros r c Hr Hc Hv R1 R2.
        assert (Hd : (r = Z.of_nat i /\ c = Z.of_nat j) \/ visited i j r c)
          by (unfold visited in *; lia).
        destruct Hd as [[-> ->]|Hd]; [congruence|]. auto.
      + splits; auto.
        intros r c Hr Hc Hv R1 R2.
        assert (Hd : (r = Z.of_nat i /\ c = Z.of_nat j) \/ visited i j r c)
          by (unfold visited in *; lia).
        destruct Hd as [[-> ->]|Hd]; [congruence|]. auto.
    - intros i t Hi (H1 & H2 & H3). splits; auto.
      intros r c Hr Hc Hv. apply H2; auto. unfold visited in *. idx_tac. }
  destruct H as (H1 & H2 & H3). splits; auto.
  intros r c Hr Hc. apply H2; auto. unfold visited. idx_tac.
Qed.

Lemma mat_at_set_same n m r c x :
  mshape n m -> idx n r -> idx n c -> mat_at (mat_set m r c x) r c = x.
Proof.
  intros [Hl Hrow] Hr Hc. apply mat_at_set_eq.
  - now rewrite Hl.
  - now rewrite Hrow.
Qed.

(** What phase 6 does to one cell. *)
Definition six_cell (RC CC : vec) (m : Z) (r c : Z) (x : Z) : Z :=
  let x := if vec_at RC r =? 1 then x + m else x in
  if vec_at CC c =? 0 then x - m else x.

Lemma step_six_spec C RC CC n :
  mshape n C ->
  fst (step_six C RC CC n) = 4%nat /\
  mshape n (snd (step_six C RC CC n)) /\
  forall r c, idx n r -> idx n c ->
    mat_at (snd (step_six C RC CC n)) r c =
    six_cell RC CC (find_smallest DBL_MAX C RC CC n) r c (mat_at C r c).
Proof.
  intros HC. unfold step_six. cbn [fst snd]. split; auto.
  apply (for2_cellwise n (six_cell RC CC (find_smallest DBL_MAX C RC CC n))); auto.
  intros r c t Hr Hc Ht.
  assert (Hr' : idx (length t) r) by (destruct Ht as [-> _]; auto).
  assert (Hc' : idx (length (mat_row t r)) c) by (destruct Ht as [_ Hl]; rewrite Hl; auto).
  unfold six_cell.
  destruct (vec_at RC r =? 1); destruct (vec_at CC c =? 0); splits; auto.
  - now repeat apply mshape_set.
  - rewrite (mat_at_set_same n); auto using mshape_set.
    now rewrite (mat_at_set_same n).
  - intros r' c' Hne. now rewrite !mat_at_set_ne by auto.
  - now apply mshape_set.
  - now rewrite mat_at_set_eq.
  - intros r' c' Hne. now rewrite mat_at_set_ne by auto.
  - now apply mshape_set.
  - now rewrite mat_at_set_eq.
  - intros r' c' Hne. now rewrite mat_at_set_ne by auto.
Qed.

(** ** Erasing the primes *)

Lemma erase_primes_spec M n :
  mshape n M ->
  mshape n (erase_primes M n) /\
  forall r c, idx n r -> idx n c ->
    mat_at (erase_primes M n) r c = if mat_at M r c =? 2 then 0 else mat_at M r c.
Proof.
  intros HM. unfold erase_primes.
  apply (for2_cellwise n (fun _ _ x => if x =? 2 then 0 else x)); auto.
  intros r c t Hr Hc Ht.
  assert (Hr' : idx (length t) r) by (destruct Ht as [-> _]; auto).
  assert (Hc' : idx (length (mat_row t r)) c) by (destruct Ht as [_ Hl]; rewrite Hl; auto).
  destruct (mat_at t r c =? 2); splits; auto.
  - now apply mshape_set.
  - now rewrite mat_at_set_eq.
  - intros r' c' Hne. now rewrite mat_at_set_ne by auto.
Qed.


(** ** Counting indices *)

Fixpoint count_if (p : Z -> bool) (n : nat) : nat :=
  match n with
  | O => 0
  | S k => count_if p k + (if p (Z.of_nat k) then 1 else 0)
  end.

Lemma count_if_le p n : (count_if p n <= n)%nat.
Proof.
  induction n as [|n IH]; simpl; auto. destruct (p (Z.of_nat n)); lia.
Qed.

Lemma count_if_mono p q n :
  (forall i, idx n i -> p i = true -> q i = true) ->
  (count_if p n <= count_if q n)%nat.
Proof.
  induction n as [|n IH]; intros H; simpl; auto.
  assert (IH' : (count_if p n <= count_if q n)%nat).
  { apply IH. intros i Hi. apply H. idx_tac. }
  destruct (p (Z.of_nat n)) eqn:E.
  - rewrite (H (Z.of_nat n)); auto; try lia. idx_tac.
  - destruct (q (Z.of_nat n)); lia.
Qed.

Lemma count_if_lt p q n i :
  (forall i, idx n i -> p i = true -> q i = true) ->
  idx n i -> p i = false -> q i = true ->
  (count_if p n < count_if q n)%nat.
Proof.
  induction n as [|n IH]; intros H Hi Hp Hq; [idx_tac|]. simpl.
  destruct (Z.eq_dec i (Z.of_nat n)) as [->|Hne].
  - rewrite Hp, Hq.
    assert ((count_if p n <= count_if q n)%nat); [|lia].
    apply count_if_mono. intros j Hj. apply H. idx_tac.
  - assert ((count_if p n < count_if q n)%nat).
    { apply IH; auto; [|idx_tac]. intros j Hj. apply H. idx_tac. }
    destruct (p (Z.of_nat n)) eqn:E.
    + rewrite (H (Z.of_nat n)); auto; try lia. idx_tac.
    + destruct (q (Z.of_nat n)); lia.
Qed.

Lemma count_if_ext p q n :
  (forall i, idx n i -> p i = q i) -> count_if p n = count_if q n.
Proof.
  induction n as [|n IH]; intros H; simpl; auto.
  rewrite IH by (intros i Hi; apply H; idx_tac).
  rewrite (H (Z.of_nat n)) by idx_tac. reflexivity.
Qed.

Lemma count_if_all p n :
  count_if p n = n -> forall i, idx n i -> p i = true.
Proof.
  induction n as [|n IH]; intros H i Hi; [idx_tac|]. simpl in H.
  pose proof (count_if_le p n).
  destruct (p (Z.of_nat n)) eqn:E; [|lia].
  destruct (Z.eq_dec i (Z.of_nat n)) as [->|Hne]; auto.
  apply IH; [lia|idx_tac].
Qed.

Lemma count_if_pos p n i :
  idx n i -> p i = true -> (1 <= count_if p n)%nat.
Proof.
  intros Hi Hp.
  assert (H : (count_if (fun _ => false) n < count_if p n)%nat).
  { apply (count_if_lt _ _ n i); auto. intros; discriminate. }
  lia.
Qed.

(** The rows without a star, and the uncovered rows. *)
Definition starless (M : mat) (n : nat) : nat :=
  count_if (fun r => negb (star_in_row r M n)) n.

Definition urows (RC : vec) (n : nat) : nat :=
  count_if (fun r => vec_at RC r =? 0) n.

Lemma star_in_row_true row M n :
  star_in_row row M n = true <-> exists c, idx n c /\ star M row c.
Proof.
  destruct (star_in_row_spec row M n) as [[H1 H2]|[H1 H2]]; rewrite H1.
  - tauto.
  - split; [discriminate|]. intros (c & Hc & Hs). exfalso. eapply H2; eauto.
Qed.

Lemma star_in_row_false row M n :
  star_in_row row M n = false <-> forall c, idx n c -> ~ star M row c.
Proof.
  destruct (star_in_row_spec row M n) as [[H1 H2]|[H1 H2]]; rewrite H1.
  - split; [discriminate|]. intros H. destruct H2 as (c & Hc & Hs).
    exfalso. eapply H; eauto.
  - tauto.
Qed.

(** ** The invariants of the phases *)

Definition covers01 (n : nat) (v : vec) : Prop :=
  forall i, idx n i -> vec_at v i = 0 \/ vec_at v i = 1.

(** The working costs are the input costs less a row and a column potential. *)
Definition dual (n : nat) (input C : mat) : Prop :=
  exists u v : Z -> Z, forall r c, idx n r -> idx n c ->
    mat_at C r c = mat_at input r c - u r - v c.

Definition nonneg (n : nat) (C : mat) : Prop :=
  forall r c, idx n r -> idx n c -> 0 <= mat_at C r c.

Definition marks012 (n : nat) (M : mat) : Prop :=
  forall r c, idx n r -> idx n c ->
    mat_at M r c = 0 \/ mat_at M r c = 1 \/ mat_at M r c = 2.

Definition prime_zero (n : nat) (C M : mat) : Prop :=
  forall r c, idx n r -> idx n c -> prime M r c -> mat_at C r c = 0.

Record base (n : nat) (input C M : mat) : Prop := {
  b_C : mshape n C;
  b_M : mshape n M;
  b_dual : dual n input C;
  b_nonneg : nonneg n C;
  b_marks : marks012 n M;
  b_star0 : star_zero n C M;
  b_prime0 : prime_zero n C M;
  b_row : row_unique n M;
  b_col : col_unique n M
}.

(** Phases 4 and 6: how stars, primes and covers fit together. *)
Record search (n : nat) (M : mat) (RC CC : vec) : Prop := {
  s_RC : vshape n RC;
  s_CC : vshape n CC;
  s_rc01 : covers01 n RC;
  s_cc01 : covers01 n CC;
  s_star : forall r c, idx n r -> idx n c -> star M r c ->
    (vec_at RC r = 1 /\ vec_at CC c = 0) \/ (vec_at RC r = 0 /\ vec_at CC c = 1);
  s_ccstar : forall c, idx n c -> vec_at CC c = 1 -> exists r, idx n r /\ star M r c;
  s_rcstar : forall r, idx n r -> vec_at RC r = 1 ->
    (exists c, idx n c /\ star M r c) /\ (exists c, idx n c /\ prime M r c);
  s_prime : forall r c, idx n r -> idx n c -> prime M r c ->
    vec_at RC r = 1 /\ vec_at CC c = 0;
  s_free : exists c, idx n c /\ forall r, idx n r -> ~ star M r c;
  s_rank : exists rk : Z -> nat, forall r c r', idx n r -> idx n c -> idx n r' ->
    prime M r c -> star M r' c -> (rk r' < rk r)%nat
}.

(** Phase 5: the primed zero (r0, c0) starts an alternating path. *)
Record seeded (n : nat) (M : mat) (r0 c0 : Z) : Prop := {
  sd_chain : exists rk : Z -> nat, forall r c r', idx n r -> idx n c -> idx n r' ->
    prime M r c -> star M r' c ->
    (rk r' < rk r)%nat /\ exists c', idx n c' /\ prime M r' c';
  sd_r0 : idx n r0;
  sd_c0 : idx n c0;
  sd_prime : prime M r0 c0;
  sd_nostar : forall c, idx n c -> ~ star M r0 c;
  sd_free : exists c, idx n c /\ forall r, idx n r -> ~ star M r c
}.

Definition all_zero (v : vec) : Prop := forall i, vec_at v i = 0.

(** The invariant of the dispatcher, by phase. *)
Definition phase_inv (input : mat) (s : state) : Prop :=
  let n := N s in
  match step s with
  | 1%nat =>
      cost s = input /\ (forall r c, idx n r -> idx n c -> mat_at (indM s) r c = 0)
  | 2%nat =>
      dual n input (cost s) /\ nonneg n (cost s) /\
      (forall r c, idx n r -> idx n c -> mat_at (indM s) r c = 0)
  | 3%nat =>
      base n input (cost s) (indM s) /\ marks01 n (indM s) /\
      all_zero (rcov s) /\ all_zero (ccov s)
  | 4%nat =>
      base n input (cost s) (indM s) /\ search n (indM s) (rcov s) (ccov s)
  | 5%nat =>
      base n input (cost s) (indM s) /\
      seeded n (indM s) (rpath_0 s) (cpath_0 s)
  | 6%nat =>
      base n input (cost s) (indM s) /\ search n (indM s) (rcov s) (ccov s) /\
      (forall r c, idx n r -> idx n c -> ~ uzero (cost s) (rcov s) (ccov s) r c)
  | 7%nat =>
      base n input (cost s) (indM s) /\ marks01 n (indM s) /\
      (forall c, idx n c -> exists r, idx n r /\ star (indM s) r c)
  | _ => False
  end.

Record Inv (input : mat) (s : state) : Prop := {
  i_input : input_cost s = input;
  i_N : N s = length input;
  i_square : mshape (N s) input;
  i_cost : mshape (N s) (cost s);
  i_indM : mshape (N s) (indM s);
  i_rcov : vshape (N s) (rcov s);
  i_ccov : vshape (N s) (ccov s);
  i_path : length (path s) = (2 * N s)%nat;
  i_phase : phase_inv input s
}.

(** ** Phases 1, 2, 3 and 6 keep the invariant *)

Lemma Inv_init f input :
  mshape (length input) input -> Inv input (init_state f input).
Proof.
  intros H. constructor; simpl; auto.
  - apply mshape_zeros.
  - unfold vshape. now rewrite length_map, length_seq.
  - unfold vshape. now rewrite length_map, length_seq.
  - now rewrite length_map, length_seq.
  - unfold phase_inv. simpl. split; auto. intros. apply mat_at_zeros.
Qed.

Lemma Inv_step_one input s :
  Inv input s -> step s = 1%nat ->
  exists s', (forall fuel, dispatch fuel s = Ok s') /\ Inv input s' /\ step s' = 2%nat.
Proof.
  intros [] Hs. unfold phase_inv in i_phase0. rewrite Hs in i_phase0.
  destruct i_phase0 as [Hc H0].
  destruct (step_one_spec (cost s) (N s) i_cost0) as (E1 & E2 & E3).
  unfold dispatch. rewrite Hs.
  destruct (step_one (cost s) (N s)) as [st c] eqn:E. simpl in *. subst st.
  eexists. split; [reflexivity|]. split; [|reflexivity].
  constructor; simpl; auto.
  unfold phase_inv. simpl. splits; auto.
  - exists (fun r => vec_min (mat_row (cost s) r)), (fun _ => 0).
    intros r c' Hr Hc'. destruct (E3 r c' Hr Hc') as [-> _]. rewrite Hc. lia.
  - intros r c' Hr Hc'. destruct (E3 r c' Hr Hc') as [-> Hle]. lia.
Qed.

Lemma Inv_step_two input s :
  Inv input s -> step s = 2%nat ->
  exists s', (forall fuel, dispatch fuel s = Ok s') /\ Inv input s' /\ step s' = 3%nat.
Proof.
  intros [] Hs. unfold phase_inv in i_phase0. rewrite Hs in i_phase0.
  destruct i_phase0 as (Hd & Hn & H0).
  pose proof (step_two_spec (cost s) (indM s) (rcov s) (ccov s) (N s)
                i_indM0 i_rcov0 i_ccov0 H0) as H.
  unfold dispatch. rewrite Hs.
  destruct (step_two (cost s) (indM s) (rcov s) (ccov s) (N s)) as [[[st M] rc] cc].
  destruct H as (-> & H1 & H2 & H3 & H4 & H5 & H6 & H7 & H8 & H9).
  eexists. split; [reflexivity|]. split; [|reflexivity].
  constructor; simpl; auto.
  unfold phase_inv. simpl. splits; auto.
  constructor; auto.
  - intros r c Hr Hc. destruct (H4 r c Hr Hc); auto.
  - intros r c Hr Hc Hp. unfold prime in Hp. destruct (H4 r c Hr Hc); lia.
Qed.

Lemma Inv_step_three input s :
  Inv input s -> step s = 3%nat ->
  exists s', (forall fuel, dispatch fuel s = Ok s') /\ Inv input s' /\
             (step s' = 4%nat \/ step s' = 7%nat) /\
             indM s' = indM s /\ cost s' = cost s /\ rcov s' = rcov s.
Proof.
  intros [] Hs. unfold phase_inv in i_phase0. rewrite Hs in i_phase0.
  destruct i_phase0 as (Hb & Hm & Hrz & Hcz).
  pose proof (step_three_spec (indM s) (ccov s) (N s) i_ccov0) as H.
  unfold dispatch. rewrite Hs.
  destruct (step_three (indM s) (ccov s) (N s)) as [st cc].
  destruct H as (H1 & H2 & H3).
  eexists. split; [reflexivity|].
  assert (Hnp : forall r c, idx (N s) r -> idx (N s) c -> ~ prime (indM s) r c).
  { intros r c Hr Hc Hp. unfold prime in Hp. destruct (Hm r c Hr Hc); lia. }
  destruct H3 as [[-> Hall]|[-> (c0 & Hc0 & Hne)]].
  - splits; auto. constructor; simpl; auto.
    unfold phase_inv. simpl. splits; auto.
    intros c Hc. destruct (H2 c Hc) as [_ [Hx|[_ Hx]]]; auto.
    rewrite Hcz in Hx. specialize (Hall c Hc). lia.
  - splits; auto. constructor; simpl; auto.
    unfold phase_inv. simpl. splits; auto.
    constructor.
    + auto.
    + auto.
    + intros i Hi. rewrite Hrz. auto.
    + intros c Hc. destruct (H2 c Hc) as [_ [Hx|[Hx _]]]; auto.
      rewrite Hcz in Hx. auto.
    + intros r c Hr Hc Hst. right. split; [apply Hrz|].
      destruct (H2 c Hc) as [Hx _]. eauto.
    + intros c Hc Hx. destruct (H2 c Hc) as [_ [Hy|[_ Hy]]]; auto.
      rewrite Hcz in Hy. lia.
    + intros r Hr Hx. rewrite Hrz in Hx. lia.
    + intros r c Hr Hc Hp. exfalso. apply (Hnp r c); auto.
    + exists c0. split; auto. intros r Hr Hst. apply Hne.
      destruct (H2 c0 Hc0) as [Hx _]. eauto.
    + exists (fun _ => 0%nat). intros r c r' Hr Hc Hr' Hp. exfalso. apply (Hnp r c); auto.
Qed.


(** ** Finite index sets *)

Definition range (n : nat) : list Z := map Z.of_nat (seq 0 n).

Lemma in_range n i : In i (range n) <-> idx n i.
Proof.
  unfold range. rewrite in_map_iff. split.
  - intros (k & <- & Hk). apply in_seq in Hk. idx_tac.
  - intros Hi. exists (Z.to_nat i). split; [idx_tac|]. apply in_seq. idx_tac.
Qed.

Lemma length_range n : length (range n) = n.
Proof. unfold range. now rewrite length_map, length_seq. Qed.

Lemma NoDup_range n : NoDup (range n).
Proof.
  unfold range. apply Injective_map_NoDup.
  - intros x y. lia.
  - apply seq_NoDup.
Qed.

Lemma nodup_idx_length (l : list Z) n :
  NoDup l -> (forall x, In x l -> idx n x) -> (length l <= n)%nat.
Proof.
  intros Hnd Hin. rewrite <- (length_range n).
  apply NoDup_incl_length; auto.
  intros x Hx. apply in_range. auto.
Qed.

Lemma nodup_idx_full (l : list Z) n :
  NoDup l -> (forall x, In x l -> idx n x) -> length l = n ->
  forall i, idx n i -> In i l.
Proof.
  intros Hnd Hin Hlen i Hi.
  apply (NoDup_length_incl Hnd (l' := range n)).
  - rewrite length_range. lia.
  - intros x Hx. apply in_range. auto.
  - now apply in_range.
Qed.

Lemma finite_choice (P : Z -> Z -> Prop) n :
  (forall i, idx n i -> exists x, P i x) ->
  exists l : list Z, length l = n /\
    forall i, idx n i -> P i (nth (Z.to_nat i) l 0).
Proof.
  induction n as [|n IH]; intros H.
  - exists []. split; auto. intros i Hi. idx_tac.
  - destruct IH as (l & Hl & Hp).
    { intros i Hi. apply H. idx_tac. }
    destruct (H (Z.of_nat n)) as (x & Hx); [idx_tac|].
    exists (l ++ [x]). split.
    + rewrite length_app. simpl. lia.
    + intros i Hi. destruct (Z.eq_dec i (Z.of_nat n)) as [->|Hne].
      * rewrite app_nth2 by lia. rewrite Nat2Z.id, Hl, Nat.sub_diag. exact Hx.
      * rewrite app_nth1 by idx_tac. apply Hp. idx_tac.
Qed.

Lemma count_if_none_or_some p n :
  (forall i, idx n i -> p i = false) \/ (exists i, idx n i /\ p i = true).
Proof.
  induction n as [|n IH].
  - left. intros i Hi. idx_tac.
  - destruct IH as [IH|(i & Hi & Hp)].
    + destruct (p (Z.of_nat n)) eqn:E.
      * right. exists (Z.of_nat n). split; auto. idx_tac.
      * left. intros i Hi. destruct (Z.eq_dec i (Z.of_nat n)) as [->|Hne]; auto.
        apply IH. idx_tac.
    + right. exists i. split; auto. idx_tac.
Qed.

(** An injection of the rows into the columns cannot miss a column. *)
Lemma pigeonhole_rows (P : Z -> Z -> Prop) n c0 :
  (forall r, idx n r -> exists c, idx n c /\ P r c) ->
  (forall c r1 r2, idx n c -> idx n r1 -> idx n r2 -> P r1 c -> P r2 c -> r1 = r2) ->
  idx n c0 -> (forall r, idx n r -> ~ P r c0) -> False.
Proof.
  intros Hex Hinj Hc0 Hno.
  destruct (finite_choice (fun r c => idx n c /\ P r c) n Hex) as (l & Hl & Hp).
  assert (Hnd : NoDup (c0 :: l)).
  { constructor.
    - intros Hin. apply (In_nth l c0 0) in Hin. destruct Hin as (k & Hk & E).
      destruct (Hp (Z.of_nat k)) as [_ H]; [idx_tac|].
      rewrite Nat2Z.id, E in H. apply (Hno (Z.of_nat k)); auto. idx_tac.
    - apply (NoDup_nth l 0). intros i j Hi Hj E.
      destruct (Hp (Z.of_nat i)) as [Hci Hpi]; [idx_tac|].
      destruct (Hp (Z.of_nat j)) as [Hcj Hpj]; [idx_tac|].
      rewrite Nat2Z.id in *. rewrite E in Hpi, Hci.
      assert (Z.of_nat i = Z.of_nat j); [|lia].
      apply (Hinj (nth j l 0)); auto; idx_tac. }
  assert (Hlen : (length (c0 :: l) <= n)%nat).
  { apply nodup_idx_length; auto.
    intros x [<-|Hx]; auto.
    apply (In_nth l x 0) in Hx. destruct Hx as (k & Hk & <-).
    destruct (Hp (Z.of_nat k)) as [H _]; [idx_tac|].
    now rewrite Nat2Z.id in H. }
  simpl in Hlen. lia.
Qed.

(** When every column has its entry, so has every row. *)
Lemma surjective_rows (P : Z -> Z -> Prop) n :
  (forall c, idx n c -> exists r, idx n r /\ P r c) ->
  (forall r c1 c2, idx n r -> idx n c1 -> idx n c2 -> P r c1 -> P r c2 -> c1 = c2) ->
  forall r, idx n r -> exists c, idx n c /\ P r c.
Proof.
  intros Hex Hinj r Hr.
  destruct (finite_choice (fun c r => idx n r /\ P r c) n Hex) as (l & Hl & Hp).
  assert (Hnd : NoDup l).
  { apply (NoDup_nth l 0). intros i j Hi Hj E.
    destruct (Hp (Z.of_nat i)) as [Hci Hpi]; [idx_tac|].
    destruct (Hp (Z.of_nat j)) as [Hcj Hpj]; [idx_tac|].
    rewrite Nat2Z.id in *. rewrite E in Hpi, Hci.
    assert (Z.of_nat i = Z.of_nat j); [|lia].
    apply (Hinj (nth j l 0)); auto; idx_tac. }
  assert (Hin : In r l).
  { apply (nodup_idx_full l n); auto.
    intros x Hx. apply (In_nth l x 0) in Hx. destruct Hx as (k & Hk & <-).
    destruct (Hp (Z.of_nat k)) as [H _]; [idx_tac|].
    now rewrite Nat2Z.id in H. }
  apply (In_nth l r 0) in Hin. destruct Hin as (k & Hk & <-).
  exists (Z.of_nat k). destruct (Hp (Z.of_nat k)) as [H1 H2]; [idx_tac|].
  rewrite Nat2Z.id in *. split; auto. idx_tac.
Qed.

(** ** During the search a cell is uncovered *)

Lemma search_uncovered n input C M RC CC :
  base n input C M -> search n M RC CC ->
  exists r c, idx n r /\ idx n c /\ vec_at RC r = 0 /\ vec_at CC c = 0.
Proof.
  intros Hb Hs.
  destruct (s_free _ _ _ _ Hs) as (c0 & Hc0 & Hfree).
  assert (Hcc : vec_at CC c0 = 0).
  { destruct (s_cc01 _ _ _ _ Hs c0 Hc0) as [H|H]; auto.
    destruct (s_ccstar _ _ _ _ Hs c0 Hc0 H) as (r & Hr & Hst).
    exfalso. apply (Hfree r); auto. }
  destruct (count_if_none_or_some (fun r => vec_at RC r =? 0) n) as [Hall|(r & Hr & E)].
  - exfalso. apply (pigeonhole_rows (star M) n c0); auto.
    + intros r Hr. apply (s_rcstar _ _ _ _ Hs r Hr).
      specialize (Hall r Hr). apply Z.eqb_neq in Hall.
      destruct (s_rc01 _ _ _ _ Hs r Hr); auto. lia.
    + apply (b_col _ _ _ _ Hb).
  - exists r, c0. splits; auto. now apply Z.eqb_eq.
Qed.

(** ** Phase 6 keeps the invariant *)

Lemma DBL_MAX_pos : 0 < DBL_MAX.
Proof. reflexivity. Qed.

Lemma step_six_inv n input C M RC CC :
  base n input C M -> search n M RC CC ->
  (forall r c, idx n r -> idx n c -> ~ uzero C RC CC r c) ->
  let m := find_smallest DBL_MAX C RC CC n in
  let C' := snd (step_six C RC CC n) in
  base n input C' M /\ 0 < m <= DBL_MAX /\
  (forall r c, idx n r -> idx n c ->
     mat_at C' r c = six_cell RC CC m r c (mat_at C r c)) /\
  (m = DBL_MAX \/ exists r c, idx n r /\ idx n c /\ uzero C' RC CC r c).
Proof.
  intros Hb Hs Hnz m C'.
  destruct (step_six_spec C RC CC n (b_C _ _ _ _ Hb)) as (_ & Hsh & Hat).
  fold m in Hat. fold C' in Hsh, Hat.
  destruct (find_smallest_spec DBL_MAX C RC CC n) as (Hle & Hmin & Hatt).
  fold m in Hle, Hmin, Hatt.
  assert (Hpos : 0 < m).
  { destruct Hatt as [->|(r & c & Hr & Hc & H1 & H2 & E)]; [apply DBL_MAX_pos|].
    pose proof (b_nonneg _ _ _ _ Hb r c Hr Hc).
    assert (mat_at C r c <> 0); [|lia].
    intros E0. apply (Hnz r c); auto. unfold uzero. auto. }
  splits; auto.
  - destruct Hb as [bC bM b_dual0 b_nonneg0 bmarks b_star1 b_prime1 brow bcol].
    constructor; auto.
    + destruct b_dual0 as (u & v & Huv).
      exists (fun r => u r - (if vec_at RC r =? 1 then m else 0)),
             (fun c => v c + (if vec_at CC c =? 0 then m else 0)).
      intros r c Hr Hc. rewrite Hat, (Huv r c) by auto. unfold six_cell.
      destruct (vec_at RC r =? 1); destruct (vec_at CC c =? 0); lia.
    + intros r c Hr Hc. rewrite Hat by auto. unfold six_cell.
      pose proof (b_nonneg0 r c Hr Hc).
      destruct (Z.eqb_spec (vec_at RC r) 1) as [E1|E1];
        destruct (Z.eqb_spec (vec_at CC c) 0) as [E2|E2]; try lia.
      assert (vec_at RC r = 0).
      { destruct (s_rc01 _ _ _ _ Hs r Hr); auto. lia. }
      specialize (Hmin r c Hr Hc H0 E2). lia.
    + intros r c Hr Hc Hst. rewrite Hat by auto. unfold six_cell.
      rewrite (b_star1 r c Hr Hc Hst).
      destruct (s_star _ _ _ _ Hs r c Hr Hc Hst) as [[-> ->]|[-> ->]]; simpl; lia.
    + intros r c Hr Hc Hp. rewrite Hat by auto. unfold six_cell.
      rewrite (b_prime1 r c Hr Hc Hp).
      destruct (s_prime _ _ _ _ Hs r c Hr Hc Hp) as [-> ->]. simpl. lia.
  - destruct Hatt as [->|(r & c & Hr & Hc & H1 & H2 & E)]; auto.
    right. exists r, c. splits; auto. unfold uzero. splits; auto.
    rewrite Hat by auto. unfold six_cell. rewrite H1, H2. simpl. lia.
Qed.

Lemma Inv_step_six input s :
  Inv input s -> step s = 6%nat ->
  exists s', (forall fuel, dispatch fuel s = Ok s') /\ Inv input s' /\
    step s' = 4%nat /\ indM s' = indM s /\ rcov s' = rcov s /\ ccov s' = ccov s /\
    cost s' = snd (step_six (cost s) (rcov s) (ccov s) (N s)) /\ N s' = N s.
Proof.
  intros [i_input0 i_N0 i_square0 i_cost0 i_indM0 i_rcov0 i_ccov0 i_path0 i_phase0] Hs.
  unfold phase_inv in i_phase0. rewrite Hs in i_phase0.
  destruct i_phase0 as (Hb & Hse & Hnz).
  destruct (step_six_inv _ _ _ _ _ _ Hb Hse Hnz) as (Hb' & _).
  destruct (step_six_spec _ (rcov s) (ccov s) _ i_cost0) as (E1 & E2 & _).
  unfold dispatch. rewrite Hs.
  destruct (step_six (cost s) (rcov s) (ccov s) (N s)) as [st c]. simpl in *. subst st.
  eexists. split; [reflexivity|]. splits; auto.
  constructor; simpl; auto.
  unfold phase_inv. simpl. auto.
Qed.


(** ** Phase 4: priming an uncovered zero *)

Section Priming.

Variables (n : nat) (input C M : mat) (RC CC : vec) (row col : Z).
Hypothesis Hb : base n input C M.
Hypothesis Hs : search n M RC CC.
Hypothesis Hrow : idx n row.
Hypothesis Hcol : idx n col.
Hypothesis Hu : uzero C RC CC row col.

Let M1 := mat_set M row col 2.

Lemma primed_at : mat_at M1 row col = 2.
Proof. apply (mat_at_set_same n); auto. apply (b_M _ _ _ _ Hb). Qed.

Lemma primed_other r c : (row <> r \/ col <> c) -> mat_at M1 r c = mat_at M r c.
Proof. intros H. now apply mat_at_set_ne. Qed.

Lemma primed_not_star : ~ star M row col.
Proof.
  intros Hst. destruct Hu as (_ & H1 & H2).
  destruct (s_star _ _ _ _ Hs row col Hrow Hcol Hst) as [[? ?]|[? ?]]; lia.
Qed.

Lemma primed_star r c : star M1 r c <-> star M r c.
Proof.
  assert (Hd : (row = r /\ col = c) \/ (row <> r \/ col <> c)) by lia.
  destruct Hd as [[<- <-]|Hd].
  - unfold star at 1. rewrite primed_at. split; [lia|].
    intros H. exfalso. now apply primed_not_star.
  - unfold star. now rewrite primed_other.
Qed.

Lemma primed_prime r c : prime M1 r c <-> prime M r c \/ (r = row /\ c = col).
Proof.
  assert (Hd : (row = r /\ col = c) \/ (row <> r \/ col <> c)) by lia.
  destruct Hd as [[<- <-]|Hd].
  - unfold prime at 1. rewrite primed_at. tauto.
  - unfold prime. rewrite primed_other by auto. split; auto.
    intros [H|[-> ->]]; auto. lia.
Qed.

Lemma primed_base : base n input C M1.
Proof.
  destruct Hb as [bC bM bdual bnn bmarks bstar0 bprime0 brow bcol].
  constructor; auto.
  - now apply mshape_set.
  - intros r c Hr Hc.
    assert (Hd : (row = r /\ col = c) \/ (row <> r \/ col <> c)) by lia.
    destruct Hd as [[<- <-]|Hd].
    + rewrite primed_at. auto.
    + rewrite primed_other by auto. auto.
  - intros r c Hr Hc Hst. apply bstar0; auto. now apply primed_star.
  - intros r c Hr Hc Hp. apply primed_prime in Hp.
    destruct Hp as [Hp|[-> ->]]; [now apply bprime0|]. apply Hu.
  - intros r c1 c2 Hr H1 H2 S1 S2. apply (brow r); auto; now apply primed_star.
  - intros c r1 r2 Hc H1 H2 S1 S2. apply (bcol c); auto; now apply primed_star.
Qed.

Lemma primed_checked : mat_set_checked M row col 2 = Ok M1.
Proof.
  unfold mat_set_checked. rewrite (in_mat_true n); auto. apply (b_M _ _ _ _ Hb).
Qed.

(** The rank of the rows once the new prime is placed. *)
Definition rank_after (rk : Z -> nat) : Z -> nat :=
  fun r => if r =? row then S (rk (find_star_in_col col M n)) else rk r.

Lemma rank_after_ok (rk : Z -> nat) :
  (forall r c r', idx n r -> idx n c -> idx n r' ->
     prime M r c -> star M r' c -> (rk r' < rk r)%nat) ->
  forall r c r', idx n r -> idx n c -> idx n r' ->
    prime M1 r c -> star M1 r' c -> (rank_after rk r' < rank_after rk r)%nat.
Proof.
  intros Hrk r c r' Hr Hc Hr' Hp Hst.
  apply primed_star in Hst. apply primed_prime in Hp.
  destruct Hu as (_ & Hu1 & Hu2). unfold rank_after.
  destruct Hp as [Hp|[-> ->]].
  - destruct (s_prime _ _ _ _ Hs r c Hr Hc Hp) as [P1 P2].
    destruct (s_star _ _ _ _ Hs r' c Hr' Hc Hst) as [[S1 S2]|[S1 S2]]; [|lia].
    destruct (Z.eqb_spec r row) as [->|Hn1]; [lia|].
    destruct (Z.eqb_spec r' row) as [->|Hn2]; [lia|].
    now apply (Hrk r c r').
  - rewrite Z.eqb_refl.
    destruct (s_star _ _ _ _ Hs r' col Hr' Hcol Hst) as [[S1 S2]|[S1 S2]]; [|lia].
    destruct (Z.eqb_spec r' row) as [->|Hn2]; [lia|].
    destruct (find_star_in_col_spec col M n) as [[_ Hno]|[Hi Hst']].
    + exfalso. apply (Hno r'); auto.
    + rewrite (b_col _ _ _ _ Hb col r' (find_star_in_col col M n)); auto.
Qed.

(** The row of the primed zero has a star: cover the row, uncover the
    column of the star. *)
Lemma cover_step :
  star_in_row row M1 n = true ->
  let cs := find_star_in_row row M1 n in
  search n M1 (vec_set RC row 1) (vec_set CC cs 0) /\
  (urows (vec_set RC row 1) n < urows RC n)%nat.
Proof.
  intros Hsir cs.
  destruct Hu as (Hu0 & Hu1 & Hu2).
  assert (Hcs : idx n cs /\ star M row cs).
  { unfold cs. destruct (find_star_in_row_spec row M1 n) as [[_ Hno]|[Hi Hst]].
    - apply star_in_row_true in Hsir. destruct Hsir as (c & Hc & Hst).
      exfalso. apply (Hno c); auto.
    - split; auto. now apply primed_star. }
  destruct Hcs as [Hcs Hst].
  assert (Hccs : vec_at CC cs = 1).
  { destruct (s_star _ _ _ _ Hs row cs Hrow Hcs Hst) as [[? ?]|[? ?]]; auto. lia. }
  assert (Hne : col <> cs) by (intros E; rewrite <- E in Hccs; lia).
  assert (HRC : forall r, vec_at (vec_set RC row 1) r = if r =? row then 1 else vec_at RC r).
  { intros r. destruct (Z.eqb_spec r row) as [->|Hn].
    - apply vec_at_set_eq. now rewrite (s_RC _ _ _ _ Hs).
    - apply vec_at_set_ne. auto. }
  assert (HCC : forall c, vec_at (vec_set CC cs 0) c = if c =? cs then 0 else vec_at CC c).
  { intros c. destruct (Z.eqb_spec c cs) as [->|Hn].
    - apply vec_at_set_eq. now rewrite (s_CC _ _ _ _ Hs).
    - apply vec_at_set_ne. auto. }
  split.
  - constructor.
    + apply vshape_set, Hs.
    + apply vshape_set, Hs.
    + intros i Hi. rewrite HRC. destruct (i =? row); auto. now apply (s_rc01 _ _ _ _ Hs).
    + intros i Hi. rewrite HCC. destruct (i =? cs); auto. now apply (s_cc01 _ _ _ _ Hs).
    + intros r c Hr Hc Hst1. apply primed_star in Hst1. rewrite HRC, HCC.
      destruct (Z.eqb_spec r row) as [->|Hn].
      * rewrite (b_row _ _ _ _ Hb row c cs) by auto. rewrite Z.eqb_refl. auto.
      * destruct (Z.eqb_spec c cs) as [->|Hn'].
        -- exfalso. apply Hn. apply (b_col _ _ _ _ Hb cs); auto.
        -- now apply (s_star _ _ _ _ Hs).
    + intros c Hc. rewrite HCC. destruct (Z.eqb_spec c cs) as [->|Hn]; [lia|].
      intros H. destruct (s_ccstar _ _ _ _ Hs c Hc H) as (r & Hr & Hst1).
      exists r. split; auto. now apply primed_star.
    + intros r Hr. rewrite HRC. destruct (Z.eqb_spec r row) as [->|Hn].
      * intros _. split.
        -- exists cs. split; auto. now apply primed_star.
        -- exists col. split; auto. apply primed_prime. auto.
      * intros H. destruct (s_rcstar _ _ _ _ Hs r Hr H) as [(c1 & Hc1 & S1) (c2 & Hc2 & P2)].
        split.
        -- exists c1. split; auto. now apply primed_star.
        -- exists c2. split; auto. apply primed_prime. auto.
    + intros r c Hr Hc Hp. apply primed_prime in Hp. rewrite HRC, HCC.
      destruct Hp as [Hp|[-> ->]].
      * destruct (s_prime _ _ _ _ Hs r c Hr Hc Hp) as [P1 P2]. rewrite P1, P2.
        destruct (r =? row); destruct (c =? cs); auto.
      * rewrite Z.eqb_refl. destruct (Z.eqb_spec col cs); [lia|]. auto.
    + destruct (s_free _ _ _ _ Hs) as (c0 & Hc0 & Hfree).
      exists c0. split; auto. intros r Hr Hst1. apply (Hfree r); auto.
      now apply primed_star.
    + destruct (s_rank _ _ _ _ Hs) as (rk & Hrk).
      exists (rank_after rk). now apply rank_after_ok.
  - unfold urows. apply (count_if_lt _ _ n row); auto.
    + intros i Hi. rewrite HRC. destruct (Z.eqb_spec i row) as [->|Hn]; auto.
      simpl. discriminate.
    + rewrite HRC, Z.eqb_refl. reflexivity.
    + now apply Z.eqb_eq.
Qed.

(** The row of the primed zero has no star: the zero starts a path. *)
Lemma seed_step :
  star_in_row row M1 n = false -> seeded n M1 row col.
Proof.
  intros Hsir.
  assert (Hno : forall c, idx n c -> ~ star M1 row c) by now apply star_in_row_false.
  destruct Hu as (Hu0 & Hu1 & Hu2).
  constructor; auto.
  - destruct (s_rank _ _ _ _ Hs) as (rk & Hrk).
    exists (rank_after rk). intros r c r' Hr Hc Hr' Hp Hst. split.
    + now apply (rank_after_ok rk Hrk r c r').
    + apply primed_star in Hst. apply primed_prime in Hp.
      assert (Hcc : vec_at CC c = 0).
      { destruct Hp as [Hp|[-> ->]]; auto. now apply (s_prime _ _ _ _ Hs r c). }
      destruct (s_star _ _ _ _ Hs r' c Hr' Hc Hst) as [[S1 S2]|[S1 S2]]; [|lia].
      destruct (s_rcstar _ _ _ _ Hs r' Hr' S1) as [_ (c' & Hc' & P')].
      exists c'. split; auto. apply primed_prime. auto.
  - apply primed_prime. auto.
  - destruct (s_free _ _ _ _ Hs) as (c0 & Hc0 & Hfree).
    exists c0. split; auto. intros r Hr Hst1. apply (Hfree r); auto.
    now apply primed_star.
Qed.

End Priming.

(** ** Phase 4 as a whole *)

Lemma step_four_loop_spec n input C r0 c0 st0 :
  (1 <= n)%nat ->
  forall u M RC CC,
    (urows RC n <= u)%nat -> base n input C M -> search n M RC CC ->
    exists st M' RC' CC' r0' c0',
      ev (fun f => step_four_loop f C M RC CC r0 c0 n st0) (st, M', RC', CC', r0', c0') /\
      base n input C M' /\ vshape n RC' /\ vshape n CC' /\
      (forall r c, star M' r c <-> star M r c) /\
      ((st = 6%nat /\ search n M' RC' CC' /\
        (forall r c, idx n r -> idx n c -> ~ uzero C RC' CC' r c) /\
        ((urows RC' n < urows RC n)%nat \/ (M' = M /\ RC' = RC /\ CC' = CC))) \/
       (st = 5%nat /\ seeded n M' r0' c0')).
Proof.
  intros Hn. induction u as [|u IH]; intros M RC CC Hu Hb Hs.
  - (* every row is covered: impossible *)
    exfalso. destruct (search_uncovered _ _ _ _ _ _ Hb Hs) as (r & c & Hr & Hc & H1 & H2).
    assert ((1 <= urows RC n)%nat); [|lia].
    apply (count_if_pos _ n r); auto. now apply Z.eqb_eq.
  - destruct (find_noncovered_zero_spec C RC CC n Hn) as (row & col & [f0 Hf0] & Hz).
    destruct Hz as [[-> Hnone]|(Hrow & Hcol & Hz)].
    + exists 6%nat, M, RC, CC, r0, c0. splits; auto; try apply Hs; try tauto.
      exists (S f0). intros [|f] Hf; [lia|]. rewrite step_four_loop_S.
      rewrite Hf0 by lia. reflexivity.
    + assert (Hrow1 : (row =? -1) = false) by (apply Z.eqb_neq; idx_tac).
      pose proof (primed_base n input C M RC CC row col Hb Hs Hrow Hcol Hz) as Hb1.
      pose proof (primed_checked n input C M row col Hb Hrow Hcol) as Hck.
      pose proof (primed_star n input C M RC CC row col Hb Hs Hrow Hcol Hz) as Hst.
      destruct (star_in_row row (mat_set M row col 2) n) eqn:Hsir.
      * destruct (cover_step n input C M RC CC row col Hb Hs Hrow Hcol Hz Hsir)
          as [Hs1 Hlt].
        assert (Hu1 : (urows (vec_set RC row 1) n <= u)%nat) by lia.
        destruct (IH _ _ _ Hu1 Hb1 Hs1)
          as (st & M' & RC' & CC' & r0' & c0' & [f1 Hf1] & Hb' & Hrc' & Hcc' & Hst' & Hcase).
        exists st, M', RC', CC', r0', c0'. splits; auto.
        -- exists (S (Nat.max f0 f1)). intros [|f] Hf; [lia|].
           rewrite step_four_loop_S. rewrite Hf0 by lia. simpl.
           rewrite Hrow1, Hck. simpl. rewrite Hsir. apply Hf1. lia.
        -- intros r c. rewrite Hst'. apply Hst.
        -- destruct Hcase as [(-> & Hs' & Hnz & Hprog)|Hcase]; [left|right; auto].
           splits; auto. left.
           destruct Hprog as [Hprog|(_ & -> & _)]; lia.
      * pose proof (seed_step n input C M RC CC row col Hb Hs Hrow Hcol Hz Hsir) as Hsd.
        exists 5%nat, (mat_set M row col 2), RC, CC, row, col. splits; auto; try apply Hs.
        exists (S f0). intros [|f] Hf; [lia|]. rewrite step_four_loop_S.
        rewrite Hf0 by lia. simpl. rewrite Hrow1, Hck. simpl. now rewrite Hsir.
Qed.


(** ** The path buffer *)

Lemma upd_upd {A : Type} (l : list A) i x y : upd (upd l i x) i y = upd l i y.
Proof.
  revert i; induction l as [|h t IH]; intros [|i]; simpl; auto. now rewrite IH.
Qed.

Lemma firstn_upd_ge {A : Type} (l : list A) k i x :
  (k <= i)%nat -> firstn k (upd l i x) = firstn k l.
Proof.
  revert k i; induction l as [|h t IH]; intros [|k] [|i] H; simpl; auto; try lia.
  rewrite IH by lia. reflexivity.
Qed.

Lemma firstn_upd_last {A : Type} (l : list A) k x :
  (k < length l)%nat -> firstn (S k) (upd l k x) = firstn k l ++ [x].
Proof.
  revert k; induction l as [|h t IH]; intros [|k] H; simpl in *; try lia; auto.
  rewrite IH by lia. reflexivity.
Qed.

Lemma nth_error_nth_Some {A : Type} (l : list A) i d :
  (i < length l)%nat -> nth_error l i = Some (nth i l d).
Proof.
  revert i; induction l as [|h t IH]; intros [|i] H; simpl in *; try lia; auto.
  apply IH. lia.
Qed.

Lemma path_get_ok (p : imat2) i :
  (i < length p)%nat -> path_get p (Z.of_nat i) = Ok (nth i p (0, 0)).
Proof.
  intros H. unfold path_get.
  destruct (Z.ltb_spec (Z.of_nat i) 0); [lia|].
  rewrite Nat2Z.id. now rewrite (nth_error_nth_Some p i (0, 0)).
Qed.

Lemma path_set0_ok (p : imat2) i x :
  (i < length p)%nat ->
  path_set0 p (Z.of_nat i) x = Ok (upd p i (x, snd (nth i p (0, 0)))).
Proof.
  intros H. unfold path_set0. rewrite path_get_ok by auto. simpl.
  now rewrite Nat2Z.id.
Qed.

Lemma path_set1_ok (p : imat2) i x :
  (i < length p)%nat ->
  path_set1 p (Z.of_nat i) x = Ok (upd p i (fst (nth i p (0, 0)), x)).
Proof.
  intros H. unfold path_set1. rewrite path_get_ok by auto. simpl.
  now rewrite Nat2Z.id.
Qed.

Lemma nth_firstn_eq {A : Type} (l l' : list A) k i d :
  firstn k l = l' -> (i < k)%nat -> nth i l d = nth i l' d.
Proof.
  intros <- H. revert k i H.
  induction l as [|h t IH]; intros [|k] [|i] H; simpl; auto; try lia.
  apply IH. lia.
Qed.

Lemma skipn_nth_cons {A : Type} (l : list A) a d :
  (a < length l)%nat -> skipn a l = nth a l d :: skipn (S a) l.
Proof.
  revert a; induction l as [|h t IH]; intros [|a] H; simpl in *; try lia; auto.
  apply IH. lia.
Qed.

(** ** Flipping the marks along a list of vertices *)

Definition toggle (M : mat) (v : Z * Z) : mat :=
  if mat_at M (fst v) (snd v) =? 1
  then mat_set M (fst v) (snd v) 0
  else mat_set M (fst v) (snd v) 1.

Lemma augment_path_from_spec (path : imat2) : forall k a M,
  (a + k <= length path)%nat ->
  augment_path_from (seq a k) M path =
  Ok (fold_left toggle (firstn k (skipn a path)) M).
Proof.
  induction k as [|k IH]; intros a M H; simpl; auto.
  unfold path_read. rewrite path_get_ok by lia. simpl.
  rewrite (skipn_nth_cons path a (0, 0)) by lia.
  rewrite IH by lia. reflexivity.
Qed.

Lemma augment_path_spec (path : imat2) k M :
  (k <= length path)%nat ->
  augment_path (Z.of_nat k) M path = Ok (fold_left toggle (firstn k path) M).
Proof.
  intros H. unfold augment_path. rewrite Nat2Z.id.
  now rewrite augment_path_from_spec by lia.
Qed.

Lemma toggle_shape n M v : mshape n M -> mshape n (toggle M v).
Proof. intros H. unfold toggle. destruct (_ =? 1); now apply mshape_set. Qed.

Lemma flip_all_spec n : forall V M,
  mshape n M -> NoDup V ->
  (forall r c, In (r, c) V -> idx n r /\ idx n c) ->
  mshape n (fold_left toggle V M) /\
  forall r c, idx n r -> idx n c ->
    (In (r, c) V ->
       mat_at (fold_left toggle V M) r c = if mat_at M r c =? 1 then 0 else 1) /\
    (~ In (r, c) V -> mat_at (fold_left toggle V M) r c = mat_at M r c).
Proof.
  induction V as [|[a b] V IH]; intros M HM Hnd Hidx; simpl.
  - split; auto. intros r c Hr Hc. split; [tauto|auto].
  - inversion Hnd as [|x y Hx Hy]; subst.
    destruct (Hidx a b (or_introl eq_refl)) as [Ha Hb].
    destruct (IH (toggle M (a, b))) as [Hsh Hat]; auto.
    { now apply toggle_shape. }
    { intros r c Hin. apply Hidx. now right. }
    split; auto. intros r c Hr Hc. destruct (Hat r c Hr Hc) as [H1 H2].
    assert (Hd : (a = r /\ b = c) \/ (a <> r \/ b <> c)) by lia.
    destruct Hd as [[<- <-]|Hd].
    + split; [|tauto]. intros _. rewrite H2 by auto.
      unfold toggle. simpl.
      destruct (mat_at M a b =? 1); now apply (mat_at_set_same n).
    + assert (E : mat_at (toggle M (a, b)) r c = mat_at M r c).
      { unfold toggle. simpl. destruct (mat_at M a b =? 1); now apply mat_at_set_ne. }
      split.
      * intros [E'|Hin]; [injection E' as -> ->; lia|].
        rewrite H1 by auto. now rewrite E.
      * intros Hn. rewrite H2 by tauto. exact E.
Qed.


(** ** Phase 5: the alternating path *)

(** The vertices at even places (primes) and at odd places (stars) of a path
    listed from its last vertex back to its first. *)
Fixpoint pverts (L : list (Z * Z)) : list (Z * Z) :=
  match L with
  | [] => []
  | p :: [] => [p]
  | p :: _ :: L' => p :: pverts L'
  end.

Fixpoint sverts (L : list (Z * Z)) : list (Z * Z) :=
  match L with
  | [] => []
  | _ :: [] => []
  | _ :: s :: L' => s :: sverts L'
  end.

Section Path.

Variables (n : nat) (M : mat) (r0 c0 : Z) (rk : Z -> nat).
Hypothesis Hrow : row_unique n M.
Hypothesis Hcol : col_unique n M.
Hypothesis Hchain : forall r c r', idx n r -> idx n c -> idx n r' ->
  prime M r c -> star M r' c ->
  (rk r' < rk r)%nat /\ exists c', idx n c' /\ prime M r' c'.
Hypothesis Hr0 : idx n r0.
Hypothesis Hc0 : idx n c0.
Hypothesis Hp0 : prime M r0 c0.
Hypothesis Hns0 : forall c, idx n c -> ~ star M r0 c.

(** The paths phase 5 builds, last vertex first: a star in the column of
    the last prime, then a prime in the row of that star. *)
Inductive apath : list (Z * Z) -> Prop :=
| ap_seed : apath [(r0, c0)]
| ap_ext r c L r' c' :
    apath ((r, c) :: L) -> idx n r' -> idx n c' ->
    star M r' c -> prime M r' c' ->
    apath ((r', c') :: (r', c) :: (r, c) :: L).

Lemma star_not_prime r c : star M r c -> prime M r c -> False.
Proof. unfold star, prime. lia. Qed.

Lemma apath_cons L : apath L -> exists r c L0, L = (r, c) :: L0.
Proof. intros H. destruct H; eauto. Qed.

Lemma pf_idx L : apath L -> forall r c, In (r, c) L -> idx n r /\ idx n c.
Proof.
  induction 1 as [|r c L r' c' HL IH Hr' Hc' Hst Hp]; intros a b Hin.
  - destruct Hin as [E|[]]. injection E as <- <-. auto.
  - destruct Hin as [E|[E|Hin]].
    + injection E as <- <-. auto.
    + injection E as <- <-. split; auto. apply (IH r c). now left.
    + now apply IH.
Qed.

Lemma pf_split L : apath L ->
  forall v, In v L <-> In v (pverts L) \/ In v (sverts L).
Proof.
  induction 1 as [|r c L r' c' HL IH Hr' Hc' Hst Hp]; intros v.
  - simpl. tauto.
  - change (pverts ((r', c') :: (r', c) :: (r, c) :: L))
      with ((r', c') :: pverts ((r, c) :: L)).
    change (sverts ((r', c') :: (r', c) :: (r, c) :: L))
      with ((r', c) :: sverts ((r, c) :: L)).
    specialize (IH v). simpl in *. tauto.
Qed.

Lemma pf_prime L : apath L -> forall r c, In (r, c) (pverts L) -> prime M r c.
Proof.
  induction 1 as [|r c L r' c' HL IH Hr' Hc' Hst Hp]; intros a b Hin.
  - destruct Hin as [E|[]]. injection E as <- <-. auto.
  - change (pverts ((r', c') :: (r', c) :: (r, c) :: L))
      with ((r', c') :: pverts ((r, c) :: L)) in Hin.
    destruct Hin as [E|Hin]; [injection E as <- <-; auto|now apply IH].
Qed.

Lemma pf_star L : apath L -> forall r c, In (r, c) (sverts L) -> star M r c.
Proof.
  induction 1 as [|r c L r' c' HL IH Hr' Hc' Hst Hp]; intros a b Hin.
  - destruct Hin.
  - change (sverts ((r', c') :: (r', c) :: (r, c) :: L))
      with ((r', c) :: sverts ((r, c) :: L)) in Hin.
    destruct Hin as [E|Hin]; [injection E as <- <-; auto|now apply IH].
Qed.

Lemma pf_head_in r c L : In (r, c) (pverts ((r, c) :: L)).
Proof. destruct L; simpl; auto. Qed.

Lemma pf_head_prime r c L : apath ((r, c) :: L) -> prime M r c.
Proof. intros H. apply (pf_prime _ H). apply pf_head_in. Qed.

Lemma pf_head_idx r c L : apath ((r, c) :: L) -> idx n r /\ idx n c.
Proof. intros H. apply (pf_idx _ H). now left. Qed.

Lemma pf_pverts_idx L : apath L ->
  forall r c, In (r, c) (pverts L) -> idx n r /\ idx n c.
Proof.
  intros H r c Hin. apply (pf_idx _ H). apply (pf_split _ H). auto.
Qed.

(** The rank falls along the path. *)
Lemma pf_rank r c L : apath ((r, c) :: L) ->
  forall r1 c1, In (r1, c1) (pverts ((r, c) :: L)) ->
    (r1, c1) = (r, c) \/ (rk r < rk r1)%nat.
Proof.
  remember ((r, c) :: L) as L0 eqn:E. intros H. revert r c L E.
  induction H as [|r c L r' c' HL IH Hr' Hc' Hst Hp]; intros a b L1 E r1 c1 Hin.
  - injection E as <- <- <-. destruct Hin as [Hin|[]]. auto.
  - injection E as <- <- <-.
    change (pverts ((r', c') :: (r', c) :: (r, c) :: L))
      with ((r', c') :: pverts ((r, c) :: L)) in Hin.
    destruct Hin as [Hin|Hin]; auto. right.
    destruct (pf_head_idx _ _ _ HL) as [Hr Hc].
    destruct (Hchain r c r' Hr Hc Hr' (pf_head_prime _ _ _ HL) Hst) as [Hlt _].
    destruct (IH r c L eq_refl r1 c1 Hin) as [E|Hlt'].
    + injection E as -> ->. auto.
    + lia.
Qed.

Lemma pf_rank_le r c L : apath ((r, c) :: L) ->
  forall r1, In r1 (map fst (pverts ((r, c) :: L))) -> (rk r <= rk r1)%nat.
Proof.
  intros H r1 Hin. apply in_map_iff in Hin. destruct Hin as ([a b] & <- & Hin).
  destruct (pf_rank _ _ _ H a b Hin) as [E|Hlt]; simpl.
  - injection E as -> ->. lia.
  - lia.
Qed.

Lemma pf_rows_nodup L : apath L -> NoDup (map fst (pverts L)).
Proof.
  induction 1 as [|r c L r' c' HL IH Hr' Hc' Hst Hp].
  - simpl. constructor; auto. constructor.
  - change (pverts ((r', c') :: (r', c) :: (r, c) :: L))
      with ((r', c') :: pverts ((r, c) :: L)).
    simpl map. constructor; auto.
    intros Hin. pose proof (pf_rank_le _ _ _ HL r' Hin) as Hle.
    destruct (pf_head_idx _ _ _ HL) as [Hr Hc].
    destruct (Hchain r c r' Hr Hc Hr' (pf_head_prime _ _ _ HL) Hst) as [Hlt _].
    lia.
Qed.

Lemma pf_len L : apath L -> (length L + 1 = 2 * length (pverts L))%nat.
Proof.
  induction 1 as [|r c L r' c' HL IH Hr' Hc' Hst Hp]; auto.
  change (pverts ((r', c') :: (r', c) :: (r, c) :: L))
    with ((r', c') :: pverts ((r, c) :: L)).
  simpl length in *. lia.
Qed.

Lemma pf_bound L : apath L -> (length L + 1 <= 2 * n)%nat.
Proof.
  intros H. rewrite (pf_len _ H).
  assert ((length (map fst (pverts L)) <= n)%nat).
  { apply nodup_idx_length; [now apply pf_rows_nodup|].
    intros x Hx. apply in_map_iff in Hx. destruct Hx as ([a b] & <- & Hin).
    apply (pf_pverts_idx _ H a b Hin). }
  rewrite length_map in H0. lia.
Qed.

Lemma pf_seed L : apath L -> In (r0, c0) (pverts L).
Proof.
  induction 1 as [|r c L r' c' HL IH Hr' Hc' Hst Hp]; [now left|].
  change (pverts ((r', c') :: (r', c) :: (r, c) :: L))
    with ((r', c') :: pverts ((r, c) :: L)).
  now right.
Qed.

(** A star of the path has a prime of the path in its row and in its column. *)
Lemma pf_srow L : apath L ->
  forall r c, In (r, c) (sverts L) -> exists c', In (r, c') (pverts L).
Proof.
  induction 1 as [|r c L r' c' HL IH Hr' Hc' Hst Hp]; intros a b Hin.
  - destruct Hin.
  - change (pverts ((r', c') :: (r', c) :: (r, c) :: L))
      with ((r', c') :: pverts ((r, c) :: L)).
    change (sverts ((r', c') :: (r', c) :: (r, c) :: L))
      with ((r', c) :: sverts ((r, c) :: L)) in Hin.
    destruct Hin as [E|Hin].
    + injection E as <- <-. exists c'. now left.
    + destruct (IH a b Hin) as (x & Hx). exists x. now right.
Qed.

Lemma pf_scol L : apath L ->
  forall r c, In (r, c) (sverts L) -> exists r', In (r', c) (pverts L).
Proof.
  induction 1 as [|r c L r' c' HL IH Hr' Hc' Hst Hp]; intros a b Hin.
  - destruct Hin.
  - change (pverts ((r', c') :: (r', c) :: (r, c) :: L))
      with ((r', c') :: pverts ((r, c) :: L)).
    change (sverts ((r', c') :: (r', c) :: (r, c) :: L))
      with ((r', c) :: sverts ((r, c) :: L)) in Hin.
    destruct Hin as [E|Hin].
    + injection E as <- <-. exists r. right. apply pf_head_in.
    + destruct (IH a b Hin) as (x & Hx). exists x. now right.
Qed.

(** The star in the row of a prime of the path is on the path. *)
Lemma pf_prow L : apath L ->
  forall r c c2, In (r, c) (pverts L) -> idx n c2 -> star M r c2 ->
    In (r, c2) (sverts L).
Proof.
  induction 1 as [|r c L r' c' HL IH Hr' Hc' Hst Hp]; intros a b c2 Hin Hc2 Hs2.
  - destruct Hin as [E|[]]. injection E as <- <-. exfalso. now apply (Hns0 c2).
  - change (pverts ((r', c') :: (r', c) :: (r, c) :: L))
      with ((r', c') :: pverts ((r, c) :: L)) in Hin.
    change (sverts ((r', c') :: (r', c) :: (r, c) :: L))
      with ((r', c) :: sverts ((r, c) :: L)).
    destruct Hin as [E|Hin].
    + injection E as <- <-. left.
      destruct (pf_head_idx _ _ _ HL) as [Hr Hc].
      now rewrite (Hrow r' c c2).
    + right. now apply (IH a b).
Qed.

(** Every prime of the path but the last has the star of its column on the
    path, in the row of a later prime. *)
Lemma pf_next r c L : apath ((r, c) :: L) ->
  forall r1 c1, In (r1, c1) (pverts ((r, c) :: L)) ->
    (r1, c1) = (r, c) \/
    exists r2, idx n r2 /\ star M r2 c1 /\
               In (r2, c1) (sverts ((r, c) :: L)) /\
               In r2 (map fst (pverts ((r, c) :: L))).
Proof.
  remember ((r, c) :: L) as L0 eqn:E. intros H. revert r c L E.
  induction H as [|r c L r' c' HL IH Hr' Hc' Hst Hp]; intros a b L1 E r1 c1 Hin.
  - injection E as <- <- <-. destruct Hin as [Hin|[]]. auto.
  - injection E as <- <- <-.
    change (pverts ((r', c') :: (r', c) :: (r, c) :: L))
      with ((r', c') :: pverts ((r, c) :: L)) in *.
    change (sverts ((r', c') :: (r', c) :: (r, c) :: L))
      with ((r', c) :: sverts ((r, c) :: L)).
    destruct Hin as [Hin|Hin]; auto. right.
    destruct (IH r c L eq_refl r1 c1 Hin) as [E|(r2 & H1 & H2 & H3 & H4)].
    + injection E as -> ->. exists r'. splits; auto; now left.
    + exists r2. splits; auto; now right.
Qed.

Lemma pf_pcol_tail r c L : apath ((r, c) :: L) ->
  forall r1 c1 r2, In (r1, c1) (pverts ((r, c) :: L)) -> (r1, c1) <> (r, c) ->
    idx n r2 -> star M r2 c1 -> In (r2, c1) (sverts ((r, c) :: L)).
Proof.
  intros H r1 c1 r2 Hin Hne Hr2 Hs2.
  destruct (pf_next _ _ _ H r1 c1 Hin) as [E|(r3 & H1 & H2 & H3 & H4)]; [congruence|].
  destruct (pf_pverts_idx _ H r1 c1 Hin) as [_ Hc1].
  now rewrite (Hcol c1 r2 r3).
Qed.

(** No two primes of the path share a column. *)
Lemma pf_pcols L : apath L ->
  forall r1 r2 c, In (r1, c) (pverts L) -> In (r2, c) (pverts L) -> r1 = r2.
Proof.
  induction 1 as [|r c L r' c' HL IH Hr' Hc' Hst Hp]; intros r1 r2 cc H1 H2.
  - destruct H1 as [E1|[]], H2 as [E2|[]]. congruence.
  - change (pverts ((r', c') :: (r', c) :: (r, c) :: L))
      with ((r', c') :: pverts ((r, c) :: L)) in *.
    assert (Hnew : forall x, In (x, c') (pverts ((r, c) :: L)) -> False).
    { intros x Hx.
      destruct (pf_head_idx _ _ _ HL) as [Hr Hc].
      destruct (Hchain r c r' Hr Hc Hr' (pf_head_prime _ _ _ HL) Hst) as [Hlt _].
      destruct (pf_next _ _ _ HL x c' Hx) as [E|(r3 & K1 & K2 & K3 & K4)].
      - injection E as -> ->. now apply (star_not_prime r' c).
      - pose proof (pf_rank_le _ _ _ HL r3 K4) as Hle.
        destruct (Hchain r' c' r3 Hr' Hc' K1 Hp K2) as [Hlt' _]. lia. }
    destruct H1 as [E1|H1], H2 as [E2|H2].
    + congruence.
    + injection E1 as <- <-. exfalso. now apply (Hnew r2).
    + injection E2 as <- <-. exfalso. now apply (Hnew r1).
    + now apply (IH r1 r2 cc).
Qed.

Lemma pf_prows L : apath L ->
  forall r c1 c2, In (r, c1) (pverts L) -> In (r, c2) (pverts L) -> c1 = c2.
Proof.
  intros H. pose proof (pf_rows_nodup _ H) as Hnd. clear H.
  induction (pverts L) as [|[a b] l IH]; intros r c1 c2 H1 H2; [destruct H1|].
  simpl in Hnd. inversion Hnd as [|x y Hx Hy]; subst.
  destruct H1 as [E1|H1], H2 as [E2|H2].
  - congruence.
  - injection E1 as <- <-. exfalso. apply Hx.
    apply in_map_iff. exists (a, c2). auto.
  - injection E2 as <- <-. exfalso. apply Hx.
    apply in_map_iff. exists (a, c1). auto.
  - now apply (IH Hy r).
Qed.

Lemma pf_row_in L : apath L ->
  forall r c, In (r, c) L -> In r (map fst (pverts L)).
Proof.
  intros H r c Hin. apply (pf_split _ H) in Hin. destruct Hin as [Hin|Hin].
  - apply in_map_iff. exists (r, c). auto.
  - destruct (pf_srow _ H r c Hin) as (c' & Hc').
    apply in_map_iff. exists (r, c'). auto.
Qed.

Lemma pf_nodup L : apath L -> NoDup L.
Proof.
  induction 1 as [|r c L r' c' HL IH Hr' Hc' Hst Hp].
  - constructor; auto. constructor.
  - assert (Hfresh : ~ In r' (map fst (pverts ((r, c) :: L)))).
    { intros Hin. pose proof (pf_rank_le _ _ _ HL r' Hin) as Hle.
      destruct (pf_head_idx _ _ _ HL) as [Hr Hc].
      destruct (Hchain r c r' Hr Hc Hr' (pf_head_prime _ _ _ HL) Hst) as [Hlt _].
      lia. }
    constructor; [|constructor; auto].
    + intros [E|Hin].
      * injection E as <-. now apply (star_not_prime r' c).
      * apply Hfresh. now apply (pf_row_in _ HL r' c').
    + intros Hin. apply Hfresh. now apply (pf_row_in _ HL r' c).
Qed.

(** ** The loop of phase 5 builds such a path *)

(** The buffer holds the path in its first places. *)
Definition path_ok (path : imat2) (L : list (Z * Z)) : Prop :=
  length path = (2 * n)%nat /\ firstn (length L) path = rev L.

Lemma step_five_loop_spec : forall k r c L path col,
  apath ((r, c) :: L) -> (rk r <= k)%nat -> path_ok path ((r, c) :: L) ->
  exists L' path',
    ev (fun f => step_five_loop f M path n col (Z.of_nat (length ((r, c) :: L))))
       (Z.of_nat (length L'), path') /\
    apath L' /\ path_ok path' L' /\
    (forall a b L0, L' = (a, b) :: L0 -> forall r2, idx n r2 -> ~ star M r2 b).
Proof.
  intros k. induction k as [k IH] using lt_wf_ind.
  intros r c L path col HL Hk [Hlen Hfirst].
  pose proof (pf_bound _ HL) as Hbd. simpl length in Hbd, Hfirst.
  remember (Z.of_nat (length ((r, c) :: L))) as pc eqn:Hpc.
  simpl length in Hpc.
  set (i0 := S (length L)) in *.
  assert (Hhead : nth (length L) path (0, 0) = (r, c)).
  { rewrite (nth_firstn_eq path _ i0 (length L) (0, 0) Hfirst) by (unfold i0; lia).
    simpl rev. rewrite app_nth2 by (rewrite length_rev; lia).
    rewrite length_rev, Nat.sub_diag. reflexivity. }
  assert (Hget : path_get path (pc - 1) = Ok (r, c)).
  { replace (pc - 1) with (Z.of_nat (length L)) by lia.
    rewrite path_get_ok by lia. now rewrite Hhead. }
  destruct (pf_head_idx _ _ _ HL) as [Hr Hc].
  pose proof (pf_head_prime _ _ _ HL) as Hp.
  destruct (find_star_in_col_spec c M n) as [[E Hno]|[Hi Hst]].
  - exists ((r, c) :: L), path. splits; auto.
    + exists 1%nat. intros [|f] Hf; [lia|]. rewrite step_five_loop_S.
      rewrite Hget. cbn [bind snd]. cbv zeta. rewrite E. simpl length. fold i0.
      now rewrite Hpc.
    + split; auto.
    + intros a b L0 E0. injection E0 as <- <- <-. exact Hno.
  - set (r' := find_star_in_col c M n) in *.
    destruct (Hchain r c r' Hr Hc Hi Hp Hst) as [Hlt (cx & Hcx & Hpx)].
    set (c' := find_prime_in_row r' col M n).
    assert (Hc' : idx n c' /\ prime M r' c').
    { unfold c'. destruct (find_prime_in_row_spec r' col M n) as [[_ Hnone]|H]; auto.
      exfalso. apply (Hnone cx); auto. }
    destruct Hc' as [Hc' Hp'].
    assert (HL2 : apath ((r', c') :: (r', c) :: (r, c) :: L)) by (now apply ap_ext).
    pose proof (pf_bound _ HL2) as Hbd2. simpl length in Hbd2.
    set (p2 := upd path i0 (r', c)). set (p4 := upd p2 (S i0) (r', c')).
    assert (Hlt' : (rk r' < k)%nat) by lia.
    destruct (IH (rk r') Hlt' r' c' ((r', c) :: (r, c) :: L) p4 c' HL2 (le_n _))
      as (L' & path' & [f1 Hf1] & HL' & Hok' & Hlast').
    { split.
      - unfold p4, p2. rewrite !length_upd. auto.
      - simpl length. fold i0. unfold p4.
        rewrite firstn_upd_last by (unfold p2; rewrite length_upd; lia).
        unfold p2. rewrite firstn_upd_last by lia. rewrite Hfirst.
        simpl rev. reflexivity. }
    exists L', path'. splits; auto.
    exists (S f1). intros [|f] Hf; [lia|]. rewrite step_five_loop_S.
    rewrite Hget. cbn [bind snd]. cbv zeta. fold r'.
    destruct (Z.gtb_spec r' (-1)) as [_|Hbad]; [|idx_tac].
    replace (pc + 1 - 1) with (Z.of_nat i0) by lia.
    replace (pc + 1 - 2) with (Z.of_nat (length L)) by lia.
    replace (pc + 1 + 1 - 2) with (Z.of_nat i0) by lia.
    replace (pc + 1 + 1 - 1) with (Z.of_nat (S i0)) by lia.
    rewrite path_set0_ok by lia. cbn [bind].
    rewrite path_get_ok by (rewrite length_upd; lia).
    rewrite nth_upd_ne by (unfold i0; lia). rewrite Hhead. cbn [bind snd].
    rewrite path_set1_ok by (rewrite length_upd; lia). cbn [bind].
    rewrite nth_upd_eq by lia. rewrite upd_upd. cbn [fst]. fold p2.
    rewrite path_get_ok by (unfold p2; rewrite length_upd; lia). cbn [bind].
    assert (Hn2 : nth i0 p2 (0, 0) = (r', c)) by (unfold p2; apply nth_upd_eq; lia).
    rewrite Hn2. cbn [fst]. fold c'.
    rewrite path_set0_ok by (unfold p2; rewrite length_upd; lia). cbn [bind].
    rewrite path_set1_ok by (rewrite length_upd; unfold p2; rewrite length_upd; lia).
    cbn [bind]. rewrite nth_upd_eq by (unfold p2; rewrite length_upd; lia).
    rewrite upd_upd. cbn [fst]. fold p4.
    replace (pc + 1 + 1) with (Z.of_nat (length ((r', c) :: (r, c) :: L)) + 1)
      by (simpl length; lia).
    replace (Z.of_nat (length ((r', c) :: (r, c) :: L)) + 1)
      with (Z.of_nat (length ((r', c') :: (r', c) :: (r, c) :: L)))
      by (simpl length; lia).
    apply Hf1. lia.
Qed.

(** ** Flipping the path *)

Section Flip.

Variables (L : list (Z * Z)) (M' : mat).
Hypothesis HL : apath L.
Hypothesis Hlast : forall r c L0, L = (r, c) :: L0 ->
  forall r2, idx n r2 -> ~ star M r2 c.
Hypothesis Hmarks : marks012 n M.
Hypothesis Hin' : forall r c, idx n r -> idx n c -> In (r, c) L ->
  mat_at M' r c = if mat_at M r c =? 1 then 0 else 1.
Hypothesis Hout' : forall r c, idx n r -> idx n c -> ~ In (r, c) L ->
  mat_at M' r c = if mat_at M r c =? 2 then 0 else mat_at M r c.

Lemma in_path_dec r c : In (r, c) L \/ ~ In (r, c) L.
Proof.
  destruct (in_dec (fun x y : Z * Z =>
    ltac:(decide equality; apply Z.eq_dec) : {x = y} + {x <> y}) (r, c) L); auto.
Qed.

Lemma flip_star r c : idx n r -> idx n c ->
  (star M' r c <->
   (In (r, c) (pverts L) \/ (star M r c /\ ~ In (r, c) L))).
Proof.
  intros Hr Hc. unfold star at 1.
  destruct (in_path_dec r c) as [Hin|Hnin].
  - rewrite Hin' by auto. apply (pf_split _ HL) in Hin as Hin2.
    destruct Hin2 as [Hp|Hs].
    + pose proof (pf_prime _ HL r c Hp) as E. unfold prime in E. rewrite E. simpl.
      tauto.
    + pose proof (pf_star _ HL r c Hs) as E. unfold star in E. rewrite E. simpl.
      split; [lia|]. intros [Hp|[_ Hn]]; [|tauto].
      exfalso. apply (star_not_prime r c); auto. now apply (pf_prime _ HL).
  - rewrite Hout' by auto.
    assert (Hnp : ~ In (r, c) (pverts L)).
    { intros Hp. apply Hnin. apply (pf_split _ HL). auto. }
    unfold star.
    destruct (Hmarks r c Hr Hc) as [E|[E|E]]; rewrite E; simpl; split;
      try lia; try tauto; intros [Hp|[Hs _]]; try tauto; lia.
Qed.

Lemma flip_marks01 : marks01 n M'.
Proof.
  intros r c Hr Hc. destruct (in_path_dec r c) as [Hin|Hnin].
  - rewrite Hin' by auto. destruct (mat_at M r c =? 1); auto.
  - rewrite Hout' by auto.
    destruct (Hmarks r c Hr Hc) as [E|[E|E]]; rewrite E; simpl; auto.
Qed.

(** The star in the column of a prime of the path is on the path. *)
Lemma pf_pcol r c r2 : In (r, c) (pverts L) -> idx n r2 -> star M r2 c ->
  In (r2, c) (sverts L).
Proof.
  intros Hin Hr2 Hs2.
  destruct (apath_cons _ HL) as (a & b & L0 & E).
  pose proof HL as HL'. rewrite E in HL', Hin |- *.
  destruct (Z.eq_dec r a) as [->|Hne]; [destruct (Z.eq_dec c b) as [->|Hne]|].
  - exfalso. apply (Hlast a b L0 E r2); auto.
  - apply (pf_pcol_tail a b L0 HL' a c r2); auto. congruence.
  - apply (pf_pcol_tail a b L0 HL' r c r2); auto. congruence.
Qed.

Lemma flip_row_unique : row_unique n M'.
Proof.
  intros r c1 c2 Hr Hc1 Hc2 S1 S2.
  apply flip_star in S1, S2; auto.
  destruct S1 as [P1|[S1 N1]], S2 as [P2|[S2 N2]].
  - now apply (pf_prows _ HL r).
  - exfalso. apply N2. apply (pf_split _ HL). right. now apply (pf_prow _ HL r c1).
  - exfalso. apply N1. apply (pf_split _ HL). right. now apply (pf_prow _ HL r c2).
  - now apply (Hrow r).
Qed.

Lemma flip_col_unique : col_unique n M'.
Proof.
  intros c r1 r2 Hc Hr1 Hr2 S1 S2.
  apply flip_star in S1, S2; auto.
  destruct S1 as [P1|[S1 N1]], S2 as [P2|[S2 N2]].
  - now apply (pf_pcols _ HL r1 r2 c).
  - exfalso. apply N2. apply (pf_split _ HL). right. now apply (pf_pcol r1 c).
  - exfalso. apply N1. apply (pf_split _ HL). right. now apply (pf_pcol r2 c).
  - now apply (Hcol c).
Qed.

Lemma flip_star_zero C :
  star_zero n C M -> prime_zero n C M -> star_zero n C M'.
Proof.
  intros H1 H2 r c Hr Hc Hs. apply flip_star in Hs; auto.
  destruct Hs as [Hp|[Hs _]].
  - apply H2; auto. now apply (pf_prime _ HL).
  - now apply H1.
Qed.

(** A row that had a star keeps one, and the row of the seed gets one. *)
Lemma flip_row_keeps r :
  idx n r -> (exists c, idx n c /\ star M r c) -> exists c, idx n c /\ star M' r c.
Proof.
  intros Hr (c & Hc & Hs). destruct (in_path_dec r c) as [Hin|Hnin].
  - apply (pf_split _ HL) in Hin. destruct Hin as [Hp|Hs'].
    + exfalso. apply (star_not_prime r c); auto. now apply (pf_prime _ HL).
    + destruct (pf_srow _ HL r c Hs') as (c' & Hp').
      exists c'. destruct (pf_pverts_idx _ HL r c' Hp') as [_ Hc'].
      split; auto. apply flip_star; auto.
  - exists c. split; auto. apply flip_star; auto.
Qed.

Lemma flip_col_keeps c :
  idx n c -> (exists r, idx n r /\ star M r c) -> exists r, idx n r /\ star M' r c.
Proof.
  intros Hc (r & Hr & Hs). destruct (in_path_dec r c) as [Hin|Hnin].
  - apply (pf_split _ HL) in Hin. destruct Hin as [Hp|Hs'].
    + exfalso. apply (star_not_prime r c); auto. now apply (pf_prime _ HL).
    + destruct (pf_scol _ HL r c Hs') as (r' & Hp').
      exists r'. destruct (pf_pverts_idx _ HL r' c Hp') as [Hr' _].
      split; auto. apply flip_star; auto.
  - exists r. split; auto. apply flip_star; auto.
Qed.

Lemma flip_seed_star : star M' r0 c0.
Proof. apply flip_star; auto. left. now apply pf_seed. Qed.

Lemma flip_starless : (starless M' n < starless M n)%nat.
Proof.
  unfold starless. apply (count_if_lt _ _ n r0); auto.
  - intros r Hr H. apply negb_true_iff in H. apply negb_true_iff.
    destruct (star_in_row r M n) eqn:E; auto. exfalso.
    apply star_in_row_true in E.
    destruct (flip_row_keeps r Hr E) as (c' & Hc' & Hs').
    pose proof (proj1 (star_in_row_false r M' n) H) as Hno.
    now apply (Hno c').
  - apply negb_false_iff. apply star_in_row_true. exists c0. split; auto.
    apply flip_seed_star.
  - apply negb_true_iff. now apply star_in_row_false.
Qed.

End Flip.

End Path.


(** ** Phase 5 as a whole *)

Lemma marks01_012 n M : marks01 n M -> marks012 n M.
Proof. intros H r c Hr Hc. destruct (H r c Hr Hc); auto. Qed.

Lemma marks01_no_prime n M r c : marks01 n M -> idx n r -> idx n c -> ~ prime M r c.
Proof. intros H Hr Hc Hp. unfold prime in Hp. destruct (H r c Hr Hc); lia. Qed.

Lemma step_five_spec n input C M RC CC (path : imat2) r0 c0 :
  base n input C M -> seeded n M r0 c0 -> length path = (2 * n)%nat ->
  exists pc path1 M',
    ev (fun f => step_five_path f M path r0 c0 n) (pc, path1) /\
    1 <= pc <= 2 * Z.of_nat n - 1 /\
    ev (fun f => step_five f M RC CC path r0 c0 n)
       (3%nat, M', fill RC 0, fill CC 0, path1) /\
    length path1 = (2 * n)%nat /\
    base n input C M' /\ marks01 n M' /\
    (starless M' n < starless M n)%nat /\
    (forall c, idx n c -> (exists r, idx n r /\ star M r c) ->
               exists r, idx n r /\ star M' r c).
Proof.
  intros Hb [(rk & Hchain) Hr0 Hc0 Hp0 Hns0 Hfree] Hlen.
  destruct Hb as [bC bM bdual bnn bmarks bstar0 bprime0 brow bcol].
  assert (Hn : (1 <= n)%nat) by idx_tac.
  set (path0 := upd path 0 (r0, c0)).
  assert (Hok0 : path_ok n path0 [(r0, c0)]).
  { split.
    - unfold path0. now rewrite length_upd.
    - unfold path0. simpl length. rewrite firstn_upd_last by lia. reflexivity. }
  destruct (step_five_loop_spec n M r0 c0 rk Hchain Hr0 Hc0 Hp0 (rk r0) r0 c0 [] path0 (-1)
              (ap_seed n M r0 c0) (le_n _) Hok0)
    as (L' & path1 & [f1 Hf1] & HL' & [Hlen1 Hfirst1] & Hlast).
  pose proof (pf_bound n M r0 c0 rk Hchain Hr0 Hc0 Hp0 L' HL') as Hbd.
  destruct (apath_cons n M r0 c0 L' HL') as (a & b & L0 & EL).
  assert (Hpath : forall f, (f1 <= f)%nat ->
            step_five_path f M path r0 c0 n = Ok (Z.of_nat (length L'), path1)).
  { intros f Hf. unfold step_five_path.
    change (1 - 1) with (Z.of_nat 0).
    rewrite path_set0_ok by lia. cbn [bind].
    rewrite path_set1_ok by (rewrite length_upd; lia). cbn [bind].
    rewrite nth_upd_eq by lia. rewrite upd_upd. cbn [fst]. fold path0.
    now apply Hf1. }
  (* the marks after the flip *)
  set (M2 := fold_left toggle (rev L') M).
  destruct (flip_all_spec n (rev L') M bM) as [Hsh2 Hat2].
  { apply NoDup_rev. apply (pf_nodup n M r0 c0 rk Hchain Hr0 Hc0 Hp0 L' HL'). }
  { intros r c Hin. apply in_rev in Hin. apply (pf_idx n M r0 c0 Hr0 Hc0 L' HL' r c Hin). }
  fold M2 in Hsh2, Hat2.
  destruct (erase_primes_spec M2 n Hsh2) as [Hsh3 Hat3].
  set (M3 := erase_primes M2 n) in *.
  assert (Hin3 : forall r c, idx n r -> idx n c -> In (r, c) L' ->
            mat_at M3 r c = if mat_at M r c =? 1 then 0 else 1).
  { intros r c Hr Hc Hin. rewrite Hat3 by auto.
    destruct (Hat2 r c Hr Hc) as [-> _]; [|now apply -> in_rev].
    now destruct (mat_at M r c =? 1). }
  assert (Hout3 : forall r c, idx n r -> idx n c -> ~ In (r, c) L' ->
            mat_at M3 r c = if mat_at M r c =? 2 then 0 else mat_at M r c).
  { intros r c Hr Hc Hin. rewrite Hat3 by auto.
    destruct (Hat2 r c Hr Hc) as [_ ->]; auto.
    intros H. apply Hin. now apply <- in_rev. }
  pose proof (flip_marks01 n M L' M3 bmarks Hin3 Hout3) as Hm01.
  exists (Z.of_nat (length L')), path1, M3. splits; auto.
  - exists f1. exact Hpath.
  - rewrite EL. simpl length. lia.
  - lia.
  - exists f1. intros f Hf. unfold step_five. rewrite Hpath by auto. cbn [bind].
    rewrite augment_path_spec by lia. rewrite Hfirst1. reflexivity.
  - constructor; auto.
    + now apply marks01_012.
    + apply (flip_star_zero n M r0 c0 Hp0 L' M3 HL' bmarks Hin3 Hout3 C); auto.
    + intros r c Hr Hc Hp. exfalso. now apply (marks01_no_prime n M3 r c).
    + apply (flip_row_unique n M r0 c0 rk brow Hchain Hr0 Hc0 Hp0 Hns0 L' M3 HL'); auto.
    + apply (flip_col_unique n M r0 c0 rk bcol Hchain Hr0 Hc0 Hp0 L' M3 HL'); auto.
  - apply (flip_starless n M r0 c0 Hr0 Hc0 Hp0 Hns0 L' M3 HL'); auto.
  - apply (flip_col_keeps n M r0 c0 Hr0 Hc0 Hp0 L' M3 HL'); auto.
Qed.

(** ** One turn of the dispatcher *)

(** What a turn of the dispatcher changes, by phase. *)
Definition turn (s s' : state) : Prop :=
  N s' = N s /\ input_cost s' = input_cost s /\
  match step s with
  | 1%nat =>
      step s' = 2%nat /\ indM s' = indM s /\
      forall r c, idx (N s) r -> idx (N s) c ->
        mat_at (cost s') r c = mat_at (cost s) r c - vec_min (mat_row (cost s) r)
  | 2%nat => step s' = 3%nat /\ cost s' = cost s
  | 3%nat =>
      (step s' = 4%nat \/ step s' = 7%nat) /\ cost s' = cost s /\ indM s' = indM s /\
      rcov s' = rcov s
  | 4%nat =>
      cost s' = cost s /\
      (forall r c, star (indM s') r c <-> star (indM s) r c) /\
      (step s' = 5%nat \/
       (step s' = 6%nat /\
        ((urows (rcov s') (N s) < urows (rcov s) (N s))%nat \/
         (indM s' = indM s /\ rcov s' = rcov s /\ ccov s' = ccov s))))
  | 5%nat =>
      step s' = 3%nat /\ cost s' = cost s /\
      (starless (indM s') (N s) < starless (indM s) (N s))%nat /\
      (forall c, idx (N s) c -> (exists r, idx (N s) r /\ star (indM s) r c) ->
                 exists r, idx (N s) r /\ star (indM s') r c)
  | 6%nat =>
      step s' = 4%nat /\ indM s' = indM s /\ rcov s' = rcov s /\ ccov s' = ccov s /\
      cost s' = snd (step_six (cost s) (rcov s) (ccov s) (N s))
  | _ => True
  end.

Lemma Inv_turn_one input s :
  Inv input s -> step s = 1%nat ->
  exists s', ev (fun fuel => dispatch fuel s) s' /\ Inv input s' /\ turn s s'.
Proof.
  intros HI Hs. pose proof HI as HI0.
  destruct HI as [i_input0 i_N0 i_square0 i_cost0 i_indM0 i_rcov0 i_ccov0 i_path0 i_phase0].
  destruct (Inv_step_one input s HI0 Hs) as (s' & Hd & HI' & Hs').
  exists s'. splits; auto.
  - exists 0%nat. intros f _. apply Hd.
  - specialize (Hd 0%nat). unfold dispatch in Hd. rewrite Hs in Hd.
    destruct (step_one_spec (cost s) (N s) i_cost0) as (E1 & _ & E3).
    destruct (step_one (cost s) (N s)) as [st c] eqn:E. simpl in E1, E3.
    injection Hd as <-.
    unfold turn. simpl. rewrite Hs. splits; auto.
    intros r c' Hr Hc'. now apply E3.
Qed.

Lemma Inv_turn_two input s :
  Inv input s -> step s = 2%nat ->
  exists s', ev (fun fuel => dispatch fuel s) s' /\ Inv input s' /\ turn s s'.
Proof.
  intros HI Hs.
  destruct (Inv_step_two input s HI Hs) as (s' & Hd & HI' & Hs').
  exists s'. splits; auto.
  - exists 0%nat. intros f _. apply Hd.
  - specialize (Hd 0%nat). unfold dispatch in Hd. rewrite Hs in Hd.
    destruct (step_two (cost s) (indM s) (rcov s) (ccov s) (N s)) as [[[st M] rc] cc].
    injection Hd as <-. unfold turn. simpl. rewrite Hs. splits; auto.
Qed.

Lemma Inv_turn_three input s :
  Inv input s -> step s = 3%nat ->
  exists s', ev (fun fuel => dispatch fuel s) s' /\ Inv input s' /\ turn s s'.
Proof.
  intros HI Hs.
  destruct (Inv_step_three input s HI Hs) as (s' & Hd & HI' & Hs' & E1 & E2 & E3).
  exists s'. splits; auto.
  - exists 0%nat. intros f _. apply Hd.
  - specialize (Hd 0%nat). unfold dispatch in Hd. rewrite Hs in Hd.
    destruct (step_three (indM s) (ccov s) (N s)) as [st cc].
    injection Hd as <-. unfold turn. simpl. rewrite Hs. simpl in Hs'. splits; auto.
Qed.

Lemma Inv_turn_four input s :
  Inv input s -> step s = 4%nat ->
  exists s', ev (fun fuel => dispatch fuel s) s' /\ Inv input s' /\ turn s s'.
Proof.
  intros [i_input0 i_N0 i_square0 i_cost0 i_indM0 i_rcov0 i_ccov0 i_path0 i_phase0] Hs.
  unfold phase_inv in i_phase0. rewrite Hs in i_phase0.
  destruct i_phase0 as (Hb & Hse).
  assert (Hn : (1 <= N s)%nat).
  { destruct (s_free _ _ _ _ Hse) as (c & Hc & _). idx_tac. }
  destruct (step_four_loop_spec (N s) input (cost s) (rpath_0 s) (cpath_0 s) 4%nat Hn
              (urows (rcov s) (N s)) (indM s) (rcov s) (ccov s) (le_n _) Hb Hse)
    as (st & M' & RC' & CC' & r0' & c0' & [f0 Hf0] & Hb' & Hrc' & Hcc' & Hst & Hcase).
  exists (mkState (input_cost s) (N s) st c0' r0' (cost s) M' RC' CC' (path s)).
  splits.
  - exists f0. intros f Hf. unfold dispatch. rewrite Hs. unfold step_four.
    rewrite Hf0 by auto. reflexivity.
  - constructor; simpl; auto.
    + apply Hb'.
    + unfold phase_inv. simpl.
      destruct Hcase as [(-> & Hs' & Hnz & _)|(-> & Hsd)]; auto.
  - unfold turn. simpl. rewrite Hs. splits; auto.
    destruct Hcase as [(-> & Hs' & Hnz & Hprog)|(-> & Hsd)]; auto.
Qed.

Lemma Inv_turn_five input s :
  Inv input s -> step s = 5%nat ->
  exists s', ev (fun fuel => dispatch fuel s) s' /\ Inv input s' /\ turn s s' /\
    exists pc path1,
      ev (fun f => step_five_path f (indM s) (path s) (rpath_0 s) (cpath_0 s) (N s))
         (pc, path1) /\
      1 <= pc <= 2 * Z.of_nat (N s) - 1.
Proof.
  intros [i_input0 i_N0 i_square0 i_cost0 i_indM0 i_rcov0 i_ccov0 i_path0 i_phase0] Hs.
  unfold phase_inv in i_phase0. rewrite Hs in i_phase0.
  destruct i_phase0 as (Hb & Hsd).
  destruct (step_five_spec (N s) input (cost s) (indM s) (rcov s) (ccov s) (path s)
              (rpath_0 s) (cpath_0 s) Hb Hsd i_path0)
    as (pc & path1 & M' & Hpath & Hpc & [f0 Hf0] & Hlen & Hb' & Hm01 & Hless & Hkeep).
  exists (mkState (input_cost s) (N s) 3%nat (cpath_0 s) (rpath_0 s) (cost s) M'
                  (fill (rcov s) 0) (fill (ccov s) 0) path1).
  splits.
  - exists f0. intros f Hf. unfold dispatch. rewrite Hs.
    rewrite Hf0 by auto. reflexivity.
  - constructor; simpl; auto.
    + apply Hb'.
    + unfold vshape. now rewrite length_fill.
    + unfold vshape. now rewrite length_fill.
    + unfold phase_inv. simpl. splits; auto; intros i; apply vec_at_fill0.
  - unfold turn. simpl. rewrite Hs. splits; auto.
  - exists pc, path1. auto.
Qed.

Lemma Inv_turn_six input s :
  Inv input s -> step s = 6%nat ->
  exists s', ev (fun fuel => dispatch fuel s) s' /\ Inv input s' /\ turn s s'.
Proof.
  intros HI Hs.
  destruct (Inv_step_six input s HI Hs) as (s' & Hd & HI' & Hs' & E1 & E2 & E3 & E4 & E5).
  exists s'. splits; auto.
  - exists 0%nat. intros f _. apply Hd.
  - unfold turn. rewrite Hs.
    splits; auto; rewrite (i_input _ _ HI'), (i_input _ _ HI); reflexivity.
Qed.

Lemma Inv_step_range input s : Inv input s -> (1 <= step s <= 7)%nat.
Proof.
  intros HI. pose proof (i_phase _ _ HI) as H. unfold phase_inv in H.
  destruct (step s) as [|[|[|[|[|[|[|[|k]]]]]]]]; try lia; tauto.
Qed.

Lemma Inv_turn input s :
  Inv input s -> step s <> 7%nat ->
  exists s', ev (fun fuel => dispatch fuel s) s' /\ Inv input s' /\ turn s s'.
Proof.
  intros HI Hs. pose proof (Inv_step_range _ _ HI) as Hr.
  destruct (step s) as [|[|[|[|[|[|[|k]]]]]]] eqn:E; try lia.
  - now apply Inv_turn_one.
  - now apply Inv_turn_two.
  - now apply Inv_turn_three.
  - now apply Inv_turn_four.
  - destruct (Inv_turn_five input s HI E) as (s' & H1 & H2 & H3 & _). eauto.
  - now apply Inv_turn_six.
Qed.


(** ** Runs of the dispatcher *)

(** [reaches s s']: the dispatcher, started in [s], comes to [s']. *)
Inductive reaches : state -> state -> Prop :=
| reaches_refl s : reaches s s
| reaches_step s s1 s2 :
    step s <> 7%nat -> ev (fun f => dispatch f s) s1 -> reaches s1 s2 -> reaches s s2.

Lemma reaches_one s s1 :
  step s <> 7%nat -> ev (fun f => dispatch f s) s1 -> reaches s s1.
Proof. intros H1 H2. eapply reaches_step; eauto. apply reaches_refl. Qed.

Lemma reaches_trans s1 s2 s3 : reaches s1 s2 -> reaches s2 s3 -> reaches s1 s3.
Proof.
  induction 1 as [|s s1 s2 Hs Hd Hr IH]; auto.
  intros H. eapply reaches_step; eauto.
Qed.

Lemma reaches_loop s s' :
  reaches s s' -> step s' = 7%nat -> ev (fun f => hungarian_loop f s) s'.
Proof.
  induction 1 as [s|s s1 s2 Hs [f1 Hd] Hr IH]; intros H7.
  - exists 1%nat. intros [|f] Hf; [lia|]. rewrite hungarian_loop_S.
    now rewrite H7.
  - destruct (IH H7) as [f2 Hf2].
    exists (S (Nat.max f1 f2)). intros [|f] Hf; [lia|]. rewrite hungarian_loop_S.
    destruct (Nat.eqb_spec (step s) 7) as [E|_]; [contradiction|].
    rewrite Hd by lia. cbn [bind]. apply Hf2. lia.
Qed.

Lemma stars_same_starless M M' n :
  (forall r c, star M' r c <-> star M r c) -> starless M' n = starless M n.
Proof.
  intros H. unfold starless. apply count_if_ext. intros r Hr. f_equal.
  destruct (star_in_row r M n) eqn:E.
  - apply star_in_row_true. apply star_in_row_true in E.
    destruct E as (c & Hc & Hs). exists c. split; auto. now apply H.
  - apply star_in_row_false. intros c Hc Hs.
    apply (proj1 (star_in_row_false r M n) E c Hc). now apply H.
Qed.

(** ** The search ends: phases 4 and 6 lead to phase 5 *)

Lemma uncovered_cell_bound input s :
  Inv input s -> step s = 6%nat ->
  exists k r c, idx (N s) r /\ idx (N s) c /\
    vec_at (rcov s) r = 0 /\ vec_at (ccov s) c = 0 /\
    mat_at (cost s) r c <= Z.of_nat k * DBL_MAX.
Proof.
  intros HI Hs. pose proof (i_phase _ _ HI) as Hp. unfold phase_inv in Hp.
  rewrite Hs in Hp. destruct Hp as (Hb & Hse & _).
  destruct (search_uncovered _ _ _ _ _ _ Hb Hse) as (r & c & Hr & Hc & H1 & H2).
  exists (Z.to_nat (mat_at (cost s) r c)), r, c. splits; auto.
  pose proof (b_nonneg _ _ _ _ Hb r c Hr Hc). pose proof DBL_MAX_pos. nia.
Qed.

Lemma six_reaches_five input : forall u k s,
  Inv input s -> step s = 6%nat -> (urows (rcov s) (N s) <= u)%nat ->
  (exists r c, idx (N s) r /\ idx (N s) c /\
     vec_at (rcov s) r = 0 /\ vec_at (ccov s) c = 0 /\
     mat_at (cost s) r c <= Z.of_nat k * DBL_MAX) ->
  exists s5, reaches s s5 /\ Inv input s5 /\ step s5 = 5%nat /\
    starless (indM s5) (N s5) = starless (indM s) (N s) /\ N s5 = N s.
Proof.
  intros u. induction u as [u IHu] using lt_wf_ind.
  intros k. induction k as [k IHk] using lt_wf_ind.
  intros s HI Hs Hu (r & c & Hr & Hc & Hrc & Hcc & Hle).
  pose proof (i_phase _ _ HI) as Hp. unfold phase_inv in Hp.
  rewrite Hs in Hp. destruct Hp as (Hb & Hse & Hnz).
  destruct (Inv_turn_six input s HI Hs) as (s4 & Hd4 & HI4 & T4).
  destruct T4 as (TN4 & _ & T4). rewrite Hs in T4.
  destruct T4 as (Hs4 & EM4 & ER4 & EC4 & Ecost4).
  destruct (step_six_inv _ _ _ _ _ _ Hb Hse Hnz) as (_ & Hm & Hat & Hnew).
  rewrite <- Ecost4 in Hat, Hnew.
  destruct (find_smallest_spec DBL_MAX (cost s) (rcov s) (ccov s) (N s)) as (_ & Hmin & _).
  destruct (Inv_turn_four input s4 HI4 Hs4) as (s' & Hd' & HI' & T').
  destruct T' as (TN' & _ & T'). rewrite Hs4 in T'.
  destruct T' as (Ecost' & Hst' & Hcase).
  assert (Hne6 : step s <> 7%nat) by lia.
  assert (Hne4 : step s4 <> 7%nat) by lia.
  assert (Hreach : reaches s s').
  { eapply reaches_step; eauto. now apply reaches_one. }
  assert (Hless : starless (indM s') (N s') = starless (indM s) (N s)).
  { rewrite TN', TN4, <- EM4. now apply stars_same_starless. }
  destruct Hcase as [H5|[H6 Hprog]].
  - exists s'. splits; auto. lia.
  - destruct Hprog as [Hlt|(EM' & ER' & EC')].
    + destruct (uncovered_cell_bound input s' HI' H6) as (k' & Hcell').
      rewrite TN4, ER4 in Hlt.
      assert (Hu' : (urows (rcov s') (N s) < u)%nat) by lia.
      destruct (IHu _ Hu' k' s' HI' H6) as (s5 & R5 & I5 & S5 & L5 & N5); auto.
      * rewrite TN', TN4. lia.
      * exists s5. splits; auto.
        -- eapply reaches_trans; eauto.
        -- now rewrite L5.
        -- lia.
    + destruct Hnew as [Em|(r1 & c1 & Hr1 & Hc1 & Hz)].
      * (* the sentinel was subtracted: the bound on the cell falls *)
        specialize (Hmin r c Hr Hc Hrc Hcc). rewrite Em in Hmin.
        pose proof DBL_MAX_pos as Hpos.
        assert (Hk : (1 <= k)%nat) by nia.
        assert (Hk' : (k - 1 < k)%nat) by lia.
        destruct (IHk _ Hk' s' HI' H6) as (s5 & R5 & I5 & S5 & L5 & N5).
        -- rewrite TN', TN4, ER', ER4. lia.
        -- exists r, c. rewrite TN', TN4, ER', ER4, EC', EC4, Ecost'. splits; auto.
           rewrite Hat by auto. unfold six_cell. rewrite Hrc, Hcc, Em. simpl. nia.
        -- exists s5. splits; auto.
           ++ eapply reaches_trans; eauto.
           ++ now rewrite L5.
           ++ lia.
      * (* a new zero is uncovered, yet phase 4 found none *)
        exfalso. pose proof (i_phase _ _ HI') as Hp'. unfold phase_inv in Hp'.
        rewrite H6 in Hp'. destruct Hp' as (_ & _ & Hnz').
        apply (Hnz' r1 c1); try (rewrite TN', TN4; auto).
        rewrite Ecost', ER', EC', ER4, EC4. exact Hz.
Qed.

Lemma four_reaches_five input s :
  Inv input s -> step s = 4%nat ->
  exists s5, reaches s s5 /\ Inv input s5 /\ step s5 = 5%nat /\
    starless (indM s5) (N s5) = starless (indM s) (N s) /\ N s5 = N s.
Proof.
  intros HI Hs.
  destruct (Inv_turn_four input s HI Hs) as (s' & Hd' & HI' & T').
  destruct T' as (TN' & _ & T'). rewrite Hs in T'.
  destruct T' as (Ecost' & Hst' & Hcase).
  assert (Hne : step s <> 7%nat) by lia.
  assert (Hless : starless (indM s') (N s') = starless (indM s) (N s)).
  { rewrite TN'. now apply stars_same_starless. }
  destruct Hcase as [H5|[H6 _]].
  - exists s'. splits; auto. now apply reaches_one.
  - destruct (uncovered_cell_bound input s' HI' H6) as (k' & Hcell').
    destruct (six_reaches_five input _ k' s' HI' H6 (le_n _) Hcell')
      as (s5 & R5 & I5 & S5 & L5 & N5).
    exists s5. splits; auto.
    + eapply reaches_step; eauto.
    + now rewrite L5.
    + lia.
Qed.

(** ** Every augmentation stars one more row: phase 7 is reached *)

Lemma three_reaches_seven input : forall m s,
  Inv input s -> step s = 3%nat -> (starless (indM s) (N s) <= m)%nat ->
  exists s7, reaches s s7 /\ Inv input s7 /\ step s7 = 7%nat.
Proof.
  induction m as [m IH] using lt_wf_ind. intros s HI Hs Hm.
  destruct (Inv_turn_three input s HI Hs) as (s' & Hd' & HI' & T').
  destruct T' as (TN' & _ & T'). rewrite Hs in T'.
  destruct T' as (Hcase & Ecost' & EM' & ER').
  assert (Hne : step s <> 7%nat) by lia.
  destruct Hcase as [H4|H7].
  - destruct (four_reaches_five input s' HI' H4) as (s5 & R5 & I5 & S5 & L5 & N5).
    destruct (Inv_turn_five input s5 I5 S5) as (s3 & Hd3 & HI3 & T3 & _).
    destruct T3 as (TN3 & _ & T3). rewrite S5 in T3.
    destruct T3 as (Hs3 & _ & Hlt & _).
    assert (Hlt' : (starless (indM s3) (N s3) < m)%nat).
    { rewrite TN3. rewrite L5, EM', TN' in Hlt. lia. }
    destruct (IH _ Hlt' s3 HI3 Hs3 (le_n _)) as (s7 & R7 & I7 & S7).
    exists s7. splits; auto.
    eapply reaches_step; eauto.
    eapply reaches_trans; eauto.
    eapply reaches_step; eauto. lia.
  - exists s'. splits; auto. now apply reaches_one.
Qed.

(** An n x n matrix: n rows of n entries. *)
Definition square (n : nat) (input : mat) : Prop :=
  length input = n /\ Forall (fun row => length row = n) input.

Lemma square_mshape n input : square n input -> mshape (length input) input.
Proof.
  intros [H1 H2]. rewrite H1. split; auto.
  intros r Hr. unfold mat_row. destruct (Z.ltb_spec r 0); [idx_tac|].
  rewrite Forall_forall in H2. apply H2. apply nth_In. idx_tac.
Qed.

Lemma hungarian_reaches_seven fr input :
  mshape (length input) input ->
  exists s7, reaches (init_state fr input) s7 /\ Inv input s7 /\ step s7 = 7%nat.
Proof.
  intros Hsq. pose proof (Inv_init fr input Hsq) as HI.
  destruct (Inv_turn_one input _ HI eq_refl) as (s2 & Hd2 & HI2 & T2).
  destruct T2 as (_ & _ & T2). simpl in T2. destruct T2 as (Hs2 & _).
  destruct (Inv_turn_two input _ HI2 Hs2) as (s3 & Hd3 & HI3 & T3).
  destruct T3 as (_ & _ & T3). rewrite Hs2 in T3. destruct T3 as (Hs3 & _).
  destruct (three_reaches_seven input _ s3 HI3 Hs3 (le_n _)) as (s7 & R7 & I7 & S7).
  exists s7. splits; auto.
  eapply reaches_step; eauto; [simpl; lia|].
  eapply reaches_step; eauto. lia.
Qed.

Lemma hungarian_run_total fr input :
  mshape (length input) input ->
  exists s7, ev (fun f => hungarian_run fr f input) s7 /\ Inv input s7 /\ step s7 = 7%nat.
Proof.
  intros Hsq. destruct (hungarian_reaches_seven fr input Hsq) as (s7 & R7 & I7 & S7).
  exists s7. splits; auto. now apply reaches_loop.
Qed.

(** ** The states a solve goes through *)

Inductive reachable (fr : fresh) (input : mat) : state -> Prop :=
| reach_init : reachable fr input (init_state fr input)
| reach_turn s s' fuel :
    reachable fr input s -> step s <> 7%nat -> dispatch fuel s = Ok s' ->
    reachable fr input s'.

Lemma turn_unique input s s' fuel :
  Inv input s -> step s <> 7%nat -> dispatch fuel s = Ok s' ->
  Inv input s' /\ turn s s'.
Proof.
  intros HI Hs Hd. destruct (Inv_turn input s HI Hs) as (s1 & He & HI1 & T1).
  assert (E : Ok s' = Ok s1).
  { apply (ev_mono_unique (fun f => dispatch f s) s1 fuel); auto.
    - apply dispatch_mono.
    - discriminate. }
  injection E as ->. auto.
Qed.

Lemma reachable_Inv fr input s :
  mshape (length input) input -> reachable fr input s -> Inv input s.
Proof.
  intros Hsq. induction 1 as [|s s' fuel Hr IH Hs Hd].
  - now apply Inv_init.
  - now apply (turn_unique input s s' fuel).
Qed.


(** ** Assignments and their cost *)

Definition ones_in_row (M : mat) (n : nat) (r : Z) : nat :=
  count_if (fun c => mat_at M r c =? 1) n.

Definition ones_in_col (M : mat) (n : nat) (c : Z) : nat :=
  count_if (fun r => mat_at M r c =? 1) n.

(** An n x n matrix of zeros and ones with one 1 in every row and column. *)
Definition is_assignment (n : nat) (M : mat) : Prop :=
  square n M /\
  (forall r c, idx n r -> idx n c -> mat_at M r c = 0 \/ mat_at M r c = 1) /\
  (forall r, idx n r -> ones_in_row M n r = 1%nat) /\
  (forall c, idx n c -> ones_in_col M n c = 1%nat).

Fixpoint sum_to (n : nat) (f : Z -> Z) : Z :=
  match n with
  | O => 0
  | S k => sum_to k f + f (Z.of_nat k)
  end.

(** The sum of the input costs at the cells marked 1. *)
Definition assignment_cost (input M : mat) (n : nat) : Z :=
  sum_to n (fun r => sum_to n (fun c =>
    if mat_at M r c =? 1 then mat_at input r c else 0)).

(** The cost of giving row r the column [nth r p]. *)
Definition perm_cost (input : mat) (p : list Z) : Z :=
  sum_to (length p) (fun r => mat_at input r (nth (Z.to_nat r) p 0)).

Definition zsum (l : list Z) : Z := fold_right Z.add 0 l.

Lemma count_if_false p n :
  (forall i, idx n i -> p i = false) -> count_if p n = 0%nat.
Proof.
  induction n as [|n IH]; intros H; simpl; auto.
  rewrite IH by (intros i Hi; apply H; idx_tac).
  rewrite (H (Z.of_nat n)) by idx_tac. reflexivity.
Qed.

Lemma count_if_unique_le p n :
  (forall i j, idx n i -> idx n j -> p i = true -> p j = true -> i = j) ->
  (count_if p n <= 1)%nat.
Proof.
  induction n as [|n IH]; intros H; simpl; auto.
  destruct (p (Z.of_nat n)) eqn:E.
  - rewrite count_if_false; auto.
    intros i Hi. destruct (p i) eqn:Ei; auto.
    assert (i = Z.of_nat n); [|idx_tac].
    apply H; auto; idx_tac.
  - assert ((count_if p n <= 1)%nat); [|lia].
    apply IH. intros i j Hi Hj. apply H; idx_tac.
Qed.

Lemma count_if_one p n :
  (exists i, idx n i /\ p i = true) ->
  (forall i j, idx n i -> idx n j -> p i = true -> p j = true -> i = j) ->
  count_if p n = 1%nat.
Proof.
  intros (i & Hi & Hp) Hu.
  pose proof (count_if_unique_le p n Hu).
  pose proof (count_if_pos p n i Hi Hp). lia.
Qed.

Lemma sum_to_ext n f g :
  (forall i, idx n i -> f i = g i) -> sum_to n f = sum_to n g.
Proof.
  induction n as [|n IH]; intros H; simpl; auto.
  rewrite IH by (intros i Hi; apply H; idx_tac).
  rewrite (H (Z.of_nat n)) by idx_tac. reflexivity.
Qed.

Lemma sum_to_le n f g :
  (forall i, idx n i -> f i <= g i) -> sum_to n f <= sum_to n g.
Proof.
  induction n as [|n IH]; intros H; simpl; [lia|].
  assert (sum_to n f <= sum_to n g) by (apply IH; intros i Hi; apply H; idx_tac).
  assert (f (Z.of_nat n) <= g (Z.of_nat n)) by (apply H; idx_tac). lia.
Qed.

Lemma sum_to_add n f g :
  sum_to n (fun i => f i + g i) = sum_to n f + sum_to n g.
Proof. induction n as [|n IH]; simpl; auto. rewrite IH. lia. Qed.

Lemma sum_to_zero n : sum_to n (fun _ => 0) = 0.
Proof. induction n as [|n IH]; simpl; auto. rewrite IH. lia. Qed.

Lemma sum_to_swap n m (f : Z -> Z -> Z) :
  sum_to n (fun r => sum_to m (fun c => f r c)) =
  sum_to m (fun c => sum_to n (fun r => f r c)).
Proof.
  induction n as [|n IH]; simpl.
  - now rewrite sum_to_zero.
  - rewrite IH.
    now rewrite (sum_to_add m (fun c => sum_to n (fun r => f r c))
                   (fun c => f (Z.of_nat n) c)).
Qed.

Lemma sum_to_count n (p : Z -> bool) a :
  sum_to n (fun i => if p i then a else 0) = a * Z.of_nat (count_if p n).
Proof.
  induction n as [|n IH]; simpl; [lia|].
  rewrite IH. destruct (p (Z.of_nat n)); lia.
Qed.

Lemma zsum_app l1 l2 : zsum (l1 ++ l2) = zsum l1 + zsum l2.
Proof. induction l1 as [|h t IH]; simpl; auto. rewrite IH. lia. Qed.

Lemma zsum_perm l1 l2 : Permutation l1 l2 -> zsum l1 = zsum l2.
Proof. induction 1; simpl; lia. Qed.

Lemma range_S n : range (S n) = range n ++ [Z.of_nat n].
Proof. unfold range. rewrite seq_S, map_app. reflexivity. Qed.

Lemma sum_to_range n f : sum_to n f = zsum (map f (range n)).
Proof.
  induction n as [|n IH]; [reflexivity|].
  cbn [sum_to]. rewrite range_S, map_app, zsum_app, IH. simpl. lia.
Qed.

Lemma sum_to_nth (g : Z -> Z) (p : list Z) :
  sum_to (length p) (fun r => g (nth (Z.to_nat r) p 0)) = zsum (map g p).
Proof.
  induction p as [|x p IH] using rev_ind; simpl; auto.
  rewrite length_app, Nat.add_1_r. simpl.
  rewrite map_app, zsum_app. simpl.
  rewrite Nat2Z.id, app_nth2, Nat.sub_diag by lia. simpl.
  rewrite <- IH. f_equal; [|lia].
  apply sum_to_ext. intros i Hi. now rewrite app_nth1 by idx_tac.
Qed.

(** ** The result of a solve *)

(** What holds of the state in which the dispatcher stops. *)
Lemma final_assignment input s :
  Inv input s -> step s = 7%nat -> is_assignment (N s) (indM s).
Proof.
  intros HI Hs. pose proof (i_phase _ _ HI) as Hp. unfold phase_inv in Hp.
  rewrite Hs in Hp. destruct Hp as (Hb & Hm & Hcols).
  assert (Hrows : forall r, idx (N s) r -> exists c, idx (N s) c /\ star (indM s) r c).
  { apply surjective_rows; auto. apply (b_row _ _ _ _ Hb). }
  unfold is_assignment. splits; auto.
  - destruct (i_indM _ _ HI) as [Hl Hr]. split; [exact Hl|].
    apply Forall_forall. intros row Hin.
    apply (In_nth _ _ []) in Hin. destruct Hin as (k & Hk & <-).
    specialize (Hr (Z.of_nat k)). unfold mat_row in Hr.
    destruct (Z.ltb_spec (Z.of_nat k) 0); [lia|].
    rewrite Nat2Z.id in Hr. apply Hr. idx_tac.
  - intros r Hr. unfold ones_in_row. apply count_if_one.
    + destruct (Hrows r Hr) as (c & Hc & Hst). exists c. split; auto.
      now apply Z.eqb_eq.
    + intros i j Hi Hj Ei Ej. apply Z.eqb_eq in Ei, Ej.
      now apply (b_row _ _ _ _ Hb r).
  - intros c Hc. unfold ones_in_col. apply count_if_one.
    + destruct (Hcols c Hc) as (r & Hr & Hst). exists r. split; auto.
      now apply Z.eqb_eq.
    + intros i j Hi Hj Ei Ej. apply Z.eqb_eq in Ei, Ej.
      now apply (b_col _ _ _ _ Hb c).
Qed.

Lemma final_optimal input s p :
  Inv input s -> step s = 7%nat -> Permutation p (range (N s)) ->
  assignment_cost input (indM s) (N s) <= perm_cost input p.
Proof.
  intros HI Hs Hperm.
  destruct (final_assignment input s HI Hs) as (_ & _ & Hrow1 & Hcol1).
  pose proof (i_phase _ _ HI) as Hp. unfold phase_inv in Hp.
  rewrite Hs in Hp. destruct Hp as (Hb & Hm & Hcols).
  destruct (b_dual _ _ _ _ Hb) as (u & v & Huv).
  set (n := N s) in *. set (M := indM s) in *.
  assert (Hcost : assignment_cost input M n = sum_to n u + sum_to n v).
  { unfold assignment_cost.
    rewrite (sum_to_ext n _ (fun r =>
      sum_to n (fun c => if mat_at M r c =? 1 then u r else 0) +
      sum_to n (fun c => if mat_at M r c =? 1 then v c else 0))).
    - rewrite sum_to_add. f_equal.
      + apply sum_to_ext. intros r Hr. rewrite sum_to_count.
        fold (ones_in_row M n r). rewrite Hrow1 by auto. lia.
      + rewrite (sum_to_swap n n (fun r c => if mat_at M r c =? 1 then v c else 0)).
        apply sum_to_ext. intros c Hc. rewrite sum_to_count.
        fold (ones_in_col M n c). rewrite Hcol1 by auto. lia.
    - intros r Hr. rewrite <- sum_to_add. apply sum_to_ext. intros c Hc.
      destruct (Z.eqb_spec (mat_at M r c) 1) as [E|E]; [|lia].
      pose proof (b_star0 _ _ _ _ Hb r c Hr Hc E) as H0.
      rewrite (Huv r c Hr Hc) in H0. lia. }
  rewrite Hcost.
  assert (Hlen : length p = n).
  { rewrite (Permutation_length Hperm). apply length_range. }
  assert (Hidx : forall r, idx n r -> idx n (nth (Z.to_nat r) p 0)).
  { intros r Hr. apply in_range. apply (Permutation_in _ Hperm).
    apply nth_In. idx_tac. }
  unfold perm_cost. rewrite Hlen.
  apply Z.le_trans with
    (sum_to n (fun r => u r + v (nth (Z.to_nat r) p 0))).
  - rewrite sum_to_add. apply Z.add_le_mono_l.
    pose proof (sum_to_nth v p) as E. rewrite Hlen in E. rewrite E.
    rewrite (sum_to_range n v).
    rewrite (zsum_perm _ _ (Permutation_map v Hperm)). lia.
  - apply sum_to_le. intros r Hr.
    pose proof (Huv r _ Hr (Hidx r Hr)) as E.
    pose proof (b_nonneg _ _ _ _ Hb r _ Hr (Hidx r Hr)). fold n in E. lia.
Qed.

Lemma hungarian_result fr input n :
  square n input ->
  exists s, ev (fun fuel => hungarian_run fr fuel input) s /\
            ev (fun fuel => hungarian fr fuel input) (indM s) /\
            Inv input s /\ step s = 7%nat /\ N s = n.
Proof.
  intros Hsq. destruct (hungarian_run_total fr input (square_mshape n input Hsq))
    as (s & [f0 Hf0] & HI & Hs).
  exists s. splits; auto.
  - exists f0. exact Hf0.
  - exists f0. intros f Hf. unfold hungarian. rewrite Hf0 by auto. reflexivity.
  - rewrite (i_N _ _ HI). apply Hsq.
Qed.


(** ** Reachable states by running the dispatcher *)

(** At most [k] turns of the dispatcher. *)
Fixpoint turns (fuel k : nat) (s : state) : res state :=
  match k with
  | O => Ok s
  | S k' =>
      if Nat.eqb (step s) 7 then Ok s
      else bind (dispatch fuel s) (turns fuel k')
  end.

Lemma turns_reachable fr input fuel : forall k s s',
  reachable fr input s -> turns fuel k s = Ok s' -> reachable fr input s'.
Proof.
  induction k as [|k IH]; intros s s' Hr H; simpl in H.
  - injection H as <-. exact Hr.
  - destruct (Nat.eqb_spec (step s) 7) as [E|E].
    + injection H as <-. exact Hr.
    + destruct (dispatch fuel s) as [s1| |] eqn:Hd; simpl in H; try discriminate.
      apply (IH s1 s'); auto. now apply (reach_turn fr input s s1 fuel).
Qed.

Lemma square_shape n input : square n input -> mshape n input.
Proof.
  intros H. pose proof (square_mshape n input H) as Hm.
  destruct H as [Hl _]. now rewrite Hl in Hm.
Qed.

Lemma reachable_N fr n input s :
  square n input -> reachable fr input s -> Inv input s /\ N s = n.
Proof.
  intros Hsq Hr.
  pose proof (reachable_Inv fr input s (square_mshape n input Hsq) Hr) as HI.
  split; auto. rewrite (i_N _ _ HI). apply Hsq.
Qed.

(** ** The caller's matrix *)



(** ** The bound that keeps the sentinel of phase 6 out *)

(** No row of the input spreads over DBL_MAX or more. *)
Definition row_spread_ok (input : mat) : bool :=
  forallb (fun row =>
    forallb (fun x => forallb (fun y => x - y <? DBL_MAX) row) row) input.

Lemma row_spread_ok_spec n input :
  square n input -> row_spread_ok input = true ->
  forall r c c', idx n r -> idx n c -> idx n c' ->
    mat_at input r c - mat_at input r c' < DBL_MAX.
Proof.
  intros Hsq H r c c' Hr Hc Hc'.
  pose proof (square_shape n input Hsq) as [Hl Hrow].
  unfold row_spread_ok in H. rewrite forallb_forall in H.
  assert (Hin : In (mat_row input r) input).
  { unfold mat_row. destruct (Z.ltb_spec r 0); [idx_tac|]. apply nth_In. idx_tac. }
  specialize (H _ Hin). rewrite forallb_forall in H.
  assert (H1 : In (mat_at input r c) (mat_row input r)).
  { apply vec_at_in. now rewrite Hrow. }
  assert (H2 : In (mat_at input r c') (mat_row input r)).
  { apply vec_at_in. now rewrite Hrow. }
  specialize (H _ H1). rewrite forallb_forall in H.
  specialize (H _ H2). now apply Z.ltb_lt in H.
Qed.

Lemma fold_left_min_in t : forall x, In (fold_left Z.min t x) (x :: t).
Proof.
  induction t as [|h t IH]; intros x; simpl; auto.
  destruct (IH (Z.min x h)) as [E|Hin]; auto.
  rewrite <- E. destruct (Z.min_spec x h) as [[_ ->]|[_ ->]]; auto.
Qed.

Lemma vec_min_in v : v <> [] -> In (vec_min v) v.
Proof.
  destruct v as [|x t]; [congruence|]. intros _. apply fold_left_min_in.
Qed.

(** In a column without a star every cost is below DBL_MAX. *)
Definition free_bound (s : state) : Prop :=
  (2 <= step s)%nat ->
  forall c, idx (N s) c -> (forall r, idx (N s) r -> ~ star (indM s) r c) ->
  forall r, idx (N s) r -> mat_at (cost s) r c < DBL_MAX.

Lemma free_bound_turn n input s s' :
  square n input -> row_spread_ok input = true ->
  Inv input s -> Inv input s' -> step s <> 7%nat -> turn s s' ->
  free_bound s -> free_bound s'.
Proof.
  intros Hsq Hspread HI HI' Hs7 (TN & _ & T) Hfb.
  pose proof (Inv_step_range _ _ HI) as Hrange.
  pose proof (i_phase _ _ HI) as Hp. unfold phase_inv in Hp.
  assert (HN : N s = n) by (rewrite (i_N _ _ HI); apply Hsq).
  unfold free_bound in *. rewrite TN.
  destruct (step s) as [|[|[|[|[|[|[|k]]]]]]] eqn:Es; try lia.
  - (* phase 1 *)
    destruct T as (_ & _ & Hat). destruct Hp as (Ec & _).
    intros _ c Hc _ r Hr. rewrite Hat by auto. rewrite Ec.
    assert (Hne : mat_row input r <> []).
    { destruct (square_shape n input Hsq) as [_ Hrow].
      intros E. specialize (Hrow r). rewrite E in Hrow. simpl in Hrow.
      rewrite HN in Hr. specialize (Hrow Hr). idx_tac. }
    pose proof (vec_min_in _ Hne) as Hin.
    apply (In_nth _ _ 0) in Hin. destruct Hin as (k & Hk & Ek).
    destruct (square_shape n input Hsq) as [_ Hrow].
    rewrite HN in Hr, Hc. rewrite (Hrow r Hr) in Hk.
    assert (E : vec_min (mat_row input r) = mat_at input r (Z.of_nat k)).
    { unfold mat_at, vec_at. destruct (Z.ltb_spec (Z.of_nat k) 0); [lia|].
      now rewrite Nat2Z.id. }
    rewrite E. apply (row_spread_ok_spec n input Hsq Hspread); auto. idx_tac.
  - (* phase 2 *)
    destruct T as (_ & Ec). destruct Hp as (_ & _ & H0).
    intros _ c Hc _ r Hr. rewrite Ec. apply Hfb; auto.
    intros r' Hr' Hst. unfold star in Hst. rewrite H0 in Hst; auto. lia.
  - (* phase 3 *)
    destruct T as (_ & Ec & EM & _).
    intros _ c Hc Hfree r Hr. rewrite Ec. rewrite EM in Hfree. apply Hfb; auto; lia.
  - (* phase 4 *)
    destruct T as (Ec & Hst & _).
    intros _ c Hc Hfree r Hr. rewrite Ec. apply Hfb; auto; try lia.
    intros r' Hr' Hs'. apply (Hfree r'); auto. now apply Hst.
  - (* phase 5 *)
    destruct T as (_ & Ec & _ & Hkeep).
    intros _ c Hc Hfree r Hr. rewrite Ec. apply Hfb; auto; try lia.
    intros r' Hr' Hs'. destruct (Hkeep c Hc) as (r2 & Hr2 & Hs2); [eauto|].
    now apply (Hfree r2).
  - (* phase 6 *)
    destruct T as (_ & EM & ER & EC & Ec). destruct Hp as (Hb & Hse & Hnz).
    destruct (step_six_inv _ _ _ _ _ _ Hb Hse Hnz) as (_ & Hm & Hat & _).
    intros _ c Hc Hfree r Hr. rewrite Ec, Hat by auto. rewrite EM in Hfree.
    assert (Hcc : vec_at (ccov s) c = 0).
    { destruct (s_cc01 _ _ _ _ Hse c Hc) as [H|H]; auto.
      destruct (s_ccstar _ _ _ _ Hse c Hc H) as (r' & Hr' & Hst).
      exfalso. now apply (Hfree r'). }
    assert (Hold : mat_at (cost s) r c < DBL_MAX) by (apply Hfb; auto; lia).
    unfold six_cell. rewrite Hcc. simpl.
    destruct (vec_at (rcov s) r =? 1); lia.
Qed.

Lemma reachable_free_bound fr n input s :
  square n input -> row_spread_ok input = true ->
  reachable fr input s -> free_bound s.
Proof.
  intros Hsq Hspread. induction 1 as [|s s' fuel Hr IH Hs Hd].
  - unfold free_bound. simpl. lia.
  - destruct (reachable_N fr n input s Hsq Hr) as [HI _].
    destruct (turn_unique input s s' fuel HI Hs Hd) as [HI' T].
    now apply (free_bound_turn n input s s').
Qed.

(** ** The view of an R matrix *)

Lemma arma_mat_square m k : square k (arma_mat m k k).
Proof.
  unfold arma_mat. split.
  - now rewrite length_map, length_seq.
  - apply Forall_forall. intros row Hin. apply in_map_iff in Hin.
    destruct Hin as (r & <- & _). now rewrite length_map, length_seq.
Qed.

(** The input the counterexample and the witnesses run on. *)
Definition example3 : mat := [[1; 1; 1]; [2; 1; 2]; [2; 1; 2]].


(** * Marks and covers of a run on doubles

    The phases read the costs in two ways: phases 2 and 4 test them against
    zero, phases 1 and 6 compute with them.  What the solver does to marks,
    covers and path is therefore decided by the pattern of zeros alone, and
    the invariant of the exact model carries over to a run on doubles: at
    every turn an exact cost matrix with the same zeros, where the phase
    looks, stands in for the doubles. *)

(** ** Matrices given by a pattern of zeros *)

Definition pattern (z : Z -> Z -> bool) (n : nat) : mat :=
  map (fun r => map (fun c => if z (Z.of_nat r) (Z.of_nat c) then 0 else 1) (seq 0 n))
      (seq 0 n).

Lemma nth_map_seq {A : Type} (f : nat -> A) n i d :
  (i < n)%nat -> nth i (map f (seq 0 n)) d = f i.
Proof.
  intros H.
  rewrite (nth_indep _ d (f 0%nat)) by (rewrite length_map, length_seq; lia).
  rewrite (map_nth f (seq 0 n) 0%nat i). now rewrite seq_nth.
Qed.

Lemma mat_row_pattern z n r :
  idx n r ->
  mat_row (pattern z n) r = map (fun c => if z r (Z.of_nat c) then 0 else 1) (seq 0 n).
Proof.
  intros Hr. unfold mat_row, pattern.
  destruct (Z.ltb_spec r 0); [idx_tac|].
  rewrite nth_map_seq by idx_tac. now rewrite Z2Nat.id by idx_tac.
Qed.

Lemma mat_at_pattern z n r c :
  idx n r -> idx n c -> mat_at (pattern z n) r c = if z r c then 0 else 1.
Proof.
  intros Hr Hc. unfold mat_at. rewrite mat_row_pattern by auto. unfold vec_at.
  destruct (Z.ltb_spec c 0); [idx_tac|].
  rewrite nth_map_seq by idx_tac. now rewrite Z2Nat.id by idx_tac.
Qed.

Lemma length_pattern z n : length (pattern z n) = n.
Proof. unfold pattern. now rewrite length_map, length_seq. Qed.

Lemma mshape_pattern z n : mshape n (pattern z n).
Proof.
  split; [apply length_pattern|].
  intros r Hr. rewrite mat_row_pattern by auto. now rewrite length_map, length_seq.
Qed.

(** ** The exact matrix that stands in for the doubles *)

(** [cost.at(r, c) == 0.0] *)
Definition zero_at (F : IEEE.fmat) (r c : Z) : bool :=
  PrimFloat.eqb (IEEE.cost_at F r c) PrimFloat.zero.

(** Zero where the double is zero and at every mark, one elsewhere. *)
Definition shadow (F : IEEE.fmat) (M : mat) (n : nat) : mat :=
  pattern (fun r c => zero_at F r c || negb (mat_at M r c =? 0)) n.

(** On the cells without a mark the exact costs and the doubles have the
    same zeros. *)
Definition agree (n : nat) (F : IEEE.fmat) (C M : mat) : Prop :=
  forall r c, idx n r -> idx n c -> mat_at M r c = 0 ->
    (mat_at C r c =? 0) = zero_at F r c.

Lemma agree_shadow n F M : agree n F (shadow F M n) M.
Proof.
  intros r c Hr Hc H0. unfold shadow. rewrite mat_at_pattern by auto.
  rewrite H0. simpl. rewrite orb_false_r. now destruct (zero_at F r c).
Qed.

Lemma agree_more n F C M M1 :
  agree n F C M ->
  (forall r c, idx n r -> idx n c -> mat_at M1 r c = 0 -> mat_at M r c = 0) ->
  agree n F C M1.
Proof. intros Ha Hm r c Hr Hc H0. apply Ha; auto. Qed.

(** The invariant of the marks does not depend on which exact costs stand in. *)
Lemma rebase n input C M F :
  base n input C M -> base n (shadow F M n) (shadow F M n) M.
Proof.
  intros [bC bM bdual bnn bmarks bstar0 bprime0 brow bcol].
  constructor; auto.
  - apply mshape_pattern.
  - exists (fun _ => 0), (fun _ => 0). intros r c Hr Hc. lia.
  - intros r c Hr Hc. unfold shadow. rewrite mat_at_pattern by auto.
    destruct (zero_at F r c || negb (mat_at M r c =? 0)); lia.
  - intros r c Hr Hc Hst. unfold shadow. rewrite mat_at_pattern by auto.
    unfold star in Hst. rewrite Hst. simpl. now rewrite orb_true_r.
  - intros r c Hr Hc Hp. unfold shadow. rewrite mat_at_pattern by auto.
    unfold prime in Hp. rewrite Hp. simpl. now rewrite orb_true_r.
Qed.

(** ** Loops whose bodies agree *)

Lemma for_ext {S : Type} n (f g : Z -> S -> S) s :
  (forall i t, idx n i -> f i t = g i t) -> for_ n f s = for_ n g s.
Proof.
  induction n as [|n IH]; intros H; [reflexivity|].
  rewrite !for_S. rewrite IH by (intros i t Hi; apply H; idx_tac).
  apply H. idx_tac.
Qed.

Lemma for_break_from_ext {S : Type} (f g : Z -> S -> S * bool) n : forall l s,
  (forall i, In i l -> (i < n)%nat) ->
  (forall i t, idx n i -> f i t = g i t) ->
  for_break_from l f s = for_break_from l g s.
Proof.
  induction l as [|i l IH]; intros s Hl H; [reflexivity|].
  simpl. rewrite (H (Z.of_nat i) s).
  - destruct (g (Z.of_nat i) s) as [s' brk]. destruct brk; auto.
    apply IH; auto. intros j Hj. apply Hl. now right.
  - assert (i < n)%nat by (apply Hl; now left). idx_tac.
Qed.

Lemma for_break_ext {S : Type} n (f g : Z -> S -> S * bool) s :
  (forall i t, idx n i -> f i t = g i t) -> for_break n f s = for_break n g s.
Proof.
  intros H. unfold for_break. apply (for_break_from_ext f g n); auto.
  intros i Hi. apply in_seq in Hi. lia.
Qed.

(** ** Phases 2 and 4 see the zeros only *)

(** The test of phases 2 and 4 on doubles. *)
Definition utest (F : IEEE.fmat) (RC CC : vec) (r c : Z) : bool :=
  zero_at F r c && (vec_at RC r =? 0) && (vec_at CC c =? 0).

Lemma ieee_step_two_eq n F C M RC CC :
  (forall r c, idx n r -> idx n c -> zero_at F r c = (mat_at C r c =? 0)) ->
  IEEE.step_two F M RC CC n = step_two C M RC CC n.
Proof.
  intros H. unfold IEEE.step_two, step_two.
  assert (E : forall st : mat * vec * vec,
    for_ n (fun r st =>
      for_break n (fun c '(indM, rcov, ccov) =>
        if PrimFloat.eqb (IEEE.cost_at F r c) PrimFloat.zero
           && (vec_at rcov r =? 0) && (vec_at ccov c =? 0)
        then ((mat_set indM r c 1, vec_set rcov r 1, vec_set ccov c 1), true)
        else ((indM, rcov, ccov), false)) st) st =
    for_ n (fun r st =>
      for_break n (fun c '(indM, rcov, ccov) =>
        if (mat_at C r c =? 0) && (vec_at rcov r =? 0) && (vec_at ccov c =? 0)
        then ((mat_set indM r c 1, vec_set rcov r 1, vec_set ccov c 1), true)
        else ((indM, rcov, ccov), false)) st) st).
  { intros st. apply for_ext. intros r t Hr. apply for_break_ext.
    intros c [[m rc] cc] Hc. fold (zero_at F r c). now rewrite H. }
  now rewrite E.
Qed.

Lemma ieee_cols_S fuel F RC CC n r c row col done :
  IEEE.find_noncovered_zero_cols (S fuel) F RC CC n r c row col done =
  (let '(row, col, done) :=
     if utest F RC CC r c then (r, c, true) else (row, col, done) in
   let c := c + 1 in
   if (c =? Z.of_nat n) || done then Ok (row, col, done)
   else IEEE.find_noncovered_zero_cols fuel F RC CC n r c row col done).
Proof. reflexivity. Qed.

Lemma ieee_rows_S fuel F RC CC n r row col :
  IEEE.find_noncovered_zero_rows (S fuel) F RC CC n r row col =
  ('(row, col, done) <-
     IEEE.find_noncovered_zero_cols fuel F RC CC n r 0 row col false ;;
   let r := r + 1 in
   let done := if r =? Z.of_nat n then true else done in
   if done then Ok (row, col)
   else IEEE.find_noncovered_zero_rows fuel F RC CC n r row col).
Proof. reflexivity. Qed.

Lemma ieee_step_four_loop_S fuel F M RC CC r0 c0 n st :
  IEEE.step_four_loop (S fuel) F M RC CC r0 c0 n st =
  ('(row, col) <- IEEE.find_noncovered_zero fuel F RC CC n ;;
   if row =? -1 then Ok (6%nat, M, RC, CC, r0, c0)
   else
     indM <- mat_set_checked M row col 2 ;;
     if star_in_row row indM n then
       IEEE.step_four_loop fuel F indM
         (vec_set RC row 1) (vec_set CC (find_star_in_row row indM n) 0) r0 c0 n st
     else Ok (5%nat, indM, RC, CC, row, col)).
Proof. reflexivity. Qed.

Lemma ieee_loop_S fuel s :
  IEEE.hungarian_loop (S fuel) s =
  if Nat.eqb (IEEE.step s) 7 then Ok s
  else bind (IEEE.dispatch fuel s) (IEEE.hungarian_loop fuel).
Proof. reflexivity. Qed.

Arguments IEEE.find_noncovered_zero_cols : simpl never.
Arguments IEEE.find_noncovered_zero_rows : simpl never.
Arguments IEEE.step_four_loop : simpl never.
Arguments IEEE.hungarian_loop : simpl never.

Section Search.

Variables (n : nat) (F : IEEE.fmat) (C : mat) (RC CC : vec).
Hypothesis Hag : forall r c, idx n r -> idx n c ->
  utest F RC CC r c = uzerob C RC CC r c.

Lemma ieee_cols_eq r : idx n r ->
  forall fuel c row col done, idx n c ->
    IEEE.find_noncovered_zero_cols fuel F RC CC n r c row col done =
    find_noncovered_zero_cols fuel C RC CC n r c row col done.
Proof.
  intros Hr. induction fuel as [|fuel IH]; intros c row col done Hc; [reflexivity|].
  rewrite ieee_cols_S, find_noncovered_zero_cols_S.
  rewrite Hag by auto. fold (uzerob C RC CC r c).
  destruct (uzerob C RC CC r c); cbv zeta.
  - rewrite orb_true_r. reflexivity.
  - destruct (Z.eqb_spec (c + 1) (Z.of_nat n)) as [E|E]; simpl.
    + reflexivity.
    + destruct done; [reflexivity|]. apply IH. idx_tac.
Qed.

Lemma ieee_rows_eq : forall fuel r row col, idx n r ->
  IEEE.find_noncovered_zero_rows fuel F RC CC n r row col =
  find_noncovered_zero_rows fuel C RC CC n r row col.
Proof.
  induction fuel as [|fuel IH]; intros r row col Hr; [reflexivity|].
  rewrite ieee_rows_S, find_noncovered_zero_rows_S.
  rewrite ieee_cols_eq by (auto; idx_tac).
  destruct (find_noncovered_zero_cols fuel C RC CC n r 0 row col false)
    as [[[row' col'] done]| |]; simpl; auto.
  destruct (Z.eqb_spec (r + 1) (Z.of_nat n)) as [E|E]; [reflexivity|].
  destruct done; [reflexivity|]. apply IH. idx_tac.
Qed.

Lemma ieee_find_eq fuel : (1 <= n)%nat ->
  IEEE.find_noncovered_zero fuel F RC CC n = find_noncovered_zero fuel C RC CC n.
Proof.
  intros Hn. unfold IEEE.find_noncovered_zero, find_noncovered_zero.
  apply ieee_rows_eq. idx_tac.
Qed.

End Search.

(** Where neither the row nor the column is covered there is no mark. *)
Lemma uncovered_unmarked n input C M RC CC r c :
  base n input C M -> search n M RC CC -> idx n r -> idx n c ->
  vec_at RC r = 0 -> vec_at CC c = 0 -> mat_at M r c = 0.
Proof.
  intros Hb Hs Hr Hc H1 H2.
  destruct (b_marks _ _ _ _ Hb r c Hr Hc) as [E|[E|E]]; auto.
  - destruct (s_star _ _ _ _ Hs r c Hr Hc E) as [[? ?]|[? ?]]; lia.
  - destruct (s_prime _ _ _ _ Hs r c Hr Hc E) as [? ?]. lia.
Qed.

Lemma tests_agree n input F C M RC CC :
  base n input C M -> search n M RC CC -> agree n F C M ->
  forall r c, idx n r -> idx n c -> utest F RC CC r c = uzerob C RC CC r c.
Proof.
  intros Hb Hs Ha r c Hr Hc. unfold utest, uzerob.
  destruct (Z.eqb_spec (vec_at RC r) 0) as [E1|E1];
    [|now rewrite !andb_false_r].
  destruct (Z.eqb_spec (vec_at CC c) 0) as [E2|E2];
    [|now rewrite !andb_false_r].
  rewrite (Ha r c Hr Hc); auto.
  now apply (uncovered_unmarked n input C M RC CC).
Qed.

Lemma ieee_step_four_eq n input F C r0 c0 st :
  (1 <= n)%nat ->
  forall fuel M RC CC,
    base n input C M -> search n M RC CC -> agree n F C M ->
    IEEE.step_four_loop fuel F M RC CC r0 c0 n st =
    step_four_loop fuel C M RC CC r0 c0 n st.
Proof.
  intros Hn. induction fuel as [|fuel IH]; intros M RC CC Hb Hs Ha; [reflexivity|].
  rewrite ieee_step_four_loop_S, step_four_loop_S.
  rewrite (ieee_find_eq n F C RC CC (tests_agree n input F C M RC CC Hb Hs Ha)) by auto.
  destruct (find_noncovered_zero fuel C RC CC n) as [[row col]| |] eqn:Hf; simpl; auto.
  destruct (Z.eqb_spec row (-1)) as [E|E]; [reflexivity|].
  destruct (find_noncovered_zero_spec C RC CC n Hn) as (row' & col' & Hev & Hz).
  assert (Eq : Ok (row, col) = Ok (row', col')).
  { apply (ev_mono_unique (fun f => find_noncovered_zero f C RC CC n) (row', col') fuel);
      auto; [apply find_noncovered_zero_mono|discriminate]. }
  injection Eq as <- <-.
  destruct Hz as [[Hm _]|(Hrow & Hcol & Hz)]; [lia|].
  rewrite (primed_checked n input C M row col Hb Hrow Hcol). simpl.
  destruct (star_in_row row (mat_set M row col 2) n) eqn:Hsir; [|reflexivity].
  destruct (cover_step n input C M RC CC row col Hb Hs Hrow Hcol Hz Hsir) as [Hs1 _].
  apply IH; auto.
  - now apply (primed_base n input C M RC CC row col).
  - apply (agree_more n F C M); auto.
    intros r c Hr Hc H0.
    assert (Hd : (row = r /\ col = c) \/ (row <> r \/ col <> c)) by lia.
    destruct Hd as [[<- <-]|Hd].
    + rewrite (primed_at n input C M row col Hb Hrow Hcol) in H0. lia.
    + now rewrite (primed_other M row col r c Hd) in H0.
Qed.


(** ** The invariant of a run on doubles *)

(** The state on doubles with exact costs in the place of the doubles. *)
Definition lift (s : IEEE.state) (C : mat) : state :=
  mkState C (IEEE.N s) (IEEE.step s) (IEEE.cpath_0 s) (IEEE.rpath_0 s) C
          (IEEE.indM s) (IEEE.rcov s) (IEEE.ccov s) (IEEE.path s).

(** Some exact costs make the state satisfy the invariant of the exact
    model; where the next phase tests the costs, they have the zeros of the
    doubles. *)
Definition ieee_inv (s : IEEE.state) : Prop :=
  exists C, Inv C (lift s C) /\
    ((IEEE.step s = 2 \/ IEEE.step s = 4)%nat ->
     agree (IEEE.N s) (IEEE.cost s) C (IEEE.indM s)).

Lemma ieee_inv_init fr F : ieee_inv (IEEE.init_state fr F).
Proof.
  exists (shadow F (zeros (length F)) (length F)). split.
  - assert (E : lift (IEEE.init_state fr F) (shadow F (zeros (length F)) (length F)) =
                init_state fr (shadow F (zeros (length F)) (length F))).
    { unfold lift, init_state, IEEE.init_state. simpl.
      unfold shadow. now rewrite length_pattern. }
    rewrite E. apply Inv_init. unfold shadow. rewrite length_pattern.
    apply mshape_pattern.
  - intros _. apply agree_shadow.
Qed.

(** When phase 4 is due, the exact costs can be taken anew from the doubles. *)
Lemma rebase_search n input C M RC CC (c0 r0 : Z) (p : imat2) F :
  mshape n M -> length p = (2 * n)%nat ->
  base n input C M -> search n M RC CC ->
  Inv (shadow F M n) (mkState (shadow F M n) n 4 c0 r0 (shadow F M n) M RC CC p).
Proof.
  intros HM Hp Hb Hs. apply Build_Inv; simpl.
  - reflexivity.
  - unfold shadow. now rewrite length_pattern.
  - apply mshape_pattern.
  - apply mshape_pattern.
  - exact HM.
  - apply (s_RC _ _ _ _ Hs).
  - apply (s_CC _ _ _ _ Hs).
  - exact Hp.
  - unfold phase_inv. simpl. split; auto. now apply (rebase n input C).
Qed.

Lemma ieee_inv_turn fuel s s' :
  ieee_inv s -> IEEE.step s <> 7%nat -> IEEE.dispatch fuel s = Ok s' -> ieee_inv s'.
Proof.
  intros (C & HI & Ha) Hs7 Hd.
  pose proof (Inv_step_range C (lift s C) HI) as Hrange.
  destruct s as [inp n st c0 r0 F M RC CC p]. unfold lift in *. simpl in *.
  unfold IEEE.dispatch in Hd. simpl in Hd.
  destruct st as [|[|[|[|[|[|[|k]]]]]]]; try lia.
  - (* phase 1 *)
    unfold IEEE.step_one in Hd. injection Hd as <-.
    destruct HI as [i_input0 i_N0 i_square0 i_cost0 i_indM0 i_rcov0 i_ccov0 i_path0 i_phase0].
    simpl in *. unfold phase_inv in i_phase0. simpl in i_phase0.
    destruct i_phase0 as (_ & H0).
    match goal with |- ieee_inv (IEEE.mkState _ _ _ _ _ ?F' _ _ _ _) =>
      exists (shadow F' M n) end.
    unfold lift. simpl. split; [|intros _; apply agree_shadow].
    constructor; simpl; auto.
    + unfold shadow. now rewrite length_pattern.
    + apply mshape_pattern.
    + apply mshape_pattern.
    + unfold phase_inv. simpl. splits; auto.
      * exists (fun _ => 0), (fun _ => 0). intros r c Hr Hc. lia.
      * intros r c Hr Hc. unfold shadow. rewrite mat_at_pattern by auto.
        destruct (zero_at _ r c || negb (mat_at M r c =? 0)); lia.
  - (* phase 2 *)
    assert (H0 : forall r c, idx n r -> idx n c -> mat_at M r c = 0).
    { pose proof (i_phase _ _ HI) as Hp. unfold phase_inv in Hp. simpl in Hp. tauto. }
    rewrite (ieee_step_two_eq n F C M RC CC) in Hd
      by (intros r c Hr Hc; symmetry; apply Ha; auto).
    destruct (step_two C M RC CC n) as [[[st m] rc] cc] eqn:E2.
    injection Hd as <-.
    assert (Hx : dispatch fuel (mkState C n 2 c0 r0 C M RC CC p) =
                 Ok (mkState C n st c0 r0 C m rc cc p)).
    { unfold dispatch. simpl. now rewrite E2. }
    destruct (turn_unique C _ _ fuel HI ltac:(simpl; lia) Hx) as [HI' (_ & _ & T)].
    simpl in T. destruct T as [-> _].
    exists C. unfold lift. simpl. split; auto. intros [H|H]; discriminate.
  - (* phase 3 *)
    destruct (step_three M CC n) as [st cc] eqn:E3.
    injection Hd as <-.
    assert (Hx : dispatch fuel (mkState C n 3 c0 r0 C M RC CC p) =
                 Ok (mkState C n st c0 r0 C M RC cc p)).
    { unfold dispatch. simpl. now rewrite E3. }
    destruct (turn_unique C _ _ fuel HI ltac:(simpl; lia) Hx) as [HI' (_ & _ & T)].
    simpl in T. destruct T as [[->| ->] _].
    + exists (shadow F M n). unfold lift. simpl. split; [|intros _; apply agree_shadow].
      pose proof (i_phase _ _ HI') as Hp. unfold phase_inv in Hp. simpl in Hp.
      destruct Hp as [Hb Hse].
      apply (rebase_search n C C); auto.
      * apply (i_indM _ _ HI').
      * apply (i_path _ _ HI').
    + exists C. unfold lift. simpl. split; auto. intros [H|H]; discriminate.
  - (* phase 4 *)
    pose proof (i_phase _ _ HI) as Hp. unfold phase_inv in Hp. simpl in Hp.
    destruct Hp as [Hb Hse].
    assert (Hn : (1 <= n)%nat).
    { destruct (s_free _ _ _ _ Hse) as (c & Hc & _). idx_tac. }
    unfold IEEE.step_four in Hd.
    rewrite (ieee_step_four_eq n C F C r0 c0 4%nat Hn fuel M RC CC Hb Hse) in Hd
      by (apply Ha; auto).
    destruct (step_four_loop fuel C M RC CC r0 c0 n 4)
      as [[[[[[st m] rc] cc] r0'] c0']| |] eqn:E4; simpl in Hd; try discriminate.
    injection Hd as <-.
    assert (Hx : dispatch fuel (mkState C n 4 c0 r0 C M RC CC p) =
                 Ok (mkState C n st c0' r0' C m rc cc p)).
    { unfold dispatch. simpl. unfold step_four. now rewrite E4. }
    destruct (turn_unique C _ _ fuel HI ltac:(simpl; lia) Hx) as [HI' (_ & _ & T)].
    simpl in T. destruct T as (_ & _ & T).
    exists C. unfold lift. simpl. split; auto.
    intros [H|H]; destruct T as [T|[T _]]; congruence.
  - (* phase 5 *)
    destruct (step_five fuel M RC CC p r0 c0 n)
      as [[[[[st m] rc] cc] p']| |] eqn:E5; simpl in Hd; try discriminate.
    injection Hd as <-.
    assert (Hx : dispatch fuel (mkState C n 5 c0 r0 C M RC CC p) =
                 Ok (mkState C n st c0 r0 C m rc cc p')).
    { unfold dispatch. simpl. now rewrite E5. }
    destruct (turn_unique C _ _ fuel HI ltac:(simpl; lia) Hx) as [HI' (_ & _ & T)].
    simpl in T. destruct T as [-> _].
    exists C. unfold lift. simpl. split; auto. intros [H|H]; discriminate.
  - (* phase 6 *)
    unfold IEEE.step_six in Hd. injection Hd as <-.
    pose proof (i_phase _ _ HI) as Hp. unfold phase_inv in Hp. simpl in Hp.
    destruct Hp as (Hb & Hse & _).
    match goal with |- ieee_inv (IEEE.mkState _ _ _ _ _ ?F' _ _ _ _) =>
      exists (shadow F' M n) end.
    unfold lift. simpl. split; [|intros _; apply agree_shadow].
    apply (rebase_search n C C); auto.
    + apply (i_indM _ _ HI).
    + apply (i_path _ _ HI).
Qed.

(** No phase raises on doubles. *)
Lemma ieee_dispatch_safe fuel s msg :
  ieee_inv s -> IEEE.dispatch fuel s <> Raise msg.
Proof.
  intros (C & HI & Ha) Hd.
  pose proof (Inv_step_range C (lift s C) HI) as Hrange.
  destruct s as [inp n st c0 r0 F M RC CC p]. unfold lift in *. simpl in *.
  unfold IEEE.dispatch in Hd. simpl in Hd.
  assert (Hraise : forall f, dispatch f (mkState C n st c0 r0 C M RC CC p) <> Raise msg).
  { intros f E.
    destruct (Nat.eq_dec st 7) as [->|Hs7];
      [unfold dispatch in E; simpl in E; discriminate|].
    destruct (Inv_turn C _ HI ltac:(simpl; exact Hs7)) as (s1 & Hev & _).
    assert (Raise msg = Ok s1); [|discriminate].
    apply (ev_mono_unique (fun f => dispatch f _) s1 f (Raise msg)
             (dispatch_mono _) Hev E). discriminate. }
  destruct st as [|[|[|[|[|[|[|k]]]]]]]; try lia.
  - unfold IEEE.step_one in Hd. discriminate.
  - destruct (IEEE.step_two F M RC CC n) as [[[st m] rc] cc]. discriminate.
  - destruct (step_three M CC n) as [st cc]. discriminate.
  - pose proof (i_phase _ _ HI) as Hp. unfold phase_inv in Hp. simpl in Hp.
    destruct Hp as [Hb Hse].
    assert (Hn : (1 <= n)%nat).
    { destruct (s_free _ _ _ _ Hse) as (c & Hc & _). idx_tac. }
    unfold IEEE.step_four in Hd.
    rewrite (ieee_step_four_eq n C F C r0 c0 4%nat Hn fuel M RC CC Hb Hse) in Hd
      by (apply Ha; auto).
    apply (Hraise fuel). unfold dispatch. simpl. unfold step_four.
    destruct (step_four_loop fuel C M RC CC r0 c0 n 4)
      as [[[[[[st m] rc] cc] r0'] c0']| |]; simpl in *;
      first [discriminate Hd | injection Hd as ->; reflexivity].
  - apply (Hraise fuel). unfold dispatch. simpl.
    destruct (step_five fuel M RC CC p r0 c0 n)
      as [[[[[st m] rc] cc] p']| |]; simpl in *;
      first [discriminate Hd | injection Hd as ->; reflexivity].
  - unfold IEEE.step_six in Hd. discriminate.
  - discriminate.
Qed.

(** ** The states a run on doubles goes through *)

Inductive ieee_reachable (fr : fresh) (F : IEEE.fmat) : IEEE.state -> Prop :=
| ieee_reach_init : ieee_reachable fr F (IEEE.init_state fr F)
| ieee_reach_turn s s' fuel :
    ieee_reachable fr F s -> IEEE.step s <> 7%nat -> IEEE.dispatch fuel s = Ok s' ->
    ieee_reachable fr F s'.

Lemma ieee_reachable_inv fr F s : ieee_reachable fr F s -> ieee_inv s.
Proof.
  induction 1 as [|s s' fuel Hr IH Hs Hd].
  - apply ieee_inv_init.
  - now apply (ieee_inv_turn fuel s s').
Qed.

Lemma ieee_dispatch_N fuel s s' :
  IEEE.dispatch fuel s = Ok s' ->
  IEEE.N s' = IEEE.N s /\ IEEE.input_cost s' = IEEE.input_cost s.
Proof.
  unfold IEEE.dispatch.
  destruct (IEEE.step s) as [|[|[|[|[|[|[|k]]]]]]].
  - intros H. now injection H as <-.
  - destruct (IEEE.step_one (IEEE.cost s) (IEEE.N s)) as [st c].
    intros H. now injection H as <-.
  - destruct (IEEE.step_two (IEEE.cost s) (IEEE.indM s) (IEEE.rcov s) (IEEE.ccov s)
                (IEEE.N s)) as [[[st m] rc] cc].
    intros H. now injection H as <-.
  - destruct (step_three (IEEE.indM s) (IEEE.ccov s) (IEEE.N s)) as [st cc].
    intros H. now injection H as <-.
  - destruct (IEEE.step_four fuel 4 (IEEE.cost s) (IEEE.indM s) (IEEE.rcov s)
                (IEEE.ccov s) (IEEE.rpath_0 s) (IEEE.cpath_0 s) (IEEE.N s))
      as [[[[[[st m] rc] cc] r0] c0]| |]; simpl; try discriminate.
    intros H. now injection H as <-.
  - destruct (step_five fuel (IEEE.indM s) (IEEE.rcov s) (IEEE.ccov s) (IEEE.path s)
                (IEEE.rpath_0 s) (IEEE.cpath_0 s) (IEEE.N s))
      as [[[[[st m] rc] cc] p]| |]; simpl; try discriminate.
    intros H. now injection H as <-.
  - destruct (IEEE.step_six (IEEE.cost s) (IEEE.rcov s) (IEEE.ccov s) (IEEE.N s))
      as [st c].
    intros H. now injection H as <-.
  - intros H. now injection H as <-.
Qed.

Lemma ieee_reachable_N fr F s :
  ieee_reachable fr F s -> IEEE.N s = length F /\ IEEE.input_cost s = F.
Proof.
  induction 1 as [|s s' fuel Hr [IH1 IH2] Hs Hd]; [split; reflexivity|].
  destruct (ieee_dispatch_N fuel s s' Hd) as [E1 E2]. split; congruence.
Qed.

Lemma ieee_loop_reachable fr F : forall fuel s s',
  ieee_reachable fr F s -> IEEE.hungarian_loop fuel s = Ok s' ->
  ieee_reachable fr F s' /\ IEEE.step s' = 7%nat.
Proof.
  induction fuel as [|fuel IH]; intros s s' Hr H; [discriminate|].
  rewrite ieee_loop_S in H. destruct (Nat.eqb_spec (IEEE.step s) 7) as [E|E].
  - injection H as <-. auto.
  - destruct (IEEE.dispatch fuel s) as [s1| |] eqn:Hd; simpl in H; try discriminate.
    apply (IH s1 s'); auto. now apply (ieee_reach_turn fr F s s1 fuel).
Qed.

Lemma ieee_loop_safe : forall fuel s msg,
  ieee_inv s -> IEEE.hungarian_loop fuel s <> Raise msg.
Proof.
  induction fuel as [|fuel IH]; intros s msg HI H; [discriminate|].
  rewrite ieee_loop_S in H.
  destruct (Nat.eqb_spec (IEEE.step s) 7) as [E|E]; [discriminate|].
  destruct (IEEE.dispatch fuel s) as [s1|e|] eqn:Hd; simpl in H; try discriminate.
  - apply (IH s1 msg); auto. now apply (ieee_inv_turn fuel s s1).
  - now apply (ieee_dispatch_safe fuel s e).
Qed.

(** ** What holds of every run on doubles *)

Lemma ieee_stars_unique fr F s :
  ieee_reachable fr F s ->
  row_unique (length F) (IEEE.indM s) /\ col_unique (length F) (IEEE.indM s).
Proof.
  intros Hr. destruct (ieee_reachable_inv fr F s Hr) as (C & HI & _).
  destruct (ieee_reachable_N fr F s Hr) as [HN _].
  pose proof (i_phase _ _ HI) as Hp. unfold phase_inv in Hp. simpl in Hp.
  rewrite <- HN.
  assert (Hzero : (forall r c, idx (IEEE.N s) r -> idx (IEEE.N s) c ->
                     mat_at (IEEE.indM s) r c = 0) ->
                  row_unique (IEEE.N s) (IEEE.indM s) /\
                  col_unique (IEEE.N s) (IEEE.indM s)).
  { intros H0. split.
    - intros r c1 c2 Hi Hc1 _ Hst _. unfold star in Hst. rewrite H0 in Hst; auto. lia.
    - intros c r1 r2 Hc Hr1 _ Hst _. unfold star in Hst. rewrite H0 in Hst; auto. lia. }
  assert (Hbase : forall input C', base (IEEE.N s) input C' (IEEE.indM s) ->
                  row_unique (IEEE.N s) (IEEE.indM s) /\
                  col_unique (IEEE.N s) (IEEE.indM s)).
  { intros input C' Hb. split; [apply (b_row _ _ _ _ Hb)|apply (b_col _ _ _ _ Hb)]. }
  destruct (IEEE.step s) as [|[|[|[|[|[|[|[|k]]]]]]]]; try tauto;
    destruct Hp as [Hb _]; eapply Hbase; eauto.
Qed.

Lemma ieee_final fr F s :
  ieee_reachable fr F s -> IEEE.step s = 7%nat ->
  is_assignment (length F) (IEEE.indM s).
Proof.
  intros Hr Hs. destruct (ieee_reachable_inv fr F s Hr) as (C & HI & _).
  destruct (ieee_reachable_N fr F s Hr) as [HN _]. rewrite <- HN.
  apply (final_assignment C (lift s C) HI). exact Hs.
Qed.

Lemma ieee_turns_reachable fr F fuel : forall k s s',
  ieee_reachable fr F s -> IEEE.turns fuel k s = Ok s' -> ieee_reachable fr F s'.
Proof.
  induction k as [|k IH]; intros s s' Hr H; simpl in H.
  - injection H as <-. exact Hr.
  - destruct (Nat.eqb_spec (IEEE.step s) 7) as [E|E].
    + injection H as <-. exact Hr.
    + destruct (IEEE.dispatch fuel s) as [s1| |] eqn:Hd; simpl in H; try discriminate.
      apply (IH s1 s'); auto. now apply (ieee_reach_turn fr F s s1 fuel).
Qed.


(** ** Fuel on doubles *)

Lemma ieee_cols_mono F rcov ccov N r c row col done :
  mono (fun n => IEEE.find_noncovered_zero_cols n F rcov ccov N r c row col done).
Proof.
  unfold mono. intros n. revert c row col done.
  induction n as [|n IH]; intros c row col done rr H Hr; cbv beta in *.
  - cbv in H. congruence.
  - rewrite ieee_cols_S in H |- *; cbv zeta in *.
    destruct (utest F rcov ccov r c).
    + destruct ((c + 1 =? Z.of_nat N) || true); auto.
    + destruct ((c + 1 =? Z.of_nat N) || done); auto.
Qed.

Lemma ieee_rows_mono F rcov ccov N r row col :
  mono (fun n => IEEE.find_noncovered_zero_rows n F rcov ccov N r row col).
Proof.
  unfold mono. intros n. revert r row col.
  induction n as [|n IH]; intros r row col rr H Hr; cbv beta in *.
  - cbv in H. congruence.
  - rewrite ieee_rows_S in H |- *; cbv zeta in *.
    destruct (bind_not_fuel _ _ _ H Hr) as [(a & Ha & Hk)|(e & He & ->)].
    + rewrite (ieee_cols_mono _ _ _ _ _ _ _ _ _ n (Ok a) Ha) by congruence.
      simpl. destruct a as [[row' col'] done']. simpl in Hk.
      destruct (if r + 1 =? Z.of_nat N then true else done'); auto.
    + rewrite (ieee_cols_mono _ _ _ _ _ _ _ _ _ n (Raise e) He) by congruence.
      reflexivity.
Qed.

Lemma ieee_find_mono F rcov ccov N :
  mono (fun n => IEEE.find_noncovered_zero n F rcov ccov N).
Proof. apply ieee_rows_mono. Qed.

Lemma ieee_step_four_loop_mono F indM rcov ccov r0 c0 N st :
  mono (fun n => IEEE.step_four_loop n F indM rcov ccov r0 c0 N st).
Proof.
  unfold mono. intros n. revert indM rcov ccov.
  induction n as [|n IH]; intros indM rcov ccov rr H Hr; cbv beta in *.
  - cbv in H. congruence.
  - rewrite ieee_step_four_loop_S in H |- *; cbv zeta in *.
    destruct (bind_not_fuel _ _ _ H Hr) as [(a & Ha & Hk)|(e & He & ->)].
    + rewrite (ieee_find_mono _ _ _ _ n (Ok a) Ha) by congruence.
      simpl. destruct a as [row col]. simpl in Hk.
      destruct (row =? -1); auto.
      destruct (mat_set_checked indM row col 2) as [m|e|]; simpl in *; auto.
      destruct (star_in_row row m N); auto.
    + rewrite (ieee_find_mono _ _ _ _ n (Raise e) He) by congruence.
      reflexivity.
Qed.

Lemma ieee_dispatch_mono s : mono (fun n => IEEE.dispatch n s).
Proof.
  unfold IEEE.dispatch.
  destruct (IEEE.step s) as [|[|[|[|[|[|[|k]]]]]]]; try apply mono_const.
  - apply (mono_bind (fun n => IEEE.step_four n _ (IEEE.cost s) (IEEE.indM s)
                                 (IEEE.rcov s) (IEEE.ccov s)
                                 (IEEE.rpath_0 s) (IEEE.cpath_0 s) (IEEE.N s))).
    + apply ieee_step_four_loop_mono.
    + intros a. apply mono_const.
  - apply (mono_bind (fun n => step_five n (IEEE.indM s) (IEEE.rcov s) (IEEE.ccov s)
                                 (IEEE.path s) (IEEE.rpath_0 s) (IEEE.cpath_0 s)
                                 (IEEE.N s))).
    + apply step_five_mono.
    + intros a. apply mono_const.
Qed.



(** ** Phase 6 on doubles *)

Definition fshape (n : nat) (F : IEEE.fmat) : Prop :=
  length F = n /\ forall r, idx n r -> length (IEEE.cost_row F r) = n.

Lemma cost_at_set_same n F r c x :
  fshape n F -> idx n r -> idx n c -> IEEE.cost_at (IEEE.cost_set F r c x) r c = x.
Proof.
  intros [Hl Hrow] Hr Hc. unfold IEEE.cost_at, IEEE.cost_set, IEEE.cost_row.
  destruct (Z.ltb_spec r 0); [idx_tac|]. destruct (Z.ltb_spec c 0); [idx_tac|].
  simpl. rewrite nth_upd_eq by idx_tac. apply nth_upd_eq.
  specialize (Hrow r Hr). unfold IEEE.cost_row in Hrow.
  destruct (Z.ltb_spec r 0); [idx_tac|]. idx_tac.
Qed.

Lemma cost_at_set_other n F r c r' c' x :
  fshape n F -> idx n r -> (r <> r' \/ c <> c') ->
  IEEE.cost_at (IEEE.cost_set F r c x) r' c' = IEEE.cost_at F r' c'.
Proof.
  intros [Hl Hrow] Hr Hne. unfold IEEE.cost_at, IEEE.cost_set.
  destruct (Z.ltb_spec r 0); [idx_tac|]. simpl.
  destruct (Z.ltb_spec c 0); [reflexivity|].
  destruct (Z.ltb_spec c' 0); [reflexivity|].
  unfold IEEE.cost_row at 1.
  destruct (Z.ltb_spec r' 0); [unfold IEEE.cost_row; destruct (Z.ltb_spec r' 0); auto; lia|].
  destruct (Z.eq_dec r r') as [->|Hr'].
  - rewrite nth_upd_eq by idx_tac. apply nth_upd_ne. lia.
  - rewrite nth_upd_ne by lia. unfold IEEE.cost_row.
    destruct (Z.ltb_spec r' 0); [lia|]. reflexivity.
Qed.

Lemma fshape_set n F r c x : fshape n F -> idx n r -> fshape n (IEEE.cost_set F r c x).
Proof.
  intros [Hl Hrow] Hr. unfold IEEE.cost_set.
  destruct (Z.ltb_spec r 0); [idx_tac|]. simpl.
  destruct (Z.ltb_spec c 0); [split; auto|].
  split; [now rewrite length_upd|].
  intros r' Hr'. unfold IEEE.cost_row at 1.
  destruct (Z.ltb_spec r' 0); [idx_tac|].
  destruct (Z.eq_dec r r') as [->|Hne].
  - rewrite nth_upd_eq by idx_tac. rewrite length_upd. now apply Hrow.
  - rewrite nth_upd_ne by lia. specialize (Hrow r' Hr'). unfold IEEE.cost_row in Hrow.
    destruct (Z.ltb_spec r' 0); [lia|]. exact Hrow.
Qed.

(** A loop that rewrites every cell from its own value, on doubles. *)
Lemma for2_cellwise_f n (g : Z -> Z -> PrimFloat.float -> PrimFloat.float)
  (body : Z -> Z -> IEEE.fmat -> IEEE.fmat) F :
  fshape n F ->
  (forall r c t, idx n r -> idx n c -> fshape n t ->
     fshape n (body r c t) /\
     IEEE.cost_at (body r c t) r c = g r c (IEEE.cost_at t r c) /\
     forall r' c', (r <> r' \/ c <> c') ->
       IEEE.cost_at (body r c t) r' c' = IEEE.cost_at t r' c') ->
  let F' := for_ n (fun r t => for_ n (fun c t => body r c t) t) F in
  fshape n F' /\
  forall r c, idx n r -> idx n c -> IEEE.cost_at F' r c = g r c (IEEE.cost_at F r c).
Proof.
  intros Hm Hb F'.
  assert (H : fshape n F' /\
              forall r c, idx n r -> idx n c ->
                (visited n 0 r c -> IEEE.cost_at F' r c = g r c (IEEE.cost_at F r c)) /\
                (~ visited n 0 r c -> IEEE.cost_at F' r c = IEEE.cost_at F r c)).
  { unfold F'.
    apply (for2_ind (fun i j t =>
      fshape n t /\
      forall r c, idx n r -> idx n c ->
        (visited i j r c -> IEEE.cost_at t r c = g r c (IEEE.cost_at F r c)) /\
        (~ visited i j r c -> IEEE.cost_at t r c = IEEE.cost_at F r c))).
    - split; auto. intros r c Hr Hc. split; auto.
      unfold visited. idx_tac.
    - intros i j t Hi Hj [Ht Hv].
      destruct (Hb (Z.of_nat i) (Z.of_nat j) t) as (Hs & He & Hn); auto; try idx_tac.
      split; auto. intros r c Hr Hc.
      destruct (Z.eq_dec r (Z.of_nat i)) as [->|Hri].
      + destruct (Z.eq_dec c (Z.of_nat j)) as [->|Hcj].
        * split; intros Hvis.
          -- rewrite He. f_equal. apply Hv; auto. unfold visited. lia.
          -- exfalso. apply Hvis. unfold visited. lia.
        * rewrite Hn by auto. destruct (Hv (Z.of_nat i) c Hr Hc) as [Ha Hb'].
          split; intros Hvis.
          -- apply Ha. unfold visited in *. lia.
          -- apply Hb'. unfold visited in *. lia.
      + rewrite Hn by (left; congruence). destruct (Hv r c Hr Hc) as [Ha Hb'].
        split; intros Hvis.
        -- apply Ha. unfold visited in *. lia.
        -- apply Hb'. unfold visited in *. lia.
    - intros i t Hi [Ht Hv]. split; auto. intros r c Hr Hc.
      destruct (Hv r c Hr Hc) as [Ha Hb']. split; intros Hvis.
      + apply Ha. unfold visited in *. idx_tac.
      + apply Hb'. unfold visited in *. idx_tac. }
  destruct H as [H1 H2]. split; auto.
  intros r c Hr Hc. apply H2; auto. unfold visited. idx_tac.
Qed.

(** What phase 6 does to one cell, on doubles. *)
Definition six_cell_f (RC CC : vec) (m : PrimFloat.float) (r c : Z)
  (x : PrimFloat.float) : PrimFloat.float :=
  let x := if vec_at RC r =? 1 then PrimFloat.add x m else x in
  if vec_at CC c =? 0 then PrimFloat.sub x m else x.

Lemma ieee_step_six_spec F RC CC n :
  fshape n F ->
  fst (IEEE.step_six F RC CC n) = 4%nat /\
  fshape n (snd (IEEE.step_six F RC CC n)) /\
  forall r c, idx n r -> idx n c ->
    IEEE.cost_at (snd (IEEE.step_six F RC CC n)) r c =
    six_cell_f RC CC (IEEE.find_smallest IEEE.DBL_MAX F RC CC n) r c (IEEE.cost_at F r c).
Proof.
  intros HF. unfold IEEE.step_six. cbn [fst snd]. split; auto.
  apply (for2_cellwise_f n
           (six_cell_f RC CC (IEEE.find_smallest IEEE.DBL_MAX F RC CC n))); auto.
  intros r c t Hr Hc Ht. unfold six_cell_f.
  destruct (vec_at RC r =? 1); destruct (vec_at CC c =? 0); splits; auto.
  - now repeat apply fshape_set.
  - rewrite (cost_at_set_same n); auto using fshape_set.
    now rewrite (cost_at_set_same n).
  - intros r' c' Hne.
    rewrite (cost_at_set_other n) by auto using fshape_set.
    now rewrite (cost_at_set_other n).
  - now apply fshape_set.
  - now rewrite (cost_at_set_same n).
  - intros r' c' Hne. now rewrite (cost_at_set_other n).
  - now apply fshape_set.
  - now rewrite (cost_at_set_same n).
  - intros r' c' Hne. now rewrite (cost_at_set_other n).
Qed.

(** A square matrix of doubles. *)
Definition fsquare (n : nat) (F : IEEE.fmat) : Prop :=
  length F = n /\ Forall (fun row => length row = n) F.

Lemma fsquare_fshape n F : fsquare n F -> fshape n F.
Proof.
  intros [Hl Hall]. split; auto.
  intros r Hr. unfold IEEE.cost_row. destruct (Z.ltb_spec r 0); [idx_tac|].
  rewrite Forall_forall in Hall. apply Hall. apply nth_In. idx_tac.
Qed.


(** * The order of the doubles and the minimum of phase 6 *)

Import Floats.SpecFloat Floats.FloatOps Floats.FloatAxioms.

(** ** The order *)

(** The place of a double in the order of the doubles: its class, then its
    exponent, then its mantissa. *)
Definition sf_key (x : spec_float) : Z * Z * Z :=
  match x with
  | S754_infinity true => (-2, 0, 0)
  | S754_finite true m e => (-1, - e, - Z.pos m)
  | S754_zero _ => (0, 0, 0)
  | S754_nan => (0, 0, 0)
  | S754_finite false m e => (1, e, Z.pos m)
  | S754_infinity false => (2, 0, 0)
  end.

Definition key_le (a b : Z * Z * Z) : Prop :=
  let '(a1, a2, a3) := a in
  let '(b1, b2, b3) := b in
  a1 < b1 \/ (a1 = b1 /\ (a2 < b2 \/ (a2 = b2 /\ a3 <= b3))).

Definition key_lt (a b : Z * Z * Z) : Prop :=
  let '(a1, a2, a3) := a in
  let '(b1, b2, b3) := b in
  a1 < b1 \/ (a1 = b1 /\ (a2 < b2 \/ (a2 = b2 /\ a3 < b3))).

Ltac cmp_cases :=
  repeat match goal with
  | |- context [Z.compare ?a ?b] => destruct (Z.compare_spec a b); subst
  | |- context [Pos.compare_cont Eq ?a ?b] =>
      rewrite (Pos.compare_cont_spec a b Eq); cbn [Pos.switch_Eq];
      destruct (Pos.compare_spec a b); subst
  end.

Lemma SFleb_key x y :
  x <> S754_nan -> y <> S754_nan ->
  (SFleb x y = true <-> key_le (sf_key x) (sf_key y)).
Proof.
  unfold SFleb, SFcompare, key_le, sf_key.
  destruct x as [sx|sx| |sx mx ex]; destruct y as [sy|sy| |sy my ey];
    repeat match goal with s : bool |- _ => destruct s end;
    intros Hx Hy; try congruence;
    cmp_cases; cbn [CompOpp]; split; intros Hcmp;
    try discriminate; try reflexivity; try lia.
Qed.

Lemma SFltb_key x y :
  x <> S754_nan -> y <> S754_nan ->
  (SFltb x y = true <-> key_lt (sf_key x) (sf_key y)).
Proof.
  unfold SFltb, SFcompare, key_lt, sf_key.
  destruct x as [sx|sx| |sx mx ex]; destruct y as [sy|sy| |sy my ey];
    repeat match goal with s : bool |- _ => destruct s end;
    intros Hx Hy; try congruence;
    cmp_cases; cbn [CompOpp]; split; intros Hcmp;
    try discriminate; try reflexivity; try lia.
Qed.

Lemma SFleb_not_nan x y : SFleb x y = true -> x <> S754_nan /\ y <> S754_nan.
Proof.
  unfold SFleb, SFcompare.
  destruct x as [sx|sx| |sx mx ex]; destruct y as [sy|sy| |sy my ey];
    intros H; try discriminate; split; discriminate.
Qed.

(** [x <= y] on doubles orders the doubles that are not NaN. *)
Lemma leb_not_nan x y :
  PrimFloat.leb x y = true -> Prim2SF x <> S754_nan /\ Prim2SF y <> S754_nan.
Proof. rewrite leb_spec. apply SFleb_not_nan. Qed.

Lemma leb_trans x y z :
  PrimFloat.leb x y = true -> PrimFloat.leb y z = true -> PrimFloat.leb x z = true.
Proof.
  intros H1 H2.
  destruct (leb_not_nan _ _ H1) as [Nx Ny]. destruct (leb_not_nan _ _ H2) as [_ Nz].
  rewrite leb_spec in *.
  apply SFleb_key in H1; auto. apply SFleb_key in H2; auto. apply SFleb_key; auto.
  unfold key_le in *.
  destruct (sf_key (Prim2SF x)) as [[a1 a2] a3].
  destruct (sf_key (Prim2SF y)) as [[b1 b2] b3].
  destruct (sf_key (Prim2SF z)) as [[c1 c2] c3]. lia.
Qed.

Lemma ltb_leb x y : PrimFloat.ltb x y = true -> PrimFloat.leb x y = true.
Proof.
  rewrite ltb_spec, leb_spec. unfold SFltb, SFleb.
  destruct (SFcompare (Prim2SF x) (Prim2SF y)) as [[| |]|]; auto.
Qed.

Lemma leb_total x y :
  Prim2SF x <> S754_nan -> Prim2SF y <> S754_nan ->
  PrimFloat.ltb x y = false -> PrimFloat.leb y x = true.
Proof.
  intros Nx Ny H. rewrite leb_spec. rewrite ltb_spec in H.
  apply SFleb_key; auto.
  assert (Hn : ~ key_lt (sf_key (Prim2SF x)) (sf_key (Prim2SF y))).
  { intros K. apply SFltb_key in K; auto. congruence. }
  unfold key_le, key_lt in *.
  destruct (sf_key (Prim2SF x)) as [[a1 a2] a3].
  destruct (sf_key (Prim2SF y)) as [[b1 b2] b3]. lia.
Qed.

Lemma leb_refl x : Prim2SF x <> S754_nan -> PrimFloat.leb x x = true.
Proof.
  intros Nx. rewrite leb_spec. apply SFleb_key; auto.
  unfold key_le. destruct (sf_key (Prim2SF x)) as [[a1 a2] a3]. lia.
Qed.

(** ** Finite doubles *)

(** Neither an infinity nor NaN. *)
Definition finite (x : PrimFloat.float) : bool :=
  match Prim2SF x with
  | S754_zero _ | S754_finite _ _ _ => true
  | _ => false
  end.

Lemma Prim2SF_DBL_MAX : Prim2SF IEEE.DBL_MAX = S754_finite false 9007199254740991 971.
Proof. vm_compute. reflexivity. Qed.

Lemma digits2_pos_bound m : Z.pos m < 2 ^ Z.pos (digits2_pos m).
Proof.
  induction m as [m IH|m IH|]; cbn [digits2_pos].
  - rewrite Pos2Z.inj_succ, Z.pow_succ_r by lia. lia.
  - rewrite Pos2Z.inj_succ, Z.pow_succ_r by lia. lia.
  - reflexivity.
Qed.

(** DBL_MAX is the greatest finite double. *)
Lemma finite_leb_max x : finite x = true -> PrimFloat.leb x IEEE.DBL_MAX = true.
Proof.
  unfold finite. intros Hf. rewrite leb_spec, Prim2SF_DBL_MAX.
  pose proof (Prim2SF_valid x) as Hv.
  destruct (Prim2SF x) as [s|s| |s m e]; try discriminate.
  - reflexivity.
  - unfold SFleb, SFcompare. destruct s; [reflexivity|].
    cbn [valid_binary] in Hv. unfold bounded, canonical_mantissa in Hv.
    apply andb_true_iff in Hv. destruct Hv as [Hc He].
    apply Z.eqb_eq in Hc. apply Z.leb_le in He.
    change (emax - prec) with 971 in He.
    destruct (Z.compare_spec e 971) as [E|E|E]; try reflexivity; try lia.
    subst e. unfold fexp in Hc. change (SpecFloat.emin prec emax) with (-1074) in Hc.
    change prec with 53 in Hc.
    assert (Hd : Z.pos (digits2_pos m) = 53) by lia.
    pose proof (digits2_pos_bound m) as Hb. rewrite Hd in Hb.
    rewrite Pos.compare_cont_spec. cbn [Pos.switch_Eq].
    destruct (Pos.compare_spec m 9007199254740991) as [E|E|E]; try reflexivity.
    exfalso. change (2 ^ 53) with 9007199254740992 in Hb. lia.
Qed.

(** Only DBL_MAX lies between DBL_MAX and DBL_MAX. *)
Lemma leb_max_eq x :
  PrimFloat.leb x IEEE.DBL_MAX = true -> PrimFloat.leb IEEE.DBL_MAX x = true ->
  x = IEEE.DBL_MAX.
Proof.
  intros H1 H2. apply Prim2SF_inj.
  destruct (leb_not_nan _ _ H1) as [Nx Nm].
  rewrite leb_spec in H1, H2.
  apply SFleb_key in H1; auto. apply SFleb_key in H2; auto.
  rewrite Prim2SF_DBL_MAX in *. unfold key_le, sf_key in *.
  destruct (Prim2SF x) as [s|s| |s m e]; try congruence;
    try destruct s; try lia.
  assert (e = 971) by lia. assert (m = 9007199254740991%positive) by lia.
  congruence.
Qed.

(** The difference of a finite double and itself is zero. *)
Lemma sub_self x :
  finite x = true -> PrimFloat.eqb (PrimFloat.sub x x) PrimFloat.zero = true.
Proof.
  unfold finite. intros H. rewrite eqb_spec, sub_spec.
  destruct (Prim2SF x) as [s|s| |s m e]; try discriminate.
  - destruct s; reflexivity.
  - unfold SF64sub, SFsub. cbv zeta. rewrite Z.sub_diag. reflexivity.
Qed.

(** ** The minimum that phase 6 finds, on doubles *)

(** A cell that no cover touches. *)
Definition uncovered (n : nat) (RC CC : vec) (r c : Z) : Prop :=
  idx n r /\ idx n c /\ vec_at RC r = 0 /\ vec_at CC c = 0.

Lemma ieee_find_smallest_spec F RC CC n :
  (forall r c, uncovered n RC CC r c ->
     PrimFloat.leb (IEEE.cost_at F r c) IEEE.DBL_MAX = true) ->
  let m := IEEE.find_smallest IEEE.DBL_MAX F RC CC n in
  PrimFloat.leb m IEEE.DBL_MAX = true /\
  (forall r c, uncovered n RC CC r c -> PrimFloat.leb m (IEEE.cost_at F r c) = true) /\
  ((exists r c, uncovered n RC CC r c) ->
   exists r c, uncovered n RC CC r c /\ m = IEEE.cost_at F r c).
Proof.
  intros Hle m.
  assert (Nmax : Prim2SF IEEE.DBL_MAX <> S754_nan) by (rewrite Prim2SF_DBL_MAX; discriminate).
  assert (H : PrimFloat.leb m IEEE.DBL_MAX = true /\
    (forall r c, uncovered n RC CC r c -> visited n 0 r c ->
       PrimFloat.leb m (IEEE.cost_at F r c) = true) /\
    (m = IEEE.DBL_MAX \/ exists r c, uncovered n RC CC r c /\ m = IEEE.cost_at F r c)).
  { unfold m, IEEE.find_smallest.
    apply (for2_ind (fun i j m => PrimFloat.leb m IEEE.DBL_MAX = true /\
      (forall r c, uncovered n RC CC r c -> visited i j r c ->
         PrimFloat.leb m (IEEE.cost_at F r c) = true) /\
      (m = IEEE.DBL_MAX \/
       exists r c, uncovered n RC CC r c /\ m = IEEE.cost_at F r c))).
    - splits; auto.
      intros r c (Hr & Hc & _) Hv. unfold visited in Hv. idx_tac.
    - intros i j t Hi Hj (H1 & H2 & H3).
      assert (Hstep : forall r c, visited i (S j) r c ->
                (r = Z.of_nat i /\ c = Z.of_nat j) \/ visited i j r c)
        by (unfold visited; lia).
      destruct (Z.eqb_spec (vec_at RC (Z.of_nat i)) 0) as [E1|E1];
        [destruct (Z.eqb_spec (vec_at CC (Z.of_nat j)) 0) as [E2|E2]|]; cbn [andb].
      + assert (Hu : uncovered n RC CC (Z.of_nat i) (Z.of_nat j))
          by (unfold uncovered; splits; auto; idx_tac).
        pose proof (Hle _ _ Hu) as Hx.
        destruct (leb_not_nan _ _ Hx) as [Nx _]. destruct (leb_not_nan _ _ H1) as [Nt _].
        destruct (PrimFloat.ltb (IEEE.cost_at F (Z.of_nat i) (Z.of_nat j)) t) eqn:G.
        * splits; auto.
          -- intros r c Hrc Hv. destruct (Hstep r c Hv) as [[-> ->]|Hd].
             ++ now apply leb_refl.
             ++ apply (leb_trans _ t); auto. now apply ltb_leb.
          -- right. eauto.
        * splits; auto.
          intros r c Hrc Hv. destruct (Hstep r c Hv) as [[-> ->]|Hd]; auto.
          now apply leb_total.
      + splits; auto. intros r c Hrc Hv.
        destruct (Hstep r c Hv) as [[-> ->]|Hd]; auto.
        destruct Hrc as (_ & _ & _ & Hc0). congruence.
      + splits; auto. intros r c Hrc Hv.
        destruct (Hstep r c Hv) as [[-> ->]|Hd]; auto.
        destruct Hrc as (_ & _ & Hr0 & _). congruence.
    - intros i t Hi (H1 & H2 & H3). splits; auto.
      intros r c Hrc Hv. apply H2; auto.
      destruct Hrc as (_ & Hc & _). unfold visited in *. idx_tac. }
  destruct H as (H1 & H2 & H3).
  assert (Hall : forall r c, uncovered n RC CC r c ->
            PrimFloat.leb m (IEEE.cost_at F r c) = true).
  { intros r c Hrc. apply H2; auto. destruct Hrc as (Hr & _). unfold visited. idx_tac. }
  splits; auto.
  intros (r & c & Hrc). destruct H3 as [E|H3]; auto.
  exists r, c. split; auto. rewrite E. symmetry.
  apply leb_max_eq; [now apply Hle|]. rewrite <- E. now apply Hall.
Qed.

(** When no uncovered cost compares below DBL_MAX, as +infinity and NaN do
    not, [minval] is left at DBL_MAX. *)
Lemma ieee_find_smallest_sentinel F RC CC n :
  (forall r c, uncovered n RC CC r c ->
     PrimFloat.ltb (IEEE.cost_at F r c) IEEE.DBL_MAX = false) ->
  IEEE.find_smallest IEEE.DBL_MAX F RC CC n = IEEE.DBL_MAX.
Proof.
  intros Hno. unfold IEEE.find_smallest.
  apply (for2_inv (fun m => m = IEEE.DBL_MAX)); auto.
  intros r c t Hr Hc ->.
  destruct (Z.eqb_spec (vec_at RC r) 0) as [E1|E1];
    [destruct (Z.eqb_spec (vec_at CC c) 0) as [E2|E2]|]; cbn [andb]; auto.
  rewrite Hno; auto. unfold uncovered. auto.
Qed.


(** * A run on doubles comes to an end

    Marks and covers of a run on doubles go the way of an exact run on a
    matrix with the same zeros, so the count of covered rows and the count
    of starred rows measure the progress of the run on doubles as they do in
    exact arithmetic.  The arithmetic comes in at one place: phase 6 has to
    make a zero that no cover touches.  It does when the least uncovered
    cost is finite, since x - x is zero for every finite x. *)

(** ** The shape of the costs *)

Lemma ieee_step_one_shape F n : fshape n F -> fshape n (snd (IEEE.step_one F n)).
Proof.
  intros HF. unfold IEEE.step_one. cbn [snd].
  apply (for_inv (fshape n)); auto.
  intros r t Hr [Hl Hrow]. destruct (Z.ltb_spec r 0); [idx_tac|].
  split; [now rewrite length_upd|].
  intros r' Hr'. unfold IEEE.cost_row at 1. destruct (Z.ltb_spec r' 0); [idx_tac|].
  destruct (Z.eq_dec r r') as [->|Hne].
  - rewrite nth_upd_eq by idx_tac. rewrite length_map. now apply Hrow.
  - rewrite nth_upd_ne by lia. specialize (Hrow r' Hr'). unfold IEEE.cost_row in Hrow.
    destruct (Z.ltb_spec r' 0); [lia|]. exact Hrow.
Qed.

(** Phases 1 and 6 alone write to the costs. *)
Lemma ieee_dispatch_cost f t t' :
  IEEE.dispatch f t = Ok t' ->
  IEEE.cost t' =
    match IEEE.step t with
    | 1%nat => snd (IEEE.step_one (IEEE.cost t) (IEEE.N t))
    | 6%nat => snd (IEEE.step_six (IEEE.cost t) (IEEE.rcov t) (IEEE.ccov t) (IEEE.N t))
    | _ => IEEE.cost t
    end.
Proof.
  unfold IEEE.dispatch.
  destruct (IEEE.step t) as [|[|[|[|[|[|[|k]]]]]]].
  - intros H. now injection H as <-.
  - unfold IEEE.step_one. intros H. now injection H as <-.
  - destruct (IEEE.step_two (IEEE.cost t) (IEEE.indM t) (IEEE.rcov t) (IEEE.ccov t)
                (IEEE.N t)) as [[[st m] rc] cc].
    intros H. now injection H as <-.
  - destruct (step_three (IEEE.indM t) (IEEE.ccov t) (IEEE.N t)) as [st cc].
    intros H. now injection H as <-.
  - destruct (IEEE.step_four f 4 (IEEE.cost t) (IEEE.indM t) (IEEE.rcov t)
                (IEEE.ccov t) (IEEE.rpath_0 t) (IEEE.cpath_0 t) (IEEE.N t))
      as [[[[[[st m] rc] cc] r0] c0]| |]; simpl; try discriminate.
    intros H. now injection H as <-.
  - destruct (step_five f (IEEE.indM t) (IEEE.rcov t) (IEEE.ccov t) (IEEE.path t)
                (IEEE.rpath_0 t) (IEEE.cpath_0 t) (IEEE.N t))
      as [[[[[st m] rc] cc] p]| |]; simpl; try discriminate.
    intros H. now injection H as <-.
  - unfold IEEE.step_six. intros H. now injection H as <-.
  - intros H. now injection H as <-.
Qed.

Lemma ieee_reachable_fshape fr F n t :
  fsquare n F -> ieee_reachable fr F t -> fshape n (IEEE.cost t).
Proof.
  intros HF. induction 1 as [|s s' fuel Hr IH Hs Hd].
  - simpl. now apply fsquare_fshape.
  - destruct (ieee_reachable_N fr F s Hr) as [HN _].
    assert (En : IEEE.N s = n) by (rewrite HN; apply HF).
    rewrite (ieee_dispatch_cost fuel s s' Hd), En.
    destruct (IEEE.step s) as [|[|[|[|[|[|[|k]]]]]]]; auto.
    + now apply ieee_step_one_shape.
    + now apply ieee_step_six_spec.
Qed.

(** ** Phases 2 to 5 *)

(** Phases 2 to 5 on doubles do to marks, covers and path what they do in
    exact arithmetic on costs with the same zeros. *)
Lemma ieee_turn_exact t C :
  Inv C (lift t C) ->
  ((IEEE.step t = 2 \/ IEEE.step t = 4)%nat ->
   agree (IEEE.N t) (IEEE.cost t) C (IEEE.indM t)) ->
  (2 <= IEEE.step t <= 5)%nat ->
  exists t', ev (fun f => IEEE.dispatch f t) t' /\ Inv C (lift t' C) /\
    turn (lift t C) (lift t' C) /\ IEEE.cost t' = IEEE.cost t.
Proof.
  intros HI Ha Hst.
  assert (Hfrom : forall t' f0,
            (forall f, (f0 <= f)%nat -> IEEE.dispatch f t = Ok t') ->
            dispatch f0 (lift t C) = Ok (lift t' C) ->
            ev (fun f => IEEE.dispatch f t) t' /\ Inv C (lift t' C) /\
            turn (lift t C) (lift t' C)).
  { intros t' f0 Hd Hx. split; [now exists f0|].
    apply (turn_unique C (lift t C) (lift t' C) f0); auto. simpl. lia. }
  destruct t as [inp n st c0 r0 F M RC CC p]. unfold lift in *. simpl in *.
  pose proof (i_phase _ _ HI) as Hp. unfold phase_inv in Hp. simpl in Hp.
  destruct st as [|[|[|[|[|[|k]]]]]]; try lia.
  - (* phase 2 *)
    destruct Hp as (_ & _ & H0).
    destruct (step_two C M RC CC n) as [[[st m] rc] cc] eqn:E2.
    exists (IEEE.mkState inp n st c0 r0 F m rc cc p).
    destruct (Hfrom (IEEE.mkState inp n st c0 r0 F m rc cc p) 0%nat) as (H1 & H2 & H3).
    + intros f _. unfold IEEE.dispatch. simpl.
      rewrite (ieee_step_two_eq n F C M RC CC)
        by (intros r c Hr Hc; symmetry; apply Ha; auto).
      now rewrite E2.
    + unfold dispatch. simpl. now rewrite E2.
    + splits; auto.
  - (* phase 3 *)
    destruct (step_three M CC n) as [st cc] eqn:E3.
    exists (IEEE.mkState inp n st c0 r0 F M RC cc p).
    destruct (Hfrom (IEEE.mkState inp n st c0 r0 F M RC cc p) 0%nat) as (H1 & H2 & H3).
    + intros f _. unfold IEEE.dispatch. simpl. now rewrite E3.
    + unfold dispatch. simpl. now rewrite E3.
    + splits; auto.
  - (* phase 4 *)
    destruct Hp as [Hb Hse].
    assert (Hn : (1 <= n)%nat).
    { destruct (s_free _ _ _ _ Hse) as (c & Hc & _). idx_tac. }
    destruct (step_four_loop_spec n C C r0 c0 4%nat Hn (urows RC n) M RC CC
                (le_n _) Hb Hse)
      as (st & M' & RC' & CC' & r0' & c0' & [f0 Hf0] & _).
    exists (IEEE.mkState inp n st c0' r0' F M' RC' CC' p).
    destruct (Hfrom (IEEE.mkState inp n st c0' r0' F M' RC' CC' p) f0) as (H1 & H2 & H3).
    + intros f Hf. unfold IEEE.dispatch, IEEE.step_four. simpl.
      rewrite (ieee_step_four_eq n C F C r0 c0 4%nat Hn f M RC CC Hb Hse)
        by (apply Ha; auto).
      now rewrite Hf0.
    + unfold dispatch, step_four. simpl. now rewrite Hf0.
    + splits; auto.
  - (* phase 5 *)
    destruct Hp as [Hb Hsd].
    destruct (step_five_spec n C C M RC CC p r0 c0 Hb Hsd (i_path _ _ HI))
      as (pc & path1 & M' & _ & _ & [f0 Hf0] & _).
    exists (IEEE.mkState inp n 3%nat c0 r0 F M' (fill RC 0) (fill CC 0) path1).
    destruct (Hfrom (IEEE.mkState inp n 3%nat c0 r0 F M' (fill RC 0) (fill CC 0) path1) f0)
      as (H1 & H2 & H3).
    + intros f Hf. unfold IEEE.dispatch. simpl. now rewrite Hf0.
    + unfold dispatch. simpl. now rewrite Hf0.
    + splits; auto.
Qed.

(** While phase 4 or 6 is due some row has no star. *)
Lemma search_starless n input C M RC CC :
  base n input C M -> search n M RC CC -> (1 <= starless M n)%nat.
Proof.
  intros Hb Hs. destruct (s_free _ _ _ _ Hs) as (c0 & Hc0 & Hfree).
  destruct (count_if_none_or_some (fun r => negb (star_in_row r M n)) n)
    as [Hall|(r & Hr & E)].
  - exfalso. apply (pigeonhole_rows (star M) n c0); auto.
    + intros r Hr. apply star_in_row_true.
      specialize (Hall r Hr). now destruct (star_in_row r M n).
    + apply (b_col _ _ _ _ Hb).
  - unfold starless. now apply (count_if_pos _ n r).
Qed.

(** ** Phase 6 *)

(** The costs that no cover touches are finite. *)
Definition uncovered_finite (t : IEEE.state) : Prop :=
  forall r c, uncovered (IEEE.N t) (IEEE.rcov t) (IEEE.ccov t) r c ->
    finite (IEEE.cost_at (IEEE.cost t) r c) = true.

(** With finite uncovered costs phase 6 makes a zero that no cover touches:
    the cell of the least uncovered cost. *)
Lemma ieee_six_new_zero n F RC CC :
  fshape n F ->
  (exists r c, uncovered n RC CC r c) ->
  (forall r c, uncovered n RC CC r c -> finite (IEEE.cost_at F r c) = true) ->
  exists r c, uncovered n RC CC r c /\
    zero_at (snd (IEEE.step_six F RC CC n)) r c = true.
Proof.
  intros HF Hex Hfin.
  destruct (ieee_find_smallest_spec F RC CC n) as (_ & _ & Hatt).
  { intros r c Hrc. apply finite_leb_max. now apply Hfin. }
  destruct (Hatt Hex) as (r & c & Hrc & Em).
  exists r, c. split; auto.
  destruct (ieee_step_six_spec F RC CC n HF) as (_ & _ & Hat).
  pose proof Hrc as (Hr & Hc & Hr0 & Hc0).
  unfold zero_at. rewrite (Hat r c Hr Hc). unfold six_cell_f.
  rewrite Hr0, Hc0. simpl. rewrite Em.
  apply sub_self. now apply Hfin.
Qed.

(** ** Runs of the dispatcher on doubles *)

Inductive ieee_reaches : IEEE.state -> IEEE.state -> Prop :=
| ieee_reaches_refl s : ieee_reaches s s
| ieee_reaches_step s s1 s2 :
    IEEE.step s <> 7%nat -> ev (fun f => IEEE.dispatch f s) s1 ->
    ieee_reaches s1 s2 -> ieee_reaches s s2.

Lemma ieee_reaches_one s s1 :
  IEEE.step s <> 7%nat -> ev (fun f => IEEE.dispatch f s) s1 -> ieee_reaches s s1.
Proof. intros H1 H2. eapply ieee_reaches_step; eauto. apply ieee_reaches_refl. Qed.

Lemma ieee_reaches_trans s1 s2 s3 :
  ieee_reaches s1 s2 -> ieee_reaches s2 s3 -> ieee_reaches s1 s3.
Proof.
  induction 1 as [|s s1 s2 Hs Hd Hr IH]; auto.
  intros H. eapply ieee_reaches_step; eauto.
Qed.

Lemma ieee_reaches_loop s s' :
  ieee_reaches s s' -> IEEE.step s' = 7%nat ->
  ev (fun f => IEEE.hungarian_loop f s) s'.
Proof.
  induction 1 as [s|s s1 s2 Hs [f1 Hd] Hr IH]; intros H7.
  - exists 1%nat. intros [|f] Hf; [lia|]. rewrite ieee_loop_S.
    now rewrite H7.
  - destruct (IH H7) as [f2 Hf2].
    exists (S (Nat.max f1 f2)). intros [|f] Hf; [lia|]. rewrite ieee_loop_S.
    destruct (Nat.eqb_spec (IEEE.step s) 7) as [E|_]; [contradiction|].
    rewrite Hd by lia. cbn [bind]. apply Hf2. lia.
Qed.

Lemma ieee_reaches_reachable fr F s s' :
  ieee_reachable fr F s -> ieee_reaches s s' -> ieee_reachable fr F s'.
Proof.
  intros Hr H. induction H as [|s s1 s2 Hs [f1 Hd] H IH]; auto.
  apply IH. apply (ieee_reach_turn fr F s s1 f1); auto.
Qed.

(** The state a run on doubles is in after phase 1. *)
Definition after_one (fr : fresh) (F : IEEE.fmat) : IEEE.state :=
  let s := IEEE.init_state fr F in
  IEEE.mkState (IEEE.input_cost s) (IEEE.N s) 2 (IEEE.cpath_0 s) (IEEE.rpath_0 s)
    (snd (IEEE.step_one (IEEE.cost s) (IEEE.N s)))
    (IEEE.indM s) (IEEE.rcov s) (IEEE.ccov s) (IEEE.path s).

Lemma dispatch_init fr F f :
  IEEE.dispatch f (IEEE.init_state fr F) = Ok (after_one fr F).
Proof. reflexivity. Qed.

Lemma after_one_reachable fr F : ieee_reachable fr F (after_one fr F).
Proof.
  apply (ieee_reach_turn fr F (IEEE.init_state fr F) _ 0%nat).
  - apply ieee_reach_init.
  - simpl. lia.
  - apply dispatch_init.
Qed.

(** ** The search ends, and the run *)

Section Chain.

Variables (fr : fresh) (F : IEEE.fmat) (n : nat).
Hypothesis HF : fsquare n F.

(** [G b t]: the state [t] of the run can take [b] more runs of phase 6. *)
Variable G : nat -> IEEE.state -> Prop.
Hypothesis G_reach : forall b t, G b t -> ieee_reachable fr F t.
Hypothesis G_fin : forall b t, G b t -> IEEE.step t = 6%nat -> uncovered_finite t.
Hypothesis G_keep : forall b t t',
  G b t -> ieee_reachable fr F t' -> IEEE.cost t' = IEEE.cost t -> G b t'.
Hypothesis G_six : forall b t t' f,
  G (S b) t -> IEEE.step t = 6%nat -> IEEE.dispatch f t = Ok t' -> G b t'.
Hypothesis G_less : forall b t, G (S b) t -> G b t.

Lemma G_le k : forall b t, G (b + k) t -> G b t.
Proof.
  induction k as [|k IH]; intros b t H.
  - now rewrite Nat.add_0_r in H.
  - apply IH. apply G_less. now rewrite Nat.add_succ_r in H.
Qed.

Lemma reach_N t : ieee_reachable fr F t -> IEEE.N t = n.
Proof.
  intros Hr. destruct (ieee_reachable_N fr F t Hr) as [HN _]. rewrite HN. apply HF.
Qed.

(** One turn of a phase from 2 to 5. *)
Lemma chain_turn b t :
  G b t -> (2 <= IEEE.step t <= 5)%nat ->
  exists t' C, ev (fun f => IEEE.dispatch f t) t' /\ G b t' /\
    Inv C (lift t C) /\ Inv C (lift t' C) /\ turn (lift t C) (lift t' C) /\
    ((IEEE.step t = 2 \/ IEEE.step t = 4)%nat ->
     agree n (IEEE.cost t) C (IEEE.indM t)).
Proof.
  intros Hg Hst. pose proof (G_reach b t Hg) as Hr.
  destruct (ieee_reachable_inv fr F t Hr) as (C & HI & Ha).
  destruct (ieee_turn_exact t C HI Ha Hst) as (t' & Hev & HI' & T & Ec).
  exists t', C. splits; auto.
  - apply (G_keep b t); auto. destruct Hev as [f0 Hf0].
    apply (ieee_reach_turn fr F t t' f0); auto; lia.
  - rewrite <- (reach_N t Hr). exact Ha.
Qed.

(** Phase 6 and the phase 4 after it: phase 5 is due, or one more row is
    covered. *)
Lemma chain_six : forall u b t,
  G (b + u) t -> IEEE.step t = 6%nat -> (urows (IEEE.rcov t) n <= u)%nat ->
  exists t5, ieee_reaches t t5 /\ G b t5 /\ IEEE.step t5 = 5%nat /\
    starless (IEEE.indM t5) n = starless (IEEE.indM t) n.
Proof.
  induction u as [|u IH]; intros b t Hg Hs Hu;
    pose proof (G_reach _ t Hg) as Hr; pose proof (reach_N t Hr) as HN;
    destruct (ieee_reachable_inv fr F t Hr) as (C & HI & _);
    pose proof (i_phase _ _ HI) as Hp; unfold phase_inv in Hp; simpl in Hp;
    rewrite Hs, HN in Hp; destruct Hp as (Hb & Hse & _);
    destruct (search_uncovered _ _ _ _ _ _ Hb Hse) as (r & c & Hir & Hic & Hrc & Hcc);
    assert (Hu1 : (1 <= urows (IEEE.rcov t) n)%nat)
      by (unfold urows; apply (count_if_pos _ n r); auto; now apply Z.eqb_eq);
    [lia|].
  (* phase 6 *)
  set (t4 := IEEE.mkState (IEEE.input_cost t) (IEEE.N t) 4 (IEEE.cpath_0 t)
               (IEEE.rpath_0 t)
               (snd (IEEE.step_six (IEEE.cost t) (IEEE.rcov t) (IEEE.ccov t) (IEEE.N t)))
               (IEEE.indM t) (IEEE.rcov t) (IEEE.ccov t) (IEEE.path t)).
  assert (Hd4 : forall f, IEEE.dispatch f t = Ok t4).
  { intros f. unfold IEEE.dispatch. rewrite Hs. reflexivity. }
  assert (Hg4 : G (b + u) t4).
  { apply (G_six (b + u) t t4 0%nat); auto. now rewrite <- Nat.add_succ_r. }
  pose proof (G_reach _ t4 Hg4) as Hr4.
  destruct (ieee_six_new_zero n (IEEE.cost t) (IEEE.rcov t) (IEEE.ccov t))
    as (r1 & c1 & Hu1c & Hz1).
  { now apply (ieee_reachable_fshape fr F). }
  { exists r, c. unfold uncovered. auto. }
  { intros r' c' Hrc'. apply (G_fin _ t Hg Hs). now rewrite HN. }
  (* phase 4 *)
  destruct (chain_turn (b + u) t4 Hg4) as (t' & C4 & Hev' & Hg' & HI4 & HI' & T' & Ha4);
    [simpl; lia|].
  destruct T' as (TN' & _ & T'). simpl in TN', T'.
  destruct T' as (_ & Hst' & Hcase). rewrite HN in Hcase.
  assert (Hreach : ieee_reaches t t').
  { apply (ieee_reaches_step t t4 t'); [lia|now exists 0%nat|].
    apply ieee_reaches_one; auto. simpl. lia. }
  assert (Hless : starless (IEEE.indM t') n = starless (IEEE.indM t) n)
    by now apply stars_same_starless.
  destruct Hcase as [H5|[H6 [Hlt|(EM' & ER' & EC')]]].
  - exists t'. splits; auto. now apply (G_le u).
  - destruct (IH b t' Hg' H6) as (t5 & R5 & G5 & S5 & L5); [lia|].
    exists t5. splits; auto.
    + now apply (ieee_reaches_trans t t' t5).
    + now rewrite L5.
  - exfalso.
    pose proof (i_phase _ _ HI4) as Hp4. unfold phase_inv in Hp4. simpl in Hp4.
    rewrite HN in Hp4. destruct Hp4 as (Hb4 & Hse4).
    pose proof (i_phase _ _ HI') as Hp'. unfold phase_inv in Hp'. simpl in Hp'.
    rewrite H6, TN', HN in Hp'. destruct Hp' as (_ & _ & Hnz').
    destruct Hu1c as (Hr1 & Hc1 & Hr10 & Hc10).
    apply (Hnz' r1 c1 Hr1 Hc1). rewrite ER', EC'. unfold uzero. splits; auto.
    apply Z.eqb_eq. rewrite (Ha4 (or_intror eq_refl) r1 c1 Hr1 Hc1).
    + unfold t4. simpl. rewrite HN. exact Hz1.
    + now apply (uncovered_unmarked n C4 C4 (IEEE.indM t) (IEEE.rcov t) (IEEE.ccov t)).
Qed.

Lemma chain_four b t :
  G (b + n) t -> IEEE.step t = 4%nat ->
  exists t5, ieee_reaches t t5 /\ G b t5 /\ IEEE.step t5 = 5%nat /\
    starless (IEEE.indM t5) n = starless (IEEE.indM t) n.
Proof.
  intros Hg Hs. pose proof (G_reach _ t Hg) as Hr. pose proof (reach_N t Hr) as HN.
  destruct (chain_turn (b + n) t Hg) as (t' & C & Hev' & Hg' & HI & HI' & T' & _); [lia|].
  destruct T' as (TN' & _ & T'). simpl in TN', T'. rewrite Hs in T'.
  destruct T' as (_ & Hst' & Hcase).
  assert (Hless : starless (IEEE.indM t') n = starless (IEEE.indM t) n)
    by now apply stars_same_starless.
  assert (Hone : ieee_reaches t t') by (apply ieee_reaches_one; auto; lia).
  destruct Hcase as [H5|[H6 _]].
  - exists t'. splits; auto. now apply (G_le n).
  - destruct (chain_six n b t' Hg' H6) as (t5 & R5 & G5 & S5 & L5).
    { unfold urows. apply count_if_le. }
    exists t5. splits; auto.
    + now apply (ieee_reaches_trans t t' t5).
    + now rewrite L5.
Qed.

(** Every augmentation stars one more row. *)
Lemma chain_three : forall m b t,
  G (b + m * n) t -> IEEE.step t = 3%nat -> (starless (IEEE.indM t) n <= m)%nat ->
  exists t7, ieee_reaches t t7 /\ IEEE.step t7 = 7%nat.
Proof.
  induction m as [|m IH]; intros b t Hg Hs Hm;
    pose proof (G_reach _ t Hg) as Hr; pose proof (reach_N t Hr) as HN;
    destruct (chain_turn _ t Hg) as (t' & C & Hev' & Hg' & HI & HI' & T' & _);
    try lia;
    destruct T' as (TN' & _ & T'); simpl in TN', T'; rewrite Hs in T';
    destruct T' as (Hcase & _ & EM' & _);
    assert (Hone : ieee_reaches t t') by (apply ieee_reaches_one; auto; lia);
    (destruct Hcase as [H4|H7]; [|exists t'; split; auto]);
    pose proof (i_phase _ _ HI') as Hp'; unfold phase_inv in Hp'; simpl in Hp';
    rewrite H4, TN', HN in Hp'; destruct Hp' as (Hb' & Hse');
    pose proof (search_starless _ _ _ _ _ _ Hb' Hse') as H1; rewrite EM' in H1;
    [lia|].
  assert (Hg4 : G ((b + m * n) + n) t').
  { replace (b + m * n + n)%nat with (b + S m * n)%nat by (simpl; lia). exact Hg'. }
  destruct (chain_four (b + m * n) t' Hg4 H4) as (t5 & R5 & G5 & S5 & L5).
  destruct (chain_turn _ t5 G5) as (t3 & C5 & Hev3 & Hg3 & HI5 & HI3 & T3 & _); [lia|].
  destruct T3 as (TN3 & _ & T3). simpl in TN3, T3. rewrite S5 in T3.
  destruct T3 as (Hs3 & _ & Hlt & _).
  rewrite (reach_N t5 (G_reach _ t5 G5)) in Hlt. rewrite L5, EM' in Hlt.
  destruct (IH b t3 Hg3 Hs3) as (t7 & R7 & S7); [lia|].
  exists t7. split; auto.
  apply (ieee_reaches_trans t t' t7); auto.
  apply (ieee_reaches_trans t' t5 t7); auto.
  apply (ieee_reaches_step t5 t3 t7); auto. lia.
Qed.

Hypothesis G_one : G (n * n) (after_one fr F).

Lemma chain_run :
  exists t7, ieee_reaches (IEEE.init_state fr F) t7 /\ IEEE.step t7 = 7%nat.
Proof.
  destruct (chain_turn _ _ G_one) as (t3 & C & Hev3 & Hg3 & _ & _ & T3 & _);
    [simpl; lia|].
  destruct T3 as (_ & _ & T3). simpl in T3. destruct T3 as (Hs3 & _).
  destruct (chain_three n 0 t3 Hg3 Hs3) as (t7 & R7 & S7).
  { unfold starless. apply count_if_le. }
  exists t7. split; auto.
  apply (ieee_reaches_step _ (after_one fr F) t7).
  - simpl. lia.
  - exists 0%nat. intros f _. apply dispatch_init.
  - apply (ieee_reaches_step _ t3 t7); auto. simpl. lia.
Qed.

End Chain.

(** ** No overflow when phase 6 is due *)

(** Whenever phase 6 is due in the run, the costs that no cover touches are
    finite. *)
Definition no_overflow (fr : fresh) (F : IEEE.fmat) : Prop :=
  forall t, ieee_reachable fr F t -> IEEE.step t = 6%nat -> uncovered_finite t.

Lemma ieee_run_total fr F n :
  fsquare n F -> no_overflow fr F ->
  exists t7, ieee_reaches (IEEE.init_state fr F) t7 /\ IEEE.step t7 = 7%nat.
Proof.
  intros HF Hno.
  apply (chain_run fr F n HF (fun _ t => ieee_reachable fr F t)); auto.
  - intros b t t' f Hr Hs Hd. apply (ieee_reach_turn fr F t t' f); auto. lia.
  - apply after_one_reachable.
Qed.

(** ** A run that is checked turn by turn *)

(** The test of [uncovered_finite]. *)
Definition uncovered_finiteb (t : IEEE.state) : bool :=
  forallb (fun r =>
    forallb (fun c =>
      negb ((vec_at (IEEE.rcov t) r =? 0) && (vec_at (IEEE.ccov t) c =? 0))
      || finite (IEEE.cost_at (IEEE.cost t) r c))
      (range (IEEE.N t)))
    (range (IEEE.N t)).

Lemma uncovered_finiteb_spec t : uncovered_finiteb t = true -> uncovered_finite t.
Proof.
  unfold uncovered_finiteb. intros H r c (Hr & Hc & Hr0 & Hc0).
  rewrite forallb_forall in H. specialize (H r (proj2 (in_range _ r) Hr)).
  rewrite forallb_forall in H. specialize (H c (proj2 (in_range _ c) Hc)).
  rewrite Hr0, Hc0 in H. exact H.
Qed.

(** At most [k] turns of the dispatcher come to phase 7, and whenever phase 6
    is due the uncovered costs are finite. *)
Fixpoint run_finite (fuel k : nat) (t : IEEE.state) : bool :=
  match k with
  | O => Nat.eqb (IEEE.step t) 7
  | S k' =>
      if Nat.eqb (IEEE.step t) 7 then true
      else (negb (Nat.eqb (IEEE.step t) 6) || uncovered_finiteb t) &&
           match IEEE.dispatch fuel t with
           | Ok t' => run_finite fuel k' t'
           | _ => false
           end
  end.

Lemma run_finite_no_overflow fr F fuel k :
  run_finite fuel k (IEEE.init_state fr F) = true -> no_overflow fr F.
Proof.
  intros H0.
  assert (Hall : forall t, ieee_reachable fr F t -> exists k', run_finite fuel k' t = true).
  { induction 1 as [|s s' f Hr [k' Hk'] Hs Hd]; [now exists k|].
    destruct k' as [|k']; simpl in Hk'.
    - apply Nat.eqb_eq in Hk'. contradiction.
    - destruct (Nat.eqb_spec (IEEE.step s) 7) as [E|_]; [contradiction|].
      apply andb_true_iff in Hk'. destruct Hk' as [_ Hk'].
      destruct (IEEE.dispatch fuel s) as [s1| |] eqn:Hd1; try discriminate.
      exists k'.
      assert (E1 : IEEE.dispatch (Nat.max f fuel) s = Ok s').
      { apply (mono_le _ (ieee_dispatch_mono s) f); [lia|exact Hd|discriminate]. }
      assert (E2 : IEEE.dispatch (Nat.max f fuel) s = Ok s1).
      { apply (mono_le _ (ieee_dispatch_mono s) fuel); [lia|exact Hd1|discriminate]. }
      rewrite E1 in E2. injection E2 as ->. exact Hk'. }
  intros t Hr Hs. destruct (Hall t Hr) as [k' Hk'].
  destruct k' as [|k']; simpl in Hk'; rewrite Hs in Hk'; simpl in Hk'; [discriminate|].
  apply andb_true_iff in Hk'. destruct Hk' as [Hk' _].
  now apply uncovered_finiteb_spec.
Qed.


(** * Costs that cannot overflow

    The sum and the difference of two doubles below 2^K in magnitude are
    below 2^(K+2), rounding included.  Phase 1 subtracts once and every run
    of phase 6 adds and subtracts once, and a run has at most N * N runs of
    phase 6: with entries below 2^(1022 - 4 N^2) no cost overflows. *)


(** ** The digits of a mantissa *)

Lemma digits2_pos_low m : 2 ^ (Z.pos (digits2_pos m) - 1) <= Z.pos m.
Proof.
  induction m as [m IH|m IH|]; cbn [digits2_pos].
  - rewrite Pos2Z.inj_succ.
    replace (Z.succ (Z.pos (digits2_pos m)) - 1) with (Z.succ (Z.pos (digits2_pos m) - 1)) by lia.
    rewrite Z.pow_succ_r by lia. lia.
  - rewrite Pos2Z.inj_succ.
    replace (Z.succ (Z.pos (digits2_pos m)) - 1) with (Z.succ (Z.pos (digits2_pos m) - 1)) by lia.
    rewrite Z.pow_succ_r by lia. lia.
  - simpl. lia.
Qed.

Lemma digits2_pos_unique m k :
  2 ^ (k - 1) <= Z.pos m < 2 ^ k -> Z.pos (digits2_pos m) = k.
Proof.
  intros [Hlo Hhi].
  pose proof (digits2_pos_low m) as Dlo. pose proof (digits2_pos_bound m) as Dhi.
  set (d := Z.pos (digits2_pos m)) in *.
  assert (Hd : 1 <= d) by (unfold d; lia).
  destruct (Z.lt_trichotomy d k) as [H|[H|H]]; auto; exfalso.
  - assert (2 ^ d <= 2 ^ (k - 1)) by (apply Z.pow_le_mono_r; lia). lia.
  - destruct (Z.le_gt_cases 0 k) as [Hk|Hk].
    + assert (2 ^ k <= 2 ^ (d - 1)) by (apply Z.pow_le_mono_r; lia). lia.
    + rewrite (Z.pow_neg_r 2 k) in Hhi by lia. lia.
Qed.

Lemma digits2_pos_le m k : 0 <= k -> Z.pos m < 2 ^ k -> Z.pos (digits2_pos m) <= k.
Proof.
  intros Hk H. pose proof (digits2_pos_low m) as Dlo.
  set (d := Z.pos (digits2_pos m)) in *.
  destruct (Z.le_gt_cases d k) as [Hle|Hgt]; auto. exfalso.
  assert (2 ^ k <= 2 ^ (d - 1)) by (apply Z.pow_le_mono_r; lia). lia.
Qed.

(** ** Shifts *)

Lemma shr_1_m mrs : 0 <= shr_m mrs -> shr_m (shr_1 mrs) = shr_m mrs / 2.
Proof.
  destruct mrs as [m r s]. cbn [shr_m]. intros Hm. unfold shr_1.
  destruct m as [|[p|p|]|p]; cbn [shr_m]; try lia.
  - reflexivity.
  - apply (Z.div_unique _ 2 _ 1); lia.
  - apply (Z.div_unique _ 2 _ 0); lia.
  - reflexivity.
Qed.

Lemma shr_iter_m p : forall mrs,
  0 <= shr_m mrs -> shr_m (iter_pos shr_1 p mrs) = shr_m mrs / 2 ^ Z.pos p.
Proof.
  assert (Hpos : forall q, 0 < 2 ^ Z.pos q) by (intros q; apply Z.pow_pos_nonneg; lia).
  induction p as [p IH|p IH|]; intros mrs Hm; cbn [iter_pos].
  - assert (H1 : 0 <= shr_m (shr_1 mrs))
      by (rewrite shr_1_m by auto; apply Z.div_pos; lia).
    assert (H2 : 0 <= shr_m (iter_pos shr_1 p (shr_1 mrs)))
      by (rewrite IH by auto; apply Z.div_pos; auto).
    rewrite IH, IH, shr_1_m by auto.
    pose proof (Hpos p).
    rewrite !Z.div_div by lia. f_equal.
    replace (Z.pos p~1) with (1 + Z.pos p + Z.pos p) by lia.
    rewrite !Z.pow_add_r by lia. lia.
  - assert (H2 : 0 <= shr_m (iter_pos shr_1 p mrs))
      by (rewrite IH by auto; apply Z.div_pos; auto).
    rewrite IH, IH by auto.
    pose proof (Hpos p).
    rewrite !Z.div_div by lia. f_equal.
    replace (Z.pos p~0) with (Z.pos p + Z.pos p) by lia.
    rewrite !Z.pow_add_r by lia. lia.
  - rewrite shr_1_m by auto. reflexivity.
Qed.

Lemma iter_xO m p : Z.pos (Pos.iter xO m p) = Z.pos m * 2 ^ Z.pos p.
Proof.
  induction p as [|p IH] using Pos.peano_ind.
  - simpl. lia.
  - rewrite Pos.iter_succ, Pos2Z.inj_xO, IH, Pos2Z.inj_succ, Z.pow_succ_r by lia. lia.
Qed.

Lemma round_nearest_even_cases mx l :
  round_nearest_even mx l = mx \/ round_nearest_even mx l = mx + 1.
Proof.
  unfold round_nearest_even. destruct l as [|[| |]]; auto.
  destruct (Z.even mx); auto.
Qed.

Lemma fexp_eq x : fexp prec emax x = Z.max (x - 53) (-1074).
Proof. reflexivity. Qed.

Lemma digits_iter_xO m p :
  Z.pos (digits2_pos (Pos.iter xO m p)) = Z.pos (digits2_pos m) + Z.pos p.
Proof.
  induction p as [|p IH] using Pos.peano_ind.
  - simpl. lia.
  - rewrite Pos.iter_succ. cbn [digits2_pos]. rewrite Pos2Z.inj_succ, IH. lia.
Qed.

(** A finite double below 2^K in magnitude, or a zero. *)
Definition sf_small (K : Z) (x : spec_float) : Prop :=
  match x with
  | S754_zero _ => True
  | S754_finite _ m e => Z.pos (digits2_pos m) + e <= K
  | _ => False
  end.

Lemma shr_fexp_none m e :
  fexp prec emax (Z.pos (digits2_pos m) + e) <= e ->
  shr_fexp prec emax (Z.pos m) e loc_Exact =
  ({| shr_m := Z.pos m; shr_r := false; shr_s := false |}, e).
Proof.
  intros H. unfold shr_fexp, shr. cbn [Zdigits2 shr_record_of_loc].
  remember (fexp prec emax (Z.pos (digits2_pos m) + e) - e) as k eqn:E.
  destruct k; auto. lia.
Qed.

Lemma binary_round_aux_exact sx m e :
  fexp prec emax (Z.pos (digits2_pos m) + e) <= e -> e <= 971 ->
  binary_round_aux prec emax sx (Z.pos m) e loc_Exact = S754_finite sx m e.
Proof.
  intros H He. unfold binary_round_aux. rewrite shr_fexp_none by auto.
  cbn [shr_m loc_of_shr_record round_nearest_even]. rewrite shr_fexp_none by auto.
  cbn [shr_m]. change (emax - prec) with 971.
  destruct (Z.leb_spec e 971); [reflexivity|lia].
Qed.

Lemma binary_round_small sx m e D :
  -1074 <= e <= 971 -> Z.pos (digits2_pos m) + e <= D -> D <= 1023 ->
  sf_small (D + 1) (binary_round prec emax sx m e).
Proof.
  intros He Hd HD. unfold binary_round, shl_align.
  set (d := Z.pos (digits2_pos m)) in *.
  pose proof (fexp_eq (d + e)) as Ef.
  remember (fexp prec emax (d + e) - e) as k eqn:E.
  destruct k as [|p|p].
  - rewrite binary_round_aux_exact; [cbn [sf_small]; fold d; lia|fold d; lia|lia].
  - (* the mantissa is too long: it is shifted to the right and rounded *)
    assert (Ep : Z.pos p = d - 53) by lia.
    assert (Ee : fexp prec emax (d + e) = d + e - 53) by lia.
    unfold binary_round_aux, shr_fexp at 1. cbn [Zdigits2 shr_record_of_loc].
    fold d. rewrite <- E. unfold shr at 1.
    set (rec := {| shr_m := Z.pos m; shr_r := false; shr_s := false |}).
    set (mrs := iter_pos shr_1 p rec).
    assert (Em : shr_m mrs = Z.pos m / 2 ^ Z.pos p)
      by (unfold mrs; rewrite shr_iter_m; [reflexivity|simpl; lia]).
    pose proof (digits2_pos_low m) as Dlo. pose proof (digits2_pos_bound m) as Dhi.
    fold d in Dlo, Dhi.
    assert (Hp2 : 0 < 2 ^ Z.pos p) by (apply Z.pow_pos_nonneg; lia).
    assert (Hlo : 2 ^ 52 <= shr_m mrs).
    { rewrite Em. apply Z.div_le_lower_bound; auto.
      rewrite <- Z.pow_add_r by lia. replace (Z.pos p + 52) with (d - 1) by lia. exact Dlo. }
    assert (Hhi : shr_m mrs < 2 ^ 53).
    { rewrite Em. apply Z.div_lt_upper_bound; auto.
      rewrite <- Z.pow_add_r by lia. replace (Z.pos p + 53) with d by lia. exact Dhi. }
    cbv zeta beta iota.
    remember (round_nearest_even (shr_m mrs) (loc_of_shr_record mrs)) as m2 eqn:E2.
    assert (H2 : 2 ^ 52 <= m2 <= 2 ^ 53)
      by (destruct (round_nearest_even_cases (shr_m mrs) (loc_of_shr_record mrs)) as [R|R];
          rewrite R in E2; lia).
    change (2 ^ 52) with 4503599627370496 in H2.
    change (2 ^ 53) with 9007199254740992 in H2.
    destruct m2 as [|q|q]; try lia.
    destruct (Z.eq_dec (Z.pos q) 9007199254740992) as [Eq|Nq].
    + injection Eq as ->.
      unfold shr_fexp, shr. cbn [Zdigits2 shr_record_of_loc].
      change (Z.pos (digits2_pos 9007199254740992)) with 54.
      rewrite fexp_eq.
      replace (Z.max (54 + (e + Z.pos p) - 53) (-1074) - (e + Z.pos p)) with 1 by lia.
      cbn [iter_pos shr_1 shr_m]. change (emax - prec) with 971.
      destruct (Z.leb_spec (e + Z.pos p + 1) 971); [|lia].
      cbn [sf_small]. change (Z.pos (digits2_pos 4503599627370496)) with 53. lia.
    + assert (Dq : Z.pos (digits2_pos q) = 53)
        by (apply digits2_pos_unique;
            change (2 ^ (53 - 1)) with 4503599627370496;
            change (2 ^ 53) with 9007199254740992; lia).
      rewrite shr_fexp_none by (rewrite Dq, fexp_eq; lia).
      cbn [shr_m]. change (emax - prec) with 971.
      destruct (Z.leb_spec (e + Z.pos p) 971); [|lia].
      cbn [sf_small]. lia.
  - (* the mantissa is shifted to the left: nothing is rounded *)
    assert (Ee : fexp prec emax (d + e) = e - Z.pos p) by lia.
    rewrite Ee.
    rewrite binary_round_aux_exact.
    + cbn [sf_small]. rewrite digits_iter_xO. fold d. lia.
    + rewrite digits_iter_xO. fold d.
      replace (d + Z.pos p + (e - Z.pos p)) with (d + e) by lia. lia.
    + lia.
Qed.

Lemma valid_bounds s m e :
  valid_binary (S754_finite s m e) = true -> -1074 <= e <= 971.
Proof.
  unfold valid_binary. cbn [SpecFloat.valid_binary]. unfold bounded, canonical_mantissa. intros H.
  apply andb_true_iff in H. destruct H as [Hc He].
  apply Z.eqb_eq in Hc. apply Z.leb_le in He.
  change (emax - prec) with 971 in He. rewrite fexp_eq in Hc. lia.
Qed.

Lemma shl_align_fst m e e' :
  e' <= e -> Z.pos (fst (shl_align m e e')) = Z.pos m * 2 ^ (e - e').
Proof.
  intros H. unfold shl_align. remember (e' - e) as k eqn:E.
  destruct k as [|p|p]; cbn [fst].
  - replace (e - e') with 0 by lia. lia.
  - lia.
  - rewrite iter_xO. replace (e - e') with (Z.pos p) by lia. reflexivity.
Qed.

Lemma aligned_bound m e ez K :
  ez <= e -> Z.pos (digits2_pos m) + e <= K ->
  Z.pos (fst (shl_align m e ez)) < 2 ^ (K - ez).
Proof.
  intros H1 H2. rewrite shl_align_fst by auto. pose proof (digits2_pos_bound m) as Hb.
  apply Z.lt_le_trans with (2 ^ Z.pos (digits2_pos m) * 2 ^ (e - ez)).
  - apply Z.mul_lt_mono_pos_r; [apply Z.pow_pos_nonneg; lia|exact Hb].
  - rewrite <- Z.pow_add_r by lia. apply Z.pow_le_mono_r; lia.
Qed.

Lemma binary_normalize_small S ez K :
  -1074 <= ez <= 971 -> 0 <= K - ez -> Z.abs S < 2 * 2 ^ (K - ez) -> K <= 1022 ->
  sf_small (K + 2) (binary_normalize prec emax S ez false).
Proof.
  intros He Hk HS HK.
  assert (E : 2 * 2 ^ (K - ez) = 2 ^ (K + 1 - ez)).
  { replace (K + 1 - ez) with (Z.succ (K - ez)) by lia. now rewrite Z.pow_succ_r. }
  rewrite E in HS.
  unfold binary_normalize. destruct S as [|m|m].
  - exact I.
  - replace (K + 2) with (K + 1 + 1) by lia. apply binary_round_small; auto; [|lia].
    assert (Z.pos (digits2_pos m) <= K + 1 - ez) by (apply digits2_pos_le; lia). lia.
  - replace (K + 2) with (K + 1 + 1) by lia. apply binary_round_small; auto; [|lia].
    assert (Z.pos (digits2_pos m) <= K + 1 - ez) by (apply digits2_pos_le; lia). lia.
Qed.

Lemma sf_small_mono K K' x : K <= K' -> sf_small K x -> sf_small K' x.
Proof. intros H. destruct x; cbn [sf_small]; auto. lia. Qed.

Lemma cond_Zopp_abs s m : Z.abs (cond_Zopp s (Z.pos m)) = Z.pos m.
Proof. destruct s; reflexivity. Qed.

(** The sum and the difference of two doubles below 2^K are below 2^(K+2),
    and finite. *)
Lemma SFadd_small K x y :
  valid_binary x = true -> valid_binary y = true ->
  sf_small K x -> sf_small K y -> K <= 1022 ->
  sf_small (K + 2) (SFadd prec emax x y).
Proof.
  intros Vx Vy Hx Hy HK.
  destruct x as [sx|sx| |sx mx ex]; destruct y as [sy|sy| |sy my ey];
    cbn [sf_small] in Hx, Hy; try contradiction; unfold SFadd.
  - destruct sx, sy; exact I.
  - cbn [sf_small]. lia.
  - cbn [sf_small]. lia.
  - pose proof (valid_bounds _ _ _ Vx) as Bx. pose proof (valid_bounds _ _ _ Vy) as By.
    cbv zeta. set (ez := Z.min ex ey).
    pose proof (aligned_bound mx ex ez K ltac:(unfold ez; lia) Hx) as Ax.
    pose proof (aligned_bound my ey ez K ltac:(unfold ez; lia) Hy) as Ay.
    apply binary_normalize_small; auto; try (unfold ez; lia).
    pose proof (cond_Zopp_abs sx (fst (shl_align mx ex ez))) as Cx.
    pose proof (cond_Zopp_abs sy (fst (shl_align my ey ez))) as Cy.
    lia.
Qed.

Lemma SFsub_small K x y :
  valid_binary x = true -> valid_binary y = true ->
  sf_small K x -> sf_small K y -> K <= 1022 ->
  sf_small (K + 2) (SFsub prec emax x y).
Proof.
  intros Vx Vy Hx Hy HK.
  destruct x as [sx|sx| |sx mx ex]; destruct y as [sy|sy| |sy my ey];
    cbn [sf_small] in Hx, Hy; try contradiction; unfold SFsub.
  - destruct sx, sy; exact I.
  - cbn [sf_small]. lia.
  - cbn [sf_small]. lia.
  - pose proof (valid_bounds _ _ _ Vx) as Bx. pose proof (valid_bounds _ _ _ Vy) as By.
    cbv zeta. set (ez := Z.min ex ey).
    pose proof (aligned_bound mx ex ez K ltac:(unfold ez; lia) Hx) as Ax.
    pose proof (aligned_bound my ey ez K ltac:(unfold ez; lia) Hy) as Ay.
    apply binary_normalize_small; auto; try (unfold ez; lia).
    pose proof (cond_Zopp_abs sx (fst (shl_align mx ex ez))) as Cx.
    pose proof (cond_Zopp_abs sy (fst (shl_align my ey ez))) as Cy.
    lia.
Qed.

(** ** Doubles below a power of two *)

(** A finite double of magnitude below 2^K, or a zero. *)
Definition small (K : Z) (x : PrimFloat.float) : Prop := sf_small K (Prim2SF x).

Definition smallb (K : Z) (x : PrimFloat.float) : bool :=
  match Prim2SF x with
  | S754_zero _ => true
  | S754_finite _ m e => Z.pos (digits2_pos m) + e <=? K
  | _ => false
  end.

Lemma smallb_spec K x : smallb K x = true <-> small K x.
Proof.
  unfold smallb, small. destruct (Prim2SF x); cbn [sf_small]; try tauto;
    try (split; [discriminate|contradiction]).
  apply Z.leb_le.
Qed.

Lemma small_mono K K' x : K <= K' -> small K x -> small K' x.
Proof. apply sf_small_mono. Qed.

Lemma small_finite K x : small K x -> finite x = true.
Proof. unfold small, finite. destruct (Prim2SF x); cbn [sf_small]; tauto. Qed.

Lemma small_zero K : small K PrimFloat.zero.
Proof. exact I. Qed.

Lemma add_small K x y :
  small K x -> small K y -> K <= 1022 -> small (K + 2) (PrimFloat.add x y).
Proof.
  unfold small. intros Hx Hy HK. rewrite add_spec.
  apply SFadd_small; auto; apply Prim2SF_valid.
Qed.

Lemma sub_small K x y :
  small K x -> small K y -> K <= 1022 -> small (K + 2) (PrimFloat.sub x y).
Proof.
  unfold small. intros Hx Hy HK. rewrite sub_spec.
  apply SFsub_small; auto; apply Prim2SF_valid.
Qed.

(** ** Matrices of doubles below a power of two *)

(** Every entry of the matrix is small. *)
Definition entries_below (K : Z) (F : IEEE.fmat) : Prop := Forall (Forall (small K)) F.

Definition cells_small (n : nat) (K : Z) (C : IEEE.fmat) : Prop :=
  forall r c, idx n r -> idx n c -> small K (IEEE.cost_at C r c).

Lemma entries_below_row K F r : entries_below K F -> Forall (small K) (IEEE.cost_row F r).
Proof.
  intros H. unfold entries_below in H. unfold IEEE.cost_row.
  destruct (r <? 0); [constructor|].
  destruct (Nat.lt_ge_cases (Z.to_nat r) (length F)) as [Hl|Hl].
  - rewrite Forall_forall in H. apply H. now apply nth_In.
  - rewrite nth_overflow by lia. constructor.
Qed.

Lemma row_small_at K C r c : Forall (small K) (IEEE.cost_row C r) -> small K (IEEE.cost_at C r c).
Proof.
  intros H. unfold IEEE.cost_at. destruct (c <? 0); [apply small_zero|].
  destruct (Nat.lt_ge_cases (Z.to_nat c) (length (IEEE.cost_row C r))) as [Hl|Hl].
  - rewrite Forall_forall in H. apply H. now apply nth_In.
  - rewrite nth_overflow by lia. apply small_zero.
Qed.

Lemma row_min_small K v : Forall (small K) v -> small K (IEEE.row_min v).
Proof.
  unfold IEEE.row_min. destruct v as [|x t]; [intros _; apply small_zero|].
  intros H. inversion H as [|? ? Hx Ht]; subst. clear H.
  revert x Hx. induction t as [|y t IH]; intros x Hx; cbn [fold_left]; auto.
  inversion Ht as [|? ? Hy Ht']; subst.
  apply IH; auto. destruct (PrimFloat.ltb y x); auto.
Qed.

Lemma cost_row_upd (t : IEEE.fmat) i row r :
  0 <= r -> (i < length t)%nat ->
  IEEE.cost_row (upd t i row) r =
  if Nat.eqb (Z.to_nat r) i then row else IEEE.cost_row t r.
Proof.
  intros Hr Hi. unfold IEEE.cost_row. destruct (Z.ltb_spec r 0); [lia|].
  destruct (Nat.eqb_spec (Z.to_nat r) i) as [->|Hne].
  - now apply nth_upd_eq.
  - apply nth_upd_ne. lia.
Qed.

(** Phase 1 on doubles: from entries below 2^K to cells below 2^(K+2). *)
Lemma ieee_step_one_small K F n :
  length F = n -> entries_below K F -> K <= 1022 ->
  cells_small n (K + 2) (snd (IEEE.step_one F n)).
Proof.
  intros HF Hs HK. unfold IEEE.step_one. cbn [snd].
  assert (H : forall i : nat, (i <= n)%nat ->
    let t := for_ i (fun r cost =>
                let m := IEEE.row_min (IEEE.cost_row cost r) in
                if r <? 0 then cost
                else upd cost (Z.to_nat r)
                       (map (fun x => PrimFloat.sub x m) (IEEE.cost_row cost r))) F in
    length t = n /\
    forall r, idx n r ->
      Forall (small (K + 2)) (IEEE.cost_row t r) /\
      (Z.of_nat i <= r -> IEEE.cost_row t r = IEEE.cost_row F r)).
  { induction i as [|i IH]; intros Hi; cbv zeta.
    - unfold for_. simpl. split; auto. intros r Hr. split; auto.
      apply (@Forall_impl _ (small K) (small (K + 2))).
      + intros x. apply small_mono. lia.
      + now apply entries_below_row.
    - rewrite for_S. destruct (IH ltac:(lia)) as [Hl Hrow]. clear IH.
      cbv zeta in Hl, Hrow.
      set (t := for_ i _ F) in *.
      destruct (Z.ltb_spec (Z.of_nat i) 0); [lia|].
      split; [now rewrite length_upd|].
      intros r Hr. rewrite cost_row_upd by idx_tac. rewrite Nat2Z.id.
      destruct (Nat.eqb_spec (Z.to_nat r) i) as [Ei|Hne].
      + assert (Er : r = Z.of_nat i) by idx_tac. subst r. split; [|lia].
        destruct (Hrow (Z.of_nat i) Hr) as [_ E]. rewrite E by lia.
        apply Forall_map.
        apply (@Forall_impl _ (small K)).
        * intros x Hx. apply sub_small; auto.
          apply row_min_small. now apply entries_below_row.
        * now apply entries_below_row.
      + destruct (Hrow r Hr) as [Hsm E]. split; auto. intros Hge. apply E. lia. }
  destruct (H n (Nat.le_refl n)) as [_ Hrow]. cbv zeta in Hrow.
  intros r c Hr Hc. apply row_small_at. now apply Hrow.
Qed.

(** Phase 6 on doubles, when [minval] is small too: from cells below 2^K to
    cells below 2^(K+4). *)
Lemma six_cell_small K RC CC m r c x :
  small K x -> small K m -> K <= 1020 -> small (K + 4) (six_cell_f RC CC m r c x).
Proof.
  intros Hx Hm HK. unfold six_cell_f.
  assert (Hm2 : small (K + 2) m) by (apply (small_mono K); auto; lia).
  destruct (vec_at RC r =? 1); destruct (vec_at CC c =? 0).
  - replace (K + 4) with (K + 2 + 2) by lia. apply sub_small; auto; [|lia].
    apply add_small; auto. lia.
  - apply (small_mono (K + 2)); [lia|]. apply add_small; auto. lia.
  - apply (small_mono (K + 2)); [lia|]. apply sub_small; auto. lia.
  - apply (small_mono K); auto. lia.
Qed.

Section Bounded.

Variables (fr : fresh) (F : IEEE.fmat) (n : nat).
Hypothesis HF : fsquare n F.

(** The state [t] of the run has cells so small that [b] more runs of phase 6
    cannot overflow. *)
Definition can_take (b : nat) (t : IEEE.state) : Prop :=
  ieee_reachable fr F t /\ cells_small n (1024 - 4 * Z.of_nat b) (IEEE.cost t).

Lemma can_take_N b t : can_take b t -> IEEE.N t = n.
Proof.
  intros [Hr _]. destruct (ieee_reachable_N fr F t Hr) as [HN _]. rewrite HN. apply HF.
Qed.

Lemma can_take_finite b t : can_take b t -> IEEE.step t = 6%nat -> uncovered_finite t.
Proof.
  intros Hg Hs r c (Hr & Hc & _). rewrite (can_take_N b t Hg) in *.
  destruct Hg as [_ Hsm]. apply (small_finite _ _ (Hsm r c Hr Hc)).
Qed.

Lemma can_take_six b t t' f :
  can_take (S b) t -> IEEE.step t = 6%nat -> IEEE.dispatch f t = Ok t' -> can_take b t'.
Proof.
  intros Hg Hs Hd. pose proof (can_take_N _ t Hg) as HN.
  pose proof (can_take_finite _ t Hg Hs) as Hfin.
  destruct Hg as [Hr Hsm]. split.
  - apply (ieee_reach_turn fr F t t' f); auto. lia.
  - rewrite (ieee_dispatch_cost f t t' Hd), Hs, HN.
    pose proof (ieee_reachable_fshape fr F n t HF Hr) as Hsh.
    destruct (ieee_step_six_spec (IEEE.cost t) (IEEE.rcov t) (IEEE.ccov t) n Hsh)
      as (_ & _ & Hat).
    (* some cell has no cover *)
    destruct (ieee_reachable_inv fr F t Hr) as (C & HI & _).
    pose proof (i_phase _ _ HI) as Hp. unfold phase_inv in Hp. simpl in Hp.
    rewrite Hs, HN in Hp. destruct Hp as (Hb & Hse & _).
    destruct (search_uncovered _ _ _ _ _ _ Hb Hse) as (r0 & c0 & Hir & Hic & Hrc & Hcc).
    destruct (ieee_find_smallest_spec (IEEE.cost t) (IEEE.rcov t) (IEEE.ccov t) n)
      as (_ & _ & Hatt).
    { intros r c Hu. apply finite_leb_max. apply Hfin. now rewrite HN. }
    cbv zeta in Hatt.
    destruct Hatt as (r1 & c1 & (Hr1 & Hc1 & _) & Em).
    { exists r0, c0. unfold uncovered. auto. }
    intros r c Hir' Hic'. rewrite (Hat r c Hir' Hic'), Em.
    replace (1024 - 4 * Z.of_nat b) with (1024 - 4 * Z.of_nat (S b) + 4) by lia.
    apply six_cell_small; auto. lia.
Qed.

(** With entries below 2^(1022 - 4 n^2) the run comes to phase 7. *)
Lemma ieee_run_bounded :
  entries_below (1022 - 4 * Z.of_nat (n * n)) F ->
  exists t7, ieee_reaches (IEEE.init_state fr F) t7 /\ IEEE.step t7 = 7%nat.
Proof.
  intros Hin.
  apply (chain_run fr F n HF can_take).
  - intros b t [Hr _]. exact Hr.
  - exact can_take_finite.
  - intros b t t' [_ Hsm] Hr' E. split; auto. now rewrite E.
  - exact can_take_six.
  - intros b t [Hr Hsm]. split; auto.
    intros r c Hir Hic. apply (small_mono (1024 - 4 * Z.of_nat (S b))); [lia|auto].
  - split; [apply after_one_reachable|].
    unfold after_one. cbn [IEEE.cost IEEE.init_state IEEE.N].
    replace (1024 - 4 * Z.of_nat (n * n)) with (1022 - 4 * Z.of_nat (n * n) + 2) by lia.
    destruct HF as [Hl _]. rewrite Hl. apply ieee_step_one_small; auto. lia.
Qed.

End Bounded.



(** * What the marks returned depend on

    [hungarian] constructs [rcov], [ccov] and [path] with a size and no
    values.  Phase 2 reads the covers before anything is written to them;
    phase 5 writes every row of [path] before it reads it. *)

(** ** Results that differ in the path buffer only *)







(** ** The loop of phase 5 *)







(** ** The dispatcher *)










(** Cover vectors that start with a 1 in the column 0. *)
Definition ccov_fresh : fresh :=
  {| fresh_rcov := fun _ => 0;
     fresh_ccov := fun i => if Nat.eqb i 0 then 1 else 0;
     fresh_path := fun _ => (0, 0) |}.

(** ** A permutation matrix as a list of columns *)

Lemma count_if_zero p n i :
  count_if p n = 0%nat -> idx n i -> p i = false.
Proof.
  intros H Hi. destruct (p i) eqn:E; auto.
  pose proof (count_if_pos p n i Hi E). lia.
Qed.

Lemma count_if_one_unique p n : forall i j,
  count_if p n = 1%nat -> idx n i -> idx n j -> p i = true -> p j = true -> i = j.
Proof.
  induction n as [|n IH]; intros i j H Hi Hj Pi Pj; [idx_tac|].
  simpl in H. destruct (p (Z.of_nat n)) eqn:E.
  - assert (H0 : count_if p n = 0%nat) by lia.
    destruct (Z.eq_dec i (Z.of_nat n)) as [->|Hni].
    + destruct (Z.eq_dec j (Z.of_nat n)) as [->|Hnj]; auto.
      rewrite (count_if_zero p n j H0) in Pj by idx_tac. discriminate.
    + rewrite (count_if_zero p n i H0) in Pi by idx_tac. discriminate.
  - assert (i <> Z.of_nat n) by congruence.
    assert (j <> Z.of_nat n) by congruence.
    apply IH; auto; try lia; idx_tac.
Qed.

Lemma sum_to_single n (f : Z -> Z) c0 :
  idx n c0 -> (forall c, idx n c -> c <> c0 -> f c = 0) -> sum_to n f = f c0.
Proof.
  induction n as [|n IH]; intros Hc H; [idx_tac|]. cbn [sum_to].
  destruct (Z.eq_dec c0 (Z.of_nat n)) as [->|Hne].
  - rewrite (sum_to_ext n f (fun _ => 0)) by (intros c Hc'; apply H; idx_tac).
    rewrite sum_to_zero. lia.
  - rewrite IH; [|idx_tac|intros c Hc' Hn; apply H; auto; idx_tac].
    rewrite (H (Z.of_nat n)) by idx_tac. lia.
Qed.

(** The columns of the ones of a permutation matrix, row by row. *)
Lemma assignment_as_perm input M n :
  is_assignment n M ->
  exists p, Permutation p (range n) /\ assignment_cost input M n = perm_cost input p.
Proof.
  intros (_ & _ & Hrow1 & Hcol1).
  destruct (finite_choice (fun r c => idx n c /\ mat_at M r c = 1) n) as (p & Hlen & Hp).
  { intros r Hr.
    destruct (count_if_none_or_some (fun c => mat_at M r c =? 1) n) as [Hno|(c & Hc & E)].
    - pose proof (Hrow1 r Hr) as H1. unfold ones_in_row in H1.
      rewrite count_if_false in H1 by auto. discriminate.
    - exists c. split; auto. now apply Z.eqb_eq. }
  assert (Hnth : forall x, In x p -> exists r, idx n r /\ x = nth (Z.to_nat r) p 0).
  { intros x Hx. destruct (In_nth p x 0 Hx) as (k & Hk & E).
    exists (Z.of_nat k). split; [idx_tac|]. now rewrite Nat2Z.id. }
  assert (Hidx : forall x, In x p -> idx n x).
  { intros x Hx. destruct (Hnth x Hx) as (r & Hr & ->). now apply Hp. }
  assert (Hnd : NoDup p).
  { apply (proj2 (NoDup_nth p 0)). intros i j Hi Hj E.
    assert (Hri : idx n (Z.of_nat i)) by idx_tac.
    assert (Hrj : idx n (Z.of_nat j)) by idx_tac.
    destruct (Hp _ Hri) as [Hci Hsi]. destruct (Hp _ Hrj) as [_ Hsj].
    rewrite !Nat2Z.id in *. rewrite <- E in Hsj.
    assert (Z.of_nat i = Z.of_nat j); [|lia].
    apply (count_if_one_unique (fun r => mat_at M r (nth i p 0) =? 1) n); auto.
    - apply (Hcol1 _ Hci).
    - now apply Z.eqb_eq.
    - now apply Z.eqb_eq. }
  exists p. split.
  - apply NoDup_Permutation; auto; [apply NoDup_range|].
    intros x. rewrite in_range. split; auto.
    intros Hx. now apply (nodup_idx_full p n).
  - unfold assignment_cost, perm_cost. rewrite Hlen.
    apply sum_to_ext. intros r Hr. destruct (Hp r Hr) as [Hc Hs].
    rewrite (sum_to_single n _ (nth (Z.to_nat r) p 0)); auto.
    + now rewrite Hs.
    + intros c Hc' Hne. destruct (Z.eqb_spec (mat_at M r c) 1) as [E|E]; auto.
      exfalso. apply Hne.
      apply (count_if_one_unique (fun c => mat_at M r c =? 1) n); auto.
      * apply (Hrow1 r Hr).
      * now apply Z.eqb_eq.
      * now apply Z.eqb_eq.
Qed.


(** ** The working copy *)



(** * The memory of a call

    [hungarian] takes the matrix of its caller by reference, [const
    arma::mat &input_cost], and constructs [cost] from it, a copy in memory of
    its own.  The phases take [cost] by reference and write it in place.
    [hungarian_cc] builds [arma_cost] on the memory of R's matrix (the flag
    [copy_aux_mem] is false), so the reference that [hungarian] gets is to the
    memory of R itself.  Here the matrices lie in a store, each at its place,
    and a reference is a place. *)

Section Store.
Context {A : Type}.

(** The matrix at the place [l]. *)
Definition load (h : list (list A)) (l : nat) : list A := nth l h [].










Lemma load_old h x l : (l < length h)%nat -> load (h ++ [x]) l = load h l.
Proof. intros H. unfold load. now rewrite app_nth1. Qed.



End Store.

(** ** The exact model *)









(** ** On doubles *)










(** * The properties of the solver

    Each property is stated for the exact model and, where it does not rest
    on the arithmetic, for the run on doubles as well. *)

(** ** The inputs of the examples *)

Lemma example2_square : square 2 example2.
Proof. split; [reflexivity|repeat constructor]. Defined.

Lemma example3_square : square 3 example3.
Proof. split; [reflexivity|repeat constructor]. Defined.

Lemma ieee_example2_square : fsquare 2 IEEE.example2.
Proof. split; [reflexivity|repeat constructor]. Defined.

Lemma ieee_example3_square : fsquare 3 IEEE.example3.
Proof. split; [reflexivity|repeat constructor]. Defined.

(** The state of the solve of [example3] when phase 6 is due. *)
Definition example3_phase6 : state :=
  Eval vm_compute in
    match turns 10 4 (init_state zero_fresh example3) with
    | Ok s => s
    | _ => init_state zero_fresh example3
    end.

Lemma example3_phase6_reachable : reachable zero_fresh example3 example3_phase6.
Proof.
  apply (turns_reachable zero_fresh example3 10 4 (init_state zero_fresh example3)).
  - apply reach_init.
  - vm_compute. reflexivity.
Qed.

(** The state of the solve of [example2] when phase 5 is due. *)
Definition example2_phase5 : state :=
  Eval vm_compute in
    match turns 10 6 (init_state zero_fresh example2) with
    | Ok s => s
    | _ => init_state zero_fresh example2
    end.

Lemma example2_phase5_reachable : reachable zero_fresh example2 example2_phase5.
Proof.
  apply (turns_reachable zero_fresh example2 10 6 (init_state zero_fresh example2)).
  - apply reach_init.
  - vm_compute. reflexivity.
Qed.

(** The same two states of the runs on doubles. *)
Definition ieee_example3_phase6 : IEEE.state :=
  Eval vm_compute in
    match IEEE.turns 10 4 (IEEE.init_state zero_fresh IEEE.example3) with
    | Ok s => s
    | _ => IEEE.init_state zero_fresh IEEE.example3
    end.

Lemma ieee_example3_phase6_reachable :
  ieee_reachable zero_fresh IEEE.example3 ieee_example3_phase6.
Proof.
  apply (ieee_turns_reachable zero_fresh IEEE.example3 10 4
           (IEEE.init_state zero_fresh IEEE.example3)).
  - apply ieee_reach_init.
  - vm_compute. reflexivity.
Qed.

Definition ieee_example2_phase5 : IEEE.state :=
  Eval vm_compute in
    match IEEE.turns 10 6 (IEEE.init_state zero_fresh IEEE.example2) with
    | Ok s => s
    | _ => IEEE.init_state zero_fresh IEEE.example2
    end.

Lemma ieee_example2_phase5_reachable :
  ieee_reachable zero_fresh IEEE.example2 ieee_example2_phase5.
Proof.
  apply (ieee_turns_reachable zero_fresh IEEE.example2 10 6
           (IEEE.init_state zero_fresh IEEE.example2)).
  - apply ieee_reach_init.
  - vm_compute. reflexivity.
Qed.

(** ** Optimality *)



(** ** The result is a permutation matrix *)

(** C2. On every square cost matrix the solver returns, in exact arithmetic,
    an n x n matrix of zeros and ones with exactly one 1 in every row and
    exactly one 1 in every column; and whatever the solver returns on a
    square matrix of doubles is such a matrix. *)
Theorem hungarian_permutation (fr : fresh) (n : nat) (input : mat) (F : IEEE.fmat) :
  square n input -> fsquare n F ->
  (exists M, ev (fun fuel => hungarian fr fuel input) M /\ is_assignment n M) /\
  (forall fuel M, hungarian fr fuel input = Ok M -> is_assignment n M) /\
  (forall fuel M, IEEE.hungarian fr fuel F = Ok M -> is_assignment n M).
Proof.
  intros Hsq [HF _].
  destruct (hungarian_result fr input n Hsq) as (s & _ & Hev & HI & Hs & HN).
  assert (Ha : is_assignment n (indM s)).
  { rewrite <- HN. now apply (final_assignment input). }
  splits.
  - exists (indM s). split; auto.
  - intros fuel M H.
    assert (E : Ok M = Ok (indM s)).
    { apply (ev_mono_unique (fun f => hungarian fr f input) (indM s) fuel (Ok M));
        auto; [apply hungarian_mono|discriminate]. }
    injection E as ->. exact Ha.
  - intros fuel M H. unfold IEEE.hungarian in H.
    destruct (IEEE.hungarian_run fr fuel F) as [t| |] eqn:Hrun; simpl in H;
      try discriminate.
    injection H as <-.
    destruct (ieee_loop_reachable fr F fuel _ t (ieee_reach_init fr F) Hrun) as [Hr Ht].
    rewrite <- HF. now apply (ieee_final fr F t).
Qed.

Lemma hungarian_permutation_witness :
  square 2 example2 /\ fsquare 2 IEEE.example2 /\
  IEEE.hungarian zero_fresh 20 IEEE.example2 = Ok [[0; 1]; [1; 0]] /\
  is_assignment 2 [[0; 1]; [1; 0]].
Proof.
  split; [exact example2_square|]. split; [exact ieee_example2_square|].
  assert (H : IEEE.hungarian zero_fresh 20 IEEE.example2 = Ok [[0; 1]; [1; 0]])
    by (vm_compute; reflexivity).
  split; [exact H|].
  exact (proj2 (proj2 (hungarian_permutation zero_fresh 2 example2 IEEE.example2
                         example2_square ieee_example2_square)) 20%nat _ H).
Defined.

(** ** Termination *)

(** The run on the costs [[2^60, 1], [2^60, 0]], which phase 1 rounds, goes
    through phase 6 with finite costs. *)
Lemma rounding_input_square : fsquare 2 IEEE.rounding_input.
Proof. split; [reflexivity|repeat constructor]. Defined.

Lemma rounding_input_no_overflow : no_overflow zero_fresh IEEE.rounding_input.
Proof.
  apply (run_finite_no_overflow zero_fresh IEEE.rounding_input 20 20).
  vm_compute. reflexivity.
Qed.

Lemma rounding_input_below : entries_below (1022 - 4 * Z.of_nat (2 * 2)) IEEE.rounding_input.
Proof. repeat constructor; apply smallb_spec; vm_compute; reflexivity. Qed.

(** C3, as amended. The dispatcher comes to phase 7 after finitely many
    turns, and with enough fuel the loop returns that state, so no run stays
    in the cycle of phases 4 and 6 for ever: in exact arithmetic on every
    square cost matrix, and on doubles on every square matrix on which no
    cost overflows, that is, on which the costs that no cover touches are
    finite (neither an infinity nor NaN) whenever phase 6 is due.  Rounding
    does not matter.  No cost overflows when every entry of the N x N matrix
    is a double below 2^(1022 - 4 N^2) in magnitude. *)
Theorem hungarian_terminates (fr : fresh) (n : nat) (input : mat) (F : IEEE.fmat) :
  square n input -> fsquare n F ->
  (exists s, reaches (init_state fr input) s /\ step s = 7%nat /\
             ev (fun fuel => hungarian_run fr fuel input) s) /\
  (no_overflow fr F ->
   exists t, ieee_reaches (IEEE.init_state fr F) t /\ IEEE.step t = 7%nat /\
             ev (fun fuel => IEEE.hungarian_run fr fuel F) t) /\
  (entries_below (1022 - 4 * Z.of_nat (n * n)) F ->
   exists t, ieee_reaches (IEEE.init_state fr F) t /\ IEEE.step t = 7%nat /\
             ev (fun fuel => IEEE.hungarian_run fr fuel F) t).
Proof.
  intros Hsq HF. splits.
  - destruct (hungarian_reaches_seven fr input (square_mshape n input Hsq))
      as (s & Hr & HI & Hs).
    exists s. splits; auto. now apply reaches_loop.
  - intros Hno. destruct (ieee_run_total fr F n HF Hno) as (t & Hr & Hs).
    exists t. splits; auto. unfold IEEE.hungarian_run. now apply ieee_reaches_loop.
  - intros Hin. destruct (ieee_run_bounded fr F n HF Hin) as (t & Hr & Hs).
    exists t. splits; auto. unfold IEEE.hungarian_run. now apply ieee_reaches_loop.
Qed.

Lemma hungarian_terminates_witness :
  square 2 example2 /\ fsquare 2 IEEE.rounding_input /\
  no_overflow zero_fresh IEEE.rounding_input /\
  entries_below (1022 - 4 * Z.of_nat (2 * 2)) IEEE.rounding_input /\
  (exists s, reaches (init_state zero_fresh example2) s /\ step s = 7%nat /\
             ev (fun fuel => hungarian_run zero_fresh fuel example2) s) /\
  (exists t, ieee_reaches (IEEE.init_state zero_fresh IEEE.rounding_input) t /\
             IEEE.step t = 7%nat /\
             ev (fun fuel => IEEE.hungarian_run zero_fresh fuel IEEE.rounding_input) t) /\
  (exists t, ieee_reaches (IEEE.init_state zero_fresh IEEE.rounding_input) t /\
             IEEE.step t = 7%nat /\
             ev (fun fuel => IEEE.hungarian_run zero_fresh fuel IEEE.rounding_input) t).
Proof.
  split; [exact example2_square|]. split; [exact rounding_input_square|].
  split; [exact rounding_input_no_overflow|].
  split; [exact rounding_input_below|].
  destruct (hungarian_terminates zero_fresh 2 example2 IEEE.rounding_input
              example2_square rounding_input_square) as (H1 & H2 & H3).
  exact (conj H1 (conj (H2 rounding_input_no_overflow) (H3 rounding_input_below))).
Defined.

(** ** Phase 6, cell by cell *)

(** C4, as amended. Phase 6 computes [minval], the least cost of a cell whose
    row and column are uncovered, capped by DBL_MAX.  A cell in a covered row
    ([rcov == 1]) has it added and then a cell in an uncovered column
    ([ccov == 0]) has it subtracted: in a covered row and an uncovered column
    both happen, in a covered row and a covered column only the addition
    happens.  The same holds on doubles, with the addition and subtraction
    of doubles. *)
Theorem step_six_cells (n : nat) (C : mat) (F : IEEE.fmat) (RC CC : vec) :
  square n C -> fsquare n F ->
  (find_smallest DBL_MAX C RC CC n <= DBL_MAX /\
   (forall r c, idx n r -> idx n c -> vec_at RC r = 0 -> vec_at CC c = 0 ->
      find_smallest DBL_MAX C RC CC n <= mat_at C r c) /\
   (find_smallest DBL_MAX C RC CC n = DBL_MAX \/
    exists r c, idx n r /\ idx n c /\ vec_at RC r = 0 /\ vec_at CC c = 0 /\
                find_smallest DBL_MAX C RC CC n = mat_at C r c)) /\
  (forall r c, idx n r -> idx n c ->
     mat_at (snd (step_six C RC CC n)) r c =
       mat_at C r c
       + (if vec_at RC r =? 1 then find_smallest DBL_MAX C RC CC n else 0)
       - (if vec_at CC c =? 0 then find_smallest DBL_MAX C RC CC n else 0)) /\
  (forall r c, idx n r -> idx n c ->
     IEEE.cost_at (snd (IEEE.step_six F RC CC n)) r c =
       let m := IEEE.find_smallest IEEE.DBL_MAX F RC CC n in
       let x := IEEE.cost_at F r c in
       let x := if vec_at RC r =? 1 then PrimFloat.add x m else x in
       if vec_at CC c =? 0 then PrimFloat.sub x m else x).
Proof.
  intros Hsq HF. splits.
  - apply find_smallest_spec.
  - apply find_smallest_spec.
  - apply find_smallest_spec.
  - destruct (step_six_spec C RC CC n (square_shape n C Hsq)) as (_ & _ & Hat).
    intros r c Hr Hc. rewrite Hat by auto. unfold six_cell.
    destruct (vec_at RC r =? 1); destruct (vec_at CC c =? 0); lia.
  - destruct (ieee_step_six_spec F RC CC n (fsquare_fshape n F HF)) as (_ & _ & Hat).
    intros r c Hr Hc. rewrite Hat by auto. reflexivity.
Qed.

Lemma step_six_cells_witness :
  square 2 [[5; 3]; [2; 7]] /\ fsquare 2 IEEE.example2 /\
  mat_at (snd (step_six [[5; 3]; [2; 7]] [1; 0] [1; 0] 2)) 0 0 = 12 /\
  mat_at (snd (step_six [[5; 3]; [2; 7]] [1; 0] [1; 0] 2)) 0 1 = 3.
Proof.
  assert (H : square 2 [[5; 3]; [2; 7]]) by (split; [reflexivity|repeat constructor]).
  split; [exact H|]. split; [exact ieee_example2_square|].
  destruct (step_six_cells 2 [[5; 3]; [2; 7]] IEEE.example2 [1; 0] [1; 0] H
              ieee_example2_square) as (_ & Hat & _).
  split.
  - rewrite (Hat 0 0) by (unfold idx; simpl; lia). vm_compute. reflexivity.
  - rewrite (Hat 0 1) by (unfold idx; simpl; lia). vm_compute. reflexivity.
Defined.

(** C4, as stated, fails: on the input [example3] the solver comes to phase 6
    with row 0 and column 1 covered, and phase 6 raises the cost of the cell
    (0, 1) from 0 to 1 instead of keeping it. *)
Lemma step_six_double_cover :
  exists s, reachable zero_fresh example3 s /\ step s = 6%nat /\
    vec_at (rcov s) 0 = 1 /\ vec_at (ccov s) 1 = 1 /\
    mat_at (cost s) 0 1 = 0 /\
    mat_at (snd (step_six (cost s) (rcov s) (ccov s) (N s))) 0 1 = 1.
Proof.
  exists example3_phase6. split; [exact example3_phase6_reachable|].
  vm_compute. repeat split; reflexivity.
Qed.

(** ** Stars *)

(** The stars of a state that satisfies the invariant. *)
Lemma Inv_stars_unique input s :
  Inv input s -> row_unique (N s) (indM s) /\ col_unique (N s) (indM s).
Proof.
  intros HI. pose proof (i_phase _ _ HI) as Hp. unfold phase_inv in Hp.
  assert (Hzero : (forall r c, idx (N s) r -> idx (N s) c -> mat_at (indM s) r c = 0) ->
                  row_unique (N s) (indM s) /\ col_unique (N s) (indM s)).
  { intros H0. split.
    - intros r c1 c2 Hr Hc1 _ Hst _. unfold star in Hst. rewrite H0 in Hst; auto. lia.
    - intros c r1 r2 Hc Hr1 _ Hst _. unfold star in Hst. rewrite H0 in Hst; auto. lia. }
  assert (Hbase : base (N s) input (cost s) (indM s) ->
                  row_unique (N s) (indM s) /\ col_unique (N s) (indM s)).
  { intros Hb. split; [apply (b_row _ _ _ _ Hb)|apply (b_col _ _ _ _ Hb)]. }
  destruct (step s) as [|[|[|[|[|[|[|[|k]]]]]]]]; try tauto.
Qed.

Lemma unique_ones n M :
  row_unique n M -> col_unique n M ->
  (forall r, idx n r -> (ones_in_row M n r <= 1)%nat) /\
  (forall c, idx n c -> (ones_in_col M n c <= 1)%nat).
Proof.
  intros Hrow Hcol. split.
  - intros r Hi. unfold ones_in_row. apply count_if_unique_le.
    intros i j Hi' Hj Ei Ej. apply Z.eqb_eq in Ei, Ej. now apply (Hrow r).
  - intros c Hi. unfold ones_in_col. apply count_if_unique_le.
    intros i j Hi' Hj Ei Ej. apply Z.eqb_eq in Ei, Ej. now apply (Hcol c).
Qed.

(** C5. In every state of a solve, in exact arithmetic and on doubles, each
    row and each column of the mark matrix holds at most one starred mark
    (value 1). *)
Theorem stars_at_most_one (fr : fresh) (n : nat) (input : mat) (F : IEEE.fmat)
  (s : state) (t : IEEE.state) :
  square n input -> fsquare n F ->
  reachable fr input s -> ieee_reachable fr F t ->
  ((forall r, idx n r -> (ones_in_row (indM s) n r <= 1)%nat) /\
   (forall c, idx n c -> (ones_in_col (indM s) n c <= 1)%nat)) /\
  ((forall r, idx n r -> (ones_in_row (IEEE.indM t) n r <= 1)%nat) /\
   (forall c, idx n c -> (ones_in_col (IEEE.indM t) n c <= 1)%nat)).
Proof.
  intros Hsq [HF _] Hr Ht. split.
  - destruct (reachable_N fr n input s Hsq Hr) as [HI HN].
    destruct (Inv_stars_unique input s HI) as [Hrow Hcol]. rewrite HN in *.
    now apply unique_ones.
  - destruct (ieee_stars_unique fr F t Ht) as [Hrow Hcol]. rewrite HF in *.
    now apply unique_ones.
Qed.

Lemma stars_at_most_one_witness :
  square 3 example3 /\ fsquare 3 IEEE.example3 /\
  reachable zero_fresh example3 example3_phase6 /\
  ieee_reachable zero_fresh IEEE.example3 ieee_example3_phase6 /\
  ((forall r, idx 3 r -> (ones_in_row (indM example3_phase6) 3 r <= 1)%nat) /\
   (forall c, idx 3 c -> (ones_in_col (indM example3_phase6) 3 c <= 1)%nat)) /\
  ((forall r, idx 3 r -> (ones_in_row (IEEE.indM ieee_example3_phase6) 3 r <= 1)%nat) /\
   (forall c, idx 3 c -> (ones_in_col (IEEE.indM ieee_example3_phase6) 3 c <= 1)%nat)).
Proof.
  split; [exact example3_square|]. split; [exact ieee_example3_square|].
  split; [exact example3_phase6_reachable|].
  split; [exact ieee_example3_phase6_reachable|].
  exact (stars_at_most_one zero_fresh 3 example3 IEEE.example3
           example3_phase6 ieee_example3_phase6
           example3_square ieee_example3_square
           example3_phase6_reachable ieee_example3_phase6_reachable).
Defined.

(** The states above are those between two phases.  Inside phase 5 the stars
    need not be unique: [augment_path] flips the path one vertex at a time,
    and in the solve of [example2] the column 0 holds two stars once the
    first of the three vertices is flipped. *)
Lemma augment_path_one_by_one :
  exists p M1,
    step_five_path 10 (indM example2_phase5) (path example2_phase5)
      (rpath_0 example2_phase5) (cpath_0 example2_phase5) 2 = Ok (3, p) /\
    augment_path 1 (indM example2_phase5) p = Ok M1 /\
    ones_in_col M1 2 0 = 2%nat.
Proof.
  eexists. eexists. split; [vm_compute; reflexivity|].
  split; vm_compute; reflexivity.
Qed.

(** ** The path buffer *)

(** Phase 5 in a state that satisfies the invariant. *)
Lemma phase_five_safe input s :
  Inv input s -> step s = 5%nat ->
  length (path s) = (2 * N s)%nat /\
  (exists pc path',
     ev (fun fuel => step_five_path fuel (indM s) (path s) (rpath_0 s) (cpath_0 s) (N s))
        (pc, path') /\
     1 <= pc <= 2 * Z.of_nat (N s) - 1) /\
  (forall fuel msg,
     step_five_path fuel (indM s) (path s) (rpath_0 s) (cpath_0 s) (N s) <> Raise msg /\
     step_five fuel (indM s) (rcov s) (ccov s) (path s) (rpath_0 s) (cpath_0 s) (N s)
       <> Raise msg).
Proof.
  intros HI Hs.
  destruct (Inv_turn_five input s HI Hs)
    as (s' & Hev & _ & _ & pc & path1 & Hpath & Hpc).
  splits.
  - apply (i_path _ _ HI).
  - exists pc, path1. split; auto.
  - intros fuel msg.
    assert (H5 : step_five fuel (indM s) (rcov s) (ccov s) (path s)
                   (rpath_0 s) (cpath_0 s) (N s) <> Raise msg).
    { intros E.
      assert (Hd : dispatch fuel s = Raise msg).
      { unfold dispatch. rewrite Hs, E. reflexivity. }
      pose proof (ev_mono_unique (fun f => dispatch f s) s' fuel (Raise msg)
                    (dispatch_mono s) Hev Hd) as Hu.
      assert (Raise msg = Ok s') by (apply Hu; discriminate). discriminate. }
    split; auto.
    intros E. apply H5. unfold step_five. rewrite E. reflexivity.
Qed.

(** C6. Whenever phase 5 is due in a solve, in exact arithmetic and on
    doubles, the path buffer has 2N rows, the path that phase 5 builds has
    between 1 and 2N - 1 vertices, and no access to the buffer is out of
    range: phase 5 raises nothing. *)
Theorem path_count_bound (fr : fresh) (n : nat) (input : mat) (F : IEEE.fmat)
  (s : state) (t : IEEE.state) :
  square n input -> fsquare n F ->
  reachable fr input s -> step s = 5%nat ->
  ieee_reachable fr F t -> IEEE.step t = 5%nat ->
  (length (path s) = (2 * n)%nat /\
   (exists pc path',
      ev (fun fuel => step_five_path fuel (indM s) (path s) (rpath_0 s) (cpath_0 s) n)
         (pc, path') /\
      1 <= pc <= 2 * Z.of_nat n - 1) /\
   (forall fuel msg,
      step_five_path fuel (indM s) (path s) (rpath_0 s) (cpath_0 s) n <> Raise msg /\
      step_five fuel (indM s) (rcov s) (ccov s) (path s) (rpath_0 s) (cpath_0 s) n
        <> Raise msg)) /\
  (length (IEEE.path t) = (2 * n)%nat /\
   (exists pc path',
      ev (fun fuel => step_five_path fuel (IEEE.indM t) (IEEE.path t)
                        (IEEE.rpath_0 t) (IEEE.cpath_0 t) n)
         (pc, path') /\
      1 <= pc <= 2 * Z.of_nat n - 1) /\
   (forall fuel msg,
      step_five_path fuel (IEEE.indM t) (IEEE.path t)
        (IEEE.rpath_0 t) (IEEE.cpath_0 t) n <> Raise msg /\
      step_five fuel (IEEE.indM t) (IEEE.rcov t) (IEEE.ccov t) (IEEE.path t)
        (IEEE.rpath_0 t) (IEEE.cpath_0 t) n <> Raise msg)).
Proof.
  intros Hsq [HF _] Hr Hs Ht Hst. split.
  - destruct (reachable_N fr n input s Hsq Hr) as [HI HN].
    rewrite <- HN. now apply (phase_five_safe input).
  - destruct (ieee_reachable_inv fr F t Ht) as (C & HI & _).
    destruct (ieee_reachable_N fr F t Ht) as [HN _].
    rewrite <- HF, <- HN. apply (phase_five_safe C (lift t C) HI Hst).
Qed.

Lemma path_count_bound_witness :
  square 2 example2 /\ fsquare 2 IEEE.example2 /\
  reachable zero_fresh example2 example2_phase5 /\ step example2_phase5 = 5%nat /\
  ieee_reachable zero_fresh IEEE.example2 ieee_example2_phase5 /\
  IEEE.step ieee_example2_phase5 = 5%nat /\
  (exists pc path',
     ev (fun fuel => step_five_path fuel (indM example2_phase5) (path example2_phase5)
                       (rpath_0 example2_phase5) (cpath_0 example2_phase5) 2)
        (pc, path') /\
     1 <= pc <= 2 * Z.of_nat 2 - 1) /\
  (exists pc path',
     ev (fun fuel => step_five_path fuel (IEEE.indM ieee_example2_phase5)
                       (IEEE.path ieee_example2_phase5)
                       (IEEE.rpath_0 ieee_example2_phase5)
                       (IEEE.cpath_0 ieee_example2_phase5) 2)
        (pc, path') /\
     1 <= pc <= 2 * Z.of_nat 2 - 1).
Proof.
  split; [exact example2_square|]. split; [exact ieee_example2_square|].
  split; [exact example2_phase5_reachable|]. split; [reflexivity|].
  split; [exact ieee_example2_phase5_reachable|]. split; [reflexivity|].
  destruct (path_count_bound zero_fresh 2 example2 IEEE.example2
              example2_phase5 ieee_example2_phase5
              example2_square ieee_example2_square
              example2_phase5_reachable eq_refl
              ieee_example2_phase5_reachable eq_refl)
    as [(_ & H1 & _) (_ & H2 & _)].
  exact (conj H1 H2).
Defined.


(** ** The entry point that checks the shape *)

Lemma ieee_hungarian_safe fr fuel F msg : IEEE.hungarian fr fuel F <> Raise msg.
Proof.
  unfold IEEE.hungarian. intros H.
  destruct (IEEE.hungarian_run fr fuel F) as [t|e|] eqn:Hrun; simpl in H;
    try discriminate.
  apply (ieee_loop_safe fuel (IEEE.init_state fr F) e (ieee_inv_init fr F) Hrun).
Qed.

(** C7. [hungariansafe_cc] on a matrix whose row and column counts differ
    raises "Matrix is not square." whatever the fuel, so before the dispatcher
    takes a turn, and it raises nothing else: so it is in exact arithmetic
    and on doubles.  In exact arithmetic it returns on every square matrix. *)
Theorem hungariansafe_cc_errors (fr : fresh) (fuel : nat)
  (cost : NumericMatrix) (fcost : IEEE.NumericMatrix) :
  ((nrow cost <> ncol cost -> hungariansafe_cc fr fuel cost = Raise not_square) /\
   (forall msg, hungariansafe_cc fr fuel cost = Raise msg ->
      nrow cost <> ncol cost /\ msg = not_square) /\
   (nrow cost = ncol cost -> exists M, ev (fun f => hungariansafe_cc fr f cost) M)) /\
  ((IEEE.nrow fcost <> IEEE.ncol fcost ->
      IEEE.hungariansafe_cc fr fuel fcost = Raise not_square) /\
   (forall msg, IEEE.hungariansafe_cc fr fuel fcost = Raise msg ->
      IEEE.nrow fcost <> IEEE.ncol fcost /\ msg = not_square)).
Proof.
  assert (Hsquare : nrow cost = ncol cost ->
            exists M, ev (fun f => hungariansafe_cc fr f cost) M /\
                      forall f, hungariansafe_cc fr f cost =
                                hungarian fr f (arma_mat cost (nrow cost) (nrow cost))).
  { intros E.
    destruct (hungarian_result fr (arma_mat cost (nrow cost) (nrow cost)) (nrow cost)
                (arma_mat_square cost (nrow cost))) as (s & _ & Hev & _).
    assert (Hf : forall f, hungariansafe_cc fr f cost =
                   hungarian fr f (arma_mat cost (nrow cost) (nrow cost))).
    { intros f. unfold hungariansafe_cc. rewrite <- E, Nat.eqb_refl. reflexivity. }
    exists (indM s). split; auto.
    destruct Hev as [f0 Hf0]. exists f0. intros f Hle. rewrite Hf. now apply Hf0. }
  split; splits.
  - intros Hne. unfold hungariansafe_cc.
    apply Nat.eqb_neq in Hne. rewrite Hne. reflexivity.
  - intros msg H. destruct (Nat.eq_dec (nrow cost) (ncol cost)) as [E|Hne].
    + exfalso. destruct (Hsquare E) as (M & Hev & Hf). rewrite Hf in H.
      destruct Hev as [f0 Hf0].
      assert (Hm : hungarian fr (Nat.max fuel f0)
                     (arma_mat cost (nrow cost) (nrow cost)) = Raise msg).
      { apply (mono_le _ (hungarian_mono fr (arma_mat cost (nrow cost) (nrow cost)))
                 fuel); [lia|exact H|discriminate]. }
      rewrite <- Hf, Hf0 in Hm by lia. discriminate.
    + split; auto. unfold hungariansafe_cc in H.
      pose proof Hne as Hb. apply Nat.eqb_neq in Hb. rewrite Hb in H.
      simpl in H. now injection H as <-.
  - intros E. destruct (Hsquare E) as (M & Hev & _). now exists M.
  - intros Hne. unfold IEEE.hungariansafe_cc.
    apply Nat.eqb_neq in Hne. rewrite Hne. reflexivity.
  - intros msg H. unfold IEEE.hungariansafe_cc in H.
    destruct (Nat.eqb_spec (IEEE.nrow fcost) (IEEE.ncol fcost)) as [E|Hne]; simpl in H.
    + exfalso. exact (ieee_hungarian_safe fr fuel _ msg H).
    + split; auto. now injection H as <-.
Qed.

(** ** The matrix of the caller *)










(** ** The empty matrix *)

(** C9. On the empty matrix the dispatcher takes three turns, the phases 1, 2
    and 3, whose loops over the cells have nothing to do, and stops; the
    solver returns the empty mark matrix and raises nothing, and so does
    [hungariansafe_cc] on a 0 x 0 matrix: in exact arithmetic and on
    doubles. *)
Theorem hungarian_empty (fr : fresh) (fuel : nat) :
  ((exists s, turns 0 3 (init_state fr []) = Ok s /\ step s = 7%nat /\ indM s = []) /\
   hungarian fr (4 + fuel) [] = Ok [] /\
   (forall cost, nrow cost = 0%nat /\ ncol cost = 0%nat ->
      hungariansafe_cc fr (4 + fuel) cost = Ok [])) /\
  ((exists t, IEEE.turns 0 3 (IEEE.init_state fr []) = Ok t /\
              IEEE.step t = 7%nat /\ IEEE.indM t = []) /\
   IEEE.hungarian fr (4 + fuel) [] = Ok [] /\
   (forall cost, IEEE.nrow cost = 0%nat /\ IEEE.ncol cost = 0%nat ->
      IEEE.hungariansafe_cc fr (4 + fuel) cost = Ok [])).
Proof.
  split; splits.
  - eexists. splits; reflexivity.
  - reflexivity.
  - intros cost [Hr Hc]. unfold hungariansafe_cc. rewrite Hr, Hc. reflexivity.
  - eexists. splits; reflexivity.
  - reflexivity.
  - intros cost [Hr Hc]. unfold IEEE.hungariansafe_cc. rewrite Hr, Hc. reflexivity.
Qed.

(** ** The minimum of phase 6 *)

(** Every uncovered cost of the state [t] is a double up to DBL_MAX: none is
    +infinity, none is a NaN. *)
Definition uncovered_bounded (n : nat) (t : IEEE.state) : Prop :=
  forall r c, uncovered n (IEEE.rcov t) (IEEE.ccov t) r c ->
    PrimFloat.leb (IEEE.cost_at (IEEE.cost t) r c) IEEE.DBL_MAX = true.

(** C10, as amended. Whenever phase 6 is due in a solve, in exact arithmetic
    and on doubles, some cell has its row and its column uncovered.  On
    doubles, when no uncovered cost is +infinity or a NaN, [find_smallest]
    finds the true minimum: [minval] is the cost of an uncovered cell and is
    at most every uncovered cost; when no uncovered cost compares below
    DBL_MAX, [minval] is left at DBL_MAX.  In exact arithmetic [minval] is
    positive and at most every uncovered cost; it is the cost of an uncovered
    cell when some uncovered cost is at most DBL_MAX, and it is below DBL_MAX
    when no row of the input spreads over DBL_MAX or more. *)
Theorem step_six_finds_minimum (fr : fresh) (n : nat) (input : mat) (F : IEEE.fmat)
  (s : state) (t : IEEE.state) :
  square n input -> fsquare n F ->
  reachable fr input s -> step s = 6%nat ->
  ieee_reachable fr F t -> IEEE.step t = 6%nat ->
  ((exists r c, idx n r /\ idx n c /\ vec_at (rcov s) r = 0 /\ vec_at (ccov s) c = 0) /\
   0 < find_smallest DBL_MAX (cost s) (rcov s) (ccov s) n <= DBL_MAX /\
   (forall r c, idx n r -> idx n c -> vec_at (rcov s) r = 0 -> vec_at (ccov s) c = 0 ->
      find_smallest DBL_MAX (cost s) (rcov s) (ccov s) n <= mat_at (cost s) r c) /\
   ((exists r c, uncovered n (rcov s) (ccov s) r c /\ mat_at (cost s) r c <= DBL_MAX) ->
      exists r c, uncovered n (rcov s) (ccov s) r c /\
        find_smallest DBL_MAX (cost s) (rcov s) (ccov s) n = mat_at (cost s) r c) /\
   (row_spread_ok input = true ->
      find_smallest DBL_MAX (cost s) (rcov s) (ccov s) n < DBL_MAX /\
      exists r c, idx n r /\ idx n c /\ vec_at (rcov s) r = 0 /\ vec_at (ccov s) c = 0 /\
        find_smallest DBL_MAX (cost s) (rcov s) (ccov s) n = mat_at (cost s) r c)) /\
  ((exists r c, idx n r /\ idx n c /\
      vec_at (IEEE.rcov t) r = 0 /\ vec_at (IEEE.ccov t) c = 0) /\
   (uncovered_bounded n t ->
      (exists r c, uncovered n (IEEE.rcov t) (IEEE.ccov t) r c /\
         IEEE.find_smallest IEEE.DBL_MAX (IEEE.cost t) (IEEE.rcov t) (IEEE.ccov t) n =
         IEEE.cost_at (IEEE.cost t) r c) /\
      (forall r c, uncovered n (IEEE.rcov t) (IEEE.ccov t) r c ->
         PrimFloat.leb
           (IEEE.find_smallest IEEE.DBL_MAX (IEEE.cost t) (IEEE.rcov t) (IEEE.ccov t) n)
           (IEEE.cost_at (IEEE.cost t) r c) = true)) /\
   ((forall r c, uncovered n (IEEE.rcov t) (IEEE.ccov t) r c ->
       PrimFloat.ltb (IEEE.cost_at (IEEE.cost t) r c) IEEE.DBL_MAX = false) ->
    IEEE.find_smallest IEEE.DBL_MAX (IEEE.cost t) (IEEE.rcov t) (IEEE.ccov t) n =
    IEEE.DBL_MAX)).
Proof.
  intros Hsq [HF _] Hr Hs Ht Hst. split.
  - destruct (reachable_N fr n input s Hsq Hr) as [HI HN].
    pose proof (i_phase _ _ HI) as Hp. unfold phase_inv in Hp. rewrite Hs in Hp.
    destruct Hp as (Hb & Hse & Hnz). rewrite HN in *.
    destruct (search_uncovered _ _ _ _ _ _ Hb Hse) as (r & c & Hir & Hic & Hrc & Hcc).
    destruct (step_six_inv _ _ _ _ _ _ Hb Hse Hnz) as (_ & Hm & _).
    destruct (find_smallest_spec DBL_MAX (cost s) (rcov s) (ccov s) n)
      as (_ & Hmin & Hatt).
    cbv zeta in *. splits; auto; try lia.
    + exists r, c. auto.
    + intros (r1 & c1 & Hu & Hle). destruct Hatt as [E|(r2 & c2 & Hex)].
      * exists r1, c1. split; auto. destruct Hu as (H1 & H2 & H3 & H4).
        pose proof (Hmin r1 c1 H1 H2 H3 H4). lia.
      * exists r2, c2. unfold uncovered. tauto.
    + intros Hspread.
      pose proof (reachable_free_bound fr n input s Hsq Hspread Hr) as Hfb.
      unfold free_bound in Hfb. rewrite HN, Hs in Hfb.
      destruct (s_free _ _ _ _ Hse) as (c0 & Hc0 & Hfree).
      assert (Hcc0 : vec_at (ccov s) c0 = 0).
      { destruct (s_cc01 _ _ _ _ Hse c0 Hc0) as [H|H]; auto.
        destruct (s_ccstar _ _ _ _ Hse c0 Hc0 H) as (r' & Hr' & Hst').
        exfalso. now apply (Hfree r'). }
      assert (Hlt : mat_at (cost s) r c0 < DBL_MAX) by (apply Hfb; auto; lia).
      pose proof (Hmin r c0 Hir Hc0 Hrc Hcc0) as Hle.
      split; [lia|]. destruct Hatt as [E|Hex]; [lia|exact Hex].
  - destruct (ieee_reachable_inv fr F t Ht) as (C & HI & _).
    destruct (ieee_reachable_N fr F t Ht) as [HN _].
    pose proof (i_phase _ _ HI) as Hp. unfold phase_inv in Hp. simpl in Hp.
    rewrite Hst in Hp. destruct Hp as (Hb & Hse & _).
    rewrite HN, HF in *.
    destruct (search_uncovered _ _ _ _ _ _ Hb Hse) as (r & c & Hir & Hic & Hrc & Hcc).
    split; [exists r, c; auto|].
    split; [|apply ieee_find_smallest_sentinel].
    intros Hle.
    destruct (ieee_find_smallest_spec (IEEE.cost t) (IEEE.rcov t) (IEEE.ccov t) n Hle)
      as (_ & Hall & Hatt).
    cbv zeta in *. split; [|exact Hall].
    apply Hatt. exists r, c. unfold uncovered. auto.
Qed.

Lemma ieee_example3_phase6_bounded : uncovered_bounded 3 ieee_example3_phase6.
Proof.
  intros r c (Hr & Hc & _).
  assert (Er : r = 0 \/ r = 1 \/ r = 2) by idx_tac.
  assert (Ec : c = 0 \/ c = 1 \/ c = 2) by idx_tac.
  destruct Er as [->|[->| ->]]; destruct Ec as [->|[->| ->]]; vm_compute; reflexivity.
Qed.

Lemma step_six_finds_minimum_witness :
  square 3 example3 /\ fsquare 3 IEEE.example3 /\
  reachable zero_fresh example3 example3_phase6 /\ step example3_phase6 = 6%nat /\
  ieee_reachable zero_fresh IEEE.example3 ieee_example3_phase6 /\
  IEEE.step ieee_example3_phase6 = 6%nat /\
  row_spread_ok example3 = true /\
  uncovered_bounded 3 ieee_example3_phase6 /\
  (find_smallest DBL_MAX (cost example3_phase6) (rcov example3_phase6)
     (ccov example3_phase6) 3 < DBL_MAX /\
   exists r c, idx 3 r /\ idx 3 c /\
     vec_at (rcov example3_phase6) r = 0 /\ vec_at (ccov example3_phase6) c = 0 /\
     find_smallest DBL_MAX (cost example3_phase6) (rcov example3_phase6)
       (ccov example3_phase6) 3 = mat_at (cost example3_phase6) r c) /\
  (exists r c, idx 3 r /\ idx 3 c /\
     vec_at (IEEE.rcov ieee_example3_phase6) r = 0 /\
     vec_at (IEEE.ccov ieee_example3_phase6) c = 0) /\
  (exists r c,
     uncovered 3 (IEEE.rcov ieee_example3_phase6) (IEEE.ccov ieee_example3_phase6) r c /\
     IEEE.find_smallest IEEE.DBL_MAX (IEEE.cost ieee_example3_phase6)
       (IEEE.rcov ieee_example3_phase6) (IEEE.ccov ieee_example3_phase6) 3 =
     IEEE.cost_at (IEEE.cost ieee_example3_phase6) r c).
Proof.
  split; [exact example3_square|]. split; [exact ieee_example3_square|].
  split; [exact example3_phase6_reachable|]. split; [reflexivity|].
  split; [exact ieee_example3_phase6_reachable|]. split; [reflexivity|].
  split; [reflexivity|]. split; [exact ieee_example3_phase6_bounded|].
  destruct (step_six_finds_minimum zero_fresh 3 example3 IEEE.example3
              example3_phase6 ieee_example3_phase6
              example3_square ieee_example3_square
              example3_phase6_reachable eq_refl
              ieee_example3_phase6_reachable eq_refl)
    as [(_ & _ & _ & _ & H1) (H2 & H3 & _)].
  split; [exact (H1 eq_refl)|]. split; [exact H2|].
  exact (proj1 (H3 ieee_example3_phase6_bounded)).
Defined.


(** * Where rounding and overflow decide *)


(** The integers that [IEEE.overflow_input] denotes. *)
Definition overflow_costs : mat := [[DBL_MAX; - DBL_MAX]; [DBL_MAX; - DBL_MAX]].

(** On the example of the source the two models agree. *)
Lemma ieee_example2 :
  map (map IEEE.exact) IEEE.example2 = map (map Some) example2 /\
  IEEE.hungarian zero_fresh 20 IEEE.example2 = hungarian zero_fresh 20 example2.
Proof. split; vm_compute; reflexivity. Qed.

(** The states of the run on [IEEE.overflow_input] when phases 4 and 6 are due. *)
Definition overflow_phase4 : IEEE.state :=
  Eval vm_compute in
    match IEEE.turns 10 3 (IEEE.init_state zero_fresh IEEE.overflow_input) with
    | Ok s => s
    | _ => IEEE.init_state zero_fresh IEEE.overflow_input
    end.

Definition overflow_phase6 : IEEE.state :=
  Eval vm_compute in
    match IEEE.turns 10 4 (IEEE.init_state zero_fresh IEEE.overflow_input) with
    | Ok s => s
    | _ => IEEE.init_state zero_fresh IEEE.overflow_input
    end.

Lemma overflow_phase4_reachable :
  ieee_reachable zero_fresh IEEE.overflow_input overflow_phase4.
Proof.
  apply (ieee_turns_reachable zero_fresh IEEE.overflow_input 10 3
           (IEEE.init_state zero_fresh IEEE.overflow_input)).
  - apply ieee_reach_init.
  - vm_compute. reflexivity.
Qed.

Lemma overflow_phase6_reachable :
  ieee_reachable zero_fresh IEEE.overflow_input overflow_phase6.
Proof.
  apply (ieee_turns_reachable zero_fresh IEEE.overflow_input 10 4
           (IEEE.init_state zero_fresh IEEE.overflow_input)).
  - apply ieee_reach_init.
  - vm_compute. reflexivity.
Qed.

Lemma overflow_six_four fuel : IEEE.dispatch fuel overflow_phase6 = Ok overflow_phase4.
Proof. vm_compute. reflexivity. Qed.

Lemma overflow_four_six fuel :
  IEEE.dispatch fuel overflow_phase4 = OutOfFuel \/
  IEEE.dispatch fuel overflow_phase4 = Ok overflow_phase6.
Proof.
  do 8 (destruct fuel as [|fuel];
        [first [left; vm_compute; reflexivity | right; vm_compute; reflexivity]|]).
  right. vm_compute. reflexivity.
Qed.

Lemma overflow_cycle : forall fuel,
  IEEE.hungarian_loop fuel overflow_phase4 = OutOfFuel /\
  IEEE.hungarian_loop fuel overflow_phase6 = OutOfFuel.
Proof.
  induction fuel as [|fuel [IH4 IH6]]; [split; reflexivity|].
  rewrite !ieee_loop_S. split.
  - destruct (overflow_four_six fuel) as [E|E]; rewrite E; simpl; auto.
  - rewrite overflow_six_four. simpl. exact IH4.
Qed.

Lemma overflow_never_returns fuel :
  IEEE.hungarian_run zero_fresh fuel IEEE.overflow_input = OutOfFuel.
Proof.
  unfold IEEE.hungarian_run.
  do 3 (destruct fuel as [|fuel]; [reflexivity|]).
  assert (E : IEEE.hungarian_loop (S (S (S fuel)))
                (IEEE.init_state zero_fresh IEEE.overflow_input) =
              IEEE.hungarian_loop fuel overflow_phase4).
  { rewrite !ieee_loop_S. reflexivity. }
  rewrite E. apply overflow_cycle.
Qed.


(** The cell (0, 0) of [overflow_phase6] has no cover and holds +infinity. *)
Lemma overflow_phase6_uncovered :
  uncovered 2 (IEEE.rcov overflow_phase6) (IEEE.ccov overflow_phase6) 0 0 /\
  IEEE.cost_at (IEEE.cost overflow_phase6) 0 0 = PrimFloat.infinity.
Proof. unfold uncovered, idx. repeat split; simpl; try lia; reflexivity. Qed.

Lemma overflow_input_overflows : ~ no_overflow zero_fresh IEEE.overflow_input.
Proof.
  intros H. destruct overflow_phase6_uncovered as [Hu E].
  pose proof (H overflow_phase6 overflow_phase6_reachable eq_refl 0 0 Hu) as Hf.
  rewrite E in Hf. vm_compute in Hf. discriminate.
Qed.

(** C3, as stated, fails on doubles.  The costs [[DBL_MAX, -DBL_MAX],
    [DBL_MAX, -DBL_MAX]] are finite, but phase 1 computes DBL_MAX + DBL_MAX,
    which is +infinity.  Phase 4 then finds no uncovered zero, phase 6 finds
    no cost below DBL_MAX and subtracts DBL_MAX from +infinity, which changes
    nothing, and the dispatcher goes from phase 4 to phase 6 and back for
    ever.  What fails is that the uncovered costs are finite when phase 6 is
    due; the entries are not below 2^(1022 - 4 N^2). *)
Lemma ieee_overflow_never_returns :
  fsquare 2 IEEE.overflow_input /\
  map (map IEEE.exact) IEEE.overflow_input = map (map Some) overflow_costs /\
  ieee_reachable zero_fresh IEEE.overflow_input overflow_phase4 /\
  IEEE.step overflow_phase4 = 4%nat /\
  (forall fuel, IEEE.dispatch (8 + fuel) overflow_phase4 = Ok overflow_phase6) /\
  IEEE.step overflow_phase6 = 6%nat /\
  (forall fuel, IEEE.dispatch fuel overflow_phase6 = Ok overflow_phase4) /\
  (forall fuel, IEEE.hungarian_run zero_fresh fuel IEEE.overflow_input = OutOfFuel) /\
  (forall fuel, IEEE.hungarian zero_fresh fuel IEEE.overflow_input = OutOfFuel) /\
  ~ no_overflow zero_fresh IEEE.overflow_input /\
  ~ entries_below (1022 - 4 * Z.of_nat (2 * 2)) IEEE.overflow_input.
Proof.
  split; [split; [reflexivity|repeat constructor]|].
  split; [vm_compute; reflexivity|].
  split; [exact overflow_phase4_reachable|].
  split; [reflexivity|].
  split; [intros fuel; vm_compute; reflexivity|].
  split; [reflexivity|].
  split; [exact overflow_six_four|].
  split; [exact overflow_never_returns|].
  split; [intros fuel; unfold IEEE.hungarian; now rewrite overflow_never_returns|].
  split; [exact overflow_input_overflows|].
  intros H. inversion H as [|row rows Hrow _]; subst.
  inversion Hrow as [|x xs Hx _]; subst.
  apply smallb_spec in Hx. vm_compute in Hx. discriminate.
Qed.

(** C10, as stated, fails on doubles.  The solve of [IEEE.overflow_input]
    comes to phase 6 with +infinity in the two uncovered cells, where phase 1
    computed DBL_MAX + DBL_MAX.  No cost there is below DBL_MAX, so
    [find_smallest] leaves [minval] at DBL_MAX, which is the cost of no
    uncovered cell and not their minimum. *)
Lemma step_six_minval_sentinel :
  fsquare 2 IEEE.overflow_input /\
  ieee_reachable zero_fresh IEEE.overflow_input overflow_phase6 /\
  IEEE.step overflow_phase6 = 6%nat /\
  IEEE.rcov overflow_phase6 = [0; 0] /\ IEEE.ccov overflow_phase6 = [0; 1] /\
  IEEE.cost overflow_phase6 =
    [[PrimFloat.infinity; PrimFloat.zero]; [PrimFloat.infinity; PrimFloat.zero]] /\
  IEEE.find_smallest IEEE.DBL_MAX (IEEE.cost overflow_phase6) (IEEE.rcov overflow_phase6)
    (IEEE.ccov overflow_phase6) (IEEE.N overflow_phase6) = IEEE.DBL_MAX /\
  (forall r c,
     uncovered 2 (IEEE.rcov overflow_phase6) (IEEE.ccov overflow_phase6) r c ->
     IEEE.cost_at (IEEE.cost overflow_phase6) r c = PrimFloat.infinity /\
     IEEE.find_smallest IEEE.DBL_MAX (IEEE.cost overflow_phase6)
       (IEEE.rcov overflow_phase6) (IEEE.ccov overflow_phase6) 2 <>
     IEEE.cost_at (IEEE.cost overflow_phase6) r c) /\
  ~ uncovered_bounded 2 overflow_phase6.
Proof.
  split; [split; [reflexivity|repeat constructor]|].
  split; [exact overflow_phase6_reachable|].
  do 5 (split; [vm_compute; reflexivity|]).
  split.
  - intros r c (Hr & Hc & _ & Hcc).
    assert (Er : r = 0 \/ r = 1) by idx_tac.
    assert (Ec : c = 0 \/ c = 1) by idx_tac.
    destruct Ec as [->| ->]; [|vm_compute in Hcc; discriminate].
    assert (E : IEEE.cost_at (IEEE.cost overflow_phase6) r 0 = PrimFloat.infinity)
      by (destruct Er as [->| ->]; reflexivity).
    split; [exact E|].
    rewrite E. intros H. apply (f_equal PrimFloat.is_infinity) in H.
    vm_compute in H. discriminate.
  - intros H. destruct overflow_phase6_uncovered as [Hu E].
    pose proof (H 0 0 Hu) as Hf. rewrite E in Hf. vm_compute in Hf. discriminate.
Qed.

(** * What the covers hold at first decides *)



(** * The phases and their helpers, one by one *)

(** ** Auxiliary facts *)

Lemma vec_at_of_In (v : vec) x :
  In x v -> exists c, idx (length v) c /\ vec_at v c = x.
Proof.
  intros H. destruct (In_nth v x 0 H) as (k & Hk & E).
  exists (Z.of_nat k). split; [idx_tac|].
  unfold vec_at. destruct (Z.ltb_spec (Z.of_nat k) 0); [lia|].
  now rewrite Nat2Z.id.
Qed.

(** The last index that satisfies a test, and no later one does. *)
Lemma find_last_max (p : Z -> bool) n d :
  let x := for_ n (fun c acc => if p c then c else acc) d in
  (x = d /\ forall c, idx n c -> p c = false) \/
  (idx n x /\ p x = true /\ forall c, idx n c -> x < c -> p c = false).
Proof.
  apply (for_ind (fun i x =>
    (x = d /\ forall c, idx i c -> p c = false) \/
    (idx i x /\ p x = true /\ forall c, idx i c -> x < c -> p c = false))).
  - left. split; auto. intros c Hc. idx_tac.
  - intros i t Hi H. destruct (p (Z.of_nat i)) eqn:E.
    + right. splits; auto; [idx_tac|]. intros c Hc Hlt. idx_tac.
    + destruct H as [[-> Hno]|(Hx & Hp & Hmax)].
      * left. split; auto. intros c Hc.
        destruct (Z.eq_dec c (Z.of_nat i)) as [->|Hne]; auto.
        apply Hno. idx_tac.
      * right. splits; auto; [idx_tac|]. intros c Hc Hlt.
        destruct (Z.eq_dec c (Z.of_nat i)) as [->|Hne]; auto.
        apply Hmax; auto. idx_tac.
Qed.

(** Two matrices of one shape with the same cells are the same lists. *)
Lemma vec_ext (v w : vec) :
  length v = length w ->
  (forall c, idx (length v) c -> vec_at v c = vec_at w c) -> v = w.
Proof.
  intros Hl H. apply (nth_ext v w 0 0); auto.
  intros k Hk. specialize (H (Z.of_nat k)). unfold vec_at in H.
  destruct (Z.ltb_spec (Z.of_nat k) 0); [lia|].
  rewrite Nat2Z.id in H. apply H. idx_tac.
Qed.

Lemma mat_ext n (A B : mat) :
  mshape n A -> mshape n B ->
  (forall r c, idx n r -> idx n c -> mat_at A r c = mat_at B r c) -> A = B.
Proof.
  intros [HA1 HA2] [HB1 HB2] H. apply (nth_ext A B [] []); [congruence|].
  intros k Hk.
  assert (Hr : idx n (Z.of_nat k)) by idx_tac.
  pose proof (HA2 _ Hr) as La. pose proof (HB2 _ Hr) as Lb.
  assert (E : mat_row A (Z.of_nat k) = mat_row B (Z.of_nat k)).
  { apply vec_ext; [congruence|]. intros c Hc. apply (H (Z.of_nat k) c); auto.
    now rewrite La in Hc. }
  unfold mat_row in E. destruct (Z.ltb_spec (Z.of_nat k) 0); [lia|].
  now rewrite Nat2Z.id in E.
Qed.

(** ** Phase 1 *)

(** X1. Phase 1 hands over to phase 2 with every cost reduced by the least
    cost of its row: no cost of the reduced matrix is negative, and every
    row of it holds a zero. *)
Theorem step_one_row_zero (cost : mat) (n : nat) :
  square n cost ->
  fst (step_one cost n) = 2%nat /\
  (forall r c, idx n r -> idx n c ->
     mat_at (snd (step_one cost n)) r c = mat_at cost r c - vec_min (mat_row cost r) /\
     0 <= mat_at (snd (step_one cost n)) r c) /\
  (forall r, idx n r ->
     exists c, idx n c /\ mat_at (snd (step_one cost n)) r c = 0).
Proof.
  intros Hsq. pose proof (square_shape n cost Hsq) as Hm.
  destruct (step_one_spec cost n Hm) as (H1 & _ & H3). splits; auto.
  - intros r c Hr Hc. destruct (H3 r c Hr Hc) as [E Hle]. split; auto. lia.
  - intros r Hr. destruct Hm as [Hl Hrow].
    assert (Hne : mat_row cost r <> []).
    { intros E. specialize (Hrow r Hr). rewrite E in Hrow. simpl in Hrow. idx_tac. }
    destruct (vec_at_of_In _ _ (vec_min_in _ Hne)) as (c & Hc & E).
    rewrite (Hrow r Hr) in Hc. exists c. split; auto.
    destruct (H3 r c Hr Hc) as [-> _]. unfold mat_at. lia.
Qed.

Lemma step_one_row_zero_witness :
  square 2 example2 /\
  fst (step_one example2 2) = 2%nat /\
  (forall r c, idx 2 r -> idx 2 c ->
     mat_at (snd (step_one example2 2)) r c =
       mat_at example2 r c - vec_min (mat_row example2 r) /\
     0 <= mat_at (snd (step_one example2 2)) r c) /\
  (forall r, idx 2 r ->
     exists c, idx 2 c /\ mat_at (snd (step_one example2 2)) r c = 0).
Proof.
  exact (conj example2_square (step_one_row_zero example2 2 example2_square)).
Defined.

(** ** Phase 2 *)

(** The exact matrix with the zeros of a matrix of doubles. *)
Definition zeros_of (F : IEEE.fmat) (n : nat) : mat := pattern (zero_at F) n.

Lemma zeros_of_at F n r c :
  idx n r -> idx n c -> (mat_at (zeros_of F n) r c =? 0) = zero_at F r c.
Proof.
  intros Hr Hc. unfold zeros_of. rewrite mat_at_pattern by auto.
  now destruct (zero_at F r c).
Qed.

Lemma utest_zeros_of F n RC CC r c :
  idx n r -> idx n c -> utest F RC CC r c = uzerob (zeros_of F n) RC CC r c.
Proof. intros Hr Hc. unfold utest, uzerob. now rewrite zeros_of_at. Qed.

(** The stars of phase 2, from the loops. *)
Lemma step_two_stars (cost indM : mat) (rcov ccov : vec) (n : nat) :
  mshape n indM -> vshape n rcov -> vshape n ccov ->
  (forall r c, idx n r -> idx n c -> mat_at indM r c = 0) ->
  match step_two cost indM rcov ccov n with
  | (st, M, rc, cc) =>
      (forall r c, idx n r -> idx n c -> star M r c ->
         mat_at cost r c = 0 /\ vec_at rcov r = 0 /\ vec_at ccov c = 0) /\
      (forall r c, idx n r -> idx n c ->
         mat_at cost r c = 0 -> vec_at rcov r = 0 -> vec_at ccov c = 0 ->
         (exists c', idx n c' /\ star M r c') \/ (exists r', idx n r' /\ star M r' c))
  end.
Proof.
  intros HM Hrc Hcc H0. unfold step_two.
  set (K := fun (i : nat) (st : mat * vec * vec) =>
    let '(M, rc, cc) := st in
    mshape n M /\ vshape n rc /\ vshape n cc /\
    (forall r c, idx n r -> idx n c -> star M r c ->
       r < Z.of_nat i /\ mat_at cost r c = 0 /\ vec_at rcov r = 0 /\
       vec_at ccov c = 0 /\ vec_at cc c = 1) /\
    (forall r, idx n r -> Z.of_nat i <= r -> vec_at rc r = vec_at rcov r) /\
    (forall c, idx n c ->
       vec_at cc c = vec_at ccov c \/ exists r, idx n r /\ star M r c) /\
    (forall r c, idx n r -> idx n c -> r < Z.of_nat i ->
       mat_at cost r c = 0 -> vec_at rcov r = 0 -> vec_at ccov c = 0 ->
       (exists c', idx n c' /\ star M r c') \/ (exists r', idx n r' /\ star M r' c))).
  match goal with
  | |- context [for_ n ?b ?s] => assert (HK : K n (for_ n b s))
  end.
  { apply (for_ind K).
    - unfold K. splits; auto.
      + intros r c Hr Hc Hs. unfold star in Hs. rewrite H0 in Hs; auto. lia.
      + intros r c Hr Hc Hlt. idx_tac.
    - intros i [[M rc] cc] Hi HKi.
      destruct HKi as (K1 & K2 & K3 & K4 & K5 & K6 & K7).
      assert (Hr : idx n (Z.of_nat i)) by idx_tac.
      apply (for_break_ind
        (fun j st => st = (M, rc, cc) /\
           forall c, idx j c ->
             ~ (mat_at cost (Z.of_nat i) c = 0 /\ vec_at rc (Z.of_nat i) = 0 /\
                vec_at cc c = 0))
        (K (S i))).
      + split; auto. intros c Hc. idx_tac.
      + intros j t t' Hj [-> Hno].
        destruct ((mat_at cost (Z.of_nat i) (Z.of_nat j) =? 0) &&
                  (vec_at rc (Z.of_nat i) =? 0) &&
                  (vec_at cc (Z.of_nat j) =? 0)) eqn:E; [|congruence].
        intros Heq. injection Heq as <-.
        apply andb_true_iff in E. destruct E as [E E3].
        apply andb_true_iff in E. destruct E as [E1 E2].
        apply Z.eqb_eq in E1, E2, E3.
        assert (Hc : idx n (Z.of_nat j)) by idx_tac.
        assert (Hr0 : vec_at rcov (Z.of_nat i) = 0).
        { rewrite <- (K5 _ Hr) by lia. exact E2. }
        assert (Hc0 : vec_at ccov (Z.of_nat j) = 0).
        { destruct (K6 _ Hc) as [Ec|(r' & Hr' & Hs')]; [congruence|].
          destruct (K4 r' _ Hr' Hc Hs') as (_ & _ & _ & _ & Hx). lia. }
        assert (Hkeep : forall x y, star M x y ->
                  star (mat_set M (Z.of_nat i) (Z.of_nat j) 1) x y).
        { intros x y Hs. unfold star in *.
          assert (Hd : (Z.of_nat i = x /\ Z.of_nat j = y) \/
                       (Z.of_nat i <> x \/ Z.of_nat j <> y)) by lia.
          destruct Hd as [[<- <-]|Hd].
          - apply mat_at_set_eq.
            + destruct K1 as [-> _]; auto.
            + destruct K1 as [_ Hl]. rewrite Hl; auto.
          - now rewrite mat_at_set_ne by auto. }
        assert (Hnew : star (mat_set M (Z.of_nat i) (Z.of_nat j) 1)
                            (Z.of_nat i) (Z.of_nat j)).
        { unfold star. apply mat_at_set_eq.
          - destruct K1 as [-> _]; auto.
          - destruct K1 as [_ Hl]. rewrite Hl; auto. }
        unfold K. splits.
        * apply mshape_set; auto.
        * apply vshape_set; auto.
        * apply vshape_set; auto.
        * intros x y Hx Hy Hs.
          assert (Hd : (Z.of_nat i = x /\ Z.of_nat j = y) \/
                       (Z.of_nat i <> x \/ Z.of_nat j <> y)) by lia.
          destruct Hd as [[<- <-]|Hd].
          -- splits; auto; [lia|]. apply vec_at_set_eq. now rewrite K3.
          -- unfold star in Hs. rewrite mat_at_set_ne in Hs by auto.
             destruct (K4 x y Hx Hy Hs) as (A1 & A2 & A3 & A4 & A5).
             splits; auto; [lia|].
             destruct (Z.eq_dec (Z.of_nat j) y) as [<-|Hne].
             ++ apply vec_at_set_eq. now rewrite K3.
             ++ now rewrite vec_at_set_ne by auto.
        * intros x Hx Hle. rewrite vec_at_set_ne by lia. apply K5; auto. lia.
        * intros y Hy. destruct (Z.eq_dec (Z.of_nat j) y) as [<-|Hne].
          -- right. exists (Z.of_nat i). split; auto.
          -- rewrite vec_at_set_ne by auto.
             destruct (K6 y Hy) as [Ec|(r' & Hr' & Hs')]; auto.
             right. exists r'. split; auto.
        * intros x y Hx Hy Hlt Hz Hx0 Hy0.
          destruct (Z.eq_dec x (Z.of_nat i)) as [->|Hne].
          -- left. exists (Z.of_nat j). split; auto.
          -- destruct (K7 x y Hx Hy) as [(c' & Hc' & Hs')|(r' & Hr' & Hs')];
               auto; [lia| |].
             ++ left. exists c'. split; auto.
             ++ right. exists r'. split; auto.
      + intros j t t' Hj [-> Hno].
        destruct ((mat_at cost (Z.of_nat i) (Z.of_nat j) =? 0) &&
                  (vec_at rc (Z.of_nat i) =? 0) &&
                  (vec_at cc (Z.of_nat j) =? 0)) eqn:E; [congruence|].
        intros Heq. injection Heq as <-. split; auto.
        intros c Hc. destruct (Z.eq_dec c (Z.of_nat j)) as [->|Hne].
        * intros (E1 & E2 & E3). rewrite E1, E2, E3 in E. discriminate.
        * apply Hno. idx_tac.
      + intros t [-> Hno]. unfold K. splits; auto.
        * intros x y Hx Hy Hs.
          destruct (K4 x y Hx Hy Hs) as (A1 & A2 & A3 & A4 & A5).
          splits; auto. lia.
        * intros x Hx Hle. apply K5; auto. lia.
        * intros x y Hx Hy Hlt Hz Hx0 Hy0.
          destruct (Z.eq_dec x (Z.of_nat i)) as [->|Hne].
          -- right. destruct (K6 y Hy) as [Ec|Hs]; auto.
             exfalso. apply (Hno y Hy). splits; auto.
             ++ rewrite (K5 _ Hr) by lia. exact Hx0.
             ++ congruence.
          -- apply K7; auto. lia. }
  match goal with
  | |- context [for_ n ?b ?s] => destruct (for_ n b s) as [[M rc] cc]
  end.
  destruct HK as (K1 & K2 & K3 & K4 & K5 & K6 & K7). split.
  - intros r c Hr Hc Hs. destruct (K4 r c Hr Hc Hs) as (_ & A2 & A3 & A4 & _). auto.
  - intros r c Hr Hc. apply K7; auto. idx_tac.
Qed.

(** X2. Phase 2, in exact arithmetic and on doubles, stars a zero only in a
    row and a column whose covers read 0 when it starts (the solver gives the
    covers no values before), and it is greedy: every zero in such a row and
    column ends with a star in its row or in its column. *)
Theorem step_two_greedy (cost indM : mat) (F : IEEE.fmat) (rcov ccov : vec) (n : nat) :
  mshape n indM -> vshape n rcov -> vshape n ccov ->
  (forall r c, idx n r -> idx n c -> mat_at indM r c = 0) ->
  match step_two cost indM rcov ccov n with
  | (st, M, rc, cc) =>
      (forall r c, idx n r -> idx n c -> star M r c ->
         mat_at cost r c = 0 /\ vec_at rcov r = 0 /\ vec_at ccov c = 0) /\
      (forall r c, idx n r -> idx n c ->
         mat_at cost r c = 0 -> vec_at rcov r = 0 -> vec_at ccov c = 0 ->
         (exists c', idx n c' /\ star M r c') \/ (exists r', idx n r' /\ star M r' c))
  end /\
  match IEEE.step_two F indM rcov ccov n with
  | (st, M, rc, cc) =>
      (forall r c, idx n r -> idx n c -> star M r c ->
         zero_at F r c = true /\ vec_at rcov r = 0 /\ vec_at ccov c = 0) /\
      (forall r c, idx n r -> idx n c ->
         zero_at F r c = true -> vec_at rcov r = 0 -> vec_at ccov c = 0 ->
         (exists c', idx n c' /\ star M r c') \/ (exists r', idx n r' /\ star M r' c))
  end.
Proof.
  intros HM Hrc Hcc H0. split; [now apply step_two_stars|].
  rewrite (ieee_step_two_eq n F (zeros_of F n))
    by (intros r c Hr Hc; symmetry; now apply zeros_of_at).
  pose proof (step_two_stars (zeros_of F n) indM rcov ccov n HM Hrc Hcc H0) as H.
  destruct (step_two (zeros_of F n) indM rcov ccov n) as [[[st M] rc] cc].
  destruct H as [H1 H2]. split.
  - intros r c Hr Hc Hs. destruct (H1 r c Hr Hc Hs) as (E & E1 & E2). splits; auto.
    rewrite <- (zeros_of_at F n r c) by auto. now apply Z.eqb_eq.
  - intros r c Hr Hc Hz. apply H2; auto. apply Z.eqb_eq. now rewrite zeros_of_at.
Qed.

Lemma step_two_greedy_witness :
  mshape 2 (zeros 2) /\ vshape 2 [0; 1] /\ vshape 2 [0; 0] /\
  (forall r c, idx 2 r -> idx 2 c -> mat_at (zeros 2) r c = 0) /\
  match step_two [[0; 1]; [0; 2]] (zeros 2) [0; 1] [0; 0] 2 with
  | (st, M, rc, cc) =>
      (forall r c, idx 2 r -> idx 2 c -> star M r c ->
         mat_at [[0; 1]; [0; 2]] r c = 0 /\ vec_at [0; 1] r = 0 /\ vec_at [0; 0] c = 0) /\
      (forall r c, idx 2 r -> idx 2 c ->
         mat_at [[0; 1]; [0; 2]] r c = 0 -> vec_at [0; 1] r = 0 -> vec_at [0; 0] c = 0 ->
         (exists c', idx 2 c' /\ star M r c') \/ (exists r', idx 2 r' /\ star M r' c))
  end /\
  match IEEE.step_two IEEE.example2 (zeros 2) [0; 1] [0; 0] 2 with
  | (st, M, rc, cc) =>
      (forall r c, idx 2 r -> idx 2 c -> star M r c ->
         zero_at IEEE.example2 r c = true /\ vec_at [0; 1] r = 0 /\ vec_at [0; 0] c = 0) /\
      (forall r c, idx 2 r -> idx 2 c ->
         zero_at IEEE.example2 r c = true -> vec_at [0; 1] r = 0 -> vec_at [0; 0] c = 0 ->
         (exists c', idx 2 c' /\ star M r c') \/ (exists r', idx 2 r' /\ star M r' c))
  end.
Proof.
  assert (H4 : forall r c, idx 2 r -> idx 2 c -> mat_at (zeros 2) r c = 0).
  { intros r c _ _. apply mat_at_zeros. }
  split; [exact (mshape_zeros 2)|]. split; [reflexivity|]. split; [reflexivity|].
  split; [exact H4|].
  exact (step_two_greedy [[0; 1]; [0; 2]] (zeros 2) IEEE.example2 [0; 1] [0; 0] 2
           (mshape_zeros 2) eq_refl eq_refl H4).
Defined.

(** ** Phase 3 *)

(** X3. Phase 3 sets the cover of every column that holds a star to 1 and
    leaves the other column covers as they are; it hands over to phase 7
    when all the N column covers then read 1 and to phase 4 otherwise.  With
    the covers cleared before, as phases 2 and 5 leave them, phase 7 follows
    exactly when every column holds a star. *)
Theorem step_three_covers (M : mat) (ccov : vec) (n : nat) :
  vshape n ccov ->
  match step_three M ccov n with
  | (st, cc) =>
      vshape n cc /\
      (forall c, idx n c -> (exists r, idx n r /\ star M r c) -> vec_at cc c = 1) /\
      (forall c, idx n c -> (forall r, idx n r -> ~ star M r c) ->
         vec_at cc c = vec_at ccov c) /\
      (st = 7%nat \/ st = 4%nat) /\
      (st = 7%nat <-> forall c, idx n c -> vec_at cc c = 1) /\
      ((forall c, idx n c -> vec_at ccov c = 0) ->
       (st = 7%nat <-> forall c, idx n c -> exists r, idx n r /\ star M r c))
  end.
Proof.
  intros Hv. pose proof (step_three_spec M ccov n Hv) as H.
  destruct (step_three M ccov n) as [st cc].
  destruct H as (Hs & Hc & Hst).
  assert (Hno : forall c, idx n c -> (forall r, idx n r -> ~ star M r c) ->
                  vec_at cc c = vec_at ccov c).
  { intros c Hc0 Hn. destruct (Hc c Hc0) as [_ [E|(_ & r & Hr & Hs')]]; auto.
    exfalso. apply (Hn r Hr Hs'). }
  assert (Hiff : st = 7%nat <-> forall c, idx n c -> vec_at cc c = 1).
  { destruct Hst as [[-> Hall]|[-> (c & Hc0 & Hne)]].
    - tauto.
    - split; [discriminate|]. intros Hall. exfalso. apply Hne. now apply Hall. }
  splits; auto.
  - intros c Hc0 (r & Hr & Hs'). destruct (Hc c Hc0) as [Ha _]. now apply (Ha r).
  - destruct Hst as [[-> _]|[-> _]]; auto.
  - intros Hz. rewrite Hiff. split; intros Hall c Hc0.
    + destruct (Hc c Hc0) as [_ [E|(_ & r & Hr & Hs')]].
      * rewrite (Hall c Hc0), (Hz c Hc0) in E. discriminate.
      * exists r. split; auto.
    + destruct (Hall c Hc0) as (r & Hr & Hs').
      destruct (Hc c Hc0) as [Ha _]. now apply (Ha r).
Qed.

Lemma step_three_covers_witness :
  vshape 2 [0; 0] /\
  match step_three [[0; 1]; [0; 0]] [0; 0] 2 with
  | (st, cc) =>
      vshape 2 cc /\
      (forall c, idx 2 c -> (exists r, idx 2 r /\ star [[0; 1]; [0; 0]] r c) ->
         vec_at cc c = 1) /\
      (forall c, idx 2 c -> (forall r, idx 2 r -> ~ star [[0; 1]; [0; 0]] r c) ->
         vec_at cc c = vec_at [0; 0] c) /\
      (st = 7%nat \/ st = 4%nat) /\
      (st = 7%nat <-> forall c, idx 2 c -> vec_at cc c = 1) /\
      ((forall c, idx 2 c -> vec_at [0; 0] c = 0) ->
       (st = 7%nat <->
        forall c, idx 2 c -> exists r, idx 2 r /\ star [[0; 1]; [0; 0]] r c))
  end.
Proof.
  split; [reflexivity|].
  exact (step_three_covers [[0; 1]; [0; 0]] [0; 0] 2 eq_refl).
Defined.

(** ** The search for an uncovered zero *)

(** The inner loop of the search: the first uncovered zero of the row from
    column [c] on. *)
Lemma find_noncovered_zero_cols_first C RC CC n r : forall k c,
  Z.of_nat k = Z.of_nat n - c -> 0 <= c -> (1 <= k)%nat ->
  exists res,
    (forall fuel, (k <= fuel)%nat ->
       find_noncovered_zero_cols fuel C RC CC n r c (-1) (-1) false = Ok res) /\
    ((exists col, res = (r, col, true) /\ c <= col < Z.of_nat n /\
                  uzero C RC CC r col /\
                  forall c', c <= c' < col -> ~ uzero C RC CC r c') \/
     (res = (-1, -1, false) /\
      forall c', c <= c' < Z.of_nat n -> ~ uzero C RC CC r c')).
Proof.
  induction k as [|k IH]; intros c Hk Hc Hk1; [lia|].
  destruct (uzerob C RC CC r c) eqn:E.
  - exists (r, c, true). split.
    + intros [|fuel] Hf; [lia|]. rewrite find_noncovered_zero_cols_S.
      fold (uzerob C RC CC r c). rewrite E. cbv zeta.
      now rewrite orb_true_r.
    + left. exists c. splits; auto; try lia. now apply uzerob_spec.
  - destruct (Z.eqb_spec (c + 1) (Z.of_nat n)) as [En|En].
    + exists (-1, -1, false). split.
      * intros [|fuel] Hf; [lia|]. rewrite find_noncovered_zero_cols_S.
        fold (uzerob C RC CC r c). rewrite E. cbv zeta.
        destruct (Z.eqb_spec (c + 1) (Z.of_nat n)); [reflexivity|lia].
      * right. split; auto. intros c' Hc'. assert (c' = c) as -> by lia.
        now apply uzerob_false.
    + destruct (IH (c + 1)) as (res & Hres & Hspec); try lia.
      exists res. split.
      * intros [|fuel] Hf; [lia|]. rewrite find_noncovered_zero_cols_S.
        fold (uzerob C RC CC r c). rewrite E. cbv zeta.
        destruct (Z.eqb_spec (c + 1) (Z.of_nat n)); [lia|]. simpl.
        apply Hres. lia.
      * destruct Hspec as [(col & -> & Hcol & Hu & Hfirst)|[-> Hno]].
        -- left. exists col. splits; auto; try lia. intros c' Hc'.
           destruct (Z.eq_dec c' c) as [->|Hne]; [now apply uzerob_false|].
           apply Hfirst. lia.
        -- right. split; auto. intros c' Hc'.
           destruct (Z.eq_dec c' c) as [->|Hne]; [now apply uzerob_false|].
           apply Hno. lia.
Qed.

(** The outer loop: the first row from [r] on with an uncovered zero. *)
Lemma find_noncovered_zero_rows_first C RC CC n : forall k r,
  Z.of_nat k = Z.of_nat n - r -> 0 <= r -> (1 <= k)%nat ->
  exists res,
    (forall fuel, (k + n <= fuel)%nat ->
       find_noncovered_zero_rows fuel C RC CC n r (-1) (-1) = Ok res) /\
    ((exists row col, res = (row, col) /\ r <= row < Z.of_nat n /\ idx n col /\
                      uzero C RC CC row col /\
                      (forall c', idx n c' -> c' < col -> ~ uzero C RC CC row c') /\
                      (forall r' c', r <= r' < row -> idx n c' ->
                                     ~ uzero C RC CC r' c')) \/
     (res = (-1, -1) /\
      forall r' c', r <= r' < Z.of_nat n -> idx n c' -> ~ uzero C RC CC r' c')).
Proof.
  induction k as [|k IH]; intros r Hk Hr Hk1; [lia|].
  destruct (find_noncovered_zero_cols_first C RC CC n r n 0)
    as (res & Hres & Hspec); try lia.
  destruct Hspec as [(col & -> & Hcol & Hu & Hfirst)|[-> Hno]].
  - exists (r, col). split.
    + intros [|fuel] Hf; [lia|]. rewrite find_noncovered_zero_rows_S.
      rewrite Hres by lia. simpl.
      now destruct (r + 1 =? Z.of_nat n).
    + left. exists r, col.
      split; [reflexivity|]. split; [lia|]. split; [idx_tac|]. split; [exact Hu|].
      split.
      * intros c' Hc' Hlt. apply Hfirst. idx_tac.
      * intros r' c' Hr'. lia.
  - destruct (Z.eqb_spec (r + 1) (Z.of_nat n)) as [En|En].
    + exists (-1, -1). split.
      * intros [|fuel] Hf; [lia|]. rewrite find_noncovered_zero_rows_S.
        rewrite Hres by lia. simpl.
        destruct (Z.eqb_spec (r + 1) (Z.of_nat n)); [reflexivity|lia].
      * right. split; auto. intros r' c' Hr' Hc'. assert (r' = r) as -> by lia.
        apply Hno. idx_tac.
    + destruct (IH (r + 1)) as (res & Hres' & Hspec); try lia.
      exists res. split.
      * intros [|fuel] Hf; [lia|]. rewrite find_noncovered_zero_rows_S.
        rewrite Hres by lia. simpl.
        destruct (Z.eqb_spec (r + 1) (Z.of_nat n)); [lia|].
        apply Hres'. lia.
      * destruct Hspec as [(row & col & -> & Hrow & Hcol & Hu & Hf1 & Hf2)|[-> Hno']].
        -- left. exists row, col. splits; auto; try lia.
           intros r' c' Hr' Hc'.
           destruct (Z.eq_dec r' r) as [->|Hne]; [apply Hno; idx_tac|].
           apply Hf2; auto. lia.
        -- right. split; auto. intros r' c' Hr' Hc'.
           destruct (Z.eq_dec r' r) as [->|Hne]; [apply Hno; idx_tac|].
           apply Hno'; auto. lia.
Qed.

(** The whole search. *)
Lemma find_noncovered_zero_scan (C : mat) (RC CC : vec) (n : nat) :
  (1 <= n)%nat ->
  exists row col,
    ev (fun fuel => find_noncovered_zero fuel C RC CC n) (row, col) /\
    ((row = -1 /\ col = -1 /\
      forall r c, idx n r -> idx n c -> ~ uzero C RC CC r c) \/
     (idx n row /\ idx n col /\ uzero C RC CC row col /\
      forall r c, idx n r -> idx n c -> uzero C RC CC r c ->
        row < r \/ (row = r /\ col <= c))).
Proof.
  intros Hn.
  destruct (find_noncovered_zero_rows_first C RC CC n n 0)
    as (res & Hres & Hspec); try lia.
  destruct res as [row col]. exists row, col. split.
  - exists (n + n)%nat. intros fuel Hf. apply Hres. exact Hf.
  - destruct Hspec as [(row' & col' & E & Hrow & Hcol & Hu & Hf1 & Hf2)|[E Hno]].
    + injection E as -> ->. right. splits; auto.
      intros r c Hr Hc Huz.
      destruct (Z.lt_trichotomy r row') as [Hlt|[->|Hgt]]; [|right|left; lia].
      * exfalso. apply (Hf2 r c); auto. idx_tac.
      * split; auto. destruct (Z.lt_ge_cases c col') as [Hlt|Hge]; [|lia].
        exfalso. now apply (Hf1 c).
    + injection E as -> ->. left. splits; auto.
Qed.

(** X4. On a matrix with at least one row, in exact arithmetic and on
    doubles, [find_noncovered_zero] returns: (-1, -1) when no zero has its
    row and its column uncovered, and otherwise the first such zero in
    reading order (row by row, each row from the left). *)
Theorem find_noncovered_zero_first (C : mat) (F : IEEE.fmat) (RC CC : vec) (n : nat) :
  (1 <= n)%nat ->
  (exists row col,
     ev (fun fuel => find_noncovered_zero fuel C RC CC n) (row, col) /\
     ((row = -1 /\ col = -1 /\
       forall r c, idx n r -> idx n c -> ~ uzero C RC CC r c) \/
      (idx n row /\ idx n col /\ uzero C RC CC row col /\
       forall r c, idx n r -> idx n c -> uzero C RC CC r c ->
         row < r \/ (row = r /\ col <= c)))) /\
  (exists row col,
     ev (fun fuel => IEEE.find_noncovered_zero fuel F RC CC n) (row, col) /\
     ((row = -1 /\ col = -1 /\
       forall r c, idx n r -> idx n c -> utest F RC CC r c = false) \/
      (idx n row /\ idx n col /\ utest F RC CC row col = true /\
       forall r c, idx n r -> idx n c -> utest F RC CC r c = true ->
         row < r \/ (row = r /\ col <= c)))).
Proof.
  intros Hn. split; [now apply find_noncovered_zero_scan|].
  destruct (find_noncovered_zero_scan (zeros_of F n) RC CC n Hn)
    as (row & col & [f0 Hf0] & Hcase).
  exists row, col. split.
  - exists f0. intros fuel Hf.
    rewrite (ieee_find_eq n F (zeros_of F n) RC CC (utest_zeros_of F n RC CC)) by auto.
    now apply Hf0.
  - destruct Hcase as [(-> & -> & Hno)|(Hr & Hc & Hu & Hfirst)].
    + left. splits; auto. intros r c Hr Hc.
      rewrite (utest_zeros_of F n) by auto. apply uzerob_false. now apply Hno.
    + right. splits; auto.
      * rewrite (utest_zeros_of F n) by auto. now apply uzerob_spec.
      * intros r c Hr' Hc' Ht. apply Hfirst; auto.
        apply uzerob_spec. now rewrite <- (utest_zeros_of F n) by auto.
Qed.

Lemma find_noncovered_zero_first_witness :
  (1 <= 2)%nat /\
  (exists row col,
     ev (fun fuel => find_noncovered_zero fuel [[3; 0]; [0; 0]] [0; 0] [0; 0] 2)
        (row, col) /\
     ((row = -1 /\ col = -1 /\
       forall r c, idx 2 r -> idx 2 c -> ~ uzero [[3; 0]; [0; 0]] [0; 0] [0; 0] r c) \/
      (idx 2 row /\ idx 2 col /\ uzero [[3; 0]; [0; 0]] [0; 0] [0; 0] row col /\
       forall r c, idx 2 r -> idx 2 c -> uzero [[3; 0]; [0; 0]] [0; 0] [0; 0] r c ->
         row < r \/ (row = r /\ col <= c)))) /\
  (exists row col,
     ev (fun fuel => IEEE.find_noncovered_zero fuel IEEE.example2 [0; 0] [0; 0] 2)
        (row, col) /\
     ((row = -1 /\ col = -1 /\
       forall r c, idx 2 r -> idx 2 c -> utest IEEE.example2 [0; 0] [0; 0] r c = false) \/
      (idx 2 row /\ idx 2 col /\ utest IEEE.example2 [0; 0] [0; 0] row col = true /\
       forall r c, idx 2 r -> idx 2 c -> utest IEEE.example2 [0; 0] [0; 0] r c = true ->
         row < r \/ (row = r /\ col <= c)))).
Proof.
  split; [lia|].
  apply (find_noncovered_zero_first [[3; 0]; [0; 0]] IEEE.example2 [0; 0] [0; 0] 2). lia.
Defined.

(** ** Stars and primes of a line *)

(** X5. [star_in_row] says whether the row holds a star, and
    [find_star_in_row] returns -1 exactly in the rows where it says no;
    otherwise the column returned holds a star and is the last one of the row
    that does. *)
Theorem find_star_in_row_last (row : Z) (M : mat) (n : nat) :
  (star_in_row row M n = true <-> exists c, idx n c /\ star M row c) /\
  (find_star_in_row row M n = -1 <-> star_in_row row M n = false) /\
  (star_in_row row M n = true ->
   idx n (find_star_in_row row M n) /\
   star M row (find_star_in_row row M n) /\
   forall c, idx n c -> star M row c -> c <= find_star_in_row row M n).
Proof.
  pose proof (star_in_row_true row M n) as Htrue.
  pose proof (star_in_row_false row M n) as Hfalse.
  unfold find_star_in_row.
  destruct (find_last_max (fun c => mat_at M row c =? 1) n (-1))
    as [[H1 H2]|(H1 & H2 & H3)].
  - assert (Hno : forall c, idx n c -> ~ star M row c).
    { intros c Hc Hs. specialize (H2 c Hc). apply Z.eqb_neq in H2. auto. }
    apply Hfalse in Hno. splits; auto.
    + rewrite H1. tauto.
    + intros Ht. rewrite Ht in Hno. discriminate.
  - apply Z.eqb_eq in H2.
    assert (Ht : star_in_row row M n = true).
    { apply Htrue. eexists. split; [exact H1|exact H2]. }
    splits; auto.
    + split; intros E; [idx_tac|]. rewrite Ht in E. discriminate.
    + intros _. splits; auto. intros c Hc Hs.
      destruct (Z.lt_ge_cases
        (for_ n (fun c0 acc => if mat_at M row c0 =? 1 then c0 else acc) (-1)) c)
        as [Hlt|Hge]; [|lia].
      specialize (H3 c Hc Hlt). apply Z.eqb_neq in H3. contradiction.
Qed.

(** X6. [find_star_in_col] returns -1 when the column holds no star and
    otherwise the last row with a star in the column.  [find_prime_in_row]
    has no such value: it returns the last column with a prime in the row,
    and when the row holds no prime it returns the column it was given. *)
Theorem find_in_line_last (row col col0 : Z) (M : mat) (n : nat) :
  ((find_star_in_col col M n = -1 /\ forall r, idx n r -> ~ star M r col) \/
   (idx n (find_star_in_col col M n) /\ star M (find_star_in_col col M n) col /\
    forall r, idx n r -> star M r col -> r <= find_star_in_col col M n)) /\
  ((find_prime_in_row row col0 M n = col0 /\ forall c, idx n c -> ~ prime M row c) \/
   (idx n (find_prime_in_row row col0 M n) /\
    prime M row (find_prime_in_row row col0 M n) /\
    forall c, idx n c -> prime M row c -> c <= find_prime_in_row row col0 M n)).
Proof.
  split.
  - unfold find_star_in_col.
    destruct (find_last_max (fun r => mat_at M r col =? 1) n (-1))
      as [[H1 H2]|(H1 & H2 & H3)].
    + left. split; auto. intros r Hr Hs. specialize (H2 r Hr).
      apply Z.eqb_neq in H2. auto.
    + right. apply Z.eqb_eq in H2. splits; auto. intros r Hr Hs.
      destruct (Z.lt_ge_cases
        (for_ n (fun r0 acc => if mat_at M r0 col =? 1 then r0 else acc) (-1)) r)
        as [Hlt|Hge]; [|lia].
      specialize (H3 r Hr Hlt). apply Z.eqb_neq in H3. contradiction.
  - unfold find_prime_in_row.
    destruct (find_last_max (fun c => mat_at M row c =? 2) n col0)
      as [[H1 H2]|(H1 & H2 & H3)].
    + left. split; auto. intros c Hc Hs. specialize (H2 c Hc).
      apply Z.eqb_neq in H2. auto.
    + right. apply Z.eqb_eq in H2. splits; auto. intros c Hc Hs.
      destruct (Z.lt_ge_cases
        (for_ n (fun c0 acc => if mat_at M row c0 =? 2 then c0 else acc) col0) c)
        as [Hlt|Hge]; [|lia].
      specialize (H3 c Hc Hlt). apply Z.eqb_neq in H3. contradiction.
Qed.

(** ** Erasing the primes *)

(** X7. [erase_primes] turns every 2 of the mark matrix into 0 and changes
    no other cell: the stars stay where they are, no prime is left, and
    erasing a second time changes nothing. *)
Theorem erase_primes_only_primes (M : mat) (n : nat) :
  mshape n M ->
  mshape n (erase_primes M n) /\
  (forall r c, idx n r -> idx n c ->
     mat_at (erase_primes M n) r c = (if mat_at M r c =? 2 then 0 else mat_at M r c) /\
     (star (erase_primes M n) r c <-> star M r c) /\
     ~ prime (erase_primes M n) r c) /\
  erase_primes (erase_primes M n) n = erase_primes M n.
Proof.
  intros HM. destruct (erase_primes_spec M n HM) as [Hs Hc].
  assert (Hnp : forall r c, idx n r -> idx n c -> mat_at (erase_primes M n) r c <> 2).
  { intros r c Hr Hc0. rewrite Hc by auto.
    destruct (Z.eqb_spec (mat_at M r c) 2); lia. }
  splits; auto.
  - intros r c Hr Hc0. splits.
    + now apply Hc.
    + unfold star. rewrite Hc by auto.
      destruct (Z.eqb_spec (mat_at M r c) 2); lia.
    + unfold prime. now apply Hnp.
  - destruct (erase_primes_spec (erase_primes M n) n Hs) as [Hs2 Hc2].
    apply (mat_ext n); auto. intros r c Hr Hc0. rewrite Hc2 by auto.
    destruct (Z.eqb_spec (mat_at (erase_primes M n) r c) 2) as [E|E]; auto.
    exfalso. now apply (Hnp r c).
Qed.

Lemma erase_primes_only_primes_witness :
  mshape 2 [[1; 2]; [2; 0]] /\
  mshape 2 (erase_primes [[1; 2]; [2; 0]] 2) /\
  (forall r c, idx 2 r -> idx 2 c ->
     mat_at (erase_primes [[1; 2]; [2; 0]] 2) r c =
       (if mat_at [[1; 2]; [2; 0]] r c =? 2 then 0 else mat_at [[1; 2]; [2; 0]] r c) /\
     (star (erase_primes [[1; 2]; [2; 0]] 2) r c <-> star [[1; 2]; [2; 0]] r c) /\
     ~ prime (erase_primes [[1; 2]; [2; 0]] 2) r c) /\
  erase_primes (erase_primes [[1; 2]; [2; 0]] 2) 2 = erase_primes [[1; 2]; [2; 0]] 2.
Proof.
  assert (H : mshape 2 [[1; 2]; [2; 0]]).
  { apply square_shape. split; [reflexivity|repeat constructor]. }
  exact (conj H (erase_primes_only_primes [[1; 2]; [2; 0]] 2 H)).
Defined.


(** * The phases inside a solve *)

(** The state of the solve of [example2] when phase 4 is due for the second
    time, after phase 6. *)
Definition example2_phase4 : state :=
  Eval vm_compute in
    match turns 10 5 (init_state zero_fresh example2) with
    | Ok s => s
    | _ => init_state zero_fresh example2
    end.

Lemma example2_phase4_reachable : reachable zero_fresh example2 example2_phase4.
Proof.
  apply (turns_reachable zero_fresh example2 10 5 (init_state zero_fresh example2)).
  - apply reach_init.
  - vm_compute. reflexivity.
Qed.

(** ** Phase 4 *)

(** The same state of the run on doubles. *)
Definition ieee_example2_phase4 : IEEE.state :=
  Eval vm_compute in
    match IEEE.turns 10 5 (IEEE.init_state zero_fresh IEEE.example2) with
    | Ok s => s
    | _ => IEEE.init_state zero_fresh IEEE.example2
    end.

Lemma ieee_example2_phase4_reachable :
  ieee_reachable zero_fresh IEEE.example2 ieee_example2_phase4.
Proof.
  apply (ieee_turns_reachable zero_fresh IEEE.example2 10 5
           (IEEE.init_state zero_fresh IEEE.example2)).
  - apply ieee_reach_init.
  - vm_compute. reflexivity.
Qed.

(** Phase 4 only adds primes, on cells without a mark; the seed it hands to
    phase 5 had no mark when the phase began and has cost zero. *)
Lemma step_four_marks n input C r0 c0 st0 :
  (1 <= n)%nat ->
  forall fuel M RC CC st M' RC' CC' r0' c0',
    base n input C M -> search n M RC CC ->
    step_four_loop fuel C M RC CC r0 c0 n st0 = Ok (st, M', RC', CC', r0', c0') ->
    (forall r c, idx n r -> idx n c -> mat_at M' r c = 0 -> mat_at M r c = 0) /\
    (st = 5%nat -> mat_at M r0' c0' = 0 /\ mat_at C r0' c0' = 0).
Proof.
  intros Hn. induction fuel as [|fuel IH];
    intros M RC CC st M' RC' CC' r0' c0' Hb Hs H; [discriminate|].
  rewrite step_four_loop_S in H.
  destruct (find_noncovered_zero fuel C RC CC n) as [[row col]| |] eqn:Hf;
    simpl in H; try discriminate.
  destruct (Z.eqb_spec row (-1)) as [E|E].
  - injection H as <- <- <- <- <- <-. split; auto. discriminate.
  - destruct (find_noncovered_zero_spec C RC CC n Hn) as (row' & col' & Hev & Hz).
    assert (Eq : Ok (row, col) = Ok (row', col')).
    { apply (ev_mono_unique (fun f => find_noncovered_zero f C RC CC n) (row', col') fuel);
        auto; [apply find_noncovered_zero_mono|discriminate]. }
    injection Eq as <- <-.
    destruct Hz as [[Hm _]|(Hrow & Hcol & Hz)]; [lia|].
    rewrite (primed_checked n input C M row col Hb Hrow Hcol) in H. simpl in H.
    assert (H0 : mat_at M row col = 0).
    { destruct Hz as (_ & Z1 & Z2). now apply (uncovered_unmarked n input C M RC CC). }
    assert (Hkeep : forall r c, mat_at (mat_set M row col 2) r c = 0 -> mat_at M r c = 0).
    { intros r c Hrc.
      assert (Hd : (row = r /\ col = c) \/ (row <> r \/ col <> c)) by lia.
      destruct Hd as [[<- <-]|Hd].
      - rewrite (primed_at n input C M row col Hb Hrow Hcol) in Hrc. lia.
      - now rewrite (primed_other M row col r c Hd) in Hrc. }
    destruct (star_in_row row (mat_set M row col 2) n) eqn:Hsir.
    + destruct (cover_step n input C M RC CC row col Hb Hs Hrow Hcol Hz Hsir) as [Hs1 _].
      destruct (IH _ _ _ _ _ _ _ _ _
                  (primed_base n input C M RC CC row col Hb Hs Hrow Hcol Hz) Hs1 H)
        as [K1 K2].
      split.
      * intros r c Hr Hc Hz'. apply Hkeep. now apply K1.
      * intros E5. destruct (K2 E5) as [A B]. split; auto.
    + injection H as <- <- <- <- <- <-. split.
      * intros r c _ _. apply Hkeep.
      * intros _. split; auto. apply Hz.
Qed.

(** X8. Whenever phase 4 is due in a solve, in exact arithmetic and on
    doubles, it returns and leaves the stars where they are.  It hands over
    either to phase 5, and then (rpath_0, cpath_0) is a primed cell of cost
    zero in a row without a star, or to phase 6, and then no zero of the cost
    matrix has both its row and its column uncovered. *)
Theorem step_four_outcome (fr : fresh) (n : nat) (input : mat) (F : IEEE.fmat)
  (s : state) (t : IEEE.state) :
  square n input -> fsquare n F ->
  reachable fr input s -> step s = 4%nat ->
  ieee_reachable fr F t -> IEEE.step t = 4%nat ->
  (exists st M RC CC r0 c0,
     ev (fun fuel => step_four fuel (step s) (cost s) (indM s) (rcov s) (ccov s)
                       (rpath_0 s) (cpath_0 s) (N s))
        (st, M, RC, CC, r0, c0) /\
     (forall r c, star M r c <-> star (indM s) r c) /\
     ((st = 5%nat /\ idx n r0 /\ idx n c0 /\ prime M r0 c0 /\
       mat_at (cost s) r0 c0 = 0 /\ forall c, idx n c -> ~ star M r0 c) \/
      (st = 6%nat /\
       forall r c, idx n r -> idx n c -> ~ uzero (cost s) RC CC r c))) /\
  (exists st M RC CC r0 c0,
     ev (fun fuel => IEEE.step_four fuel (IEEE.step t) (IEEE.cost t) (IEEE.indM t)
                       (IEEE.rcov t) (IEEE.ccov t) (IEEE.rpath_0 t) (IEEE.cpath_0 t)
                       (IEEE.N t))
        (st, M, RC, CC, r0, c0) /\
     (forall r c, star M r c <-> star (IEEE.indM t) r c) /\
     ((st = 5%nat /\ idx n r0 /\ idx n c0 /\ prime M r0 c0 /\
       zero_at (IEEE.cost t) r0 c0 = true /\ forall c, idx n c -> ~ star M r0 c) \/
      (st = 6%nat /\
       forall r c, idx n r -> idx n c -> utest (IEEE.cost t) RC CC r c = false))).
Proof.
  intros Hsq [HF _] Hr Hs Ht Hst. split.
  - destruct (reachable_N fr n input s Hsq Hr) as [HI HN].
    destruct HI as [i_input0 i_N0 i_square0 i_cost0 i_indM0 i_rcov0 i_ccov0 i_path0 i_phase0].
    unfold phase_inv in i_phase0. rewrite Hs in i_phase0.
    destruct i_phase0 as (Hb & Hse). rewrite HN in *.
    assert (Hn : (1 <= n)%nat).
    { destruct (s_free _ _ _ _ Hse) as (c & Hc & _). idx_tac. }
    destruct (step_four_loop_spec n input (cost s) (rpath_0 s) (cpath_0 s) 4%nat Hn
                (urows (rcov s) n) (indM s) (rcov s) (ccov s) (le_n _) Hb Hse)
      as (st & M' & RC' & CC' & r0' & c0' & Hev & Hb' & Hrc' & Hcc' & Hstar & Hcase).
    exists st, M', RC', CC', r0', c0'. splits; auto.
    + rewrite Hs. exact Hev.
    + destruct Hcase as [(-> & _ & Hnz & _)|(-> & Hsd)].
      * right. split; auto.
      * left. destruct Hsd as [_ sd_r sd_c sd_p sd_n _]. splits; auto.
        apply (b_prime0 _ _ _ _ Hb'); auto.
  - destruct (ieee_reachable_inv fr F t Ht) as (C & HI & Hag).
    destruct (ieee_reachable_N fr F t Ht) as [HN _].
    assert (Hag' : agree (IEEE.N t) (IEEE.cost t) C (IEEE.indM t)) by (apply Hag; auto).
    destruct HI as [i_input0 i_N0 i_square0 i_cost0 i_indM0 i_rcov0 i_ccov0 i_path0 i_phase0].
    unfold phase_inv in i_phase0. simpl in i_phase0. rewrite Hst in i_phase0.
    destruct i_phase0 as (Hb & Hse).
    rewrite HN, HF in *.
    assert (Hn : (1 <= n)%nat).
    { destruct (s_free _ _ _ _ Hse) as (c & Hc & _). idx_tac. }
    destruct (step_four_loop_spec n C C (IEEE.rpath_0 t) (IEEE.cpath_0 t) 4%nat Hn
                (urows (IEEE.rcov t) n) (IEEE.indM t) (IEEE.rcov t) (IEEE.ccov t)
                (le_n _) Hb Hse)
      as (st & M' & RC' & CC' & r0' & c0' & [f0 Hf0] & Hb' & Hrc' & Hcc' & Hstar & Hcase).
    destruct (step_four_marks n C C (IEEE.rpath_0 t) (IEEE.cpath_0 t) 4%nat Hn
                f0 _ _ _ _ _ _ _ _ _ Hb Hse (Hf0 f0 (le_n _))) as [Hkept Hseed].
    exists st, M', RC', CC', r0', c0'. splits; auto.
    + exists f0. intros fuel Hf. rewrite Hst. unfold IEEE.step_four.
      rewrite (ieee_step_four_eq n C (IEEE.cost t) C) by auto. now apply Hf0.
    + destruct Hcase as [(-> & Hse' & Hnz & _)|(-> & Hsd)].
      * right. split; auto. intros r c Hr' Hc'.
        rewrite (tests_agree n C (IEEE.cost t) C M' RC' CC'); auto.
        -- apply uzerob_false. now apply Hnz.
        -- apply (agree_more n (IEEE.cost t) C (IEEE.indM t)); auto.
      * left. destruct Hsd as [_ sd_r sd_c sd_p sd_n _]. splits; auto.
        destruct (Hseed eq_refl) as [A B].
        rewrite <- (Hag' r0' c0' sd_r sd_c A). now apply Z.eqb_eq.
Qed.

Lemma step_four_outcome_witness :
  square 2 example2 /\ fsquare 2 IEEE.example2 /\
  reachable zero_fresh example2 example2_phase4 /\ step example2_phase4 = 4%nat /\
  ieee_reachable zero_fresh IEEE.example2 ieee_example2_phase4 /\
  IEEE.step ieee_example2_phase4 = 4%nat /\
  (exists st M RC CC r0 c0,
     ev (fun fuel => step_four fuel (step example2_phase4) (cost example2_phase4)
                       (indM example2_phase4) (rcov example2_phase4)
                       (ccov example2_phase4) (rpath_0 example2_phase4)
                       (cpath_0 example2_phase4) (N example2_phase4))
        (st, M, RC, CC, r0, c0) /\
     (forall r c, star M r c <-> star (indM example2_phase4) r c) /\
     ((st = 5%nat /\ idx 2 r0 /\ idx 2 c0 /\ prime M r0 c0 /\
       mat_at (cost example2_phase4) r0 c0 = 0 /\ forall c, idx 2 c -> ~ star M r0 c) \/
      (st = 6%nat /\
       forall r c, idx 2 r -> idx 2 c -> ~ uzero (cost example2_phase4) RC CC r c))) /\
  (exists st M RC CC r0 c0,
     ev (fun fuel => IEEE.step_four fuel (IEEE.step ieee_example2_phase4)
                       (IEEE.cost ieee_example2_phase4) (IEEE.indM ieee_example2_phase4)
                       (IEEE.rcov ieee_example2_phase4) (IEEE.ccov ieee_example2_phase4)
                       (IEEE.rpath_0 ieee_example2_phase4)
                       (IEEE.cpath_0 ieee_example2_phase4) (IEEE.N ieee_example2_phase4))
        (st, M, RC, CC, r0, c0) /\
     (forall r c, star M r c <-> star (IEEE.indM ieee_example2_phase4) r c) /\
     ((st = 5%nat /\ idx 2 r0 /\ idx 2 c0 /\ prime M r0 c0 /\
       zero_at (IEEE.cost ieee_example2_phase4) r0 c0 = true /\
       forall c, idx 2 c -> ~ star M r0 c) \/
      (st = 6%nat /\
       forall r c, idx 2 r -> idx 2 c ->
         utest (IEEE.cost ieee_example2_phase4) RC CC r c = false))).
Proof.
  split; [exact example2_square|]. split; [exact ieee_example2_square|].
  split; [exact example2_phase4_reachable|]. split; [reflexivity|].
  split; [exact ieee_example2_phase4_reachable|]. split; [reflexivity|].
  exact (step_four_outcome zero_fresh 2 example2 IEEE.example2
           example2_phase4 ieee_example2_phase4
           example2_square ieee_example2_square
           example2_phase4_reachable eq_refl
           ieee_example2_phase4_reachable eq_refl).
Defined.

(** ** Phase 5 *)

(** The primes of a path are the seed or lie in the row of a star. *)
Lemma pf_prime_row n M r0 c0 L :
  idx n r0 -> idx n c0 -> apath n M r0 c0 L ->
  forall r c, In (r, c) (pverts L) ->
    r = r0 \/ exists c2, idx n c2 /\ star M r c2.
Proof.
  intros Hr0 Hc0.
  induction 1 as [|r c L r' c' HL IH Hr' Hc' Hst Hp]; intros a b Hin.
  - destruct Hin as [E|[]]. injection E as <- <-. now left.
  - change (pverts ((r', c') :: (r', c) :: (r, c) :: L))
      with ((r', c') :: pverts ((r, c) :: L)) in Hin.
    destruct Hin as [E|Hin].
    + injection E as <- <-. right. exists c. split; auto.
      apply (pf_idx n M r0 c0 Hr0 Hc0 _ HL r c). now left.
    + now apply (IH a b).
Qed.

Lemma count_if_drop_one p q n i0 :
  idx n i0 -> p i0 = true -> q i0 = false ->
  (forall i, idx n i -> i <> i0 -> q i = p i) ->
  count_if p n = S (count_if q n).
Proof.
  induction n as [|n IH]; intros Hi Hp Hq Hext; [idx_tac|]. simpl.
  destruct (Z.eq_dec i0 (Z.of_nat n)) as [->|Hne].
  - rewrite Hp, Hq.
    rewrite (count_if_ext q p n) by (intros i Hi'; apply Hext; idx_tac). lia.
  - rewrite IH; auto; [|idx_tac|intros i Hi'; apply Hext; idx_tac].
    rewrite (Hext (Z.of_nat n)) by idx_tac. lia.
Qed.

(** Phase 5 on marks that satisfy the invariant of the phase. *)
Lemma step_five_rows n input C M RC CC (path : imat2) r0 c0 :
  base n input C M -> seeded n M r0 c0 -> length path = (2 * n)%nat ->
  exists path1 M',
    ev (fun f => step_five f M RC CC path r0 c0 n)
       (3%nat, M', fill RC 0, fill CC 0, path1) /\
    marks01 n M' /\ star M' r0 c0 /\
    (forall r, idx n r ->
       ((exists c, idx n c /\ star M' r c) <->
        (r = r0 \/ exists c, idx n c /\ star M r c))) /\
    (forall c, idx n c -> (exists r, idx n r /\ star M r c) ->
               exists r, idx n r /\ star M' r c).
Proof.
  intros Hb [(rk & Hchain) Hr0 Hc0 Hp0 Hns0 Hfree] Hlen.
  destruct Hb as [bC bM bdual bnn bmarks bstar0 bprime0 brow bcol].
  assert (Hn : (1 <= n)%nat) by idx_tac.
  set (path0 := upd path 0 (r0, c0)).
  assert (Hok0 : path_ok n path0 [(r0, c0)]).
  { split.
    - unfold path0. now rewrite length_upd.
    - unfold path0. simpl length. rewrite firstn_upd_last by lia. reflexivity. }
  destruct (step_five_loop_spec n M r0 c0 rk Hchain Hr0 Hc0 Hp0 (rk r0) r0 c0 [] path0 (-1)
              (ap_seed n M r0 c0) (le_n _) Hok0)
    as (L' & path1 & [f1 Hf1] & HL' & [Hlen1 Hfirst1] & Hlast).
  pose proof (pf_bound n M r0 c0 rk Hchain Hr0 Hc0 Hp0 L' HL') as Hbd.
  destruct (apath_cons n M r0 c0 L' HL') as (a & b & L0 & EL).
  assert (Hpath : forall f, (f1 <= f)%nat ->
            step_five_path f M path r0 c0 n = Ok (Z.of_nat (length L'), path1)).
  { intros f Hf. unfold step_five_path.
    change (1 - 1) with (Z.of_nat 0).
    rewrite path_set0_ok by lia. cbn [bind].
    rewrite path_set1_ok by (rewrite length_upd; lia). cbn [bind].
    rewrite nth_upd_eq by lia. rewrite upd_upd. cbn [fst]. fold path0.
    now apply Hf1. }
  set (M2 := fold_left toggle (rev L') M).
  destruct (flip_all_spec n (rev L') M bM) as [Hsh2 Hat2].
  { apply NoDup_rev. apply (pf_nodup n M r0 c0 rk Hchain Hr0 Hc0 Hp0 L' HL'). }
  { intros r c Hin. apply in_rev in Hin. apply (pf_idx n M r0 c0 Hr0 Hc0 L' HL' r c Hin). }
  fold M2 in Hsh2, Hat2.
  destruct (erase_primes_spec M2 n Hsh2) as [Hsh3 Hat3].
  set (M3 := erase_primes M2 n) in *.
  assert (Hin3 : forall r c, idx n r -> idx n c -> In (r, c) L' ->
            mat_at M3 r c = if mat_at M r c =? 1 then 0 else 1).
  { intros r c Hr Hc Hin. rewrite Hat3 by auto.
    destruct (Hat2 r c Hr Hc) as [-> _]; [|now apply -> in_rev].
    now destruct (mat_at M r c =? 1). }
  assert (Hout3 : forall r c, idx n r -> idx n c -> ~ In (r, c) L' ->
            mat_at M3 r c = if mat_at M r c =? 2 then 0 else mat_at M r c).
  { intros r c Hr Hc Hin. rewrite Hat3 by auto.
    destruct (Hat2 r c Hr Hc) as [_ ->]; auto.
    intros H. apply Hin. now apply <- in_rev. }
  exists path1, M3. splits.
  - exists f1. intros f Hf. unfold step_five. rewrite Hpath by auto. cbn [bind].
    rewrite augment_path_spec by lia. rewrite Hfirst1. reflexivity.
  - apply (flip_marks01 n M L' M3 bmarks Hin3 Hout3).
  - apply (flip_seed_star n M r0 c0 Hr0 Hc0 Hp0 L' M3 HL' bmarks Hin3 Hout3).
  - intros r Hr. split.
    + intros (c & Hc & Hs).
      apply (flip_star n M r0 c0 Hp0 L' M3 HL' bmarks Hin3 Hout3 r c Hr Hc) in Hs.
      destruct Hs as [Hp|[Hs _]].
      * apply (pf_prime_row n M r0 c0 L' Hr0 Hc0 HL' r c Hp).
      * right. exists c. split; auto.
    + intros [->|Hex].
      * exists c0. split; auto.
        apply (flip_seed_star n M r0 c0 Hr0 Hc0 Hp0 L' M3 HL' bmarks Hin3 Hout3).
      * apply (flip_row_keeps n M r0 c0 Hr0 Hc0 Hp0 L' M3 HL' bmarks Hin3 Hout3 r Hr Hex).
  - apply (flip_col_keeps n M r0 c0 Hr0 Hc0 Hp0 L' M3 HL'); auto.
Qed.

(** What phase 5 makes of the marks [M0], the covers [RC0] and [CC0] and the
    path buffer [p0], from the seed (r0, c0): it returns and hands over to
    phase 3 with all covers cleared and no prime left; the seed is then a
    star in a row that had none; every other row holds a star exactly when it
    held one before, so one more row than before holds a star; and every
    column that held a star still holds one. *)
Definition phase_five_result (n : nat) (M0 : mat) (RC0 CC0 : vec) (p0 : imat2)
  (r0 c0 : Z) : Prop :=
  exists M RC CC path',
    ev (fun fuel => step_five fuel M0 RC0 CC0 p0 r0 c0 n) (3%nat, M, RC, CC, path') /\
    (forall i, vec_at RC i = 0) /\ (forall i, vec_at CC i = 0) /\
    (forall r c, idx n r -> idx n c -> mat_at M r c = 0 \/ mat_at M r c = 1) /\
    star M r0 c0 /\
    (forall c, idx n c -> ~ star M0 r0 c) /\
    (forall r, idx n r -> r <> r0 ->
       ((exists c, idx n c /\ star M r c) <-> (exists c, idx n c /\ star M0 r c))) /\
    starless M0 n = S (starless M n) /\
    (forall c, idx n c -> (exists r, idx n r /\ star M0 r c) ->
               exists r, idx n r /\ star M r c).

Lemma step_five_in_state input s :
  Inv input s -> step s = 5%nat ->
  phase_five_result (N s) (indM s) (rcov s) (ccov s) (path s) (rpath_0 s) (cpath_0 s).
Proof.
  intros HI Hs. set (n := N s).
  destruct HI as [i_input0 i_N0 i_square0 i_cost0 i_indM0 i_rcov0 i_ccov0 i_path0 i_phase0].
  unfold phase_inv in i_phase0. rewrite Hs in i_phase0.
  destruct i_phase0 as (Hb & Hsd). fold n in Hb, Hsd, i_path0.
  destruct (step_five_rows n input (cost s) (indM s) (rcov s) (ccov s) (path s)
              (rpath_0 s) (cpath_0 s) Hb Hsd i_path0)
    as (path1 & M' & Hev & Hm01 & Hseed & Hrows & Hcols).
  pose proof (sd_nostar _ _ _ _ Hsd) as Hns.
  pose proof (sd_r0 _ _ _ _ Hsd) as Hr0.
  exists M', (fill (rcov s) 0), (fill (ccov s) 0), path1. splits; auto.
  - intros i. apply vec_at_fill0.
  - intros i. apply vec_at_fill0.
  - intros r Hr' Hne. rewrite (Hrows r Hr'). tauto.
  - unfold starless. apply (count_if_drop_one _ _ n (rpath_0 s)); auto.
    + apply negb_true_iff. now apply star_in_row_false.
    + apply negb_false_iff. apply star_in_row_true. apply Hrows; auto.
    + intros r Hr' Hne. f_equal.
      destruct (star_in_row r (indM s) n) eqn:E.
      * apply star_in_row_true. apply Hrows; auto. right.
        now apply star_in_row_true.
      * apply star_in_row_false. intros c Hc Hst.
        assert (Hex : exists c, idx n c /\ star M' r c) by (exists c; auto).
        apply Hrows in Hex; auto. destruct Hex as [->|Hex]; [congruence|].
        apply star_in_row_true in Hex. congruence.
Qed.

(** X9. Whenever phase 5 is due in a solve, in exact arithmetic and on
    doubles, it returns and hands over to phase 3 with all covers cleared and
    no prime left.  The cell (rpath_0, cpath_0) is then a star, in a row that
    had none; every other row holds a star exactly when it held one before,
    so exactly one more row than before holds a star; and every column that
    held a star still holds one. *)
Theorem step_five_outcome (fr : fresh) (n : nat) (input : mat) (F : IEEE.fmat)
  (s : state) (t : IEEE.state) :
  square n input -> fsquare n F ->
  reachable fr input s -> step s = 5%nat ->
  ieee_reachable fr F t -> IEEE.step t = 5%nat ->
  phase_five_result n (indM s) (rcov s) (ccov s) (path s) (rpath_0 s) (cpath_0 s) /\
  phase_five_result n (IEEE.indM t) (IEEE.rcov t) (IEEE.ccov t) (IEEE.path t)
    (IEEE.rpath_0 t) (IEEE.cpath_0 t).
Proof.
  intros Hsq [HF _] Hr Hs Ht Hst. split.
  - destruct (reachable_N fr n input s Hsq Hr) as [HI HN].
    rewrite <- HN. now apply (step_five_in_state input).
  - destruct (ieee_reachable_inv fr F t Ht) as (C & HI & _).
    destruct (ieee_reachable_N fr F t Ht) as [HN _].
    rewrite <- HF, <- HN. apply (step_five_in_state C (lift t C) HI Hst).
Qed.

Lemma step_five_outcome_witness :
  square 2 example2 /\ fsquare 2 IEEE.example2 /\
  reachable zero_fresh example2 example2_phase5 /\ step example2_phase5 = 5%nat /\
  ieee_reachable zero_fresh IEEE.example2 ieee_example2_phase5 /\
  IEEE.step ieee_example2_phase5 = 5%nat /\
  phase_five_result 2 (indM example2_phase5) (rcov example2_phase5)
    (ccov example2_phase5) (path example2_phase5)
    (rpath_0 example2_phase5) (cpath_0 example2_phase5) /\
  phase_five_result 2 (IEEE.indM ieee_example2_phase5) (IEEE.rcov ieee_example2_phase5)
    (IEEE.ccov ieee_example2_phase5) (IEEE.path ieee_example2_phase5)
    (IEEE.rpath_0 ieee_example2_phase5) (IEEE.cpath_0 ieee_example2_phase5).
Proof.
  split; [exact example2_square|]. split; [exact ieee_example2_square|].
  split; [exact example2_phase5_reachable|]. split; [reflexivity|].
  split; [exact ieee_example2_phase5_reachable|]. split; [reflexivity|].
  exact (step_five_outcome zero_fresh 2 example2 IEEE.example2
           example2_phase5 ieee_example2_phase5
           example2_square ieee_example2_square
           example2_phase5_reachable eq_refl
           ieee_example2_phase5_reachable eq_refl).
Defined.

(** ** The reduced costs *)

(** X10. In every state of a solve from phase 2 on (exact arithmetic): no
    working cost is negative; the working costs are the input costs less a
    number per row and a number per column; and every starred or primed cell
    has working cost zero. *)
Theorem reduced_costs_invariant (fr : fresh) (n : nat) (input : mat) (s : state) :
  square n input -> reachable fr input s -> (2 <= step s)%nat ->
  (forall r c, idx n r -> idx n c -> 0 <= mat_at (cost s) r c) /\
  (exists u v : Z -> Z, forall r c, idx n r -> idx n c ->
     mat_at (cost s) r c = mat_at input r c - u r - v c) /\
  (forall r c, idx n r -> idx n c ->
     star (indM s) r c \/ prime (indM s) r c -> mat_at (cost s) r c = 0).
Proof.
  intros Hsq Hr Hs.
  destruct (reachable_N fr n input s Hsq Hr) as [HI HN].
  pose proof (Inv_step_range input s HI) as Hrange.
  pose proof (i_phase _ _ HI) as Hp. unfold phase_inv in Hp. rewrite HN in Hp.
  assert (Hbase : base n input (cost s) (indM s) ->
    (forall r c, idx n r -> idx n c -> 0 <= mat_at (cost s) r c) /\
    (exists u v : Z -> Z, forall r c, idx n r -> idx n c ->
       mat_at (cost s) r c = mat_at input r c - u r - v c) /\
    (forall r c, idx n r -> idx n c ->
       star (indM s) r c \/ prime (indM s) r c -> mat_at (cost s) r c = 0)).
  { intros Hb. splits.
    - apply (b_nonneg _ _ _ _ Hb).
    - apply (b_dual _ _ _ _ Hb).
    - intros r c Hr' Hc [H|H].
      + now apply (b_star0 _ _ _ _ Hb).
      + now apply (b_prime0 _ _ _ _ Hb). }
  destruct (step s) as [|[|[|[|[|[|[|[|k]]]]]]]] eqn:E; try lia.
  - destruct Hp as (Hd & Hnn & H0). splits; auto.
    intros r c Hr' Hc [H|H]; unfold star, prime in H; rewrite H0 in H; auto; lia.
  - apply Hbase. tauto.
  - apply Hbase. tauto.
  - apply Hbase. tauto.
  - apply Hbase. tauto.
  - apply Hbase. tauto.
Qed.

Lemma reduced_costs_invariant_witness :
  square 3 example3 /\ reachable zero_fresh example3 example3_phase6 /\
  (2 <= step example3_phase6)%nat /\
  (forall r c, idx 3 r -> idx 3 c -> 0 <= mat_at (cost example3_phase6) r c) /\
  (exists u v : Z -> Z, forall r c, idx 3 r -> idx 3 c ->
     mat_at (cost example3_phase6) r c = mat_at example3 r c - u r - v c) /\
  (forall r c, idx 3 r -> idx 3 c ->
     star (indM example3_phase6) r c \/ prime (indM example3_phase6) r c ->
     mat_at (cost example3_phase6) r c = 0).
Proof.
  assert (H : (2 <= step example3_phase6)%nat) by (vm_compute; lia).
  split; [exact example3_square|]. split; [exact example3_phase6_reachable|].
  split; [exact H|].
  exact (reduced_costs_invariant zero_fresh 3 example3 example3_phase6 example3_square
           example3_phase6_reachable H).
Defined.


(** * The solver as it is called *)

(** ** A maximal assignment *)

(** [cost <- big - revenues], as in the example of the source with
    [100 - revenues]. *)
Definition revenue_cost (big : Z) (revenues : mat) : mat :=
  map (map (fun x => big - x)) revenues.

Lemma sum_to_sub n f g :
  sum_to n (fun i => f i - g i) = sum_to n f - sum_to n g.
Proof. induction n as [|n IH]; simpl; lia. Qed.

Lemma sum_to_const n a : sum_to n (fun _ => a) = Z.of_nat n * a.
Proof. induction n as [|n IH]; [reflexivity|]. cbn [sum_to]. rewrite IH. lia. Qed.

Lemma mat_row_map (f : vec -> vec) (m : mat) r :
  f [] = [] -> mat_row (map f m) r = f (mat_row m r).
Proof.
  intros Hf. unfold mat_row. destruct (Z.ltb_spec r 0); auto.
  rewrite <- Hf at 1. apply map_nth.
Qed.

Lemma square_revenue_cost n big revenues :
  square n revenues -> square n (revenue_cost big revenues).
Proof.
  intros [Hl Hr]. unfold revenue_cost. split.
  - now rewrite length_map.
  - apply Forall_forall. intros row Hin. apply in_map_iff in Hin.
    destruct Hin as (row0 & <- & Hin0). rewrite length_map.
    rewrite Forall_forall in Hr. now apply Hr.
Qed.

Lemma mat_at_revenue_cost n big revenues r c :
  square n revenues -> idx n r -> idx n c ->
  mat_at (revenue_cost big revenues) r c = big - mat_at revenues r c.
Proof.
  intros Hsq Hr Hc. unfold mat_at, revenue_cost.
  rewrite mat_row_map by reflexivity.
  apply vec_at_map. destruct (square_shape n revenues Hsq) as [_ Hrow].
  now rewrite Hrow.
Qed.

Lemma assignment_cost_revenue n big revenues M :
  square n revenues -> is_assignment n M ->
  assignment_cost (revenue_cost big revenues) M n =
  Z.of_nat n * big - assignment_cost revenues M n.
Proof.
  intros Hsq (_ & _ & Hrow1 & _). unfold assignment_cost.
  rewrite <- (sum_to_const n big), <- sum_to_sub.
  apply sum_to_ext. intros r Hr.
  rewrite (sum_to_ext n _ (fun c =>
    (if mat_at M r c =? 1 then big else 0) -
    (if mat_at M r c =? 1 then mat_at revenues r c else 0))).
  - rewrite sum_to_sub, sum_to_count. fold (ones_in_row M n r).
    rewrite Hrow1 by auto. lia.
  - intros c Hc. rewrite (mat_at_revenue_cost n) by auto.
    destruct (mat_at M r c =? 1); lia.
Qed.

Lemma perm_cost_revenue n big revenues p :
  square n revenues -> Permutation p (range n) ->
  perm_cost (revenue_cost big revenues) p = Z.of_nat n * big - perm_cost revenues p.
Proof.
  intros Hsq Hperm.
  assert (Hlen : length p = n).
  { rewrite (Permutation_length Hperm). apply length_range. }
  unfold perm_cost. rewrite Hlen.
  rewrite <- (sum_to_const n big), <- sum_to_sub.
  apply sum_to_ext. intros r Hr. apply (mat_at_revenue_cost n); auto.
  apply in_range. apply (Permutation_in _ Hperm). apply nth_In. idx_tac.
Qed.

(** X11. The solver also finds a maximal assignment, as the source does with
    [100 - revenues]: run on the costs [big - revenues] for any number
    [big], it returns (exact arithmetic) a permutation matrix whose total
    revenue, the sum of the revenues at the cells marked 1, is at least the
    total revenue of every assignment of the rows to a permutation of the
    columns. *)
Theorem hungarian_max_revenue (fr : fresh) (n : nat) (big : Z) (revenues : mat) :
  square n revenues ->
  exists M, ev (fun fuel => hungarian fr fuel (revenue_cost big revenues)) M /\
    is_assignment n M /\
    forall p, Permutation p (range n) ->
      perm_cost revenues p <= assignment_cost revenues M n.
Proof.
  intros Hsq. pose proof (square_revenue_cost n big revenues Hsq) as Hsq'.
  destruct (hungarian_result fr (revenue_cost big revenues) n Hsq')
    as (s & _ & Hev & HI & Hs & HN).
  pose proof (final_assignment _ s HI Hs) as Hass. rewrite HN in Hass.
  exists (indM s). splits; auto.
  intros p Hp.
  assert (Hp' : Permutation p (range (N s))) by now rewrite HN.
  pose proof (final_optimal _ s p HI Hs Hp') as Hopt. rewrite HN in Hopt.
  rewrite (assignment_cost_revenue n big revenues (indM s) Hsq Hass) in Hopt.
  rewrite (perm_cost_revenue n big revenues p Hsq Hp) in Hopt. lia.
Qed.

(** The revenues of the example of the source: the products i * j. *)
Definition revenues4 : mat :=
  map (fun i => map (fun j => i * j) [1; 2; 3; 4]) [1; 2; 3; 4].

Lemma revenues4_square : square 4 revenues4.
Proof. split; [reflexivity|repeat constructor]. Qed.

Lemma hungarian_max_revenue_witness :
  square 4 revenues4 /\
  exists M, ev (fun fuel => hungarian zero_fresh fuel (revenue_cost 100 revenues4)) M /\
    is_assignment 4 M /\
    forall p, Permutation p (range 4) ->
      perm_cost revenues4 p <= assignment_cost revenues4 M 4.
Proof.
  exact (conj revenues4_square
           (hungarian_max_revenue zero_fresh 4 100 revenues4 revenues4_square)).
Defined.

(** ** The entry point without the check *)

Lemma hungarian_never_raises fr n input fuel msg :
  square n input -> hungarian fr fuel input <> Raise msg.
Proof.
  intros Hsq H.
  destruct (hungarian_result fr input n Hsq) as (s & _ & [f0 Hf0] & _).
  assert (Hm : hungarian fr (Nat.max fuel f0) input = Raise msg).
  { apply (mono_le _ (hungarian_mono fr input) fuel); [lia|exact H|discriminate]. }
  rewrite Hf0 in Hm by lia. discriminate.
Qed.

(** X12. [hungarian_cc] makes no test of the shape.  On a matrix with at
    least as many columns as rows it solves the square block of the first
    [nrow] columns: in exact arithmetic it returns a permutation matrix of
    least total cost on that block, and neither in exact arithmetic nor on
    doubles does it raise an error.  On a square matrix it gives what
    [hungariansafe_cc] gives. *)
Theorem hungarian_cc_leading_block (fr : fresh)
  (cost : NumericMatrix) (fcost : IEEE.NumericMatrix) :
  (nrow cost <= ncol cost)%nat -> (IEEE.nrow fcost <= IEEE.ncol fcost)%nat ->
  (exists M, ev (fun fuel => hungarian_cc fr fuel cost) M /\
     is_assignment (nrow cost) M /\
     forall p, Permutation p (range (nrow cost)) ->
       sum_to (nrow cost) (fun r => sum_to (nrow cost) (fun c =>
         if mat_at M r c =? 1 then cell cost (Z.to_nat r) (Z.to_nat c) else 0)) <=
       sum_to (nrow cost) (fun r =>
         cell cost (Z.to_nat r) (Z.to_nat (nth (Z.to_nat r) p 0)))) /\
  (forall fuel msg, hungarian_cc fr fuel cost <> Raise msg) /\
  (forall fuel msg, IEEE.hungarian_cc fr fuel fcost <> Raise msg) /\
  (nrow cost = ncol cost ->
   forall fuel, hungarian_cc fr fuel cost = hungariansafe_cc fr fuel cost) /\
  (IEEE.nrow fcost = IEEE.ncol fcost ->
   forall fuel, IEEE.hungarian_cc fr fuel fcost = IEEE.hungariansafe_cc fr fuel fcost).
Proof.
  intros _ _.
  set (n := nrow cost). set (A := arma_mat cost n n).
  assert (Hsq : square n A) by apply arma_mat_square.
  assert (Hat : forall r c, idx n r -> idx n c ->
            mat_at A r c = cell cost (Z.to_nat r) (Z.to_nat c)).
  { intros r c Hr Hc. unfold A, arma_mat, mat_at, mat_row, vec_at.
    destruct (Z.ltb_spec r 0); [idx_tac|]. destruct (Z.ltb_spec c 0); [idx_tac|].
    rewrite nth_indep with (d' := (fun r0 => map (fun c0 => cell cost r0 c0) (seq 0 n)) 0%nat)
      by (rewrite length_map, length_seq; idx_tac).
    rewrite (map_nth (fun r0 => map (fun c0 => cell cost r0 c0) (seq 0 n)) (seq 0 n) 0%nat).
    rewrite seq_nth by idx_tac. simpl.
    rewrite nth_indep with (d' := (fun c0 => cell cost (Z.to_nat r) c0) 0%nat)
      by (rewrite length_map, length_seq; idx_tac).
    rewrite (map_nth (fun c0 => cell cost (Z.to_nat r) c0) (seq 0 n) 0%nat).
    rewrite seq_nth by idx_tac. reflexivity. }
  splits.
  - destruct (hungarian_result fr A n Hsq) as (s & _ & Hev & HI & Hs & HN).
    pose proof (final_assignment _ s HI Hs) as Hass. rewrite HN in Hass.
    exists (indM s). splits; auto.
    intros p Hp.
    assert (Hp' : Permutation p (range (N s))) by now rewrite HN.
    pose proof (final_optimal _ s p HI Hs Hp') as Hopt. rewrite HN in Hopt.
    assert (Hlen : length p = n).
    { rewrite (Permutation_length Hp). apply length_range. }
    unfold assignment_cost, perm_cost in Hopt. rewrite Hlen in Hopt.
    rewrite (sum_to_ext n _ (fun r => sum_to n (fun c =>
      if mat_at (indM s) r c =? 1 then mat_at A r c else 0))).
    + rewrite (sum_to_ext n (fun r =>
        cell cost (Z.to_nat r) (Z.to_nat (nth (Z.to_nat r) p 0)))
        (fun r => mat_at A r (nth (Z.to_nat r) p 0))); auto.
      intros r Hr. symmetry. apply Hat; auto.
      apply in_range. apply (Permutation_in _ Hp). apply nth_In. idx_tac.
    + intros r Hr. apply sum_to_ext. intros c Hc. now rewrite Hat.
  - intros fuel msg. apply (hungarian_never_raises fr n A fuel msg Hsq).
  - intros fuel msg. apply ieee_hungarian_safe.
  - intros E fuel. unfold hungariansafe_cc, hungarian_cc.
    rewrite <- E, Nat.eqb_refl. reflexivity.
  - intros E fuel. unfold IEEE.hungariansafe_cc, IEEE.hungarian_cc.
    rewrite <- E, Nat.eqb_refl. reflexivity.
Qed.

(** A matrix of two rows and three columns. *)
Definition wide_matrix : NumericMatrix :=
  {| nrow := 2; ncol := 3;
     cell := fun r c => nth c (nth r [[1; 2; 0]; [2; 4; 0]] []) 0 |}.

Definition ieee_wide_matrix : IEEE.NumericMatrix :=
  {| IEEE.nrow := 2; IEEE.ncol := 3;
     IEEE.cell := fun r c => IEEE.cost_at IEEE.example2 (Z.of_nat r) (Z.of_nat c) |}.

Lemma hungarian_cc_leading_block_witness :
  (nrow wide_matrix <= ncol wide_matrix)%nat /\
  (IEEE.nrow ieee_wide_matrix <= IEEE.ncol ieee_wide_matrix)%nat /\
  (forall fuel msg, hungarian_cc zero_fresh fuel wide_matrix <> Raise msg) /\
  (forall fuel msg, IEEE.hungarian_cc zero_fresh fuel ieee_wide_matrix <> Raise msg).
Proof.
  assert (H1 : (nrow wide_matrix <= ncol wide_matrix)%nat) by (simpl; lia).
  assert (H2 : (IEEE.nrow ieee_wide_matrix <= IEEE.ncol ieee_wide_matrix)%nat)
    by (simpl; lia).
  split; [exact H1|]. split; [exact H2|].
  destruct (hungarian_cc_leading_block zero_fresh wide_matrix ieee_wide_matrix H1 H2)
    as (_ & H3 & H4 & _).
  split; [exact H3|exact H4].
Defined.


(** * What the solver starts from *)

(** ** The memory that the solver does not initialise *)

(** X13. [hungarian] constructs [rcov], [ccov] and [path] with a size and no
    values, so what they hold at first is left to Armadillo, and phase 2
    reads the covers.  In exact arithmetic the total cost of the assignment
    returned is the same whatever these held; the assignment itself is not:
    on the 2 x 2 matrix of zeros the solver returns the marks (0,0), (1,1)
    when the covers start as zeros and the marks (0,1), (1,0) when the cover
    of column 0 starts as 1. *)
Theorem hungarian_uninitialised :
  (forall (fr1 fr2 : fresh) (n : nat) (input : mat),
     square n input ->
     exists M1 M2,
       ev (fun fuel => hungarian fr1 fuel input) M1 /\
       ev (fun fuel => hungarian fr2 fuel input) M2 /\
       assignment_cost input M1 n = assignment_cost input M2 n) /\
  (ev (fun fuel => hungarian zero_fresh fuel [[0; 0]; [0; 0]]) [[1; 0]; [0; 1]] /\
   ev (fun fuel => hungarian ccov_fresh fuel [[0; 0]; [0; 0]]) [[0; 1]; [1; 0]]).
Proof.
  split.
  - intros fr1 fr2 n input Hsq.
    destruct (hungarian_result fr1 input n Hsq) as (s1 & _ & Hev1 & HI1 & Hs1 & HN1).
    destruct (hungarian_result fr2 input n Hsq) as (s2 & _ & Hev2 & HI2 & Hs2 & HN2).
    exists (indM s1), (indM s2). splits; auto.
    pose proof (final_assignment _ s1 HI1 Hs1) as A1. rewrite HN1 in A1.
    pose proof (final_assignment _ s2 HI2 Hs2) as A2. rewrite HN2 in A2.
    destruct (assignment_as_perm input _ n A1) as (p1 & Hp1 & E1).
    destruct (assignment_as_perm input _ n A2) as (p2 & Hp2 & E2).
    assert (Hp1' : Permutation p1 (range (N s2))) by now rewrite HN2.
    assert (Hp2' : Permutation p2 (range (N s1))) by now rewrite HN1.
    pose proof (final_optimal _ s1 p2 HI1 Hs1 Hp2') as O1. rewrite HN1 in O1.
    pose proof (final_optimal _ s2 p1 HI2 Hs2 Hp1') as O2. rewrite HN2 in O2.
    lia.
  - split.
    + apply (ev_of_mono _ _ 20%nat); [apply hungarian_mono|vm_compute; reflexivity].
    + apply (ev_of_mono _ _ 20%nat); [apply hungarian_mono|vm_compute; reflexivity].
Qed.

(** ** Flipping the path *)

Lemma augment_path_from_overrun (path : imat2) : forall k a M,
  (a <= length path)%nat -> (length path < a + k)%nat ->
  augment_path_from (seq a k) M path = Raise index_error.
Proof.
  induction k as [|k IH]; intros a M Ha Hk; [lia|]. simpl.
  destruct (Nat.eq_dec a (length path)) as [->|Hne].
  - unfold path_read, path_get.
    destruct (Z.ltb_spec (Z.of_nat (length path)) 0); [lia|].
    rewrite Nat2Z.id.
    assert (E : nth_error path (length path) = None) by now apply nth_error_None.
    rewrite E. reflexivity.
  - unfold path_read. rewrite path_get_ok by lia. simpl.
    apply IH; lia.
Qed.

(** X14. [augment_path] reads the first [path_count] rows of the path
    buffer.  When these rows are in the buffer and list cells of the mark
    matrix without repetition, every cell listed is flipped, a 1 to 0 and
    anything else (a prime, 2, included) to 1, and no other cell changes.
    When [path_count] exceeds the number of rows of the buffer the checked
    access [path(p, 0)] raises. *)
Theorem augment_path_flips (n k : nat) (M : mat) (path : imat2) :
  mshape n M ->
  ((k <= length path)%nat ->
   NoDup (firstn k path) ->
   (forall r c, In (r, c) (firstn k path) -> idx n r /\ idx n c) ->
   exists M', augment_path (Z.of_nat k) M path = Ok M' /\ mshape n M' /\
     forall r c, idx n r -> idx n c ->
       (In (r, c) (firstn k path) ->
          mat_at M' r c = if mat_at M r c =? 1 then 0 else 1) /\
       (~ In (r, c) (firstn k path) -> mat_at M' r c = mat_at M r c)) /\
  ((length path < k)%nat ->
   augment_path (Z.of_nat k) M path = Raise index_error).
Proof.
  intros HM. split.
  - intros Hk Hnd Hin. rewrite augment_path_spec by auto.
    destruct (flip_all_spec n (firstn k path) M HM Hnd Hin) as [Hs Hat].
    eexists. split; [reflexivity|]. split; auto.
  - intros Hk. unfold augment_path. rewrite Nat2Z.id.
    apply augment_path_from_overrun; lia.
Qed.

(** Marks with a star and two primes, and a path through them. *)
Definition flip_marks : mat := [[1; 2]; [2; 0]].
Definition flip_path : imat2 := [(1, 0); (0, 0); (0, 1); (0, 0)].

Lemma augment_path_flips_witness :
  mshape 2 flip_marks /\
  ((3 <= length flip_path)%nat ->
   NoDup (firstn 3 flip_path) ->
   (forall r c, In (r, c) (firstn 3 flip_path) -> idx 2 r /\ idx 2 c) ->
   exists M', augment_path (Z.of_nat 3) flip_marks flip_path = Ok M' /\
     mshape 2 M' /\
     forall r c, idx 2 r -> idx 2 c ->
       (In (r, c) (firstn 3 flip_path) ->
          mat_at M' r c = if mat_at flip_marks r c =? 1 then 0 else 1) /\
       (~ In (r, c) (firstn 3 flip_path) -> mat_at M' r c = mat_at flip_marks r c)) /\
  ((length flip_path < 3)%nat ->
   augment_path (Z.of_nat 3) flip_marks flip_path = Raise index_error).
Proof.
  assert (H : mshape 2 flip_marks).
  { apply square_shape. split; [reflexivity|repeat constructor]. }
  exact (conj H (augment_path_flips 2 3 flip_marks flip_path H)).
Defined.


(** * How many turns a solve takes *)

(** [reaches_in k s s']: the dispatcher, started in [s], comes to [s'] with
    [k] runs of a phase. *)
Inductive reaches_in : nat -> state -> state -> Prop :=
| reaches_in_refl s : reaches_in 0 s s
| reaches_in_step k s s1 s2 :
    step s <> 7%nat -> ev (fun f => dispatch f s) s1 -> reaches_in k s1 s2 ->
    reaches_in (S k) s s2.

Lemma reaches_in_one s s1 :
  step s <> 7%nat -> ev (fun f => dispatch f s) s1 -> reaches_in 1 s s1.
Proof. intros H1 H2. eapply reaches_in_step; eauto. apply reaches_in_refl. Qed.

Lemma reaches_in_trans a b s1 s2 s3 :
  reaches_in a s1 s2 -> reaches_in b s2 s3 -> reaches_in (a + b) s1 s3.
Proof.
  induction 1 as [|k s s1 s2 Hs Hd Hr IH]; auto.
  intros H. simpl. eapply reaches_in_step; eauto.
Qed.

Lemma reaches_in_reaches k s s' : reaches_in k s s' -> reaches s s'.
Proof.
  induction 1 as [|k s s1 s2 Hs Hd Hr IH]; [apply reaches_refl|].
  eapply reaches_step; eauto.
Qed.

Lemma reaches_in_turns k s s7 :
  reaches_in k s s7 -> step s7 = 7%nat ->
  forall K, (k <= K)%nat -> ev (fun fuel => turns fuel K s) s7.
Proof.
  induction 1 as [s|k s s1 s2 Hs [f1 Hd] Hr IH]; intros H7 K HK.
  - exists 0%nat. intros fuel _. destruct K as [|K]; simpl; auto.
    now rewrite H7.
  - destruct K as [|K]; [lia|].
    destruct (IH H7 K) as [f2 Hf2]; [lia|].
    exists (Nat.max f1 f2). intros fuel Hf. simpl.
    destruct (Nat.eqb_spec (step s) 7) as [E|_]; [contradiction|].
    rewrite Hd by lia. cbn [bind]. apply Hf2. lia.
Qed.

Section Turns.

Variables (n : nat) (input : mat).
Hypothesis Hsq : square n input.
Hypothesis Hspread : row_spread_ok input = true.

(** The invariant of the dispatcher together with the bound on the columns
    without a star. *)
Definition good (s : state) : Prop := Inv input s /\ free_bound s.

Lemma good_N s : good s -> N s = n.
Proof. intros [HI _]. rewrite (i_N _ _ HI). apply Hsq. Qed.

Lemma good_turn s :
  good s -> step s <> 7%nat ->
  exists s', ev (fun fuel => dispatch fuel s) s' /\ good s' /\ turn s s'.
Proof.
  intros [HI Hfb] Hs.
  destruct (Inv_turn input s HI Hs) as (s' & Hev & HI' & T).
  exists s'. splits; auto. split; auto.
  now apply (free_bound_turn n input s s').
Qed.

(** Phase 6 and the phase 4 after it: phase 5 is due, or one more row is
    covered. *)
Lemma six_to_five : forall u s,
  good s -> step s = 6%nat -> (urows (rcov s) n <= u)%nat ->
  exists k s5, (k <= 2 * u)%nat /\ reaches_in k s s5 /\ good s5 /\ step s5 = 5%nat /\
    starless (indM s5) n = starless (indM s) n.
Proof.
  intros u. induction u as [u IHu] using lt_wf_ind.
  intros s Hg Hs Hu. pose proof (good_N s Hg) as HN.
  pose proof Hg as [HI Hfb].
  pose proof (i_phase _ _ HI) as Hp. unfold phase_inv in Hp.
  rewrite Hs, HN in Hp. destruct Hp as (Hb & Hse & Hnz).
  destruct (search_uncovered _ _ _ _ _ _ Hb Hse) as (r & c & Hr & Hc & Hrc & Hcc).
  assert (Hu1 : (1 <= urows (rcov s) n)%nat).
  { unfold urows. apply (count_if_pos _ n r); auto. now apply Z.eqb_eq. }
  assert (Hne6 : step s <> 7%nat) by lia.
  destruct (good_turn s Hg Hne6) as (s4 & Hd4 & Hg4 & T4).
  destruct T4 as (TN4 & _ & T4). rewrite Hs in T4.
  destruct T4 as (Hs4 & EM4 & ER4 & EC4 & Ecost4). rewrite HN in Ecost4.
  assert (Hne4 : step s4 <> 7%nat) by lia.
  destruct (good_turn s4 Hg4 Hne4) as (s' & Hd' & Hg' & T').
  destruct T' as (TN' & _ & T'). rewrite Hs4 in T'.
  destruct T' as (Ecost' & Hst' & Hcase).
  pose proof (good_N s4 Hg4) as HN4. rewrite HN4 in Hcase.
  assert (Hreach : reaches_in 2 s s').
  { eapply reaches_in_step; eauto. now apply reaches_in_one. }
  assert (Hless : starless (indM s') n = starless (indM s) n).
  { rewrite <- EM4. now apply stars_same_starless. }
  destruct Hcase as [H5|[H6 Hprog]].
  - exists 2%nat, s'. splits; auto. lia.
  - destruct Hprog as [Hlt|(EM' & ER' & EC')].
    + rewrite ER4 in Hlt.
      destruct (IHu (urows (rcov s') n) ltac:(lia) s' Hg' H6 (le_n _))
        as (k & s5 & Hk & R5 & G5 & S5 & L5).
      exists (2 + k)%nat, s5. splits; auto.
      * lia.
      * now apply (reaches_in_trans 2 k s s' s5).
      * now rewrite L5.
    + exfalso.
      destruct (step_six_inv _ _ _ _ _ _ Hb Hse Hnz) as (_ & Hm & _ & Hnew).
      destruct (find_smallest_spec DBL_MAX (cost s) (rcov s) (ccov s) n)
        as (_ & Hmin & _).
      cbv zeta in *.
      destruct Hnew as [Em|(r1 & c1 & Hr1 & Hc1 & Hz)].
      * unfold free_bound in Hfb. rewrite HN, Hs in Hfb.
        destruct (s_free _ _ _ _ Hse) as (c0 & Hc0 & Hfree).
        assert (Hcc0 : vec_at (ccov s) c0 = 0).
        { destruct (s_cc01 _ _ _ _ Hse c0 Hc0) as [H|H]; auto.
          destruct (s_ccstar _ _ _ _ Hse c0 Hc0 H) as (r' & Hr' & Hst0).
          exfalso. now apply (Hfree r'). }
        assert (Hlt : mat_at (cost s) r c0 < DBL_MAX) by (apply Hfb; auto; lia).
        pose proof (Hmin r c0 Hr Hc0 Hrc Hcc0) as Hle. lia.
      * destruct Hg' as [HI' _].
        pose proof (i_phase _ _ HI') as Hp'. unfold phase_inv in Hp'.
        rewrite H6 in Hp'. destruct Hp' as (_ & _ & Hnz').
        rewrite TN', HN4 in Hnz'.
        apply (Hnz' r1 c1); auto.
        rewrite Ecost', ER', EC', ER4, EC4, Ecost4. exact Hz.
Qed.

Lemma four_to_five s :
  good s -> step s = 4%nat ->
  exists k s5, (k <= 1 + 2 * n)%nat /\ reaches_in k s s5 /\ good s5 /\
    step s5 = 5%nat /\ starless (indM s5) n = starless (indM s) n.
Proof.
  intros Hg Hs. pose proof (good_N s Hg) as HN.
  assert (Hne : step s <> 7%nat) by lia.
  destruct (good_turn s Hg Hne) as (s' & Hd' & Hg' & T').
  destruct T' as (TN' & _ & T'). rewrite Hs in T'.
  destruct T' as (Ecost' & Hst' & Hcase).
  assert (Hless : starless (indM s') n = starless (indM s) n)
    by now apply stars_same_starless.
  destruct Hcase as [H5|[H6 _]].
  - exists 1%nat, s'. splits; auto; [lia|]. now apply reaches_in_one.
  - destruct (six_to_five n s' Hg' H6) as (k & s5 & Hk & R5 & G5 & S5 & L5).
    { unfold urows. apply count_if_le. }
    exists (1 + k)%nat, s5. splits; auto.
    + lia.
    + apply (reaches_in_trans 1 k s s' s5); auto. now apply reaches_in_one.
    + now rewrite L5.
Qed.

(** Every augmentation stars one more row. *)
Lemma three_to_seven : forall m s,
  good s -> step s = 3%nat -> (starless (indM s) n <= m)%nat ->
  exists k s7, (k <= m * (2 * n + 3) + 1)%nat /\ reaches_in k s s7 /\
    step s7 = 7%nat.
Proof.
  induction m as [m IH] using lt_wf_ind. intros s Hg Hs Hm.
  pose proof (good_N s Hg) as HN.
  assert (Hne : step s <> 7%nat) by lia.
  destruct (good_turn s Hg Hne) as (s' & Hd' & Hg' & T').
  destruct T' as (TN' & _ & T'). rewrite Hs in T'.
  destruct T' as (Hcase & Ecost' & EM' & ER').
  destruct Hcase as [H4|H7].
  - destruct (four_to_five s' Hg' H4) as (k5 & s5 & Hk5 & R5 & G5 & S5 & L5).
    assert (Hne5 : step s5 <> 7%nat) by lia.
    destruct (good_turn s5 G5 Hne5) as (s3 & Hd3 & G3 & T3).
    destruct T3 as (TN3 & _ & T3). rewrite S5 in T3.
    destruct T3 as (Hs3 & _ & Hlt & _).
    rewrite (good_N s5 G5) in Hlt. rewrite L5, EM' in Hlt.
    destruct (IH (starless (indM s3) n) ltac:(lia) s3 G3 Hs3 (le_n _))
      as (k7 & s7 & Hk7 & R7 & S7).
    exists (1 + (k5 + (1 + k7)))%nat, s7. splits; auto.
    + assert (Hm1 : (starless (indM s3) n + 1 <= m)%nat) by lia.
      assert (Hmul : ((starless (indM s3) n + 1) * (2 * n + 3) <= m * (2 * n + 3))%nat)
        by (apply Nat.mul_le_mono_r; exact Hm1).
      lia.
    + apply (reaches_in_trans 1 _ s s' s7); [now apply reaches_in_one|].
      apply (reaches_in_trans k5 _ s' s5 s7); auto.
      apply (reaches_in_trans 1 k7 s5 s3 s7); auto. now apply reaches_in_one.
  - exists 1%nat, s'. splits; auto; [lia|]. now apply reaches_in_one.
Qed.

Lemma init_to_seven fr :
  exists k s7, (k <= 2 * n * n + 3 * n + 3)%nat /\
    reaches_in k (init_state fr input) s7 /\ step s7 = 7%nat.
Proof.
  assert (Hg : good (init_state fr input)).
  { split.
    - apply Inv_init. now apply (square_mshape n).
    - unfold free_bound. simpl. lia. }
  assert (Hne1 : step (init_state fr input) <> 7%nat) by (simpl; lia).
  destruct (good_turn _ Hg Hne1) as (s2 & Hd2 & Hg2 & T2).
  destruct T2 as (_ & _ & T2). simpl in T2. destruct T2 as (Hs2 & _).
  assert (Hne2 : step s2 <> 7%nat) by lia.
  destruct (good_turn _ Hg2 Hne2) as (s3 & Hd3 & Hg3 & T3).
  destruct T3 as (_ & _ & T3). rewrite Hs2 in T3. destruct T3 as (Hs3 & _).
  destruct (three_to_seven n s3 Hg3 Hs3) as (k & s7 & Hk & R7 & S7).
  { unfold starless. apply count_if_le. }
  exists (1 + (1 + k))%nat, s7. splits; auto.
  - lia.
  - apply (reaches_in_trans 1 _ _ s2 s7); [now apply reaches_in_one|].
    apply (reaches_in_trans 1 k s2 s3 s7); auto. now apply reaches_in_one.
Qed.

End Turns.

(** X15. In exact arithmetic, on a square N x N matrix no row of which has
    two costs that differ by DBL_MAX or more, the dispatcher of [hungarian]
    comes to phase 7 after at most 2 N^2 + 3 N + 3 runs of a phase. *)
Theorem hungarian_turns_bound (fr : fresh) (n : nat) (input : mat) :
  square n input -> row_spread_ok input = true ->
  exists s7, step s7 = 7%nat /\
    ev (fun fuel => turns fuel (2 * n * n + 3 * n + 3) (init_state fr input)) s7 /\
    ev (fun fuel => hungarian_run fr fuel input) s7.
Proof.
  intros Hsq Hspread.
  destruct (init_to_seven n input Hsq Hspread fr) as (k & s7 & Hk & R7 & S7).
  exists s7. splits; auto.
  - now apply (reaches_in_turns k).
  - unfold hungarian_run. apply reaches_loop; auto.
    now apply (reaches_in_reaches k).
Qed.

Lemma hungarian_turns_bound_witness :
  square 3 example3 /\ row_spread_ok example3 = true /\
  exists s7, step s7 = 7%nat /\
    ev (fun fuel => turns fuel (2 * 3 * 3 + 3 * 3 + 3) (init_state zero_fresh example3)) s7 /\
    ev (fun fuel => hungarian_run zero_fresh fuel example3) s7.
Proof.
  assert (H : row_spread_ok example3 = true) by (vm_compute; reflexivity).
  split; [exact example3_square|]. split; [exact H|].
  exact (hungarian_turns_bound zero_fresh 3 example3 example3_square H).
Defined.


(** * The entries that [get3d] returns *)

(** The place, counted from 0, of the entry with the subscripts [args]
    (counted from 1) in an array of extents [dim]: R stores an array with
    its first subscript running fastest. *)
Fixpoint offset (dim args : list Z) : Z :=
  match dim, args with
  | d :: dim', a :: args' => (a - 1) + d * offset dim' args'
  | _, _ => 0
  end.

(** The number of entries of an array of extents [dim]. *)
Definition extent (dim : list Z) : Z := fold_right Z.mul 1 dim.

(** An array as R makes it: the extents are [int]s that are not negative,
    and there are as many elements as the product of the extents. *)
Definition well_formed (x : IntegerArray) : Prop :=
  Forall (fun d => 0 <= d <= INT_MAX) (dim_attr x) /\
  Z.of_nat (length (elts x)) = extent (dim_attr x).

(** Subscripts within the extents: what R accepts in [x[i, j, k]]. *)
Definition in_extents (dim args : list Z) : Prop :=
  Forall2 (fun d a => 1 <= a <= d) dim args.

(** The element at a place of the array, or [na] when there is no such place. *)
Definition entry_or (na : Z) (x : IntegerArray) (off : Z) : Z :=
  if (0 <=? off) && (off <? extent (dim_attr x))
  then nth (Z.to_nat off) (elts x) 0 else na.

Lemma to_int_ok z : INT_MIN <= z <= INT_MAX -> to_int z = Returns z.
Proof.
  intros H. unfold to_int.
  destruct (Z.leb_spec INT_MIN z); [|lia].
  destruct (Z.leb_spec z INT_MAX); [|lia]. reflexivity.
Qed.

(** The integers that are [int]s. *)
Definition is_int (z : Z) : Prop := INT_MIN <= z <= INT_MAX.

(** The results of the [int] operations of [get3d], in the order of the
    source: those of the index, then those of the number of elements. *)
Definition index_steps (dim args : list Z) : list Z :=
  match dim, args with
  | [_], [a0] => [a0 - 1]
  | [d0; d1], [a0; a1] =>
      [a1 - 1; (a1 - 1) * d0; (a1 - 1) * d0 + a0; (a1 - 1) * d0 + a0 - 1; d0 * d1]
  | [d0; d1; d2], [a0; a1; a2] =>
      [a2 - 1; (a2 - 1) * d1; a1 - 1; (a2 - 1) * d1 + (a1 - 1);
       ((a2 - 1) * d1 + (a1 - 1)) * d0; ((a2 - 1) * d1 + (a1 - 1)) * d0 + a0;
       ((a2 - 1) * d1 + (a1 - 1)) * d0 + a0 - 1; d0 * d1; d0 * d1 * d2]
  | _, _ => []
  end.

Lemma to_int_spec z :
  (to_int z = Returns z /\ is_int z) \/ (to_int z = SignedOverflow /\ ~ is_int z).
Proof.
  unfold to_int, is_int.
  destruct (Z.leb_spec INT_MIN z); destruct (Z.leb_spec z INT_MAX); simpl;
    first [left; split; [reflexivity|lia] | right; split; [reflexivity|lia]].
Qed.

Lemma to_size_t_small z : 0 <= z <= INT_MAX -> to_size_t z = z.
Proof.
  intros H. unfold to_size_t. apply Z.mod_small.
  unfold INT_MAX, SIZE_MOD in *. lia.
Qed.

Lemma to_size_t_neg z : INT_MIN <= z < 0 -> to_size_t z = z + SIZE_MOD.
Proof.
  intros H. unfold to_size_t.
  rewrite <- (Z.mod_add z 1 SIZE_MOD) by (unfold SIZE_MOD; lia).
  rewrite Z.mul_1_l. apply Z.mod_small.
  unfold INT_MIN, SIZE_MOD in *. lia.
Qed.

(** The test [i >= 0 && i < d] and the read that follows it. *)
Lemma get3d_check na (x : IntegerArray) t d :
  INT_MIN <= t <= INT_MAX -> 0 <= d <= INT_MAX ->
  Z.of_nat (length (elts x)) = d -> d = extent (dim_attr x) ->
  (if (0 <=? to_size_t t) && (to_size_t t <? to_size_t d)
   then v <~ elt_read x (to_size_t t) ;; Returns [v]
   else Returns [na]) = Returns [entry_or na x t].
Proof.
  intros Ht Hd Hl He. unfold entry_or. rewrite <- He.
  rewrite (to_size_t_small d) by lia.
  destruct (Z.lt_ge_cases t 0) as [Hneg|Hpos].
  - rewrite to_size_t_neg by lia.
    destruct (Z.leb_spec 0 t); [lia|]. simpl.
    destruct (Z.leb_spec 0 (t + SIZE_MOD)); simpl; auto.
    destruct (Z.ltb_spec (t + SIZE_MOD) d); auto.
    unfold INT_MIN, INT_MAX, SIZE_MOD in *. lia.
  - rewrite to_size_t_small by lia.
    destruct (Z.leb_spec 0 t); [|lia]. simpl.
    destruct (Z.ltb_spec t d); auto.
    unfold elt_read.
    destruct (nth_error (elts x) (Z.to_nat t)) as [v|] eqn:E.
    + simpl. now rewrite (nth_error_nth _ _ 0 E).
    + apply nth_error_None in E. lia.
Qed.

(** One [int] operation of [get3d]: when its result is no [int] the call is
    undefined, and the list of results does not consist of [int]s. *)
Ltac step_int :=
  match goal with
  | |- context [to_int ?z] =>
      let E := fresh "E" in
      let B := fresh "B" in
      destruct (to_int_spec z) as [[E B]|[E B]]; rewrite E; cbn [obind];
      [|split; [intros HF; exfalso; apply B;
                repeat (apply Forall_cons_iff in HF; destruct HF as [? HF]);
                assumption
               |split; [reflexivity|discriminate]]]
  end.

(** X16. On an array of one, two or three dimensions, given as many
    subscripts as the array has dimensions, [get3d] tests one thing only:
    that the place computed from the subscripts lies inside the array.  When
    every result of its [int] arithmetic is an [int], it returns the element
    at that place, or NA when the place is outside, whether the subscripts
    lie within the extents or not; when some result is no [int], and only
    then, the call is undefined.  It never reads outside the array. *)
Theorem get3d_offset_only (na : Z) (x : IntegerArray) (args : list Z) :
  well_formed x -> (1 <= length args <= 3)%nat ->
  length args = length (dim_attr x) ->
  (Forall is_int (index_steps (dim_attr x) args) ->
     get3d na x args = Returns [entry_or na x (offset (dim_attr x) args)]) /\
  (get3d na x args = SignedOverflow <->
     ~ Forall is_int (index_steps (dim_attr x) args)) /\
  get3d na x args <> OutOfBounds.
Proof.
  destruct x as [e dims]. intros [Hnn Hlen] HK Hsame. simpl in *.
  assert (Hgoal : forall o : outcome (list Z),
            (Forall is_int (index_steps dims args) ->
               o = Returns [entry_or na {| elts := e; dim_attr := dims |}
                              (offset dims args)]) /\
            (~ Forall is_int (index_steps dims args) -> o = SignedOverflow) /\
            o <> OutOfBounds ->
            (Forall is_int (index_steps dims args) ->
               o = Returns [entry_or na {| elts := e; dim_attr := dims |}
                              (offset dims args)]) /\
            (o = SignedOverflow <-> ~ Forall is_int (index_steps dims args)) /\
            o <> OutOfBounds).
  { intros o (H1 & H2 & H3). splits; auto. split; auto.
    intros -> HF. specialize (H1 HF). discriminate. }
  apply Hgoal. clear Hgoal.
  destruct args as [|a0 [|a1 [|a2 [|a3 args]]]]; simpl in HK; try lia.
  - destruct dims as [|d0 [|d1 dims]]; try discriminate.
    inversion Hnn as [|? ? H0 _]; subst.
    unfold get3d. cbn [dim_attr length Nat.eqb negb int_at nth index_steps].
    unfold int_sub. step_int.
    unfold extent in Hlen. simpl in Hlen. unfold is_int in *.
    rewrite (get3d_check na _ (a0 - 1) d0) by (unfold extent; simpl; lia).
    splits; try discriminate.
    + intros _. simpl. do 3 f_equal. lia.
    + intros HnF. exfalso. apply HnF. repeat constructor; unfold is_int; lia.
  - destruct dims as [|d0 [|d1 [|d2 dims]]]; try discriminate.
    inversion Hnn as [|? ? H0 Hnn1]; subst.
    inversion Hnn1 as [|? ? H1 _]; subst.
    unfold get3d. cbn [dim_attr length Nat.eqb negb int_at nth index_steps].
    unfold int_sub, int_mul, int_add. repeat step_int.
    unfold extent in Hlen. simpl in Hlen. unfold is_int in *.
    rewrite (get3d_check na _ _ (d0 * d1)) by (unfold extent; simpl; lia).
    splits; try discriminate.
    + intros _. simpl. do 3 f_equal. lia.
    + intros HnF. exfalso. apply HnF. repeat constructor; unfold is_int; lia.
  - destruct dims as [|d0 [|d1 [|d2 [|d3 dims]]]]; try discriminate.
    inversion Hnn as [|? ? H0 Hnn1]; subst.
    inversion Hnn1 as [|? ? H1 Hnn2]; subst.
    inversion Hnn2 as [|? ? H2 _]; subst.
    unfold get3d. cbn [dim_attr length Nat.eqb negb int_at nth index_steps].
    unfold int_sub, int_mul, int_add. repeat step_int.
    unfold extent in Hlen. simpl in Hlen. unfold is_int in *.
    rewrite (get3d_check na _ _ (d0 * d1 * d2)) by (unfold extent; simpl; lia).
    splits; try discriminate.
    + intros _. simpl. do 3 f_equal. lia.
    + intros HnF. exfalso. apply HnF. repeat constructor; unfold is_int; lia.
Qed.

Lemma well_formed_array_a : well_formed array_a.
Proof. split; [repeat constructor; vm_compute; congruence|reflexivity]. Qed.

Lemma well_formed_array_b : well_formed array_b.
Proof. split; [repeat constructor; vm_compute; congruence|reflexivity]. Qed.

Lemma well_formed_array_c : well_formed array_c.
Proof. split; [repeat constructor; vm_compute; congruence|reflexivity]. Qed.

Lemma index_steps_a501 : Forall is_int (index_steps (dim_attr array_a) [5; 0; 1]).
Proof. repeat constructor; vm_compute; congruence. Qed.

Lemma get3d_offset_only_witness :
  well_formed array_a /\ (1 <= length [5; 0; 1]%Z <= 3)%nat /\
  length [5; 0; 1] = length (dim_attr array_a) /\
  Forall is_int (index_steps (dim_attr array_a) [5; 0; 1]) /\
  ~ in_extents (dim_attr array_a) [5; 0; 1] /\
  offset (dim_attr array_a) [5; 0; 1] = 2 /\
  get3d NA_integer array_a [5; 0; 1] =
    Returns [entry_or NA_integer array_a (offset (dim_attr array_a) [5; 0; 1])].
Proof.
  assert (HK : (1 <= length [5; 0; 1]%Z <= 3)%nat) by (simpl; lia).
  split; [exact well_formed_array_a|]. split; [exact HK|]. split; [reflexivity|].
  split; [exact index_steps_a501|].
  split; [intros H; inversion H as [|? ? ? ? A0 _]; subst; lia|].
  split; [reflexivity|].
  exact (proj1 (get3d_offset_only NA_integer array_a [5; 0; 1] well_formed_array_a HK
                  eq_refl) index_steps_a501).
Defined.

(** X17. With subscripts inside the extents of an array of one, two or three
    dimensions that has fewer than 2^31 elements, no [int] operation of
    [get3d] overflows and the result is the entry that R's [x[i]],
    [x[i, j]] or [x[i, j, k]] denotes: the element at the place of the
    subscripts, the first subscript running fastest. *)
Theorem get3d_entry (na : Z) (x : IntegerArray) (args : list Z) :
  well_formed x -> extent (dim_attr x) <= INT_MAX ->
  (1 <= length args <= 3)%nat -> in_extents (dim_attr x) args ->
  0 <= offset (dim_attr x) args < Z.of_nat (length (elts x)) /\
  get3d na x args =
    Returns [nth (Z.to_nat (offset (dim_attr x) args)) (elts x) 0].
Proof.
  destruct x as [e dims]. intros [Hnn Hlen] Hmax HK Hin. simpl in *.
  unfold in_extents in Hin. unfold extent in Hlen, Hmax.
  destruct args as [|a0 [|a1 [|a2 [|a3 args]]]]; simpl in HK; try lia.
  - inversion Hin as [|d0 ? dims' ? A0 Hin1]; subst.
    inversion Hin1; subst. simpl in Hlen, Hmax.
    assert (Hoff : 0 <= a0 - 1 + d0 * 0 < Z.of_nat (length e)) by lia.
    split; [exact Hoff|].
    unfold get3d. cbn [dim_attr length Nat.eqb negb int_at nth].
    unfold int_sub. rewrite to_int_ok by (unfold INT_MIN; lia). cbn [obind].
    rewrite (get3d_check na _ (a0 - 1) d0) by (unfold INT_MIN, extent; simpl; lia).
    unfold entry_or, extent. simpl.
    destruct (Z.leb_spec 0 (a0 - 1)); [|lia].
    destruct (Z.ltb_spec (a0 - 1) (d0 * 1)); [|lia]. simpl.
    do 3 f_equal. lia.
  - inversion Hin as [|d0 ? dims' ? A0 Hin1]; subst.
    inversion Hin1 as [|d1 ? dims'' ? A1 Hin2]; subst.
    inversion Hin2; subst. simpl in Hlen, Hmax.
    pose proof (Forall_inv Hnn) as B0.
    pose proof (Forall_inv (Forall_inv_tail Hnn)) as B1. simpl in B0, B1.
    assert (P1 : 0 <= (a1 - 1) * d0 <= d0 * d1 - d0) by nia.
    assert (P2 : d0 <= d0 * d1) by nia.
    assert (Hoff : 0 <= a0 - 1 + d0 * (a1 - 1 + d1 * 0) < Z.of_nat (length e)) by nia.
    split; [exact Hoff|].
    unfold get3d. cbn [dim_attr length Nat.eqb negb int_at nth].
    unfold int_sub, int_mul, int_add.
    repeat (rewrite to_int_ok by (unfold INT_MIN; lia); cbn [obind]).
    rewrite (get3d_check na _ _ (d0 * d1)) by (unfold INT_MIN, extent; simpl; lia).
    unfold entry_or, extent. simpl.
    destruct (Z.leb_spec 0 ((a1 - 1) * d0 + a0 - 1)); [|lia].
    destruct (Z.ltb_spec ((a1 - 1) * d0 + a0 - 1) (d0 * (d1 * 1))); [|lia]. simpl.
    do 3 f_equal. lia.
  - inversion Hin as [|d0 ? dims' ? A0 Hin1]; subst.
    inversion Hin1 as [|d1 ? dims'' ? A1 Hin2]; subst.
    inversion Hin2 as [|d2 ? dims''' ? A2 Hin3]; subst.
    inversion Hin3; subst. simpl in Hlen, Hmax.
    pose proof (Forall_inv Hnn) as B0.
    pose proof (Forall_inv (Forall_inv_tail Hnn)) as B1.
    pose proof (Forall_inv (Forall_inv_tail (Forall_inv_tail Hnn))) as B2.
    simpl in B0, B1, B2.
    assert (Q0 : d0 * d1 * d2 = d0 * (d1 * (d2 * 1))) by lia.
    assert (P1 : 0 <= (a2 - 1) * d1 <= d1 * d2 - d1) by nia.
    assert (P2 : 0 <= (a2 - 1) * d1 + (a1 - 1) <= d1 * d2 - 1) by nia.
    assert (P3 : 0 <= ((a2 - 1) * d1 + (a1 - 1)) * d0 <= d0 * d1 * d2 - d0).
    { split; [nia|].
      replace (d0 * d1 * d2 - d0) with ((d1 * d2 - 1) * d0) by lia.
      apply Z.mul_le_mono_nonneg_r; lia. }
    assert (P4 : 1 <= d0 * d1 <= d0 * d1 * d2) by nia.
    assert (P5 : 1 <= d1 * d2 <= d0 * d1 * d2) by nia.
    assert (Hoff : 0 <= a0 - 1 + d0 * (a1 - 1 + d1 * (a2 - 1 + d2 * 0))
                   < Z.of_nat (length e)).
    { replace (a0 - 1 + d0 * (a1 - 1 + d1 * (a2 - 1 + d2 * 0)))
        with (((a2 - 1) * d1 + (a1 - 1)) * d0 + a0 - 1) by lia.
      lia. }
    split; [exact Hoff|].
    unfold get3d. cbn [dim_attr length Nat.eqb negb int_at nth].
    unfold int_sub, int_mul, int_add.
    repeat (rewrite to_int_ok by (unfold INT_MIN; lia); cbn [obind]).
    rewrite (get3d_check na _ _ (d0 * d1 * d2))
      by (unfold INT_MIN, extent; simpl; lia).
    unfold entry_or, extent. simpl.
    destruct (Z.leb_spec 0 (((a2 - 1) * d1 + (a1 - 1)) * d0 + a0 - 1)); [|lia].
    destruct (Z.ltb_spec (((a2 - 1) * d1 + (a1 - 1)) * d0 + a0 - 1)
                         (d0 * (d1 * (d2 * 1)))); [|lia]. simpl.
    do 3 f_equal. lia.
Qed.

Lemma in_extents_a211 : in_extents (dim_attr array_a) [2; 1; 1].
Proof. repeat constructor; lia. Qed.

Lemma get3d_entry_witness :
  well_formed array_a /\ extent (dim_attr array_a) <= INT_MAX /\
  (1 <= length [2; 1; 1]%Z <= 3)%nat /\ in_extents (dim_attr array_a) [2; 1; 1] /\
  0 <= offset (dim_attr array_a) [2; 1; 1] < Z.of_nat (length (elts array_a)) /\
  get3d NA_integer array_a [2; 1; 1] =
    Returns [nth (Z.to_nat (offset (dim_attr array_a) [2; 1; 1])) (elts array_a) 0].
Proof.
  assert (Hmax : extent (dim_attr array_a) <= INT_MAX) by (vm_compute; congruence).
  assert (HK : (1 <= length [2; 1; 1]%Z <= 3)%nat) by (simpl; lia).
  split; [exact well_formed_array_a|]. split; [exact Hmax|]. split; [exact HK|].
  split; [exact in_extents_a211|].
  exact (get3d_entry NA_integer array_a [2; 1; 1] well_formed_array_a Hmax HK
           in_extents_a211).
Defined.

(** X18. [get3d] returns NA, with no index arithmetic and no read of the
    array, when the number of subscripts differs from the number of
    dimensions, whatever the subscripts are; and an array of four or more
    dimensions cannot be read at all: NA is returned for every list of
    subscripts, those within its extents included. *)
Theorem get3d_wrong_arity (na : Z) (x : IntegerArray) (args : list Z) :
  dim_attr x <> [] ->
  length args <> length (dim_attr x) \/ (4 <= length (dim_attr x))%nat ->
  get3d na x args = Returns [na].
Proof.
  intros _ H. unfold get3d.
  destruct (Nat.eqb_spec (length args) (length (dim_attr x))) as [E|E]; simpl; auto.
  destruct H as [H|H]; [contradiction|]. rewrite <- E in H.
  destruct (length args) as [|[|[|[|k]]]]; try lia. reflexivity.
Qed.

(** [array(1:16, dim=c(2, 2, 2, 2))]. *)
Definition array_d : IntegerArray :=
  {| elts := map Z.of_nat (seq 1 16); dim_attr := [2; 2; 2; 2] |}.

Lemma get3d_wrong_arity_witness :
  dim_attr array_d <> [] /\
  (length [1; 2; 1; 2] <> length (dim_attr array_d) \/
   (4 <= length (dim_attr array_d))%nat) /\
  in_extents (dim_attr array_d) [1; 2; 1; 2] /\
  get3d NA_integer array_d [1; 2; 1; 2] = Returns [NA_integer].
Proof.
  assert (H0 : dim_attr array_d <> []) by discriminate.
  assert (H : length [1; 2; 1; 2] <> length (dim_attr array_d) \/
              (4 <= length (dim_attr array_d))%nat) by (right; simpl; lia).
  split; [exact H0|]. split; [exact H|]. split; [repeat constructor; lia|].
  exact (get3d_wrong_arity NA_integer array_d [1; 2; 1; 2] H0 H).
Defined.

(** X19. On an array of one dimension the test of [get3d] is complete: for
    every subscript other than INT_MIN, it returns the element when the
    subscript lies between 1 and the length, and NA otherwise.  A subscript
    of 0 or below is turned away although [i >= 0] always holds of the
    unsigned [i]: the wrapped index is not below the length. *)
Theorem get3d_vector_bounds (na : Z) (x : IntegerArray) (d a : Z) :
  well_formed x -> dim_attr x = [d] -> INT_MIN < a <= INT_MAX ->
  get3d na x [a] =
    Returns [if (1 <=? a) && (a <=? d) then nth (Z.to_nat (a - 1)) (elts x) 0 else na].
Proof.
  intros Hwf Hd Ha. destruct x as [e dims]. simpl in *. subst dims.
  destruct Hwf as [Hnn Hlen]. unfold extent in Hlen. simpl in *.
  pose proof (Forall_inv Hnn) as B0. simpl in B0.
  unfold get3d. cbn [dim_attr length Nat.eqb negb int_at nth].
  unfold int_sub. rewrite to_int_ok by (unfold INT_MIN, INT_MAX in *; lia).
  cbn [obind].
  rewrite (get3d_check na _ (a - 1) d)
    by (unfold INT_MIN, INT_MAX, extent in *; simpl; lia).
  unfold entry_or, extent. simpl.
  destruct (Z.leb_spec 0 (a - 1)); destruct (Z.leb_spec 1 a); try lia; simpl; auto.
  destruct (Z.ltb_spec (a - 1) (d * 1)); destruct (Z.leb_spec a d); try lia; auto.
Qed.

Lemma get3d_vector_bounds_witness :
  well_formed array_b /\ dim_attr array_b = [8] /\ INT_MIN < 0 <= INT_MAX /\
  get3d NA_integer array_b [0] =
    Returns [if (1 <=? 0) && (0 <=? 8)
             then nth (Z.to_nat (0 - 1)) (elts array_b) 0 else NA_integer].
Proof.
  assert (Ha : INT_MIN < 0 <= INT_MAX) by (vm_compute; split; congruence).
  split; [exact well_formed_array_b|]. split; [reflexivity|]. split; [exact Ha|].
  exact (get3d_vector_bounds NA_integer array_b 8 0 well_formed_array_b eq_refl Ha).
Defined.

(** X20. On a matrix, [get3d] does not test the subscripts one by one: a row
    subscript that exceeds the number of rows by [a] reads on into the next
    column.  With d0 rows, [get3d(x, c(a + d0, b))] is the entry
    [x[a, b + 1]] whenever that entry exists, where R's [x[a + d0, b]] is an
    error. *)
Theorem get3d_row_overrun (na : Z) (x : IntegerArray) (d0 d1 a b : Z) :
  well_formed x -> dim_attr x = [d0; d1] -> extent (dim_attr x) <= INT_MAX ->
  1 <= a <= d0 -> 1 <= b < d1 ->
  ~ in_extents (dim_attr x) [a + d0; b] /\
  get3d na x [a + d0; b] = get3d na x [a; b + 1] /\
  get3d na x [a; b + 1] =
    Returns [nth (Z.to_nat (offset [d0; d1] [a; b + 1])) (elts x) 0].
Proof.
  intros Hwf Hd Hmax Ha Hb. destruct x as [e dims]. simpl in *. subst dims.
  destruct Hwf as [Hnn Hlen]. unfold extent in Hlen, Hmax. simpl in *.
  pose proof (Forall_inv Hnn) as B0.
  pose proof (Forall_inv (Forall_inv_tail Hnn)) as B1. simpl in B0, B1.
  assert (P1 : 0 <= (b - 1) * d0 <= d0 * d1 - 2 * d0) by nia.
  assert (P2 : 0 <= (b + 1 - 1) * d0 <= d0 * d1 - d0) by nia.
  assert (Hnext : get3d na {| elts := e; dim_attr := [d0; d1] |} [a; b + 1] =
                  Returns [nth (Z.to_nat (a - 1 + d0 * (b + 1 - 1 + d1 * 0))) e 0]).
  { unfold get3d. cbn [dim_attr length Nat.eqb negb int_at nth].
    unfold int_sub, int_mul, int_add.
    repeat (rewrite to_int_ok by (unfold INT_MIN; lia); cbn [obind]).
    rewrite (get3d_check na _ _ (d0 * d1)) by (unfold INT_MIN, extent; simpl; lia).
    unfold entry_or, extent. simpl.
    destruct (Z.leb_spec 0 ((b + 1 - 1) * d0 + a - 1)); [|lia].
    destruct (Z.ltb_spec ((b + 1 - 1) * d0 + a - 1) (d0 * (d1 * 1))); [|lia].
    simpl. do 3 f_equal. lia. }
  splits; auto.
  - intros H. inversion H as [|? ? ? ? A0 _]; subst. lia.
  - rewrite Hnext.
    unfold get3d. cbn [dim_attr length Nat.eqb negb int_at nth].
    unfold int_sub, int_mul, int_add.
    repeat (rewrite to_int_ok by (unfold INT_MIN; lia); cbn [obind]).
    rewrite (get3d_check na _ _ (d0 * d1)) by (unfold INT_MIN, extent; simpl; lia).
    unfold entry_or, extent. simpl.
    destruct (Z.leb_spec 0 ((b - 1) * d0 + (a + d0) - 1)); [|lia].
    destruct (Z.ltb_spec ((b - 1) * d0 + (a + d0) - 1) (d0 * (d1 * 1))); [|lia].
    simpl. do 3 f_equal. lia.
Qed.

Lemma get3d_row_overrun_witness :
  well_formed array_c /\ dim_attr array_c = [2; 4] /\
  extent (dim_attr array_c) <= INT_MAX /\ 1 <= 1 <= 2 /\ 1 <= 1 < 4 /\
  ~ in_extents (dim_attr array_c) [1 + 2; 1] /\
  get3d NA_integer array_c [1 + 2; 1] = get3d NA_integer array_c [1; 1 + 1] /\
  get3d NA_integer array_c [1; 1 + 1] =
    Returns [nth (Z.to_nat (offset [2; 4] [1; 1 + 1])) (elts array_c) 0].
Proof.
  assert (Hmax : extent (dim_attr array_c) <= INT_MAX) by (vm_compute; congruence).
  assert (Ha : 1 <= 1 <= 2) by lia.
  assert (Hb : 1 <= 1 < 4) by lia.
  split; [exact well_formed_array_c|]. split; [reflexivity|]. split; [exact Hmax|].
  split; [exact Ha|]. split; [exact Hb|].
  exact (get3d_row_overrun NA_integer array_c 2 4 1 1 well_formed_array_c eq_refl
           Hmax Ha Hb).
Defined.
